(** * Pruning and lazy-materialization pipeline of the ORC / Parquet readers

    A shallow embedding of the parts of
    [be/src/vec/exec/format/orc/vorc_reader.{h,cpp}] and
    [be/src/vec/exec/format/parquet/vparquet_reader.cpp] that decide which
    rows, pages, row groups and columns are read, together with the
    properties the design document states about them.

    Conventions.  Machine integers are [Z] with the wrap-around written out;
    vectors are lists indexed by [nat]; [std::unordered_map] is [gmap];
    hashed sets are [gset]; a [Status] is a code and a message; an access
    outside a vector (undefined behaviour in C++) makes the model return
    [None]. *)

From stdpp Require Import base numbers option list strings gmap sorting.
From Stdlib Require Import ZArith Lia.

(** ** Status values ([common/status.h], only the codes used below) *)

Inductive StatusCode : Set :=
  | OK | END_OF_FILE | NOT_FOUND | INTERNAL_ERROR | IO_ERROR | CORRUPTION.

Record Status : Set := mkStatus { code : StatusCode; what : string }.

Definition Status_OK : Status := mkStatus OK "".
Definition Status_EndOfFile (m : string) : Status := mkStatus END_OF_FILE m.
Definition Status_NotFound (m : string) : Status := mkStatus NOT_FOUND m.
Definition Status_InternalError (m : string) : Status := mkStatus INTERNAL_ERROR m.

Definition ok (st : Status) : bool :=
  match code st with OK => true | _ => false end.

(** ** Position deletes and ACID deletes (vorc_reader.cpp, 2128-2151 and 2838-2851) *)

Module PositionDelete.
Local Open Scope Z_scope.

(** Conversion of a signed 64-bit value to [uint64_t]. *)
Definition to_uint64 (x : Z) : Z := x mod 2 ^ 64.

(** The halving loop shared by [std::lower_bound] and [std::upper_bound]:
    [first] and [len] delimit the remaining window, [go_right x] tells
    whether the partition point lies after the element [x]. *)
Fixpoint bound_loop (go_right : Z → bool) (v : list Z)
    (fuel first len : nat) : nat :=
  match fuel with
  | O => first
  | S fuel' =>
      if decide (len = 0)%nat then first
      else
        let half := (len / 2)%nat in
        let middle := (first + half)%nat in
        if go_right (v !!! middle)
        then bound_loop go_right v fuel' (S middle) (len - half - 1)%nat
        else bound_loop go_right v fuel' first half
  end.

(** [std::lower_bound(v.begin(), v.end(), val)] where the elements are
    [int64_t] and [val] is [uint64_t]: the comparison [*it < val] converts
    the element to unsigned. *)
Definition lower_bound (v : list Z) (val : Z) : nat :=
  bound_loop (λ x, bool_decide (to_uint64 x < val)) v (length v) 0 (length v).

(** [std::upper_bound(v.begin(), v.end(), val)], comparison [val < *it]. *)
Definition upper_bound (v : list Z) (val : Z) : nat :=
  bound_loop (λ x, negb (bool_decide (val < to_uint64 x))) v (length v) 0 (length v).

(** [for (; l < r; l++) filter[*l - start] = 0;] with [n = r - l] iterations
    left.  [IColumn::Filter] is a vector of [UInt8]; its [operator[]] is
    unchecked, so an index outside the filter is undefined behaviour. *)
Fixpoint clear_rows (rowids : list Z) (start : Z) (l n : nat)
    (filter : list Z) : option (list Z) :=
  match n with
  | O => Some filter
  | S n' =>
      let idx := to_uint64 (rowids !!! l - start) in
      if decide (idx < Z.of_nat (length filter))
      then clear_rows rowids start (S l) n' (<[Z.to_nat idx := 0]> filter)
      else None
  end.

(** [OrcReader::_execute_filter_position_delete_rowids].  [start] is
    [_row_reader->getRowNumber()] and [nums] is [_batch->numElements], both
    [uint64_t]. *)
Definition _execute_filter_position_delete_rowids
    (_position_delete_ordered_rowids : option (list Z))
    (start nums : Z) (filter : list Z) : option (list Z) :=
  match _position_delete_ordered_rowids with
  | None => Some filter
  | Some rowids =>
      let l := lower_bound rowids start in
      let r := upper_bound rowids (to_uint64 (start + nums - 1)) in
      clear_rows rowids start l (r - l) filter
  end.

(** *** Transactional (ACID) deletes *)

(** [TransactionalHiveReader::AcidRowID]. *)
Definition AcidRowID : Type := Z * Z * Z.

(** The three ACID columns of the block, already stripped of nullability. *)
Record AcidColumns : Type := mkAcidColumns {
  original_transaction_column : list Z;
  bucket_id_column : list Z;
  row_id_column : list Z
}.

(** The body of the [for (int i = 0; i < rows; ++i)] loop, [n] iterations
    left; [get_int(i)] outside a column is undefined behaviour. *)
Fixpoint acid_rows (delete_rows : gset AcidRowID) (blk : AcidColumns)
    (i n : nat) (data : list Z) : option (list Z) :=
  match n with
  | O => Some data
  | S n' =>
      match original_transaction_column blk !! i,
            bucket_id_column blk !! i,
            row_id_column blk !! i with
      | Some original_transaction, Some bucket_id, Some row_id =>
          let data' :=
            if bool_decide ((original_transaction, bucket_id, row_id) ∈ delete_rows)
            then <[i := 0]> data else data in
          acid_rows delete_rows blk (S i) n' data'
      | _, _, _ => None
      end
  end.

(** [OrcReader::_build_delete_row_filter]: the state it touches is
    [_delete_rows_filter_ptr]. *)
Definition _build_delete_row_filter (_delete_rows : option (gset AcidRowID))
    (blk : AcidColumns) (rows : nat)
    (_delete_rows_filter_ptr : option (list Z)) : option (option (list Z)) :=
  match _delete_rows with
  | None => Some _delete_rows_filter_ptr
  | Some delete_rows =>
      Some <$> acid_rows delete_rows blk 0 rows (replicate rows 1)
  end.

End PositionDelete.

(** ** Expressions as the readers inspect them ([vec/exprs]) *)

Module Expr.

(** The node classes [visit_slot] distinguishes with [typeid_cast]; every
    node carries its [children()]. *)
#[warnings="-register-all"]
Inductive VExpr : Type :=
  | VSlotRef (expr_name : string) (column_id : Z) (slot_id : Z)
             (children : list VExpr)
  | VRuntimeFilterWrapper (impl : VExpr) (children : list VExpr)
  | VBloomPredicate (children : list VExpr)
  | VInPredicate (children : list VExpr)
  | VOtherExpr (children : list VExpr).

(** What [visit_slot] writes: the local map
    [column_name -> (col_id, slot_id)] and
    [_lazy_read_ctx.resize_first_column]. *)
Definition VisitState : Type := gmap string (Z * Z) * bool.

(** [std::unordered_map::emplace]: an existing key keeps its value. *)
Definition emplace {V : Type} (k : string) (v : V) (m : gmap string V)
    : gmap string V :=
  match m !! k with
  | Some _ => m
  | None => <[k := v]> m
  end.

(** The lambda [visit_slot] of both [set_fill_columns]. *)
Fixpoint visit_slot (expr : VExpr) (st : VisitState) {struct expr} : VisitState :=
  let visit_children :=
    fix go (cs : list VExpr) (st : VisitState) {struct cs} : VisitState :=
      match cs with
      | [] => st
      | child :: cs' => go cs' (visit_slot child st)
      end in
  match expr with
  | VSlotRef expr_name column_id slot_id _ =>
      (emplace expr_name (column_id, slot_id) st.1,
       if decide (column_id = 0%Z) then false else st.2)
  | VRuntimeFilterWrapper filter_impl _ =>
      match filter_impl with
      | VBloomPredicate children => visit_children children st
      | VInPredicate children =>
          match children with
          | first_child :: _ => visit_slot first_child st
          | [] => st
          end
      | VSlotRef _ _ _ children
      | VRuntimeFilterWrapper _ children
      | VOtherExpr children => visit_children children st
      end
  | VBloomPredicate children
  | VInPredicate children
  | VOtherExpr children => visit_children children st
  end.

(** [for (auto& conjunct : conjuncts) visit_slot(conjunct->root().get());] *)
Definition visit_conjuncts (conjuncts : list VExpr) (st : VisitState) : VisitState :=
  foldl (λ st conjunct, visit_slot conjunct st) st conjuncts.

(** A loop [for (kv : columns) if (predicate.find(kv.first) == end)
    plain.emplace(kv) else with_predicate.emplace(kv)]: the two target maps
    after it.  The iteration order of the source map does not matter, its keys
    are distinct and [emplace] never overwrites. *)
Definition split_by_predicate {V : Type}
    (predicate_table_columns : gmap string (Z * Z))
    (columns plain with_predicate : gmap string V)
    : gmap string V * gmap string V :=
  (plain ∪ filter (λ kv, predicate_table_columns !! kv.1 = None) columns,
   with_predicate ∪ filter (λ kv, is_Some (predicate_table_columns !! kv.1)) columns).

(** [expr->children()]. *)
Definition children (expr : VExpr) : list VExpr :=
  match expr with
  | VSlotRef _ _ _ cs
  | VRuntimeFilterWrapper _ cs
  | VBloomPredicate cs
  | VInPredicate cs
  | VOtherExpr cs => cs
  end.

(** The design document's "column referenced by a conjunct": a slot
    reference with that name occurs somewhere in the expression, at the
    root, below a child, or in the implementation of a runtime filter. *)
Inductive mentions : VExpr → string → Prop :=
  | mentions_slot name column_id slot_id cs :
      mentions (VSlotRef name column_id slot_id cs) name
  | mentions_child expr child name :
      child ∈ children expr → mentions child name → mentions expr name
  | mentions_impl impl cs name :
      mentions impl name → mentions (VRuntimeFilterWrapper impl cs) name.

(** The slot references the planner reaches from an expression.  It stops at
    a slot reference; it enters a runtime filter through the implementation
    only, and there through the children of the implementation: all of them,
    or the first one alone when the implementation is an IN predicate; from
    any other node it descends into every child. *)
Inductive exposes : VExpr → string → Prop :=
  | exposes_slot name column_id slot_id cs :
      exposes (VSlotRef name column_id slot_id cs) name
  | exposes_bloom cs child name :
      child ∈ cs → exposes child name → exposes (VBloomPredicate cs) name
  | exposes_in cs child name :
      child ∈ cs → exposes child name → exposes (VInPredicate cs) name
  | exposes_other cs child name :
      child ∈ cs → exposes child name → exposes (VOtherExpr cs) name
  | exposes_in_filter first_child rest cs name :
      exposes first_child name →
      exposes (VRuntimeFilterWrapper (VInPredicate (first_child :: rest)) cs) name
  | exposes_filter filter_impl cs child name :
      (∀ in_children, filter_impl ≠ VInPredicate in_children) →
      child ∈ children filter_impl → exposes child name →
      exposes (VRuntimeFilterWrapper filter_impl cs) name.


Definition exposed_by (conjuncts : list VExpr) (column : string) : Prop :=
  ∃ conjunct, conjunct ∈ conjuncts ∧ exposes conjunct column.

End Expr.

(** ** Lazy-read planning of the ORC reader (vorc_reader.h 89-112, vorc_reader.cpp 950-1193) *)

Module Orc.
Import Expr.

(** A partition column value: the text value and the id of its slot
    descriptor. *)
Definition PartitionValue : Type := string * Z.

Record LazyReadContext : Type := mkLazyReadContext {
  conjuncts : list VExpr;
  can_lazy_read : bool;
  resize_first_column : bool;
  all_read_columns : list string;
  all_predicate_col_ids : list Z;
  predicate_columns : list string * list Z;
  predicate_orc_columns : list string;
  lazy_read_columns : list string;
  predicate_partition_columns : gmap string PartitionValue;
  partition_columns : gmap string PartitionValue;
  predicate_missing_columns : gmap string VExpr;
  missing_columns : gmap string VExpr
}.

(** The default member initialisers of [struct LazyReadContext], with the
    conjuncts [init_reader] stores. *)
Definition init_lazy_read_ctx (conjuncts : list VExpr) : LazyReadContext :=
  mkLazyReadContext conjuncts false true [] [] ([], []) [] [] ∅ ∅ ∅ ∅.

(** The members of [OrcReader] that [set_fill_columns] reads, the constants
    of [TransactionalHive] it uses (declared outside these sources) and the
    schema mapping [_table_info_node_ptr->children_file_column_name]. *)
Record OrcReader : Type := mkOrcReader {
  _is_acid : bool;
  _enable_lazy_mat : bool;
  _enable_filter_by_min_max : bool;
  _read_table_cols : list string;
  _lazy_read_ctx : LazyReadContext;
  READ_ROW_COLUMN_NAMES : list string;
  READ_ROW_COLUMN_NAMES_LOWER_CASE : list string;
  children_file_column_name : string → string
}.

(** What the ORC library and the session answer during [set_fill_columns]:
    the result of [_init_search_argument], the session variable
    [check_orc_init_sargs_success], an exception thrown while the stripes are
    planned (before the partition and missing columns are merged) or while
    the row reader is created (after), and [_io_ctx && _io_ctx->should_stop]
    as the handler sees it. *)
Record SetFillExternal : Type := mkSetFillExternal {
  init_search_argument_result : bool;
  check_orc_init_sargs_success : bool;
  stripe_planning_exception : option string;
  create_row_reader_exception : option string;
  stop_requested : bool
}.

(** The state of the loop over [_read_table_cols]:
    [all_read_columns], [lazy_read_columns], [predicate_columns] and
    [predicate_orc_columns]. *)
Definition ReadColsState : Type :=
  list string * list string * (list string * list Z) * list string.

Definition read_table_col_step (rd : OrcReader)
    (predicate_table_columns : gmap string (Z * Z))
    (st : ReadColsState) (read_table_col : string) : ReadColsState :=
  let '(all_read, lazy, (pred_names, pred_slots), pred_orc) := st in
  let all_read := all_read ++ [read_table_col] in
  if decide (predicate_table_columns = ∅) then
    (all_read, lazy, (pred_names, pred_slots), pred_orc)
  else
    match predicate_table_columns !! read_table_col with
    | None =>
        if negb (_is_acid rd)
           || bool_decide (read_table_col ∉ READ_ROW_COLUMN_NAMES_LOWER_CASE rd)
        then (all_read, lazy ++ [read_table_col], (pred_names, pred_slots), pred_orc)
        else (all_read, lazy, (pred_names, pred_slots), pred_orc)
    | Some (_, slot_id) =>
        (all_read, lazy,
         (pred_names ++ [read_table_col], pred_slots ++ [slot_id]),
         pred_orc ++ [children_file_column_name rd read_table_col])
    end.

(** The handler of the [try] block: every exception but the cooperative stop
    becomes an [InternalError]. *)
Definition row_reader_catch (ext : SetFillExternal) (_err_msg : string) : Status :=
  if negb (stop_requested ext && bool_decide (_err_msg = "stop"))
  then Status_InternalError ("Failed to create orc row reader. reason = " +:+ _err_msg)
  else Status_OK.

(** [OrcReader::set_fill_columns], as far as [_lazy_read_ctx] goes. *)
Definition set_fill_columns (rd : OrcReader) (ext : SetFillExternal)
    (partition_columns : gmap string PartitionValue)
    (missing_columns : gmap string VExpr) : Status * LazyReadContext :=
  let ctx := _lazy_read_ctx rd in
  let '(predicate_table_columns, resize_first) :=
    visit_conjuncts (conjuncts ctx) (∅, resize_first_column ctx) in
  let pred_orc0 :=
    if _is_acid rd
    then predicate_orc_columns ctx ++ READ_ROW_COLUMN_NAMES rd
    else predicate_orc_columns ctx in
  let '(all_read, lazy, pred, pred_orc) :=
    foldl (read_table_col_step rd predicate_table_columns)
          (all_read_columns ctx, lazy_read_columns ctx, predicate_columns ctx, pred_orc0)
          (_read_table_cols rd) in
  let '(part, pred_part) :=
    split_by_predicate predicate_table_columns partition_columns
      (Orc.partition_columns ctx) (predicate_partition_columns ctx) in
  let '(miss, pred_miss) :=
    split_by_predicate predicate_table_columns missing_columns
      (Orc.missing_columns ctx) (predicate_missing_columns ctx) in
  let can1 :=
    if _enable_lazy_mat rd && negb (bool_decide (pred.1 = []))
       && negb (bool_decide (lazy = []))
    then true else can_lazy_read ctx in
  let can2 := if bool_decide (conjuncts ctx = []) then false else can1 in
  let planned :=
    mkLazyReadContext (conjuncts ctx) can2 resize_first all_read
      (all_predicate_col_ids ctx) pred pred_orc lazy pred_part part pred_miss miss in
  if negb (bool_decide (conjuncts ctx = [])) && _enable_filter_by_min_max rd
     && check_orc_init_sargs_success ext && negb (init_search_argument_result ext)
  then (Status_InternalError
          "Session variable check_orc_init_sargs_success is set, but _init_search_argument returns false because all exprs can not be pushed down",
        planned)
  else
    match stripe_planning_exception ext with
    | Some _err_msg => (row_reader_catch ext _err_msg, planned)
    | None =>
        let merged :=
          if can2 then planned
          else mkLazyReadContext (conjuncts ctx) can2 resize_first all_read
                 (all_predicate_col_ids ctx) pred pred_orc lazy pred_part
                 (part ∪ pred_part) pred_miss (miss ∪ pred_miss) in
        match create_row_reader_exception ext with
        | Some _err_msg => (row_reader_catch ext _err_msg, merged)
        | None => (Status_OK, merged)
        end
    end.

(** A read column the loop over [_read_table_cols] may put on the lazy list:
    any column of a plain file, any column but the ACID row columns of a
    transactional one. *)
Definition may_be_lazy (rd : OrcReader) (read_table_col : string) : Prop :=
  _is_acid rd = false ∨ read_table_col ∉ READ_ROW_COLUMN_NAMES_LOWER_CASE rd.

(** [set_fill_columns] gets as far as the merge of the predicate partition
    and missing columns into the plain ones (line 1121): the search-argument
    check has passed and planning the stripes has thrown nothing. *)
Definition reaches_merge (rd : OrcReader) (ext : SetFillExternal) : bool :=
  negb (negb (bool_decide (conjuncts (_lazy_read_ctx rd) = []))
        && _enable_filter_by_min_max rd
        && check_orc_init_sargs_success ext
        && negb (init_search_argument_result ext))
  && negb (bool_decide (is_Some (stripe_planning_exception ext))).

End Orc.

(** ** Lazy-read planning of the Parquet reader (vparquet_reader.cpp 357-472) *)

Module Parquet.
Import Expr.

Definition PartitionValue : Type := string * Z.

(** The members of [_lazy_read_ctx] that [ParquetReader::set_fill_columns]
    touches.  The struct is declared in [vparquet_group_reader.h], outside
    these sources; its initial value is taken to be the one of the ORC
    struct of the same name. *)
Record LazyReadContext : Type := mkLazyReadContext {
  conjuncts : list VExpr;
  can_lazy_read : bool;
  resize_first_column : bool;
  has_complex_type : bool;
  all_read_columns : list string;
  all_predicate_col_ids : list Z;
  predicate_columns : list string * list Z;
  lazy_read_columns : list string;
  predicate_partition_columns : gmap string PartitionValue;
  partition_columns : gmap string PartitionValue;
  predicate_missing_columns : gmap string VExpr;
  missing_columns : gmap string VExpr;
  missing_columns_conjuncts : list VExpr
}.

Definition init_lazy_read_ctx (conjuncts : list VExpr) : LazyReadContext :=
  mkLazyReadContext conjuncts false true false [] [] ([], []) [] ∅ ∅ ∅ ∅ [].

(** The members of [ParquetReader] that [set_fill_columns] reads.
    [is_complex_column c] is
    [is_complex_type(schema.get_column(file name of c)->data_type->get_primitive_type())]. *)
Record ParquetReader : Type := mkParquetReader {
  _enable_lazy_mat : bool;
  _read_table_columns : list string;
  _lazy_read_ctx : LazyReadContext;
  is_complex_column : string → bool;
  _row_id_column_iterator_pair : option Z;
  _slot_id_to_filter_conjuncts : gmap Z (list VExpr)
}.

(** The state of the loop over [_read_table_columns]: [all_read_columns],
    [has_complex_type], [lazy_read_columns], [predicate_columns] and
    [all_predicate_col_ids]. *)
Definition ReadColsState : Type :=
  list string * bool * list string * (list string * list Z) * list Z.

Definition read_table_col_step (rd : ParquetReader)
    (predicate_columns : gmap string (Z * Z))
    (st : ReadColsState) (read_table_col : string) : ReadColsState :=
  let '(all_read, complex, lazy, (pred_names, pred_slots), col_ids) := st in
  let all_read := all_read ++ [read_table_col] in
  let complex := if is_complex_column rd read_table_col then true else complex in
  if bool_decide (0 < size predicate_columns) then
    match predicate_columns !! read_table_col with
    | None =>
        (all_read, complex, lazy ++ [read_table_col], (pred_names, pred_slots), col_ids)
    | Some (col_id, slot_id) =>
        (all_read, complex, lazy,
         (pred_names ++ [read_table_col], pred_slots ++ [slot_id]),
         col_ids ++ [col_id])
    end
  else (all_read, complex, lazy, (pred_names, pred_slots), col_ids).

(** The column ids a loop over [columns] appends to [all_predicate_col_ids]
    (one per column named by a predicate, in the iteration order of the
    map). *)
Definition predicate_col_ids {V : Type} (predicate_columns : gmap string (Z * Z))
    (columns : gmap string V) (col_ids : list Z) : list Z :=
  foldl (λ ids kv,
           match predicate_columns !! kv.1 with
           | Some (col_id, _) => ids ++ [col_id]
           | None => ids
           end) col_ids (map_to_list columns).

(** The conjuncts the loop over [missing_columns] appends to
    [missing_columns_conjuncts]. *)
Definition predicate_missing_conjuncts (rd : ParquetReader)
    (predicate_columns : gmap string (Z * Z))
    (missing_columns : gmap string VExpr) (acc : list VExpr) : list VExpr :=
  foldl (λ acc kv,
           match predicate_columns !! kv.1 with
           | Some (_, slot_id) =>
               match _slot_id_to_filter_conjuncts rd !! slot_id with
               | Some ctxs => acc ++ ctxs
               | None => acc
               end
           | None => acc
           end) acc (map_to_list missing_columns).

(** [ParquetReader::set_fill_columns]; it always returns [Status::OK()]. *)
Definition set_fill_columns (rd : ParquetReader)
    (partition_columns : gmap string PartitionValue)
    (missing_columns : gmap string VExpr) : Status * LazyReadContext :=
  let ctx := _lazy_read_ctx rd in
  let '(predicate_columns, resize_first) :=
    if bool_decide (conjuncts ctx = []) then (∅, resize_first_column ctx)
    else visit_conjuncts (conjuncts ctx) (∅, resize_first_column ctx) in
  let '(all_read, complex, lazy, pred, col_ids) :=
    foldl (read_table_col_step rd predicate_columns)
          (all_read_columns ctx, has_complex_type ctx, lazy_read_columns ctx,
           Parquet.predicate_columns ctx, all_predicate_col_ids ctx)
          (_read_table_columns rd) in
  let col_ids :=
    match _row_id_column_iterator_pair rd with
    | Some row_id_col => col_ids ++ [row_id_col]
    | None => col_ids
    end in
  let '(part, pred_part) :=
    split_by_predicate predicate_columns partition_columns
      (Parquet.partition_columns ctx) (predicate_partition_columns ctx) in
  let col_ids := predicate_col_ids predicate_columns partition_columns col_ids in
  let '(miss, pred_miss) :=
    split_by_predicate predicate_columns missing_columns
      (Parquet.missing_columns ctx) (predicate_missing_columns ctx) in
  let miss_conjuncts :=
    predicate_missing_conjuncts rd predicate_columns missing_columns
      (missing_columns_conjuncts ctx) in
  let col_ids := predicate_col_ids predicate_columns missing_columns col_ids in
  let can :=
    if _enable_lazy_mat rd && bool_decide (0 < length pred.1)
       && bool_decide (0 < length lazy)
    then true else can_lazy_read ctx in
  let part := if can then part else part ∪ pred_part in
  let miss := if can then miss else miss ∪ pred_miss in
  (Status_OK,
   mkLazyReadContext (conjuncts ctx) can resize_first complex all_read col_ids
     pred lazy pred_part part pred_miss miss miss_conjuncts).

End Parquet.

(** ** Decimal decoding of the ORC reader (vorc_reader.h 370-470) *)

Module OrcDecimal.
Local Open Scope Z_scope.

(** Two's-complement wrap-around to a signed integer of [bits] bits. *)
Definition wrap_signed (bits x : Z) : Z :=
  (x + 2 ^ (bits - 1)) mod 2 ^ bits - 2 ^ (bits - 1).

Inductive ScaleType : Set := NOT_INIT | NO_SCALE | SCALE_UP | SCALE_DOWN.

(** [DecimalScaleParams], declared in [parquet_common.h] outside these
    sources; a default-constructed value is [NOT_INIT] with factor 1. *)
Record DecimalScaleParams : Set := mkDecimalScaleParams {
  scale_type : ScaleType;
  scale_factor : Z
}.

Definition DecimalScaleParams_default : DecimalScaleParams :=
  mkDecimalScaleParams NOT_INIT 1.

(** Modelled from the spec: [DecimalScaleParams::get_scale_factor] is not in
    these sources; the design document gives the factor as
    [10^|S' - S|]. *)
Definition get_scale_factor (n : Z) : Z := 10 ^ n.

(** [cast_set<int64_t>]: the factor stored as [int64_t]. *)
Definition cast_set_int64 (x : Z) : Z := wrap_signed 64 x.

(** [OrcReader::_init_decimal_converter]; [dest_scale] is
    [decimal_type->get_scale()]. *)
Definition _init_decimal_converter (dest_scale : Z)
    (scale_params : DecimalScaleParams) (orc_decimal_scale : Z)
    : DecimalScaleParams :=
  match scale_type scale_params with
  | NOT_INIT =>
      if decide (dest_scale > orc_decimal_scale) then
        mkDecimalScaleParams SCALE_UP
          (cast_set_int64 (get_scale_factor (dest_scale - orc_decimal_scale)))
      else if decide (dest_scale < orc_decimal_scale) then
        mkDecimalScaleParams SCALE_DOWN
          (cast_set_int64 (get_scale_factor (orc_decimal_scale - dest_scale)))
      else mkDecimalScaleParams NO_SCALE 1
  | _ => scale_params
  end.

(** The two decimal batches of the ORC library: [Decimal64VectorBatch]
    holds [int64_t] values, [Decimal128VectorBatch] holds [orc::Int128]
    values read through [getHighBits()] (an [int64_t]) and [getLowBits()]
    (a [uint64_t]). *)
Inductive DecimalVectorBatch : Set :=
  | Decimal64VectorBatch (scale : Z) (values : list Z)
  | Decimal128VectorBatch (scale : Z) (values : list (Z * Z)).

Definition batch_scale (cvb : DecimalVectorBatch) : Z :=
  match cvb with
  | Decimal64VectorBatch scale _ | Decimal128VectorBatch scale _ => scale
  end.

(** [value = (((int128_t)hi) << 64) | (int128_t)lo] with [hi] and [lo]
    stored in [uint64_t] variables. *)
Definition int128_of_bits (hi_lo : Z * Z) : Z :=
  wrap_signed 128 (Z.lor (Z.shiftl (hi_lo.1 mod 2 ^ 64) 64) (hi_lo.2 mod 2 ^ 64)).

(** The [int128_t value] each loop iteration starts from. *)
Definition batch_values (cvb : DecimalVectorBatch) : list Z :=
  match cvb with
  | Decimal64VectorBatch _ values => values
  | Decimal128VectorBatch _ values => int128_of_bits <$> values
  end.

(** The members [_decimal_scale_params] and [_decimal_scale_params_index]. *)
Record DecimalState : Set := mkDecimalState {
  _decimal_scale_params : list DecimalScaleParams;
  _decimal_scale_params_index : nat
}.

(** [OrcReader::_decode_explicit_decimal_column] for a decimal type whose
    native integer has [native_bits] bits: the new reader state and the
    column data.  The branch on the scale type is taken once, outside the
    three loops.  A division by a zero factor and a missing cache entry are
    undefined behaviour. *)
Definition _decode_explicit_decimal_column (native_bits dest_scale : Z)
    (st : DecimalState) (cvb : DecimalVectorBatch) (column_data : list Z)
    : option (DecimalState * list Z) :=
  let params :=
    if decide (length (_decimal_scale_params st) ≤ _decimal_scale_params_index st)%nat
    then _decimal_scale_params st
           ++ [_init_decimal_converter dest_scale DecimalScaleParams_default
                 (batch_scale cvb)]
    else _decimal_scale_params st in
  scale_params ← params !! _decimal_scale_params_index st;
  let st' := mkDecimalState params (S (_decimal_scale_params_index st)) in
  match scale_type scale_params with
  | SCALE_UP =>
      Some (st', column_data ++
        ((λ value, wrap_signed native_bits
                     (wrap_signed 128 (value * scale_factor scale_params)))
           <$> batch_values cvb))
  | SCALE_DOWN =>
      if decide (scale_factor scale_params = 0) then None
      else Some (st', column_data ++
        ((λ value, wrap_signed native_bits
                     (value ÷ scale_factor scale_params))
           <$> batch_values cvb))
  | _ =>
      Some (st', column_data ++ (wrap_signed native_bits <$> batch_values cvb))
  end.

(** Every call to [get_next_block_impl] starts with
    [_decimal_scale_params_index = 0]. *)
Definition reset_decimal_index (st : DecimalState) : DecimalState :=
  mkDecimalState (_decimal_scale_params st) 0.

(** The design document's [round(original_value, S')] on unscaled integers:
    the value [v] at scale [S], rounded to [S'] digits, half away from
    zero. *)
Definition round_to_scale (S S' v : Z) : Z :=
  if decide (S ≤ S') then v * 10 ^ (S' - S)
  else Z.sgn v * ((Z.abs v + 10 ^ (S - S') ÷ 2) ÷ 10 ^ (S - S')).

(** What the code computes instead: an exact scaling up, a truncation
    toward zero when scaling down. *)
Definition rescale (S S' v : Z) : Z :=
  if decide (S ≤ S') then v * 10 ^ (S' - S) else v ÷ 10 ^ (S - S').

(** "In range": the rescaled value fits the native integer of the column
    and the [int128_t] the loop computes in. *)
Definition fits (native_bits S S' v : Z) : Prop :=
  - 2 ^ (native_bits - 1) ≤ rescale S S' v < 2 ^ (native_bits - 1) ∧
  - 2 ^ 127 ≤ rescale S S' v < 2 ^ 127.

End OrcDecimal.

(** ** Page-index pruning of the Parquet reader (vparquet_reader.cpp 764-897) *)

Module PageIndex.
Local Open Scope Z_scope.

(** [RowRange]: the rows [first_row, last_row) of a row group. *)
Record RowRange : Set := mkRowRange { first_row : Z; last_row : Z }.

Global Instance RowRange_eq_dec : EqDecision RowRange.
Proof. solve_decision. Defined.

(** The order of the [std::sort] comparator,
    [std::tie(lhs.first_row, lhs.last_row) < std::tie(rhs.first_row, rhs.last_row)],
    as a non-strict order. *)
Definition range_le (lhs rhs : RowRange) : Prop :=
  first_row lhs < first_row rhs ∨
  (first_row lhs = first_row rhs ∧ last_row lhs ≤ last_row rhs).

Global Instance range_le_dec : RelDecision range_le.
Proof. intros lhs rhs. unfold range_le. apply _. Defined.

(** The loop over the sorted skipped ranges: [skip_end], [read_rows] and
    the candidate ranges. *)
Fixpoint sweep (skipped_row_ranges : list RowRange) (skip_end read_rows : Z)
    (candidate_row_ranges : list RowRange) : Z * Z * list RowRange :=
  match skipped_row_ranges with
  | [] => (skip_end, read_rows, candidate_row_ranges)
  | skip_range :: rest =>
      if decide (skip_end >= first_row skip_range) then
        if decide (skip_end < last_row skip_range)
        then sweep rest (last_row skip_range) read_rows candidate_row_ranges
        else sweep rest skip_end read_rows candidate_row_ranges
      else
        sweep rest (last_row skip_range)
          (read_rows + (first_row skip_range - skip_end))
          (candidate_row_ranges ++ [mkRowRange skip_end (first_row skip_range)])
  end.

(** The tail of [_process_page_index], from the [std::sort] on. *)
Definition candidates_of_skipped (num_rows : Z) (skipped_row_ranges : list RowRange)
    (candidate_row_ranges : list RowRange) : list RowRange :=
  let '(skip_end, _, candidates) :=
    sweep (merge_sort range_le skipped_row_ranges) 0 0 candidate_row_ranges in
  if decide (skip_end ≠ num_rows)
  then candidates ++ [mkRowRange skip_end num_rows]
  else candidates.

(** What the page index of one read column yields.  The helpers of
    [PageIndex] ([parse_column_index], [collect_skipped_page_range],
    [parse_offset_index], [create_skipped_row_range]) live outside these
    sources; their results are data here. *)
Record ColumnPageIndex : Set := mkColumnPageIndex {
  has_value_range : bool;
  physical_column_index : Z;
  column_index_offset : Z;
  column_index_length : Z;
  parse_column_index : Status;
  num_of_pages : Z;
  collect_skipped_page_range : Status * list Z;
  parse_offset_index : Status;
  create_skipped_row_range : Z → Status * RowRange
}.

(** [for (int page_id : skipped_page_range)]: the row range of every skipped
    page is appended, the first error returns. *)
Fixpoint skipped_rows_of_pages (col : ColumnPageIndex) (pages : list Z)
    (skipped_row_ranges : list RowRange) : Status * list RowRange :=
  match pages with
  | [] => (Status_OK, skipped_row_ranges)
  | page_id :: rest =>
      let '(st, skipped_row_range) := create_skipped_row_range col page_id in
      if ok st
      then skipped_rows_of_pages col rest (skipped_row_ranges ++ [skipped_row_range])
      else (st, skipped_row_ranges)
  end.

(** The body of the loop over [_read_table_columns] for one column. *)
Definition column_step (col : ColumnPageIndex) (skipped_row_ranges : list RowRange)
    : Status * list RowRange :=
  if negb (has_value_range col) then (Status_OK, skipped_row_ranges)
  else if decide (physical_column_index col < 0) then (Status_OK, skipped_row_ranges)
  else if decide (column_index_offset col = 0 ∧ column_index_length col = 0)
  then (Status_OK, skipped_row_ranges)
  else if negb (ok (parse_column_index col))
  then (parse_column_index col, skipped_row_ranges)
  else if decide (num_of_pages col ≤ 0) then (Status_OK, skipped_row_ranges)
  else
    let '(st, skipped_page_range) := collect_skipped_page_range col in
    if negb (ok st) then (st, skipped_row_ranges)
    else match skipped_page_range with
         | [] => (Status_OK, skipped_row_ranges)
         | _ =>
             if negb (ok (parse_offset_index col))
             then (parse_offset_index col, skipped_row_ranges)
             else skipped_rows_of_pages col skipped_page_range skipped_row_ranges
         end.

(** The loop over the read columns. *)
Fixpoint columns_loop (cols : list ColumnPageIndex)
    (skipped_row_ranges : list RowRange) : Status * list RowRange :=
  match cols with
  | [] => (Status_OK, skipped_row_ranges)
  | col :: rest =>
      let '(st, skipped) := column_step col skipped_row_ranges in
      if ok st then columns_loop rest skipped else (st, skipped)
  end.

(** What [_process_page_index] reads of the reader, the configuration and
    the row group. *)
Record PageIndexInput : Set := mkPageIndexInput {
  should_stop : bool;
  _read_line_mode_mode : bool;
  _read_line_mode_row_ranges : list RowRange;
  _enable_filter_by_min_max : bool;
  has_complex_type : bool;
  conjuncts_empty : bool;
  colname_to_value_range_empty : bool;
  enable_parquet_page_index : bool;
  _has_page_index : bool;
  read_column_index : Status;
  read_offset_index : Status;
  num_rows : Z;
  columns : list ColumnPageIndex
}.

(** [ParquetReader::_process_page_index]; [candidate_row_ranges] is the
    vector the caller passes in. *)
Definition _process_page_index (inp : PageIndexInput)
    (candidate_row_ranges : list RowRange) : Status * list RowRange :=
  let read_whole_row_group :=
    candidate_row_ranges ++ [mkRowRange 0 (num_rows inp)] in
  if should_stop inp then (Status_EndOfFile "stop", candidate_row_ranges)
  else if _read_line_mode_mode inp then (Status_OK, _read_line_mode_row_ranges inp)
  else if negb (_enable_filter_by_min_max inp) || has_complex_type inp
          || conjuncts_empty inp || colname_to_value_range_empty inp
  then (Status_OK, read_whole_row_group)
  else if negb (enable_parquet_page_index inp) || negb (_has_page_index inp)
  then (Status_OK, read_whole_row_group)
  else if negb (ok (read_column_index inp))
  then (read_column_index inp, candidate_row_ranges)
  else if negb (ok (read_offset_index inp))
  then (read_offset_index inp, candidate_row_ranges)
  else
    let '(st, skipped_row_ranges) := columns_loop (columns inp) [] in
    if negb (ok st) then (st, candidate_row_ranges)
    else match skipped_row_ranges with
         | [] => (Status_OK, read_whole_row_group)
         | _ =>
             (Status_OK,
              candidates_of_skipped (num_rows inp) skipped_row_ranges
                candidate_row_ranges)
         end.

(** Row [x] lies in one of the ranges. *)
Definition covered (ranges : list RowRange) (x : Z) : Prop :=
  Exists (λ r, first_row r ≤ x < last_row r) ranges.

(** The skipped row ranges a column contributes when every helper
    succeeds. *)
Definition column_skipped (col : ColumnPageIndex) : list RowRange :=
  (column_step col []).2.

(** The candidate set in the design document's words: the union over the
    predicate columns of their kept rows, so that a row stays a candidate as
    soon as one predicate column cannot skip its page. *)
Definition union_of_kept (num_rows : Z) (cols : list ColumnPageIndex) (x : Z) : Prop :=
  0 ≤ x < num_rows ∧
  Exists (λ col, has_value_range col = true ∧ ¬ covered (column_skipped col) x) cols.

(** A skipped range as [create_skipped_row_range] builds it: rows of the
    group, first not after last. *)
Definition well_formed (num_rows : Z) (r : RowRange) : Prop :=
  0 ≤ first_row r ≤ last_row r ∧ last_row r ≤ num_rows.

(** The gates of [_process_page_index] that let it consult the page
    index. *)
Definition page_index_used (inp : PageIndexInput) : bool :=
  _enable_filter_by_min_max inp && negb (has_complex_type inp)
  && negb (conjuncts_empty inp) && negb (colname_to_value_range_empty inp)
  && enable_parquet_page_index inp && _has_page_index inp.

(** A row group of 10 rows in two pages of 5 rows and two predicate columns:
    the page index of [a] rules out page 0, the one of [b] rules out
    nothing. *)
Definition two_pages (page_id : Z) : Status * RowRange :=
  (Status_OK, if decide (page_id = 0) then mkRowRange 0 5 else mkRowRange 5 10).

Definition column_a : ColumnPageIndex :=
  mkColumnPageIndex true 0 4 16 Status_OK 2 (Status_OK, [0]) Status_OK two_pages.

Definition column_b : ColumnPageIndex :=
  mkColumnPageIndex true 1 20 16 Status_OK 2 (Status_OK, []) Status_OK two_pages.

Definition two_column_group : PageIndexInput :=
  mkPageIndexInput false false [] true false false false true true
    Status_OK Status_OK 10 [column_a; column_b].

(** The same row group read with the predicate column [b] alone: the page
    index is consulted and rules out no page. *)
Definition one_column_group : PageIndexInput :=
  mkPageIndexInput false false [] true false false false true true
    Status_OK Status_OK 10 [column_b].

End PageIndex.

(** ** Row-group planning of the Parquet reader (vparquet_reader.cpp 303-355, 642-702, 745-757, 899-1017, 1080-1135) *)

Module RowGroups.
Local Open Scope Z_scope.

(** [tparquet::Type]. *)
Inductive PhysicalType : Set :=
  | BOOLEAN | INT32 | INT64 | INT96 | FLOAT | DOUBLE | BYTE_ARRAY
  | FIXED_LEN_BYTE_ARRAY.

Global Instance PhysicalType_eq_dec : EqDecision PhysicalType.
Proof. solve_decision. Defined.

(** The member of the thrift union [tparquet::LogicalType] that is set, if
    any. *)
Inductive LogicalType : Set :=
  | LT_STRING | LT_INTEGER (isSigned : bool) | LT_DATE | LT_ENUM | LT_BSON
  | LT_JSON | LT_DECIMAL | LT_MAP | LT_LIST | LT_TIME | LT_TIMESTAMP
  | LT_UNKNOWN.

Global Instance LogicalType_eq_dec : EqDecision LogicalType.
Proof. solve_decision. Defined.

Inductive SortOrder : Set := SIGNED | UNSIGNED | UNKNOWN.

Global Instance SortOrder_eq_dec : EqDecision SortOrder.
Proof. solve_decision. Defined.

Record SchemaElement : Set := mkSchemaElement {
  type : PhysicalType;
  logicalType : option LogicalType
}.

(** [FieldSchema], as far as the statistics filter reads it. *)
Record FieldSchema : Set := mkFieldSchema {
  physical_column_index : Z;
  physical_type : PhysicalType;
  parquet_schema : SchemaElement
}.

(** [ParquetReader::_determine_sort_order]. *)
Definition _determine_sort_order (parquet_schema : SchemaElement) : SortOrder :=
  match logicalType parquet_schema, type parquet_schema with
  | Some LT_STRING, (BYTE_ARRAY | FIXED_LEN_BYTE_ARRAY) => SIGNED
  | Some (LT_INTEGER isSigned), _ => if isSigned then SIGNED else UNSIGNED
  | Some LT_DATE, _ => SIGNED
  | Some LT_ENUM, _ => UNSIGNED
  | Some LT_BSON, _ => UNSIGNED
  | Some LT_JSON, _ => UNSIGNED
  | Some LT_STRING, _ => UNSIGNED
  | Some LT_DECIMAL, _ => UNKNOWN
  | Some LT_MAP, _ => UNKNOWN
  | Some LT_LIST, _ => UNKNOWN
  | Some LT_TIME, _ => SIGNED
  | Some LT_TIMESTAMP, _ => SIGNED
  | Some LT_UNKNOWN, _ => UNKNOWN
  | None, (BOOLEAN | INT32 | INT64 | FLOAT | DOUBLE) => SIGNED
  | None, (BYTE_ARRAY | FIXED_LEN_BYTE_ARRAY) => UNSIGNED
  | None, INT96 => UNKNOWN
  end.

(** [tparquet::Statistics]: every field is optional ([__isset]); minima and
    maxima are plain-encoded byte strings. *)
Record Statistics : Set := mkStatistics {
  null_count : option Z;
  max : option string;
  min : option string;
  max_value : option string;
  min_value : option string
}.

(** [tparquet::ColumnMetaData]; [column_start_offset] is what
    [_get_column_start_offset] returns for it. *)
Record ColumnMetaData : Set := mkColumnMetaData {
  statistics : Statistics;
  num_values : Z;
  column_start_offset : Z;
  total_compressed_size : Z
}.

Record RowGroup : Set := mkRowGroup {
  columns : list ColumnMetaData;
  num_rows : Z
}.

(** A value range of [_colname_to_value_range], for an integer column. *)
Record ColumnValueRange : Set := mkColumnValueRange {
  low_value : option Z;
  high_value : option Z
}.

Global Instance ColumnValueRange_eq_dec : EqDecision ColumnValueRange.
Proof. solve_decision. Defined.

(** [RowGroupReader::RowGroupIndex]. *)
Record RowGroupIndex : Set := mkRowGroupIndex {
  row_group_id : nat;
  first_row : Z;
  last_row : Z
}.

(** The collaborators of the reader that live outside these sources: the
    schema mapping of [TableSchemaChangeHelper::Node], the file schema,
    [ParquetPredicate::filter_by_stats] (arguments: value range, column
    schema, [ignore_min_max_stats], encoded minimum and maximum,
    [is_all_null], [use_min_max_value]) and
    [CorruptStatistics::should_ignore_statistics]. *)
Record Collaborators : Type := mkCollaborators {
  children_column_exists : string → bool;
  children_file_column_name : string → string;
  schema_column_names : list string;
  get_column : string → FieldSchema;
  filter_by_stats :
    ColumnValueRange → FieldSchema → bool → string → string → bool → bool → bool;
  should_ignore_statistics : string → PhysicalType → bool
}.

(** The members of [ParquetReader] that row-group planning reads or
    writes. *)
Record ParquetReader : Type := mkParquetReader {
  _enable_filter_by_min_max : bool;
  _colname_to_value_range : option (gmap string ColumnValueRange);
  _missing_cols : list string;
  _read_file_columns : list string;
  _read_table_columns : list string;
  created_by : string;
  _range_start_offset : Z;
  _range_size : Z;
  _read_line_mode_mode : bool
}.

(** [std::map::emplace] on [required_file_columns]. *)
Definition emplace (k v : string) (m : gmap string string) : gmap string string :=
  match m !! k with
  | Some _ => m
  | None => <[k := v]> m
  end.

(** The first loop of [init_reader]: [required_file_columns] (file column
    -> table column) and [_missing_cols]. *)
Definition required_columns_step (ext : Collaborators)
    (st : gmap string string * list string) (table_column_name : string)
    : gmap string string * list string :=
  if children_column_exists ext table_column_name
  then (emplace (children_file_column_name ext table_column_name)
          table_column_name st.1, st.2)
  else (st.1, st.2 ++ [table_column_name]).

(** The second loop of [init_reader]: [_read_file_columns] and
    [_read_table_columns], in schema order. *)
Definition read_columns_step (required_file_columns : gmap string string)
    (st : list string * list string) (name : string)
    : list string * list string :=
  match required_file_columns !! name with
  | Some table_column_name => (st.1 ++ [name], st.2 ++ [table_column_name])
  | None => st
  end.

(** The column selection of [ParquetReader::init_reader] (lines 334-350) on
    a reader that has selected no column yet. *)
Definition init_reader_columns (ext : Collaborators) (rd : ParquetReader)
    (all_column_names : list string) : ParquetReader :=
  let '(required_file_columns, missing) :=
    foldl (required_columns_step ext) (∅, _missing_cols rd) all_column_names in
  let '(read_file, read_table) :=
    foldl (read_columns_step required_file_columns)
          (_read_file_columns rd, _read_table_columns rd)
          (schema_column_names ext) in
  mkParquetReader (_enable_filter_by_min_max rd) (_colname_to_value_range rd)
    missing read_file read_table (created_by rd) (_range_start_offset rd)
    (_range_size rd) (_read_line_mode_mode rd).

(** [_ignored_stats], a map from physical type to flag. *)
Definition IgnoredStats : Type := PhysicalType → option bool.

Definition set_ignored (t : PhysicalType) (b : bool) (m : IgnoredStats)
    : IgnoredStats :=
  λ t', if decide (t' = t) then Some b else m t'.

(** The body of the loop of [_process_column_stat_filter] once the column's
    statistics are known to be usable: the new [*filter_group] and
    [_ignored_stats]. *)
Definition stat_filter_column (ext : Collaborators) (rd : ParquetReader)
    (slot : ColumnValueRange) (col_schema : FieldSchema)
    (meta_data : ColumnMetaData) (is_all_null : bool)
    (ignored : IgnoredStats) : bool * IgnoredStats :=
  let statistic := statistics meta_data in
  match min_value statistic, max_value statistic with
  | Some stat_min_value, Some stat_max_value =>
      let type_defined_order :=
        negb (bool_decide (physical_type col_schema = INT96)
              || bool_decide (logicalType (parquet_schema col_schema)
                              = Some LT_UNKNOWN)) in
      let ignore_min_max_stats :=
        bool_decide (stat_min_value ≠ stat_max_value) && negb type_defined_order in
      (filter_by_stats ext slot col_schema ignore_min_max_stats
         stat_min_value stat_max_value is_all_null true, ignored)
  | _, _ =>
      match min statistic, max statistic with
      | Some stat_min, Some stat_max =>
          let max_equals_min := bool_decide (stat_min = stat_max) in
          let sort_orders_match :=
            bool_decide (_determine_sort_order (parquet_schema col_schema) = SIGNED) in
          let ignore0 := negb sort_orders_match && negb max_equals_min in
          let '(should_ignore_corrupted_stats, ignored') :=
            match ignored (physical_type col_schema) with
            | None =>
                if should_ignore_statistics ext (created_by rd)
                     (physical_type col_schema)
                then (true, set_ignored (physical_type col_schema) true ignored)
                else (false, set_ignored (physical_type col_schema) false ignored)
            | Some flag => (flag, ignored)
            end in
          let ignore_min_max_stats :=
            if should_ignore_corrupted_stats then true
            else if negb sort_orders_match && negb max_equals_min then true
            else ignore0 in
          (filter_by_stats ext slot col_schema ignore_min_max_stats
             stat_min stat_max is_all_null false, ignored')
      | o_min, o_max =>
          (filter_by_stats ext slot col_schema true
             (default "" o_min) (default "" o_max) is_all_null false, ignored)
      end
  end.

(** The loop of [_process_column_stat_filter] over [_read_table_columns];
    [columns[parquet_col_id]] outside the vector is undefined behaviour. *)
Fixpoint stat_filter_loop (ext : Collaborators) (rd : ParquetReader)
    (value_range : gmap string ColumnValueRange)
    (columns : list ColumnMetaData) (table_cols : list string)
    (filter_group : bool) (ignored : IgnoredStats)
    : option (bool * IgnoredStats) :=
  match table_cols with
  | [] => Some (filter_group, ignored)
  | table_col_name :: rest =>
      let continue :=
        stat_filter_loop ext rd value_range columns rest filter_group ignored in
      if children_column_exists ext table_col_name then continue
      else
        match value_range !! table_col_name with
        | None => continue
        | Some slot =>
            let file_col_name := children_file_column_name ext table_col_name in
            let col_schema := get_column ext file_col_name in
            let parquet_col_id := physical_column_index col_schema in
            if decide (parquet_col_id < 0) then continue
            else
              meta_data ← columns !! Z.to_nat parquet_col_id;
              let statistic := statistics meta_data in
              let is_all_null :=
                bool_decide (null_count statistic = Some (num_values meta_data)) in
              let is_set_min_max :=
                bool_decide (is_Some (max statistic) ∧ is_Some (min statistic))
                || bool_decide (is_Some (max_value statistic)
                                ∧ is_Some (min_value statistic)) in
              if negb is_set_min_max && negb is_all_null then continue
              else
                let '(filter_group', ignored') :=
                  stat_filter_column ext rd slot col_schema meta_data
                    is_all_null ignored in
                if filter_group' then Some (filter_group', ignored')
                else stat_filter_loop ext rd value_range columns rest
                       filter_group' ignored'
        end
  end.

(** [ParquetReader::_process_column_stat_filter]; it always returns
    [Status::OK()]. *)
Definition _process_column_stat_filter (ext : Collaborators) (rd : ParquetReader)
    (columns : list ColumnMetaData) (filter_group : bool)
    (ignored : IgnoredStats) : option (Status * bool * IgnoredStats) :=
  match _colname_to_value_range rd with
  | Some value_range =>
      if negb (_enable_filter_by_min_max rd) || bool_decide (value_range = ∅)
      then Some (Status_OK, filter_group, ignored)
      else
        '(filter_group', ignored') ←
          stat_filter_loop ext rd value_range columns (_read_table_columns rd)
            filter_group ignored;
        Some (Status_OK, filter_group', ignored')
  | None => Some (Status_OK, filter_group, ignored)
  end.

(** The planning state: [_read_lines], [_read_line_mode_row_ranges] (one
    entry per row group), [_ignored_stats], [_read_row_groups] and the
    row-group counters of [_statistics].  The byte counters are left
    out. *)
Record PlanState : Type := mkPlanState {
  _read_lines : list Z;
  _read_line_mode_row_ranges : list (list PageIndex.RowRange);
  _ignored_stats : IgnoredStats;
  _read_row_groups : list RowGroupIndex;
  stat_read_row_groups : Z;
  stat_filtered_row_groups : Z;
  stat_filtered_group_rows : Z
}.

(** The [while (!_read_lines.empty())] loop of the line mode: the lines left
    and the ranges appended for this group. *)
Fixpoint take_read_lines (group_start group_end : Z) (read_lines : list Z)
    (ranges : list PageIndex.RowRange) : list Z * list PageIndex.RowRange :=
  match read_lines with
  | [] => ([], ranges)
  | v :: rest =>
      if decide (v >= group_start ∧ v < group_end)
      then take_read_lines group_start group_end rest
             (ranges ++ [PageIndex.mkRowRange (v - group_start) (v - group_start + 1)])
      else (read_lines, ranges)
  end.

(** [ParquetReader::_process_row_group_filter].  [_init_chunk_dicts],
    [_process_dict_filter], [_init_bloom_filter] and [_process_bloom_filter]
    have empty bodies. *)
Definition _process_row_group_filter (ext : Collaborators) (rd : ParquetReader)
    (row_group_index : RowGroupIndex) (row_group : RowGroup)
    (filter_group : bool) (st : PlanState) : option (Status * bool * PlanState) :=
  if _read_line_mode_mode rd then
    ranges ← _read_line_mode_row_ranges st !! row_group_id row_group_index;
    let '(read_lines, ranges') :=
      take_read_lines (first_row row_group_index) (last_row row_group_index)
        (_read_lines st) ranges in
    Some (Status_OK,
          if bool_decide (ranges' = []) then true else filter_group,
          mkPlanState read_lines
            (<[row_group_id row_group_index := ranges']> (_read_line_mode_row_ranges st))
            (_ignored_stats st) (_read_row_groups st) (stat_read_row_groups st)
            (stat_filtered_row_groups st) (stat_filtered_group_rows st))
  else
    '(status, filter_group', ignored) ←
      _process_column_stat_filter ext rd (columns row_group) filter_group
        (_ignored_stats st);
    Some (status, filter_group',
          mkPlanState (_read_lines st) (_read_line_mode_row_ranges st) ignored
            (_read_row_groups st) (stat_read_row_groups st)
            (stat_filtered_row_groups st) (stat_filtered_group_rows st)).

(** [ParquetReader::_is_misaligned_range_group]; a row group without
    columns is undefined behaviour. *)
Definition _is_misaligned_range_group (rd : ParquetReader) (row_group : RowGroup)
    : option bool :=
  first_column ← head (columns row_group);
  last_column ← last (columns row_group);
  let start_offset := column_start_offset first_column in
  let end_offset :=
    column_start_offset last_column + total_compressed_size last_column in
  let row_group_mid := start_offset + (end_offset - start_offset) ÷ 2 in
  Some (negb (bool_decide (row_group_mid >= _range_start_offset rd
                           ∧ row_group_mid < _range_start_offset rd + _range_size rd))).

(** The loop of [_init_row_groups] over the row groups [row_group_idx ..]
    with the running [row_index]. *)
Fixpoint row_groups_loop (ext : Collaborators) (rd : ParquetReader)
    (is_filter_groups : bool) (row_groups : list RowGroup)
    (row_group_idx : nat) (row_index : Z) (st : PlanState)
    : option (Status * PlanState) :=
  match row_groups with
  | [] => Some (Status_OK, st)
  | row_group :: rest =>
      let next := row_index + num_rows row_group in
      misaligned ←
        (if is_filter_groups return option bool
         then _is_misaligned_range_group rd row_group
         else Some false);
      if misaligned : bool
      then row_groups_loop ext rd is_filter_groups rest (S row_group_idx) next st
      else
        '(status, filter_group, st1) ←
          (if is_filter_groups return option (Status * bool * PlanState)
           then _process_row_group_filter ext rd
                  (mkRowGroupIndex row_group_idx row_index next) row_group false st
           else Some (Status_OK, false, st));
        if negb (ok status) then Some (status, st1)
        else
          let st2 :=
            if filter_group : bool then
              mkPlanState (_read_lines st1) (_read_line_mode_row_ranges st1)
                (_ignored_stats st1) (_read_row_groups st1)
                (stat_read_row_groups st1) (stat_filtered_row_groups st1 + 1)
                (stat_filtered_group_rows st1 + num_rows row_group)
            else
              mkPlanState (_read_lines st1) (_read_line_mode_row_ranges st1)
                (_ignored_stats st1)
                (_read_row_groups st1 ++ [mkRowGroupIndex row_group_idx row_index next])
                (stat_read_row_groups st1 + 1) (stat_filtered_row_groups st1)
                (stat_filtered_group_rows st1) in
          row_groups_loop ext rd is_filter_groups rest (S row_group_idx) next st2
  end.

(** [ParquetReader::_init_row_groups]; [file_num_rows] is
    [_t_metadata->num_rows]. *)
Definition _init_row_groups (ext : Collaborators) (rd : ParquetReader)
    (is_filter_groups : bool) (row_groups : list RowGroup) (file_num_rows : Z)
    (st : PlanState) : option (Status * PlanState) :=
  if is_filter_groups
     && (bool_decide (row_groups = []) || bool_decide (file_num_rows = 0)
         || bool_decide (_range_size rd < 0))
  then Some (Status_EndOfFile "No row group to read", st)
  else
    let st0 :=
      mkPlanState (_read_lines st)
        (resize (length row_groups) [] (_read_line_mode_row_ranges st))
        (_ignored_stats st) (_read_row_groups st) (stat_read_row_groups st)
        (stat_filtered_row_groups st) (stat_filtered_group_rows st) in
    '(status, st') ← row_groups_loop ext rd is_filter_groups row_groups 0 0 st0;
    if negb (ok status) then Some (status, st')
    else if bool_decide (_read_row_groups st' = [])
    then Some (Status_EndOfFile "No row group to read", st')
    else Some (Status_OK, st').

(** The integer behind a plain-encoded (little-endian) minimum or
    maximum. *)
Fixpoint decode_plain_int (encoded : string) : Z :=
  match encoded with
  | EmptyString => 0
  | String a rest => Z.of_N (Ascii.N_of_ascii a) + 256 * decode_plain_int rest
  end.

(** Modelled from the spec: [ParquetPredicate::filter_by_stats] is outside
    these sources.  The design document keeps a row group unless its
    statistics prove it disjoint from the value range, and treats all-null
    and unusable statistics as proving nothing. *)
Definition filter_by_stats_spec (range : ColumnValueRange) (col_schema : FieldSchema)
    (ignore_min_max_stats : bool) (encoded_min encoded_max : string)
    (is_all_null use_min_max_value : bool) : bool :=
  if is_all_null || ignore_min_max_stats then false
  else
    let disjoint_low :=
      match low_value range with
      | Some low => bool_decide (decode_plain_int encoded_max < low)
      | None => false
      end in
    let disjoint_high :=
      match high_value range with
      | Some high => bool_decide (high < decode_plain_int encoded_min)
      | None => false
      end in
    disjoint_low || disjoint_high.

(** Scenario A: one row group of 100 rows whose only column [x] is an
    [INT32] column with statistics [{min: 10, max: 20}], and the value range
    of [x > 25].  [plain_int32 v] is the plain encoding of [0 <= v < 256]. *)
Definition plain_int32 (v : Z) : string :=
  String (Ascii.ascii_of_N (Z.to_N v))
    (String (Ascii.ascii_of_N 0) (String (Ascii.ascii_of_N 0)
       (String (Ascii.ascii_of_N 0) ""))).

Definition scenario_A_ext : Collaborators :=
  mkCollaborators (λ c, bool_decide (c = "x")) (λ c, c) ["x"]
    (λ _, mkFieldSchema 0 INT32 (mkSchemaElement INT32 None))
    filter_by_stats_spec (λ _ _, false).

Definition scenario_A_reader : ParquetReader :=
  init_reader_columns scenario_A_ext
    (mkParquetReader true (Some {[ "x" := mkColumnValueRange (Some 26) None ]})
       [] [] [] "parquet-mr version 1.12.0" 0 1000 false)
    ["x"].

Definition scenario_A_row_group : RowGroup :=
  mkRowGroup
    [mkColumnMetaData
       (mkStatistics (Some 0) None None (Some (plain_int32 20)) (Some (plain_int32 10)))
       100 4 400]
    100.

Definition plan_state_init : PlanState :=
  mkPlanState [] [] (λ _, None) [] 0 0 0.

End RowGroups.

(** ** Dictionary filtering of the ORC reader (vorc_reader.cpp 2330-2552) *)

Module DictFilter.
Local Open Scope Z_scope.

(** A conjunct context ([VExprContextSPtr]) is known by its identity; what
    it computes is the expression engine's business. *)
Definition VExprContextSPtr : Type := nat.

(** The two shapes [_rewrite_dict_conjuncts] builds: [eq(slot, code)] as a
    [BINARY_PRED] over [TYPE_INT], and a [VDirectInPredicate] over the hybrid
    set of the codes. *)
Inductive RewrittenConjunct : Type :=
  | EqCode (slot_id : Z) (int_literal : Z) (is_nullable : bool)
  | InCodes (slot_id : Z) (hybrid_set : list Z).

Record SlotDescriptor : Type := mkSlotDescriptor {
  id : Z;
  is_materialized : bool;
  is_nullable : bool;
  col_name : string
}.

(** The members of [OrcReader] that dictionary filtering rewrites. *)
Record DictState : Type := mkDictState {
  _dict_filter_cols : list (string * Z);
  _dict_filter_conjuncts : list RewrittenConjunct;
  _non_dict_filter_conjuncts : list VExprContextSPtr
}.

(** What it reads, and the collaborators outside these sources:
    [VExprContext::execute_conjuncts] on the temporary block holding the
    dictionary values (status, result filter, [can_filter_all]) and
    [prepare]/[open] of a rewritten conjunct. *)
Record DictEnv : Type := mkDictEnv {
  _slot_id_to_filter_conjuncts : gmap Z (list VExprContextSPtr);
  children_file_column_name : string → string;
  slots : list SlotDescriptor;
  execute_conjuncts : list VExprContextSPtr → list string → Status * list Z * bool;
  prepare_and_open : RewrittenConjunct → Status
}.

Definition MAX_DICT_CODE_PREDICATE_TO_REWRITE : Z := 2 ^ 32 - 1.

(** The position of the dictionary column in the temporary block and its
    nullability: the loop over the materialized slots. *)
Fixpoint find_dict_pos (slots : list SlotDescriptor) (slot_id : Z) (index : Z)
    (dict_pos : option (Z * bool)) : option (Z * bool) :=
  match slots with
  | [] => dict_pos
  | slot_desc :: rest =>
      if negb (is_materialized slot_desc)
      then find_dict_pos rest slot_id index dict_pos
      else if decide (id slot_desc = slot_id)
      then find_dict_pos rest slot_id (index + 1)
             (Some (index, is_nullable slot_desc))
      else find_dict_pos rest slot_id (index + 1) dict_pos
  end.

(** Step 3: the codes [i] with [result_filter[i]] set, from index [i] on. *)
Fixpoint dict_codes_from (i : Z) (result_filter : list Z) : list Z :=
  match result_filter with
  | [] => []
  | flag :: rest =>
      if decide (flag ≠ 0) then i :: dict_codes_from (i + 1) rest
      else dict_codes_from (i + 1) rest
  end.

(** [OrcReader::_rewrite_dict_conjuncts]: the status and the new
    [_dict_filter_conjuncts]. *)
Definition _rewrite_dict_conjuncts (env : DictEnv) (dict_codes : list Z)
    (slot_id : Z) (is_nullable : bool)
    (dict_filter_conjuncts : list RewrittenConjunct)
    : Status * list RewrittenConjunct :=
  let root :=
    match dict_codes with
    | [dict_code] => EqCode slot_id dict_code is_nullable
    | _ => InCodes slot_id dict_codes
    end in
  if ok (prepare_and_open env root)
  then (Status_OK, dict_filter_conjuncts ++ [root])
  else (prepare_and_open env root, dict_filter_conjuncts).

(** The loop of [on_string_dicts_loaded] over [_dict_filter_cols]: [kept]
    are the columns already passed ([++it]), [cols] the ones ahead; an erased
    column is in neither.  The result is the status, [*is_stripe_filtered]
    and the new state; a dictionary column that is not a materialized slot is
    undefined behaviour. *)
Fixpoint dict_cols_loop (env : DictEnv) (dict_map : gmap string (list string))
    (cols kept : list (string * Z))
    (dict_filter_conjuncts : list RewrittenConjunct)
    (non_dict_filter_conjuncts : list VExprContextSPtr)
    : option (Status * bool * DictState) :=
  match cols with
  | [] =>
      Some (Status_OK, false,
            mkDictState kept dict_filter_conjuncts non_dict_filter_conjuncts)
  | (dict_filter_col_name, slot_id) :: rest =>
      let here :=
        mkDictState (kept ++ cols) dict_filter_conjuncts non_dict_filter_conjuncts in
      match _slot_id_to_filter_conjuncts env !! slot_id with
      | None =>
          Some (Status_NotFound "_slot_id_to_filter_conjuncts: slot_id not found",
                false, here)
      | Some ctxs =>
          let erase :=
            dict_cols_loop env dict_map rest kept dict_filter_conjuncts
              (non_dict_filter_conjuncts ++ ctxs) in
          match dict_map !! children_file_column_name env dict_filter_col_name with
          | None => erase
          | Some dict_values =>
              if decide (length dict_values = 0%nat) then erase
              else
                '(dict_pos, nullable) ← find_dict_pos (slots env) slot_id 0 None;
                let '(status, result_filter, can_filter_all) :=
                  execute_conjuncts env ctxs dict_values in
                if negb (ok status) then Some (status, false, here)
                else if can_filter_all : bool then Some (Status_OK, true, here)
                else
                  let dict_codes := dict_codes_from 0 result_filter in
                  if decide (Z.of_nat (length dict_codes)
                             > MAX_DICT_CODE_PREDICATE_TO_REWRITE)
                  then erase
                  else
                    let '(status, rewritten) :=
                      _rewrite_dict_conjuncts env dict_codes slot_id nullable
                        dict_filter_conjuncts in
                    if negb (ok status) then Some (status, false, here)
                    else dict_cols_loop env dict_map rest
                           (kept ++ [(dict_filter_col_name, slot_id)])
                           rewritten non_dict_filter_conjuncts
          end
      end
  end.

(** [OrcReader::on_string_dicts_loaded]. *)
Definition on_string_dicts_loaded (env : DictEnv)
    (file_column_name_to_dict_map : gmap string (list string))
    (st : DictState) : option (Status * bool * DictState) :=
  dict_cols_loop env file_column_name_to_dict_map (_dict_filter_cols st) []
    (_dict_filter_conjuncts st) (_non_dict_filter_conjuncts st).

(** The contract of the expression engine the reader relies on: one flag
    per dictionary value, and [can_filter_all] exactly when no flag is
    set. *)
Definition engine_contract (env : DictEnv) : Prop :=
  ∀ ctxs dict_values,
    ok (execute_conjuncts env ctxs dict_values).1.1 = true →
    length (execute_conjuncts env ctxs dict_values).1.2 = length dict_values ∧
    ((execute_conjuncts env ctxs dict_values).2 = true ↔
     Forall (λ flag, flag = 0) (execute_conjuncts env ctxs dict_values).1.2).

(** Scenario C: the string slot 7 of column [col] with the single conjunct 0,
    [col = "b"], and an engine that evaluates it. *)
Definition scenario_C_engine (ctxs : list VExprContextSPtr) (dict_values : list string)
    : Status * list Z * bool :=
  let result_filter :=
    (λ value, if bool_decide (value = "b") then 1 else 0) <$> dict_values in
  (Status_OK, result_filter, bool_decide (Forall (λ flag, flag = 0) result_filter)).

Definition scenario_C_env : DictEnv :=
  mkDictEnv {[ 7 := [0%nat] ]} (λ c, c)
    [mkSlotDescriptor 7 true true "col"] scenario_C_engine (λ _, Status_OK).

Definition scenario_C_state : DictState := mkDictState [("col", 7)] [] [].

End DictFilter.

(** ** Cooperative cancellation of the ORC reader (vorc_reader.cpp 118-141 and 1867-2107, vorc_reader.h 602-611) *)

Module Cancel.

(** The shared stop flag of [io::IOContext] is written by another thread;
    [should_stop t] is the value this thread sees at its [t]-th look at the
    flag. *)
Record IOContext : Type := mkIOContext { should_stop : nat → bool }.

(** The events of a call, in order: a look at the flag, with what it saw (on
    entry to [get_next_block_impl], in the read loop of the input stream, in
    an exception handler), and the start of a call into the ORC library
    ([seekToRow] with its row, [nextBatch]). *)
Inductive Event : Set :=
  | EntryCheck (seen : bool)
  | ReadCheck (seen : bool)
  | CatchCheck (seen : bool)
  | SeekToRow (row : nat)
  | NextBatch.

(** The number of looks so far and the log of events. *)
Record World : Set := mkWorld { clock : nat; events : list Event }.

(** A call either returns or throws a [std::exception] with message
    [what]. *)
Inductive Outcome (A : Type) : Type :=
  | Returns (a : A)
  | Throws (what : string).
Arguments Returns {A} a.
Arguments Throws {A} what.

(** Computations that look at the flag and may throw. *)
Definition M (A : Type) : Type := World → Outcome A * World.

Definition ret {A : Type} (a : A) : M A := λ w, (Returns a, w).
Definition throw {A : Type} (what : string) : M A := λ w, (Throws what, w).
Definition bind {A B : Type} (m : M A) (k : A → M B) : M B :=
  λ w, match m w with
       | (Returns a, w') => k a w'
       | (Throws what, w') => (Throws what, w')
       end.

(** [_io_ctx && _io_ctx->should_stop]. *)
Definition stop_requested (io_ctx : option IOContext) (label : bool → Event)
    : M bool :=
  λ w, match io_ctx with
       | None => (Returns false, w)
       | Some ctx =>
           let seen := should_stop ctx (clock w) in
           (Returns seen, mkWorld (S (clock w)) (events w ++ [label seen]))
       end.

(** The log entry for the start of a library call; it is no look at the
    flag. *)
Definition calls (event : Event) : M unit :=
  λ w, (Returns tt, mkWorld (clock w) (events w ++ [event])).

(** The input stream of the ORC reader: the [_io_ctx] it is built with (the
    reader's own, [_create_file_reader] line 283), its file name and
    [read_at] of the underlying file reader (offset and length to the status
    and the number of bytes read). *)
Record ORCFileInputStream : Type := mkORCFileInputStream {
  stream_io_ctx : option IOContext;
  _file_name : string;
  read_at : nat → nat → Status * nat
}.

(** The [while (has_read < length)] loop of [ORCFileInputStream::read]
    followed by the final length check.  Every iteration that continues has
    read at least one byte, so [fuel >= length - has_read] iterations are
    enough. *)
Fixpoint read_loop (stream : ORCFileInputStream) (length offset : nat)
    (fuel has_read : nat) : M unit :=
  let finish : M unit :=
    if decide (has_read ≠ length)
    then throw ("Try to read from " +:+ _file_name stream)
    else ret tt in
  if decide (has_read < length) then
    match fuel with
    | O => finish
    | S fuel' =>
        bind (stop_requested (stream_io_ctx stream) ReadCheck) (λ stop,
          if stop : bool then throw "stop"
          else
            let '(st, loop_read) :=
              read_at stream (offset + has_read) (length - has_read) in
            if negb (ok st)
            then throw ("Failed to read " +:+ _file_name stream +:+ ": " +:+ what st)
            else if decide (loop_read = 0) then finish
            else read_loop stream length offset fuel' (has_read + loop_read))
    end
  else finish.

(** [ORCFileInputStream::read(buf, length, offset)]. *)
Definition read (stream : ORCFileInputStream) (length offset : nat) : M unit :=
  read_loop stream length offset length 0.

(** What [_row_reader->nextBatch] does, seen from the reader: it reads from
    the input stream, may run the filter callback, which materializes rows of
    the predicate columns into the block, and ends with the number of rows
    and [numElements], or with an exception of its own.  An exception of the
    stream passes through unchanged. *)
Inductive OrcProgram : Set :=
  | Read (length offset : nat) (next : OrcProgram)
  | FilterCallback (block_rows : nat) (next : OrcProgram)
  | Finish (rr numElements : nat)
  | Fail (what : string).

(** The outcome of [nextBatch], the rows it left in the block, and the
    world. *)
Fixpoint nextBatch (stream : ORCFileInputStream) (prog : OrcProgram)
    (block_rows : nat) (w : World) : Outcome (nat * nat) * nat * World :=
  match prog with
  | Read length offset next =>
      match read stream length offset w with
      | (Returns _, w') => nextBatch stream next block_rows w'
      | (Throws what, w') => (Throws what, block_rows, w')
      end
  | FilterCallback rows next => nextBatch stream next rows w
  | Finish rr numElements => (Returns (rr, numElements), block_rows, w)
  | Fail what => (Throws what, block_rows, w)
  end.

(** What [_row_reader->seekToRow] does, seen from the reader: it reads from
    the input stream and returns, or ends with an exception of its own; it
    does not touch the block. *)
Inductive SeekProgram : Set :=
  | SeekRead (length offset : nat) (next : SeekProgram)
  | SeekDone
  | SeekFail (what : string).

Fixpoint seekToRow (stream : ORCFileInputStream) (prog : SeekProgram) : M unit :=
  match prog with
  | SeekRead length offset next =>
      bind (read stream length offset) (λ _, seekToRow stream next)
  | SeekDone => ret tt
  | SeekFail what => throw what
  end.

(** What a call of [get_next_block_impl] leaves behind: the status, the out
    parameters [*eof] and [*read_rows], and the number of rows in the
    block. *)
Record NextBlock : Set := mkNextBlock {
  status : Status;
  eof : bool;
  read_rows : nat;
  block_rows : nat
}.

(** The members of [OrcReader] that [get_next_block_impl] reads, the behaviour
    of the ORC library for this call ([seekToRow] for a row, [nextBatch]), and
    the rest of the call after a non-empty batch (decoding, filling and
    filtering, which do not look at the flag), given the batch and the
    block. *)
Record OrcReader : Type := mkOrcReader {
  _io_ctx : option IOContext;
  _file_input_stream : ORCFileInputStream;
  push_down_count : bool;
  remaining_rows : nat;
  _batch_size : nat;
  _read_line_mode_mode : bool;
  _read_lines : list nat;
  seek_to_row_program : nat → SeekProgram;
  next_batch_program : OrcProgram;
  after_batch : nat → nat → NextBlock → NextBlock
}.

(** [OrcReader::_seek_to_read_one_line] (vorc_reader.h 602-611): what it
    returns and [_read_lines] after it.  An exception of [seekToRow] leaves
    the function before the line is popped. *)
Definition _seek_to_read_one_line (rd : OrcReader) : M (bool * list nat) :=
  if _read_line_mode_mode rd then
    match _read_lines rd with
    | [] => ret (false, [])
    | front :: rest =>
        bind (calls (SeekToRow front)) (λ _,
        bind (seekToRow (_file_input_stream rd) (seek_to_row_program rd front)) (λ _,
        ret (true, rest)))
    end
  else ret (true, _read_lines rd).

(** The [try] block around [nextBatch] with its handler (the same in the
    lazy and in the eager branch), and the rest of the call. *)
Definition read_batch (rd : OrcReader) (before : NextBlock) : M NextBlock :=
  bind (calls NextBatch) (λ _ w1,
    match nextBatch (_file_input_stream rd) (next_batch_program rd)
            (block_rows before) w1 with
    | (Returns (rr, numElements), rows, w2) =>
        if decide (rr = 0 ∨ numElements = 0)
        then (Returns (mkNextBlock Status_OK true 0 rows), w2)
        else (Returns (after_batch rd rr numElements
                         (mkNextBlock Status_OK (eof before) (read_rows before) rows)),
              w2)
    | (Throws _err_msg, rows, w2) =>
        bind (stop_requested (_io_ctx rd) CatchCheck) (λ stop,
          if stop && bool_decide (_err_msg = "stop")
          then ret (mkNextBlock Status_OK true 0 0)
          else ret (mkNextBlock
                      (Status_InternalError
                         ("Orc row reader nextBatch failed. reason = " +:+ _err_msg))
                      (eof before) (read_rows before) rows)) w2
    end).

(** [OrcReader::get_next_block_impl]; [before] holds the values of the out
    parameters and of the block when the call starts.  The call returns what
    it leaves behind together with [_read_lines], or an exception of
    [seekToRow], which is called outside every [try] block, leaves it. *)
Definition get_next_block_impl (rd : OrcReader) (before : NextBlock)
    : M (NextBlock * list nat) :=
  bind (stop_requested (_io_ctx rd) EntryCheck) (λ stop,
    if stop : bool
    then ret (mkNextBlock Status_OK true 0 (block_rows before), _read_lines rd)
    else if push_down_count rd then
      let rows := Nat.min (remaining_rows rd) (_batch_size rd) in
      ret (mkNextBlock Status_OK
             (if decide (remaining_rows rd - rows = 0) then true else eof before)
             rows rows,
           _read_lines rd)
    else
      bind (_seek_to_read_one_line rd) (λ '(sought, lines),
        if negb sought
        then ret (mkNextBlock Status_OK true (read_rows before) (block_rows before),
                  lines)
        else bind (read_batch rd before) (λ after, ret (after, lines)))).




(** The flag is raised from the [n]-th look on. *)
Definition raised_from (n : nat) : IOContext := mkIOContext (λ t, bool_decide (n ≤ t)).

(** A scan that is stopped while it reads: the flag is raised between the
    second and the third look, the file reader hands out two bytes per call,
    and [nextBatch] wants two reads of four bytes after the filter callback
    has put 7 rows into the block. *)
Definition stopping_io_ctx : IOContext := raised_from 2.

Definition stopping_reader : OrcReader :=
  mkOrcReader (Some stopping_io_ctx)
    (mkORCFileInputStream (Some stopping_io_ctx) "f.orc" (λ _ _, (Status_OK, 2)))
    false 0 4096 false [] (λ _, SeekDone)
    (FilterCallback 7 (Read 4 0 (Read 4 4 (Finish 10 10))))
    (λ rr numElements blk,
       mkNextBlock Status_OK false numElements numElements).




(** A scan by row id that is stopped while [seekToRow] reads the row index
    of line 5. *)
Definition seeking_reader : OrcReader :=
  mkOrcReader (Some (raised_from 1))
    (mkORCFileInputStream (Some (raised_from 1)) "f.orc" (λ _ _, (Status_OK, 2)))
    false 0 4096 true [5; 9] (λ _, SeekRead 4 0 SeekDone)
    (Finish 1 1)
    (λ rr numElements blk,
       mkNextBlock Status_OK false numElements numElements).

End Cancel.

(** ** Opening the files (vorc_reader.cpp 269-311, vparquet_reader.cpp 207-265 and 303-355) *)

Module Open.
Import Cancel.
Local Open Scope Z_scope.

(** [_err_msg.find(pattern) != std::string::npos]. *)
Definition contains (s pattern : string) : bool :=
  match String.index 0 pattern s with
  | Some _ => true
  | None => false
  end.

(** The members of [OrcReader] that [_create_file_reader] touches: [_reader]
    (here: whether it exists) and [_file_input_stream] (here: the length of
    the file behind it). *)
Record OrcOpen : Set := mkOrcOpen {
  _reader : bool;
  _file_input_stream : option Z
}.

(** What the file system and the ORC library answer:
    [io::DelegateReader::create_file_reader] (an error status or a file of
    some length), [orc::createReader] (success or an exception), and
    [_io_ctx && _io_ctx->should_stop] as the handler sees it. *)
Record OrcOpenEnv : Set := mkOrcOpenEnv {
  path : string;
  create_file_reader : Status + Z;
  createReader : Outcome unit;
  stop_requested_at_catch : bool
}.

(** [OrcReader::_create_file_reader]. *)
Definition _create_file_reader (env : OrcOpenEnv) (st : OrcOpen) : Status * OrcOpen :=
  if _reader st then (Status_OK, st)
  else
    let opened : Status + Z :=
      match _file_input_stream st with
      | Some length => inr length
      | None => create_file_reader env
      end in
    match opened with
    | inl error => (error, st)
    | inr length =>
        let st1 := mkOrcOpen false (Some length) in
        if decide (length = 0)
        then (Status_EndOfFile ("empty orc file: " +:+ path env), st1)
        else
          match createReader env with
          | Returns _ => (Status_OK, mkOrcOpen true None)
          | Throws _err_msg =>
              let st2 := mkOrcOpen false None in
              if stop_requested_at_catch env && bool_decide (_err_msg = "stop")
              then (Status_EndOfFile "stop", st2)
              else if contains _err_msg "No such file or directory"
                      || contains _err_msg "NoSuchKey"
              then (Status_NotFound _err_msg, st2)
              else (Status_InternalError
                      ("Init OrcReader failed. reason = " +:+ _err_msg), st2)
          end
    end.

(** [FileMetaData], as far as opening looks at it. *)
Record FileMetaData : Set := mkFileMetaData {
  row_groups : list RowGroups.RowGroup;
  file_num_rows : Z
}.

(** The members of [ParquetReader] that [_open_file] touches: [_file_reader]
    (here: the size of the file) and [_file_metadata]. *)
Record ParquetOpen : Set := mkParquetOpen {
  _file_reader : option Z;
  _file_metadata : option FileMetaData
}.

(** What the file system and the footer parser answer: [should_stop],
    [create_file_reader], and the footer as [parse_thrift_footer] or the
    meta cache delivers it (a status and the metadata pointer). *)
Record ParquetOpenEnv : Set := mkParquetOpenEnv {
  parquet_path : string;
  should_stop_at_open : bool;
  parquet_create_file_reader : Status + Z;
  load_footer : Status * option FileMetaData
}.

(** [sizeof(PARQUET_VERSION_NUMBER)]: the four bytes [PAR1]. *)
Definition sizeof_PARQUET_VERSION_NUMBER : Z := 4.

(** [ParquetReader::_open_file]. *)
Definition _open_file (env : ParquetOpenEnv) (st : ParquetOpen) : Status * ParquetOpen :=
  if should_stop_at_open env then (Status_EndOfFile "stop", st)
  else
    let opened : Status + Z :=
      match _file_reader st with
      | Some size => inr size
      | None => parquet_create_file_reader env
      end in
    match opened with
    | inl error => (error, st)
    | inr size =>
        let st1 := mkParquetOpen (Some size) (_file_metadata st) in
        match _file_metadata st with
        | Some _ => (Status_OK, st1)
        | None =>
            if decide (size ≤ sizeof_PARQUET_VERSION_NUMBER)
            then (Status_EndOfFile
                    ("open file failed, empty parquet file " +:+ parquet_path env), st1)
            else
              let '(status, metadata) := load_footer env in
              if negb (ok status) then (status, mkParquetOpen (Some size) metadata)
              else
                match metadata with
                | None =>
                    (Status_InternalError
                       ("failed to get file meta data: " +:+ parquet_path env), st1)
                | Some _ => (Status_OK, mkParquetOpen (Some size) metadata)
                end
        end
    end.

(** [ParquetReader::init_reader]: the file is opened, an empty list of row
    groups ends the scan, the columns are selected and the row groups are
    planned. *)
Definition init_reader (env : ParquetOpenEnv) (ext : RowGroups.Collaborators)
    (rd : RowGroups.ParquetReader) (st : ParquetOpen)
    (all_column_names : list string) (filter_groups : bool)
    (plan : RowGroups.PlanState)
    : option (Status * ParquetOpen * RowGroups.ParquetReader * RowGroups.PlanState) :=
  let '(status, st1) := _open_file env st in
  if negb (ok status) then Some (status, st1, rd, plan)
  else
    match _file_metadata st1 with
    | None =>
        Some (Status_InternalError
                "failed to init parquet reader, please open reader first",
              st1, rd, plan)
    | Some metadata =>
        if decide (length (row_groups metadata) = 0%nat)
        then Some (Status_EndOfFile
                     ("init reader failed, empty parquet file: " +:+ parquet_path env),
                   st1, rd, plan)
        else
          let rd1 := RowGroups.init_reader_columns ext rd all_column_names in
          '(status, plan1) ←
            RowGroups._init_row_groups ext rd1 filter_groups (row_groups metadata)
              (file_num_rows metadata) plan;
          Some (status, st1, rd1, plan1)
    end.

End Open.

(** ** Sample scans and the design document's wording *)

Module Scenario.
Import Expr.

(** The conjunct [x > 25]: a binary predicate over the slot of column [x]
    (column 0, slot 1) and a literal. *)
Definition x_gt_25 : VExpr :=
  VOtherExpr [VSlotRef "x" 0 1 []; VOtherExpr []].

(** An ORC scan of the file columns [x] and [y] with the given conjuncts; the
    table is not transactional, so the ACID column names play no role. *)
Definition orc_xy (conjuncts : list VExpr) : Orc.OrcReader :=
  Orc.mkOrcReader false true true ["x"; "y"] (Orc.init_lazy_read_ctx conjuncts)
    [] [] (λ c, c).

Definition orc_quiet : Orc.SetFillExternal :=
  Orc.mkSetFillExternal true false None None false.

(** The same scan on a Parquet file. *)
Definition parquet_xy (conjuncts : list VExpr) : Parquet.ParquetReader :=
  Parquet.mkParquetReader true ["x"; "y"] (Parquet.init_lazy_read_ctx conjuncts)
    (λ _, false) None ∅.

(** The invariant of the data model, in the document's words: a column is
    in exactly one of the four sets. *)
Definition in_exactly_one_of_four (c : string) (predicate lazy : list string)
    (partition missing : gset string) : Prop :=
  ((c ∈ predicate) ∧ (c ∉ lazy) ∧ (c ∉ partition) ∧ (c ∉ missing)) ∨
  ((c ∉ predicate) ∧ (c ∈ lazy) ∧ (c ∉ partition) ∧ (c ∉ missing)) ∨
  ((c ∉ predicate) ∧ (c ∉ lazy) ∧ (c ∈ partition) ∧ (c ∉ missing)) ∨
  ((c ∉ predicate) ∧ (c ∉ lazy) ∧ (c ∉ partition) ∧ (c ∈ missing)).

(** A runtime IN filter on column [x] whose slot reference is not the first
    child of the IN predicate. *)
Definition in_filter_on_x : VExpr :=
  VRuntimeFilterWrapper (VInPredicate [VOtherExpr []; VSlotRef "x" 0 1 []]) [].

(** The conjunct [p = 1] over the slot of the partition column [p]
    (column 2, slot 3), the partition column [p] with its value and the
    missing column [m] with its default. *)
Definition p_eq_1 : VExpr :=
  VOtherExpr [VSlotRef "p" 2 3 []; VOtherExpr []].

Definition partition_p : gmap string (string * Z) := {[ "p" := ("1", 3%Z) ]}.

Definition missing_m : gmap string VExpr := {[ "m" := VOtherExpr [] ]}.

End Scenario.

(** ** Row numbers of the queued row groups (vparquet_reader.cpp 642-702, 745-757 and 899-928) *)

Module RowGroupPlan.
Import RowGroups.
Local Open Scope Z_scope.
(** The value of [row_index] when the loop of [_init_row_groups] reaches the
    row group [k]: the rows of all row groups before it. *)
Definition rows_before (row_groups : list RowGroup) (k : nat) : Z :=
  foldr Z.add 0 (num_rows <$> take k row_groups).

(** The one-row range of line [v] inside a row group that starts at row
    [group_start]. *)
Definition line_range (group_start v : Z) : PageIndex.RowRange :=
  PageIndex.mkRowRange (v - group_start) (v - group_start + 1).

(** The lines of [read_lines] that fall into the row group [k]. *)
Definition lines_of_group (row_groups : list RowGroup) (k : nat) (g : RowGroup)
    (read_lines : list Z) : list Z :=
  filter (λ v, rows_before row_groups k ≤ v < rows_before row_groups k + num_rows g)
         read_lines.

(** The entry [i] of the queue names one of [groups], counted from [idx],
    with its rows counted from [row_index]. *)
Definition numbered (groups : list RowGroup) (idx : nat) (row_index : Z)
    (i : RowGroupIndex) : Prop :=
  ∃ k g, row_group_id i = (idx + k)%nat ∧ groups !! k = Some g ∧
         first_row i = row_index + rows_before groups k ∧
         last_row i = first_row i + num_rows g.

(** A sample file for the statements below: row groups of 100 rows with one
    column chunk of 400 bytes each, and a reader of a byte range of it. *)
Definition sample_row_group (start : Z) : RowGroup :=
  mkRowGroup
    [mkColumnMetaData (mkStatistics None None None None None) 100 start 400] 100.

Definition range_reader (start size : Z) (line_mode : bool) : ParquetReader :=
  mkParquetReader false None [] [] [] "parquet-mr" start size line_mode.

End RowGroupPlan.

(** ** Scanning the queued row groups of the Parquet reader (vparquet_reader.cpp 508-640) *)

Module ParquetScan.
Import RowGroups.
Local Open Scope Z_scope.

(** The arguments of the two constructors of
    [RowGroupReader::PositionDeleteContext] that the reader calls: without
    position deletes, and with the delete rows and the window
    [start_index, end_index) into them. *)
Inductive PositionDeleteContext : Set :=
  | NoPositionDeletes (num_rows first_row : Z)
  | PositionDeletes (delete_rows : list Z) (num_rows first_row : Z)
                    (start_index end_index : nat).

(** [std::lower_bound(first, last, val)] on [int64_t], the window given by
    its first index and its length. *)
Definition lower_bound_from (v : list Z) (first len : nat) (val : Z) : nat :=
  PositionDelete.bound_loop (λ x, bool_decide (x < val)) v len first len.

(** [ParquetReader::_get_position_delete_ctx]: the context and the new
    [_delete_rows_index].  A [_delete_rows_index] behind the end of the
    vector makes the pointer range of the first search invalid. *)
Definition _get_position_delete_ctx (_delete_rows : option (list Z))
    (_delete_rows_index : nat) (row_group : RowGroup)
    (row_group_index : RowGroupIndex) : option (PositionDeleteContext * nat) :=
  match _delete_rows with
  | None =>
      Some (NoPositionDeletes (num_rows row_group) (first_row row_group_index),
            _delete_rows_index)
  | Some delete_rows =>
      if decide (_delete_rows_index ≤ length delete_rows)%nat then
        let start_index :=
          lower_bound_from delete_rows _delete_rows_index
            (length delete_rows - _delete_rows_index) (first_row row_group_index) in
        let end_index :=
          lower_bound_from delete_rows start_index
            (length delete_rows - start_index) (last_row row_group_index) in
        Some (PositionDeletes delete_rows (num_rows row_group)
                (first_row row_group_index) start_index end_index,
              end_index)
      else None
  end.

(** What the reader sees of a [RowGroupReader] of type [R]:
    [get_remaining_rows], [set_remaining_rows], and [next_batch], which
    answers with a status, [*read_rows], [*batch_eof], the rows it left in
    the columns of the block, and the reader after the call. *)
Record RowGroupReaderOps (R : Type) : Type := mkRowGroupReaderOps {
  get_remaining_rows : R → Z;
  set_remaining_rows : R → Z → R;
  next_batch : R → list Z → Z → Status * Z * bool * list Z * R
}.
Arguments get_remaining_rows {R} _ _.
Arguments set_remaining_rows {R} _ _ _.
Arguments next_batch {R} _ _ _ _.

(** The surroundings of a scan: the row groups of the footer,
    [_delete_rows], [_batch_size], whether the count aggregate is pushed down
    ([_push_down_agg_type == TPushAggOp::COUNT]), the outcome of
    [_process_page_index] for a row group, and the construction of the
    [RowGroupReader] followed by its [init]. *)
Record ScanEnv (R : Type) : Type := mkScanEnv {
  row_groups : list RowGroup;
  _delete_rows : option (list Z);
  _batch_size : Z;
  push_down_count : bool;
  scan_path : string;
  process_page_index : RowGroupIndex → RowGroup → Status * list PageIndex.RowRange;
  new_row_group_reader :
    RowGroupIndex → RowGroup → PositionDeleteContext → list PageIndex.RowRange
    → Status * R;
  ops : RowGroupReaderOps R
}.
Arguments row_groups {R} _.
Arguments _delete_rows {R} _.
Arguments _batch_size {R} _.
Arguments push_down_count {R} _.
Arguments scan_path {R} _.
Arguments process_page_index {R} _ _ _.
Arguments new_row_group_reader {R} _ _ _ _ _.
Arguments ops {R} _.

(** The members of [ParquetReader] a scan changes. *)
Record ScanState (R : Type) : Type := mkScanState {
  _current_group_reader : option R;
  _row_group_eof : bool;
  _read_row_groups : list RowGroupIndex;
  _delete_rows_index : nat
}.
Arguments mkScanState {R} _ _ _ _.
Arguments _current_group_reader {R} _.
Arguments _row_group_eof {R} _.
Arguments _read_row_groups {R} _.
Arguments _delete_rows_index {R} _.

(** [ParquetReader::_next_row_group_reader].  The choice of the file reader
    for the group (merged small reads or not) does not show in what is
    read. *)
Definition _next_row_group_reader {R : Type} (env : ScanEnv R) (s : ScanState R)
    : option (Status * ScanState R) :=
  match _read_row_groups s with
  | [] =>
      Some (Status_EndOfFile "No next RowGroupReader",
            mkScanState None true [] (_delete_rows_index s))
  | row_group_index :: rest =>
      row_group ← row_groups env !! row_group_id row_group_index;
      let '(st, candidate_row_ranges) :=
        process_page_index env row_group_index row_group in
      if negb (ok st)
      then Some (st, mkScanState (_current_group_reader s) (_row_group_eof s)
                       rest (_delete_rows_index s))
      else
        '(position_delete_ctx, index) ←
          _get_position_delete_ctx (_delete_rows env) (_delete_rows_index s)
            row_group row_group_index;
        let '(st_init, reader) :=
          new_row_group_reader env row_group_index row_group position_delete_ctx
            candidate_row_ranges in
        Some (st_init, mkScanState (Some reader) false rest index)
  end.

(** The out parameters [*read_rows] and [*eof] and the rows in the columns
    of the block. *)
Record Out : Set := mkOut { read_rows : Z; eof : bool; block : list Z }.

Definition is_end_of_file (st : Status) : bool :=
  match code st with END_OF_FILE => true | _ => false end.

(** [(int64_t)_batch_size]. *)
Definition cast_int64 (x : Z) : Z := OrcDecimal.wrap_signed 64 x.

(** The second half of [ParquetReader::get_next_block] (lines 522-569): a
    batch of the current row group, by counting or by reading.  [before]
    holds the out parameters and the block when the call starts;
    [Status::to_string] of a failed batch is rendered by its message. *)
Definition next_batch_of_group {R : Type} (env : ScanEnv R) (s : ScanState R)
    (before : Out) : option (Status * Out * ScanState R) :=
  match _current_group_reader s with
  | None => None
  | Some reader =>
      if push_down_count env then
        let rows :=
          Z.min (get_remaining_rows (ops env) reader) (cast_int64 (_batch_size env)) in
        let reader1 :=
          set_remaining_rows (ops env) reader
            (OrcDecimal.wrap_signed 64 (get_remaining_rows (ops env) reader - rows)) in
        Some (Status_OK,
              mkOut (PositionDelete.to_uint64 rows) (eof before)
                ((λ _, PositionDelete.to_uint64 rows) <$> block before),
              mkScanState
                (if decide (get_remaining_rows (ops env) reader1 = 0)
                 then None else Some reader1)
                (_row_group_eof s) (_read_row_groups s) (_delete_rows_index s))
      else
        let '(batch_st, rows, batch_eof, blk, reader1) :=
          next_batch (ops env) reader (block before) (_batch_size env) in
        if is_end_of_file batch_st then
          Some (Status_OK, mkOut 0 true ((λ _, 0) <$> blk),
                mkScanState None batch_eof (_read_row_groups s)
                  (_delete_rows_index s))
        else if negb (ok batch_st) then
          Some (Status_InternalError
                  ("Read parquet file " +:+ scan_path env +:+ " failed, reason = "
                   +:+ what batch_st),
                mkOut rows (eof before) blk,
                mkScanState (Some reader1) batch_eof (_read_row_groups s)
                  (_delete_rows_index s))
        else
          Some (Status_OK,
                mkOut rows
                  (if batch_eof then bool_decide (_read_row_groups s = [])
                   else eof before)
                  blk,
                mkScanState (Some reader1) batch_eof (_read_row_groups s)
                  (_delete_rows_index s))
  end.

(** What the first half of [get_next_block] leaves when the scan is over:
    [OK], [*read_rows = 0], [*eof = true], no current reader. *)
Definition scan_finished {R : Type} (s : ScanState R) (before : Out)
    : Status * Out * ScanState R :=
  (Status_OK, mkOut 0 true (block before),
   mkScanState None true (_read_row_groups s) (_delete_rows_index s)).

(** [ParquetReader::get_next_block]. *)
Definition get_next_block {R : Type} (env : ScanEnv R) (s : ScanState R)
    (before : Out) : option (Status * Out * ScanState R) :=
  match _current_group_reader s, _row_group_eof s with
  | Some _, false => next_batch_of_group env s before
  | _, _ =>
      '(st, s1) ← _next_row_group_reader env s;
      if negb (ok st) && negb (is_end_of_file st) then Some (st, before, s1)
      else
        match _current_group_reader s1 with
        | None => Some (scan_finished s1 before)
        | Some _ =>
            if _row_group_eof s1 || is_end_of_file st
            then Some (scan_finished s1 before)
            else next_batch_of_group env s1 before
        end
  end.

(** [n] calls of [get_next_block] in a row, each on the block and the out
    parameters the call before left: the statuses and [*read_rows] of the
    calls, the last out parameters and the last state. *)
Fixpoint get_next_blocks {R : Type} (env : ScanEnv R) (n : nat) (s : ScanState R)
    (before : Out) : option (list (Status * Z) * Out * ScanState R) :=
  match n with
  | O => Some ([], before, s)
  | S n' =>
      '(st, out, s1) ← get_next_block env s before;
      '(rest, out', s') ← get_next_blocks env n' s1 out;
      Some ((st, read_rows out) :: rest, out', s')
  end.

(** A sample scan for the statements below: two row groups of 100 rows, a
    batch size of 40, and row-group readers that are nothing but their count
    of remaining rows. *)
Definition counting_ops : RowGroupReaderOps Z :=
  mkRowGroupReaderOps Z (λ reader, reader) (λ _ rows, rows)
    (λ reader blk batch_size,
       (Status_OK, Z.min reader batch_size, bool_decide (reader ≤ batch_size),
        (λ _, Z.min reader batch_size) <$> blk, reader - Z.min reader batch_size)).

Definition sample_scan (count : bool) (delete_rows : option (list Z)) : ScanEnv Z :=
  mkScanEnv Z
    [mkRowGroup [] 100; mkRowGroup [] 100] delete_rows 40 count "file.parquet"
    (λ _ _, (Status_OK, [])) (λ _ row_group _ _, (Status_OK, num_rows row_group))
    counting_ops.

End ParquetScan.

(** ** Search arguments of the ORC reader (vorc_reader.cpp 432-948) *)

Module SearchArgument.

(** [orc::TypeKind]. *)
Inductive TypeKind : Set :=
  | BOOLEAN | BYTE | SHORT | INT | LONG | FLOAT | DOUBLE | STRING | BINARY
  | TIMESTAMP | LIST | MAP | STRUCT | UNION | DECIMAL | DATE | VARCHAR | CHAR
  | TIMESTAMP_INSTANT.

Global Instance TypeKind_eq_dec : EqDecision TypeKind.
Proof. solve_decision. Defined.

(** [orc::PredicateDataType]; [LONG] is its first enumerator. *)
Inductive PredicateDataType : Set :=
  | PT_LONG | PT_FLOAT | PT_STRING | PT_DATE | PT_DECIMAL | PT_TIMESTAMP
  | PT_BOOLEAN.

(** The static table [TYPEKIND_TO_PREDICATE_TYPE]; [CHAR] is left out on
    purpose, the complex kinds have no predicate type. *)
Definition TYPEKIND_TO_PREDICATE_TYPE (kind : TypeKind) : option PredicateDataType :=
  match kind with
  | BYTE | SHORT | INT | LONG => Some PT_LONG
  | FLOAT | DOUBLE => Some PT_FLOAT
  | STRING | BINARY | VARCHAR => Some PT_STRING
  | DATE => Some PT_DATE
  | DECIMAL => Some PT_DECIMAL
  | TIMESTAMP => Some PT_TIMESTAMP
  | BOOLEAN => Some PT_BOOLEAN
  | CHAR | LIST | MAP | STRUCT | UNION | TIMESTAMP_INSTANT => None
  end.

(** [PrimitiveType], the types this file names and one for the rest. *)
Inductive PrimitiveType : Set :=
  | TYPE_BOOLEAN | TYPE_TINYINT | TYPE_SMALLINT | TYPE_INT | TYPE_BIGINT
  | TYPE_LARGEINT | TYPE_FLOAT | TYPE_DOUBLE | TYPE_DATE | TYPE_DATETIME
  | TYPE_DATEV2 | TYPE_DATETIMEV2 | TYPE_CHAR | TYPE_VARCHAR | TYPE_STRING
  | TYPE_HLL | TYPE_DECIMALV2 | TYPE_DECIMAL32 | TYPE_DECIMAL64
  | TYPE_DECIMAL128I | TYPE_DECIMAL256 | TYPE_IPV4 | TYPE_IPV6 | TYPE_ARRAY
  | TYPE_MAP | TYPE_STRUCT | TYPE_OTHER.

Global Instance PrimitiveType_eq_dec : EqDecision PrimitiveType.
Proof. solve_decision. Defined.

(** The primitive type of [convert_to_doris_type(orc_type)] (lines
    1306-1370); an unsupported kind throws. *)
Definition doris_primitive_type (kind : TypeKind) : option PrimitiveType :=
  match kind with
  | BOOLEAN => Some TYPE_BOOLEAN
  | BYTE => Some TYPE_TINYINT
  | SHORT => Some TYPE_SMALLINT
  | INT => Some TYPE_INT
  | LONG => Some TYPE_BIGINT
  | FLOAT => Some TYPE_FLOAT
  | DOUBLE => Some TYPE_DOUBLE
  | STRING | BINARY => Some TYPE_STRING
  | TIMESTAMP | TIMESTAMP_INSTANT => Some TYPE_DATETIMEV2
  | DECIMAL => Some TYPE_DECIMAL128I
  | DATE => Some TYPE_DATEV2
  | VARCHAR => Some TYPE_VARCHAR
  | CHAR => Some TYPE_CHAR
  | LIST => Some TYPE_ARRAY
  | MAP => Some TYPE_MAP
  | STRUCT => Some TYPE_STRUCT
  | UNION => None
  end.

(** An [orc::Literal] by the way it is built: [Literal(bool)], or the
    literal [convert_to_orc_literal<primitive_type>] computes from its
    arguments (the kind of the column, the bytes of the Doris literal, the
    precision and the scale). *)
Inductive Literal : Set :=
  | Literal_bool (b : bool)
  | Literal_of (primitive_type : PrimitiveType) (kind : TypeKind) (data : string)
               (precision scale : Z).

(** [convert_to_orc_literal<primitive_type>]: which combinations of column
    kind and literal type convert.  [throws] tells whether the conversion
    raises an [Exception], which the handler turns into "not valid". *)
Definition convert_to_orc_literal (throws : bool) (primitive_type : PrimitiveType)
    (kind : TypeKind) (literal_data : string) (precision scale : Z)
    : bool * Literal :=
  let converted := (true, Literal_of primitive_type kind literal_data precision scale) in
  let invalid := (false, Literal_bool false) in
  if throws then invalid
  else
    match kind with
    | BOOLEAN =>
        match primitive_type with TYPE_BOOLEAN => converted | _ => invalid end
    | BYTE | SHORT | INT | LONG =>
        match primitive_type with
        | TYPE_TINYINT | TYPE_SMALLINT | TYPE_INT | TYPE_BIGINT => converted
        | _ => invalid
        end
    | FLOAT =>
        match primitive_type with TYPE_FLOAT | TYPE_DOUBLE => converted | _ => invalid end
    | DOUBLE =>
        match primitive_type with TYPE_DOUBLE => converted | _ => invalid end
    | STRING | BINARY | VARCHAR =>
        match primitive_type with
        | TYPE_STRING | TYPE_CHAR | TYPE_VARCHAR => converted
        | _ => invalid
        end
    | DECIMAL =>
        match primitive_type with
        | TYPE_DECIMALV2 | TYPE_DECIMAL32 | TYPE_DECIMAL64 | TYPE_DECIMAL128I => converted
        | _ => invalid
        end
    | DATE =>
        match primitive_type with TYPE_DATE | TYPE_DATEV2 => converted | _ => invalid end
    | TIMESTAMP =>
        match primitive_type with
        | TYPE_DATETIME | TYPE_DATETIMEV2 => converted
        | _ => invalid
        end
    | LIST | MAP | STRUCT | UNION | CHAR | TIMESTAMP_INSTANT => invalid
    end.

(** [TExprOpcode], the opcodes the builder distinguishes. *)
Inductive TExprOpcode : Set :=
  | COMPOUND_AND | COMPOUND_OR | COMPOUND_NOT | GE | GT | LE | LT | EQ | NE
  | FILTER_IN | FILTER_NOT_IN | INVALID_OPCODE | OTHER_OPCODE.

(** [TExprNodeType], likewise. *)
Inductive TExprNodeType : Set :=
  | BINARY_PRED | IN_PRED | COMPOUND_PRED | FUNCTION_CALL
  | NULL_AWARE_BINARY_PRED | NULL_AWARE_IN_PRED | SLOT_REF | LITERAL_NODE
  | OTHER_NODE.

Global Instance TExprNodeType_eq_dec : EqDecision TExprNodeType.
Proof. solve_decision. Defined.

(** What a node is besides a [VExpr]: a [VSlotRef] with its [expr_name()]
    and [column_id()], a [VLiteral] with [is_null_at(0)] and [get_data_at(0)]
    of its column, or something else. *)
Inductive NodeClass : Set :=
  | IsSlotRef (expr_name : string) (column_id : nat)
  | IsLiteral (is_null : bool) (data : string)
  | IsOther.

(** A node of the expression tree.  [addr] is the address of the node: the
    two maps of the builder are keyed by [const VSlotRef*] and
    [const VLiteral*]. *)
#[warnings="-register-all"]
Inductive VExpr : Type :=
  mkVExpr (addr : nat) (op : TExprOpcode) (node_type : TExprNodeType)
          (fn_name : string) (node_class : NodeClass) (children : list VExpr).

Definition addr (e : VExpr) : nat := let 'mkVExpr a _ _ _ _ _ := e in a.
Definition op (e : VExpr) : TExprOpcode := let 'mkVExpr _ o _ _ _ _ := e in o.
Definition node_type (e : VExpr) : TExprNodeType := let 'mkVExpr _ _ t _ _ _ := e in t.
Definition fn_name (e : VExpr) : string := let 'mkVExpr _ _ _ f _ _ := e in f.
Definition node_class (e : VExpr) : NodeClass := let 'mkVExpr _ _ _ _ c _ := e in c.
Definition children (e : VExpr) : list VExpr := let 'mkVExpr _ _ _ _ _ cs := e in cs.

(** The type of a slot of the tuple descriptor. *)
Record SlotType : Set := mkSlotType {
  primitive_type : PrimitiveType;
  precision : Z;
  scale : Z
}.

(** What the builder reads of the reader and its surroundings:
    [_table_info_node_ptr], the keys of
    [_lazy_read_ctx.predicate_partition_columns], the kinds in [_type_map],
    the slots of [_tuple_descriptor], [is_string_type], and whether a
    conversion throws. *)
Record SargEnv : Type := mkSargEnv {
  children_column_exists : string → bool;
  children_file_column_name : string → string;
  predicate_partition_columns : gset string;
  _type_map : gmap string TypeKind;
  slots : list SlotType;
  is_string_type : PrimitiveType → bool;
  conversion_throws : PrimitiveType → TypeKind → string → bool
}.

(** The calls on the [orc::SearchArgumentBuilder]. *)
Inductive BuilderCall : Set :=
  | startAnd | startOr | startNot | end_
  | lessThan (column : string) (type : PredicateDataType) (literal : Literal)
  | lessThanEquals (column : string) (type : PredicateDataType) (literal : Literal)
  | equals (column : string) (type : PredicateDataType) (literal : Literal)
  | in_ (column : string) (type : PredicateDataType) (literals : list Literal)
  | isNull (column : string) (type : PredicateDataType).

(** The two maps of the reader and the calls made on the builder so far. *)
Record SargState : Set := mkSargState {
  _vslot_ref_to_orc_predicate_data_type : gmap nat PredicateDataType;
  _vliteral_to_orc_literal : gmap nat Literal;
  builder : list BuilderCall
}.

(** [OrcReader::_make_orc_literal]; [literal] is [None] for [nullptr].  A
    [column_id] outside the slots is undefined behaviour, and so is a kind
    [convert_to_doris_type] throws on. *)
Definition _make_orc_literal (env : SargEnv) (slot_ref_name : string)
    (slot_ref_column_id : nat) (literal : option (bool * string))
    : option (bool * Literal * PredicateDataType) :=
  let file_col_name := children_file_column_name env slot_ref_name in
  match _type_map env !! file_col_name with
  | None => Some (false, Literal_bool false, PT_LONG)
  | Some kind =>
      match TYPEKIND_TO_PREDICATE_TYPE kind with
      | None => Some (false, Literal_bool false, PT_LONG)
      | Some predicate_type =>
          match literal with
          | None => Some (true, Literal_bool true, predicate_type)
          | Some (is_null, literal_data) =>
              if is_null then Some (false, Literal_bool false, predicate_type)
              else
                slot ← slots env !! slot_ref_column_id;
                src_type ← doris_primitive_type kind;
                let primitive_type := primitive_type slot in
                if bool_decide (src_type ≠ primitive_type)
                   && negb (is_string_type env src_type)
                   && is_string_type env primitive_type
                then Some (false, Literal_bool false, PT_LONG)
                else
                  match primitive_type with
                  | TYPE_TINYINT | TYPE_SMALLINT | TYPE_INT | TYPE_BIGINT
                  | TYPE_LARGEINT | TYPE_DATE | TYPE_DATETIME | TYPE_DATEV2
                  | TYPE_DATETIMEV2 | TYPE_VARCHAR | TYPE_STRING | TYPE_HLL
                  | TYPE_DECIMAL32 | TYPE_DECIMAL64 | TYPE_DECIMAL128I
                  | TYPE_DECIMAL256 | TYPE_DECIMALV2 | TYPE_BOOLEAN | TYPE_IPV4
                  | TYPE_IPV6 =>
                      let '(valid, orc_literal) :=
                        convert_to_orc_literal
                          (conversion_throws env primitive_type kind literal_data)
                          primitive_type kind literal_data
                          (precision slot) (scale slot) in
                      Some (valid, orc_literal, predicate_type)
                  | _ => Some (false, Literal_bool false, predicate_type)
                  end
          end
      end
  end.

(** [OrcReader::_check_slot_can_push_down]; [children()[0]] of a node
    without children is undefined behaviour. *)
Definition _check_slot_can_push_down (env : SargEnv) (expr : VExpr)
    (st : SargState) : option (bool * SargState) :=
  child0 ← head (children expr);
  match node_class child0 with
  | IsSlotRef expr_name column_id =>
      if bool_decide (expr_name ∈ predicate_partition_columns env)
         || negb (children_column_exists env expr_name)
      then Some (false, st)
      else
        '(valid, _, predicate_type) ← _make_orc_literal env expr_name column_id None;
        if valid : bool
        then Some (true,
                   mkSargState
                     (<[addr child0 := predicate_type]>
                        (_vslot_ref_to_orc_predicate_data_type st))
                     (_vliteral_to_orc_literal st) (builder st))
        else Some (false, st)
  | _ => Some (false, st)
  end.

(** [std::unordered_map::insert]: an existing key keeps its value. *)
Definition map_insert_new {V : Type} (k : nat) (v : V) (m : gmap nat V) : gmap nat V :=
  match m !! k with
  | Some _ => m
  | None => <[k := v]> m
  end.

(** [OrcReader::_check_literal_can_push_down].  The cast of [children()[0]]
    to [VSlotRef] is only defined for a slot reference. *)
Definition _check_literal_can_push_down (env : SargEnv) (expr : VExpr)
    (child_id : nat) (st : SargState) : option (bool * SargState) :=
  child ← children expr !! child_id;
  match node_class child with
  | IsLiteral is_null data =>
      child0 ← head (children expr);
      match node_class child0 with
      | IsSlotRef expr_name column_id =>
          '(valid, orc_literal, _) ←
            _make_orc_literal env expr_name column_id (Some (is_null, data));
          if valid : bool
          then Some (true,
                     mkSargState (_vslot_ref_to_orc_predicate_data_type st)
                       (map_insert_new (addr child) orc_literal
                          (_vliteral_to_orc_literal st))
                       (builder st))
          else Some (false, st)
      | _ => None
      end
  | _ => Some (false, st)
  end.

(** The loop of [_check_rest_children_can_push_down] from child [i] on,
    [n] children left. *)
Fixpoint check_rest_loop (env : SargEnv) (expr : VExpr) (i n : nat)
    (at_least_one_child_can_push_down : bool) (st : SargState)
    : option (bool * SargState) :=
  match n with
  | O => Some (at_least_one_child_can_push_down, st)
  | S n' =>
      '(valid, st1) ← _check_literal_can_push_down env expr i st;
      check_rest_loop env expr (S i) n'
        (if valid : bool then true else at_least_one_child_can_push_down) st1
  end.

(** [OrcReader::_check_rest_children_can_push_down]. *)
Definition _check_rest_children_can_push_down (env : SargEnv) (expr : VExpr)
    (st : SargState) : option (bool * SargState) :=
  if decide (length (children expr) < 2) then Some (false, st)
  else check_rest_loop env expr 1 (length (children expr) - 1) false st.

(** [OrcReader::_check_expr_can_push_down] on a node that is not null.
    [std::ranges::any_of] and [all_of] stop at the first child that
    decides. *)
Fixpoint _check_expr_can_push_down (env : SargEnv) (expr : VExpr) (st : SargState)
    {struct expr} : option (bool * SargState) :=
  let any_of :=
    fix any_of (cs : list VExpr) (st : SargState) {struct cs}
        : option (bool * SargState) :=
      match cs with
      | [] => Some (false, st)
      | child :: cs' =>
          '(r, st1) ← _check_expr_can_push_down env child st;
          if r : bool then Some (true, st1) else any_of cs' st1
      end in
  let all_of :=
    fix all_of (cs : list VExpr) (st : SargState) {struct cs}
        : option (bool * SargState) :=
      match cs with
      | [] => Some (true, st)
      | child :: cs' =>
          '(r, st1) ← _check_expr_can_push_down env child st;
          if r : bool then all_of cs' st1 else Some (false, st1)
      end in
  match expr with
  | mkVExpr _ op node_type fn_name _ children =>
      match op with
      | COMPOUND_AND => any_of children st
      | COMPOUND_OR => all_of children st
      | COMPOUND_NOT =>
          match children with
          | child0 :: _ => _check_expr_can_push_down env child0 st
          | [] => None
          end
      | GE | GT | LE | LT | EQ | NE | FILTER_IN | FILTER_NOT_IN =>
          if bool_decide (node_type ≠ NULL_AWARE_BINARY_PRED)
             && bool_decide (node_type ≠ NULL_AWARE_IN_PRED)
          then
            '(slot_ok, st1) ← _check_slot_can_push_down env expr st;
            if slot_ok : bool
            then _check_rest_children_can_push_down env expr st1
            else Some (false, st1)
          else Some (false, st)
      | INVALID_OPCODE =>
          if bool_decide (node_type = FUNCTION_CALL)
             && (bool_decide (fn_name = "is_null_pred")
                 || bool_decide (fn_name = "is_not_null_pred"))
          then _check_slot_can_push_down env expr st
          else Some (false, st)
      | OTHER_OPCODE => Some (false, st)
      end
  end.

(** The slot reference [children()[0]] and the literal [children()[1]] of a
    binary predicate, as [_build_less_than], [_build_less_than_equals] and
    [_build_equals] fetch them: the file column, the predicate type read with
    [operator[]] (a missing key is inserted with the first enumerator), and
    the literal read through [find(literal)->second], which is undefined for
    a missing key. *)
Definition binary_operands (env : SargEnv) (expr : VExpr) (st : SargState)
    : option (string * PredicateDataType * Literal * SargState) :=
  match children expr with
  | child0 :: child1 :: _ =>
      match node_class child0 with
      | IsSlotRef expr_name _ =>
          let types := _vslot_ref_to_orc_predicate_data_type st in
          let predicate_type := default PT_LONG (types !! addr child0) in
          orc_literal ← _vliteral_to_orc_literal st !! addr child1;
          Some (children_file_column_name env expr_name, predicate_type, orc_literal,
                mkSargState (<[addr child0 := predicate_type]> types)
                  (_vliteral_to_orc_literal st) (builder st))
      | _ => None
      end
  | _ => None
  end.

Definition call (c : BuilderCall) (st : SargState) : SargState :=
  mkSargState (_vslot_ref_to_orc_predicate_data_type st)
    (_vliteral_to_orc_literal st) (builder st ++ [c]).

(** [OrcReader::_build_less_than]. *)
Definition _build_less_than (env : SargEnv) (expr : VExpr) (st : SargState)
    : option SargState :=
  '(column, predicate_type, orc_literal, st1) ← binary_operands env expr st;
  Some (call (lessThan column predicate_type orc_literal) st1).

(** [OrcReader::_build_less_than_equals]. *)
Definition _build_less_than_equals (env : SargEnv) (expr : VExpr) (st : SargState)
    : option SargState :=
  '(column, predicate_type, orc_literal, st1) ← binary_operands env expr st;
  Some (call (lessThanEquals column predicate_type orc_literal) st1).

(** [OrcReader::_build_equals]. *)
Definition _build_equals (env : SargEnv) (expr : VExpr) (st : SargState)
    : option SargState :=
  '(column, predicate_type, orc_literal, st1) ← binary_operands env expr st;
  Some (call (equals column predicate_type orc_literal) st1).

(** [OrcReader::_build_filter_in]: the literals of the children from the
    second on that the map knows. *)
Definition _build_filter_in (env : SargEnv) (expr : VExpr) (st : SargState)
    : option SargState :=
  match children expr with
  | child0 :: rest =>
      match node_class child0 with
      | IsSlotRef expr_name _ =>
          let types := _vslot_ref_to_orc_predicate_data_type st in
          let predicate_type := default PT_LONG (types !! addr child0) in
          let st1 :=
            mkSargState (<[addr child0 := predicate_type]> types)
              (_vliteral_to_orc_literal st) (builder st) in
          let literals :=
            omap (λ child, _vliteral_to_orc_literal st !! addr child) rest in
          let column := children_file_column_name env expr_name in
          match literals with
          | [literal] => Some (call (equals column predicate_type literal) st1)
          | _ => Some (call (in_ column predicate_type literals) st1)
          end
      | _ => None
      end
  | [] => None
  end.

(** [OrcReader::_build_is_null]. *)
Definition _build_is_null (env : SargEnv) (expr : VExpr) (st : SargState)
    : option SargState :=
  match children expr with
  | child0 :: _ =>
      match node_class child0 with
      | IsSlotRef expr_name _ =>
          let types := _vslot_ref_to_orc_predicate_data_type st in
          let predicate_type := default PT_LONG (types !! addr child0) in
          Some (call (isNull (children_file_column_name env expr_name) predicate_type)
                  (mkSargState (<[addr child0 := predicate_type]> types)
                     (_vliteral_to_orc_literal st) (builder st)))
      | _ => None
      end
  | [] => None
  end.

(** [startNot(); build; end();] *)
Definition negated (build : SargState → option SargState) (st : SargState)
    : option SargState :=
  st1 ← build (call startNot st);
  Some (call end_ st1).

(** [OrcReader::_build_search_argument].  The two [__builtin_unreachable()]
    are undefined behaviour. *)
Fixpoint _build_search_argument (env : SargEnv) (expr : VExpr) (st : SargState)
    {struct expr} : option (bool * SargState) :=
  let build_children :=
    fix build_children (cs : list VExpr) (st : SargState) {struct cs}
        : option SargState :=
      match cs with
      | [] => Some st
      | child :: cs' =>
          '(_, st1) ← _build_search_argument env child st;
          build_children cs' st1
      end in
  '(can_push_down, st0) ← _check_expr_can_push_down env expr st;
  if negb can_push_down then Some (false, st0)
  else
    (λ st', (true, st')) <$>
    match expr with
    | mkVExpr _ op node_type fn_name _ children =>
        match op with
        | COMPOUND_AND =>
            st1 ← build_children children (call startAnd st0);
            Some (call end_ st1)
        | COMPOUND_OR =>
            st1 ← build_children children (call startOr st0);
            Some (call end_ st1)
        | COMPOUND_NOT =>
            match children with
            | child0 :: _ =>
                '(_, st1) ← _build_search_argument env child0 (call startNot st0);
                Some (call end_ st1)
            | [] => None
            end
        | GE => negated (_build_less_than env expr) st0
        | GT => negated (_build_less_than_equals env expr) st0
        | LE => _build_less_than_equals env expr st0
        | LT => _build_less_than env expr st0
        | EQ => _build_equals env expr st0
        | NE => negated (_build_equals env expr) st0
        | FILTER_IN => _build_filter_in env expr st0
        | FILTER_NOT_IN => negated (_build_filter_in env expr) st0
        | INVALID_OPCODE =>
            if bool_decide (fn_name = "is_null_pred")
            then _build_is_null env expr st0
            else if bool_decide (fn_name = "is_not_null_pred")
            then negated (_build_is_null env expr) st0
            else None
        | OTHER_OPCODE => None
        end
    end.

(** The loop of [_init_search_argument] over the conjuncts: the two maps are
    cleared before each. *)
Fixpoint conjuncts_loop (env : SargEnv) (conjuncts : list VExpr)
    (at_least_one_can_push_down : bool) (st : SargState)
    : option (bool * SargState) :=
  match conjuncts with
  | [] => Some (at_least_one_can_push_down, st)
  | root :: rest =>
      '(pushed, st1) ← _build_search_argument env root (mkSargState ∅ ∅ (builder st));
      conjuncts_loop env rest
        (if pushed : bool then true else at_least_one_can_push_down) st1
  end.

(** [OrcReader::_init_search_argument]: the result, the calls made on the
    builder when it was built into the search argument of
    [_row_reader_options], and the two maps. *)
Definition _init_search_argument (env : SargEnv) (conjuncts : list VExpr)
    (st : SargState)
    : option (bool * option (list BuilderCall) * SargState) :=
  '(at_least_one_can_push_down, st1) ←
    conjuncts_loop env conjuncts false
      (mkSargState (_vslot_ref_to_orc_predicate_data_type st)
         (_vliteral_to_orc_literal st) [startAnd]);
  if negb at_least_one_can_push_down then Some (false, None, st1)
  else Some (true, Some (builder st1 ++ [end_]), call end_ st1).

(** The three loops over the children, on their own. *)
Definition any_of_children (env : SargEnv) :=
  fix any_of (cs : list VExpr) (st : SargState) {struct cs}
      : option (bool * SargState) :=
    match cs with
    | [] => Some (false, st)
    | child :: cs' =>
        '(r, st1) ← _check_expr_can_push_down env child st;
        if r : bool then Some (true, st1) else any_of cs' st1
    end.

Definition all_of_children (env : SargEnv) :=
  fix all_of (cs : list VExpr) (st : SargState) {struct cs}
      : option (bool * SargState) :=
    match cs with
    | [] => Some (true, st)
    | child :: cs' =>
        '(r, st1) ← _check_expr_can_push_down env child st;
        if r : bool then all_of cs' st1 else Some (false, st1)
    end.

Definition build_children (env : SargEnv) :=
  fix build_children (cs : list VExpr) (st : SargState) {struct cs}
      : option SargState :=
    match cs with
    | [] => Some st
    | child :: cs' =>
        '(_, st1) ← _build_search_argument env child st;
        build_children cs' st1
    end.

(** The shape the planner gives the predicates, which the builder relies on
    (its [DCHECK]s): [OR] and [NOT] have operands, a comparison has a first
    operand and at most one more, an [IN] and a null test have a first
    operand, and a slot reference in first place names a slot of the tuple
    descriptor. *)
Definition slot_in_range (env : SargEnv) (cs : list VExpr) : Prop :=
  ∀ child0 expr_name column_id,
    head cs = Some child0 → node_class child0 = IsSlotRef expr_name column_id →
    (column_id < length (slots env))%nat.

Fixpoint well_shaped (env : SargEnv) (e : VExpr) : Prop :=
  match e with
  | mkVExpr _ op node_type fn_name _ cs =>
      match op with
      | COMPOUND_OR | COMPOUND_NOT => cs ≠ []
      | GE | GT | LE | LT | EQ | NE =>
          cs ≠ [] ∧ (length cs ≤ 2)%nat ∧ slot_in_range env cs
      | FILTER_IN | FILTER_NOT_IN => cs ≠ [] ∧ slot_in_range env cs
      | INVALID_OPCODE =>
          node_type = FUNCTION_CALL →
          fn_name = "is_null_pred" ∨ fn_name = "is_not_null_pred" → cs ≠ []
      | COMPOUND_AND | OTHER_OPCODE => True
      end
      ∧ foldr (λ c P, well_shaped env c ∧ P) True cs
  end.

(** The node can be pushed down: what [_check_expr_can_push_down] answers,
    here asked with empty maps. *)
Definition pushable (env : SargEnv) (e : VExpr) : Prop :=
  fst <$> _check_expr_can_push_down env e (mkSargState ∅ ∅ []) = Some true.

(** A comparison or an [IN]. *)
Definition compares (o : TExprOpcode) : bool :=
  match o with
  | GE | GT | LE | LT | EQ | NE | FILTER_IN | FILTER_NOT_IN => true
  | _ => false
  end.

(** A search argument as the ORC library assembles it from the calls. *)
#[warnings="-register-all"]
Inductive Sarg : Set :=
  | SAnd (operands : list Sarg)
  | SOr (operands : list Sarg)
  | SNot (operand : Sarg)
  | SLeaf (predicate : BuilderCall).

(** The calls that build a search argument. *)
Fixpoint calls_of (s : Sarg) : list BuilderCall :=
  match s with
  | SAnd operands => startAnd :: mjoin (calls_of <$> operands) ++ [end_]
  | SOr operands => startOr :: mjoin (calls_of <$> operands) ++ [end_]
  | SNot operand => startNot :: calls_of operand ++ [end_]
  | SLeaf predicate => [predicate]
  end.

(** A leaf is a predicate call, and an [in] has at least two literals (a
    single one is an [equals]). *)
Definition leaf_call (c : BuilderCall) : Prop :=
  match c with
  | startAnd | startOr | startNot | end_ => False
  | in_ _ _ literals => (2 ≤ length literals)%nat
  | lessThan _ _ _ | lessThanEquals _ _ _ | equals _ _ _ | isNull _ _ => True
  end.

(** The search arguments the library accepts: no [AND] or [OR] without
    operands. *)
Fixpoint accepted (s : Sarg) : Prop :=
  match s with
  | SAnd operands | SOr operands =>
      operands ≠ [] ∧ foldr (λ o P, accepted o ∧ P) True operands
  | SNot operand => accepted operand
  | SLeaf predicate => leaf_call predicate
  end.

(** The answer of a check does not depend on the state it runs in. *)
Definition state_blind (check : SargState → option (bool * SargState)) : Prop :=
  ∃ answer : option bool, ∀ st, fst <$> check st = answer.

(** The literals registered in [st] are still registered in [st']. *)
Definition literals_kept (st st' : SargState) : Prop :=
  ∀ k, is_Some (_vliteral_to_orc_literal st !! k) →
       is_Some (_vliteral_to_orc_literal st' !! k).

(** A check that makes no call on the builder. *)
Definition keeps_builder (f : SargState → option (bool * SargState)) : Prop :=
  ∀ st b st', f st = Some (b, st') → builder st' = builder st.

(** A builder function that adds one predicate call. *)
Definition adds_leaf (build : SargState → option SargState) (st : SargState) : Prop :=
  ∃ st' c, build st = Some st' ∧ builder st' = builder st ++ [c] ∧ leaf_call c.

(** What a call of [_build_search_argument] adds to the builder. *)
Definition emits (st st' : SargState) (pushed : bool) : Prop :=
  if pushed
  then ∃ sarg, builder st' = builder st ++ calls_of sarg ∧ accepted sarg
  else builder st' = builder st.

(** What [_build_search_argument] does on a node: it returns, it reports
    what the check of the node answers, and it adds one accepted search
    argument to the builder, or nothing. *)
Definition builds (env : SargEnv) (e : VExpr) : Prop :=
  ∀ st, ∃ pushed st',
    _build_search_argument env e st = Some (pushed, st') ∧
    emits st st' pushed ∧
    fst <$> _check_expr_can_push_down env e st = Some pushed.

(** Sample predicates for the statements below, over a file with an [INT]
    column [x] and a [DOUBLE] column [d]; the table has a third column,
    [gone], that the file lacks.  [slot_lt_5] is the predicate [slot < 5]. *)
Definition sample_env : SargEnv :=
  mkSargEnv (λ name, bool_decide (name ≠ "gone")) (λ name, name) ∅
    {[ "x" := INT; "d" := DOUBLE ]}
    [mkSlotType TYPE_INT 0 0; mkSlotType TYPE_DOUBLE 0 0; mkSlotType TYPE_INT 0 0]
    (λ t, bool_decide (t ∈ [TYPE_CHAR; TYPE_VARCHAR; TYPE_STRING]))
    (λ _ _ _, false).

Definition slot_lt_5 (name : string) (column_id : nat) : VExpr :=
  mkVExpr 1 LT BINARY_PRED "lt" IsOther
    [mkVExpr 2 INVALID_OPCODE SLOT_REF name (IsSlotRef name column_id) [];
     mkVExpr 3 INVALID_OPCODE LITERAL_NODE "5" (IsLiteral false "5") []].

End SearchArgument.

(** ** Decoding ORC batches into columns (vorc_reader.cpp 1385-1620, 1809-1824, 2252-2258 and 2616-2701, vorc_reader.h 350-368) *)

Module OrcDecode.
Local Open Scope Z_scope.

(** [trim_right(s, size)]: the loop reads [s[size - 1]], which is undefined
    behind the end of the buffer. *)
Fixpoint trim_right (s : list Ascii.ascii) (size : nat) : option nat :=
  match size with
  | O => Some O
  | S size' =>
      c ← s !! size';
      if decide (c = Ascii.Space) then trim_right s size' else Some size
  end.

(** [orc::TypeKind], as far as the string decoders look at it. *)
Inductive StringKind : Set := KIND_CHAR | KIND_OTHER.

(** What the decoders read of an [orc::EncodedStringVectorBatch]:
    [hasNulls] and [notNull]; the buffers [data[i]] with their [length[i]],
    which a batch that is not dictionary-encoded fills; and [isEncoded], the
    entries of the [dictionary] and the [index] into them, which a
    dictionary-encoded batch fills. *)
Record EncodedStringVectorBatch : Set := mkEncodedStringVectorBatch {
  hasNulls : bool;
  notNull : list bool;
  data : list (list Ascii.ascii);
  length_ : list nat;
  isEncoded : bool;
  dictionary : list (list Ascii.ascii);
  index : list Z
}.

(** The [StringRef] of row [i]: the bytes it covers.  A reference of length
    zero points at [empty_string]. *)
Definition string_value (type_kind : StringKind) (cvb : EncodedStringVectorBatch)
    (i : nat) : option (list Ascii.ascii) :=
  not_null ← (if hasNulls cvb return option bool then notNull cvb !! i else Some true);
  if not_null : bool then
    buffer ← data cvb !! i;
    len ← length_ cvb !! i;
    match type_kind with
    | KIND_CHAR => length ← trim_right buffer len; Some (take length buffer)
    | KIND_OTHER =>
        if decide (len ≤ length buffer)%nat then Some (take len buffer) else None
    end
  else Some [].

(** The loops that fill [string_values], rows [i .. i + n). *)
Fixpoint string_values (type_kind : StringKind) (cvb : EncodedStringVectorBatch)
    (i n : nat) : option (list (list Ascii.ascii)) :=
  match n with
  | O => Some []
  | S n' =>
      v ← string_value type_kind cvb i;
      vs ← string_values type_kind cvb (S i) n';
      Some (v :: vs)
  end.

(** [OrcReader::_decode_string_non_dict_encoded_column]: the strings of the
    column after [insert_many_strings]; the status is always [OK]. *)
Definition _decode_string_non_dict_encoded_column (data_column : list (list Ascii.ascii))
    (type_kind : StringKind) (cvb : EncodedStringVectorBatch) (num_values : nat)
    : option (Status * list (list Ascii.ascii)) :=
  values ← string_values type_kind cvb 0 num_values;
  Some (Status_OK,
        if bool_decide (values = []) then data_column else data_column ++ values).

(** [dictionary->getValueByIndex(index, val_ptr, length)]: the entry; an
    index outside the dictionary is undefined. *)
Definition getValueByIndex (dictionary : list (list Ascii.ascii)) (idx : Z)
    : option (list Ascii.ascii) :=
  if decide (0 ≤ idx) then dictionary !! Z.to_nat idx else None.

(** A dictionary entry as a value of the column: without its trailing
    spaces for a [CHAR] column. *)
Definition entry_value (type_kind : StringKind) (val : list Ascii.ascii)
    : option (list Ascii.ascii) :=
  match type_kind with
  | KIND_CHAR => length ← trim_right val (length val); Some (take length val)
  | KIND_OTHER => Some val
  end.

(** The [StringRef] of row [i] of a dictionary-encoded batch.  With
    [is_filter], a row that [_filter] has dropped is not looked up. *)
Definition dict_string_value (is_filter : bool) (filter_data : list Z)
    (type_kind : StringKind) (cvb : EncodedStringVectorBatch) (i : nat)
    : option (list Ascii.ascii) :=
  not_null ← (if hasNulls cvb return option bool then notNull cvb !! i else Some true);
  if not_null : bool then
    keep ← (if is_filter return option bool
            then (λ flag, bool_decide (flag ≠ 0)) <$> filter_data !! i
            else Some true);
    if keep : bool then
      idx ← index cvb !! i;
      val ← getValueByIndex (dictionary cvb) idx;
      entry_value type_kind val
    else Some []
  else Some [].

(** A loop [for (int i = 0; i < n; ++i) string_values.emplace_back(...)],
    rows [i .. i + n). *)
Fixpoint values_loop (value : nat → option (list Ascii.ascii)) (i n : nat)
    : option (list (list Ascii.ascii)) :=
  match n with
  | O => Some []
  | S n' =>
      v ← value i;
      vs ← values_loop value (S i) n';
      Some (v :: vs)
  end.

(** [OrcReader::_decode_string_dict_encoded_column<is_filter>]: the strings
    of the column after [insert_many_strings_overflow]. *)
Definition _decode_string_dict_encoded_column (is_filter : bool) (filter_data : list Z)
    (data_column : list (list Ascii.ascii)) (type_kind : StringKind)
    (cvb : EncodedStringVectorBatch) (num_values : nat)
    : option (Status * list (list Ascii.ascii)) :=
  values ← values_loop (dict_string_value is_filter filter_data type_kind cvb)
              0 num_values;
  Some (Status_OK,
        if bool_decide (values = []) then data_column else data_column ++ values).

(** [OrcReader::_decode_string_column<is_filter>]; [cvb] is [None] when the
    batch is not an [EncodedStringVectorBatch]. *)
Definition _decode_string_column (is_filter : bool) (filter_data : list Z)
    (col_name : string) (data_column : list (list Ascii.ascii))
    (type_kind : StringKind) (cvb : option EncodedStringVectorBatch)
    (num_values : nat) : option (Status * list (list Ascii.ascii)) :=
  match cvb with
  | None =>
      Some (Status_InternalError
              ("Wrong data type for column '" +:+ col_name
               +:+ "', expected EncodedStringVectorBatch"),
            data_column)
  | Some data =>
      if isEncoded data
      then _decode_string_dict_encoded_column is_filter filter_data data_column
             type_kind data num_values
      else _decode_string_non_dict_encoded_column data_column type_kind data num_values
  end.

(** The first [n] elements of a buffer; reading behind its end is
    undefined. *)
Definition read_values {A : Type} (n : nat) (buffer : list A) : option (list A) :=
  if decide (n ≤ length buffer)%nat then Some (take n buffer) else None.

(** The batches [_decode_int32_column] tells apart. *)
Inductive ColumnVectorBatch : Set :=
  | LongVectorBatch (data : list Z)
  | StringVectorBatch (batch : EncodedStringVectorBatch)
  | OtherVectorBatch.

(** [OrcReader::_decode_int32_column]: the values of a [LongVectorBatch]
    (through [_decode_flat_column<TYPE_INT, orc::LongVectorBatch>]) or the
    dictionary codes of an [EncodedStringVectorBatch], each cast to
    [Int32]. *)
Definition _decode_int32_column (column_data : list Z) (cvb : ColumnVectorBatch)
    (num_values : nat) : option (Status * list Z) :=
  match cvb with
  | LongVectorBatch data =>
      values ← read_values num_values data;
      Some (Status_OK, column_data ++ (OrcDecimal.wrap_signed 32 <$> values))
  | StringVectorBatch batch =>
      values ← read_values num_values (index batch);
      Some (Status_OK, column_data ++ (OrcDecimal.wrap_signed 32 <$> values))
  | OtherVectorBatch =>
      Some (Status_InternalError "Bad ColumnVectorBatch type.", column_data)
  end.

(** The null map of a nullable column in [_orc_column_to_doris_column]
    (lines 1815-1824): one byte for each row, set where the row is null. *)
Definition fill_null_map (map_data_column : list Z) (cvb : EncodedStringVectorBatch)
    (num_values : nat) : option (list Z) :=
  if hasNulls cvb then
    cvb_nulls ← read_values num_values (notNull cvb);
    Some (map_data_column ++ ((λ not_null : bool, if not_null then 0 else 1) <$> cvb_nulls))
  else Some (map_data_column ++ replicate num_values 0).

(** Row [i] of [_convert_dict_column_to_string_column]. *)
Definition converted_value (dict_column : list Z) (null_map : option (list Z))
    (type_kind : StringKind) (cvb : EncodedStringVectorBatch) (i : nat)
    : option (list Ascii.ascii) :=
  is_null ← match null_map with
            | Some null_map_data => (λ flag, bool_decide (flag ≠ 0)) <$> null_map_data !! i
            | None => Some false
            end;
  if is_null : bool then Some []
  else
    code ← dict_column !! i;
    val ← getValueByIndex (dictionary cvb) code;
    entry_value type_kind val.

(** [OrcReader::_convert_dict_column_to_string_column]: the strings of the
    new column. *)
Definition _convert_dict_column_to_string_column (dict_column : list Z)
    (null_map : option (list Z)) (cvb : EncodedStringVectorBatch)
    (type_kind : StringKind) : option (list (list Ascii.ascii)) :=
  values_loop (converted_value dict_column null_map type_kind cvb) 0 (length dict_column).

(** [ColumnArray::Offsets64], a [PaddedPODArray<UInt64>]: the offsets, and
    the padding element in front of the first one, which is what [back()]
    reads while the array is empty. *)
Record Offsets64 : Set := mkOffsets64 { pad_left : Z; elems : list Z }.

Definition back (doris_offsets : Offsets64) : Z :=
  default (pad_left doris_offsets) (last (elems doris_offsets)).

(** The loop of [_fill_doris_array_offsets], [n] rounds from index [i] on;
    the sum is taken in [uint64_t]. *)
Fixpoint offsets_loop (prev_offset base_offset : Z) (orc_offsets : list Z)
    (i n : nat) (doris_offsets : list Z) : option (list Z) :=
  match n with
  | O => Some doris_offsets
  | S n' =>
      orc_offset ← orc_offsets !! i;
      offsets_loop prev_offset base_offset orc_offsets (S i) n'
        (doris_offsets ++
           [PositionDelete.to_uint64 (prev_offset + orc_offset - base_offset)])
  end.

(** [OrcReader::_fill_doris_array_offsets]: the status, the offsets and
    [*element_size], which is not written when the buffer is too short. *)
Definition _fill_doris_array_offsets (col_name : string) (doris_offsets : Offsets64)
    (orc_offsets : list Z) (num_values : nat) : option (Status * Offsets64 * option Z) :=
  if decide (0 < num_values)%nat then
    if decide (length orc_offsets < num_values + 1)%nat
    then Some (Status_InternalError
                 ("Wrong array offsets in orc file for column '" +:+ col_name +:+ "'"),
               doris_offsets, None)
    else
      let prev_offset := back doris_offsets in
      base_offset ← orc_offsets !! 0%nat;
      offsets ← offsets_loop prev_offset base_offset orc_offsets 1 num_values
                  (elems doris_offsets);
      last_offset ← orc_offsets !! num_values;
      Some (Status_OK, mkOffsets64 (pad_left doris_offsets) offsets,
            Some (PositionDelete.to_uint64 (last_offset - base_offset)))
  else Some (Status_OK, doris_offsets, Some 0).

(** The sizes of the arrays that a list of end offsets describes, the first
    one starting at [prev]. *)
Fixpoint array_lengths (prev : Z) (offsets : list Z) : list Z :=
  match offsets with
  | [] => []
  | offset :: rest => (offset - prev) :: array_lengths offset rest
  end.

(** The last loop of [OrcReader::filter] (2252-2258), [n] rounds from row
    [i] on: [sel[new_size] = i] is written for every row, and kept when the
    row passes.  [sel] is the caller's buffer; writing behind its end is
    undefined.  All counters are [uint16_t] and stay below [size], so none
    of them wraps. *)
Fixpoint selection_loop (result_filter_data : list Z) (n i : nat)
    (sel : list Z) (new_size : nat) : option (list Z * nat) :=
  match n with
  | O => Some (sel, new_size)
  | S n' =>
      if decide (new_size < length sel)%nat then
        flag ← result_filter_data !! i;
        selection_loop result_filter_data n' (S i) (<[new_size := Z.of_nat i]> sel)
          (new_size + (if decide (flag ≠ 0) then 1 else 0))
      else None
  end.

(** What the end of [OrcReader::filter] leaves: the selection vector,
    [data.numElements] and the increment of [lazy_read_filtered_rows]. *)
Definition select_rows (result_filter_data : list Z) (sel : list Z) (size : nat)
    : option (list Z * nat * Z) :=
  '(sel', new_size) ← selection_loop result_filter_data size 0 sel 0;
  Some (sel', new_size, Z.of_nat size - Z.of_nat new_size).

(** A sample batch for the statements below: the padded value [ab] and a
    null row whose buffer is stale. *)
Definition sample_batch : EncodedStringVectorBatch :=
  mkEncodedStringVectorBatch true [true; false]
    [String.list_ascii_of_string "ab  "; String.list_ascii_of_string "zz"] [4; 2]%nat
    false [] [].

(** The same rows through a dictionary: the entries [ab] (padded) and [zz],
    and the codes of three rows, of which the second is null. *)
Definition sample_dict_batch : EncodedStringVectorBatch :=
  mkEncodedStringVectorBatch true [true; false; true] [] [] true
    [String.list_ascii_of_string "ab  "; String.list_ascii_of_string "zz"] [0; 7; 1].

End OrcDecode.

(** ** Choosing the dictionary-filtered columns of the ORC reader (vorc_reader.cpp 2262-2328) *)

Module DictColumns.
Import DictFilter.
Import SearchArgument(TExprNodeType, BINARY_PRED, IN_PRED, SLOT_REF, TExprNodeType_eq_dec).
Local Open Scope Z_scope.

(** A slot of [_tuple_descriptor], as far as [_can_filter_by_dict] looks at
    it: its id and what [is_string_type] and [is_var_len_object] say of its
    primitive type. *)
Record SlotType : Set := mkSlotType {
  slot_id : Z;
  is_string_type : bool;
  is_var_len_object : bool
}.

(** What the choice reads: [_slot_id_to_filter_conjuncts] (a pointer that
    may be null), [_disable_dict_filter], the slots, of each conjunct the
    node type of its root and of the root's children, the schema mapping,
    and the two halves of [_lazy_read_ctx.predicate_columns]. *)
Record ChoiceEnv : Type := mkChoiceEnv {
  slot_id_to_filter_conjuncts : option (gmap Z (list VExprContextSPtr));
  _disable_dict_filter : bool;
  tuple_slots : list SlotType;
  root_node_type : VExprContextSPtr → TExprNodeType;
  root_children_node_types : VExprContextSPtr → list TExprNodeType;
  file_column_name : string → string;
  predicate_col_names : list string;
  predicate_col_slot_ids : list Z
}.

(** The search for the slot: the first one with the id. *)
Fixpoint find_slot (slots : list SlotType) (id : Z) : option SlotType :=
  match slots with
  | [] => None
  | each :: rest => if decide (slot_id each = id) then Some each else find_slot rest id
  end.

(** [std::ranges::all_of] with the lambda of [_can_filter_by_dict];
    [children()[0]] of a root without children is undefined. *)
Fixpoint all_of_conjuncts (env : ChoiceEnv) (ctxs : list VExprContextSPtr)
    : option bool :=
  match ctxs with
  | [] => Some true
  | ctx :: rest =>
      if bool_decide (root_node_type env ctx = IN_PRED)
         || bool_decide (root_node_type env ctx = BINARY_PRED)
      then
        child ← root_children_node_types env ctx !! 0%nat;
        if bool_decide (child = SLOT_REF) then all_of_conjuncts env rest
        else Some false
      else Some false
  end.

(** [OrcReader::_can_filter_by_dict], called with the map behind
    [_slot_id_to_filter_conjuncts]. *)
Definition _can_filter_by_dict (env : ChoiceEnv)
    (conjuncts_of : gmap Z (list VExprContextSPtr)) (id : Z) : option bool :=
  match find_slot (tuple_slots env) id with
  | None => Some false
  | Some slot =>
      if negb (is_string_type slot) && negb (is_var_len_object slot) then Some false
      else
        match conjuncts_of !! id with
        | None => Some false
        | Some ctxs => all_of_conjuncts env ctxs
        end
  end.

(** The loop of [fill_dict_filter_column_names] over the predicate columns,
    from the [i]-th on; [predicate_col_slot_ids[i]] behind the end of the
    vector is undefined. *)
Fixpoint predicate_cols_loop (env : ChoiceEnv)
    (conjuncts_of : gmap Z (list VExprContextSPtr)) (names : list string) (i : nat)
    (st : DictState) (column_names : list string) : option (DictState * list string) :=
  match names with
  | [] => Some (st, column_names)
  | predicate_col_name :: rest =>
      id ← predicate_col_slot_ids env !! i;
      can ← (if _disable_dict_filter env then Some false
             else _can_filter_by_dict env conjuncts_of id);
      if can : bool then
        predicate_cols_loop env conjuncts_of rest (S i)
          (mkDictState (_dict_filter_cols st ++ [(predicate_col_name, id)])
             (_dict_filter_conjuncts st) (_non_dict_filter_conjuncts st))
          (column_names ++ [file_column_name env predicate_col_name])
      else
        predicate_cols_loop env conjuncts_of rest (S i)
          (mkDictState (_dict_filter_cols st) (_dict_filter_conjuncts st)
             (_non_dict_filter_conjuncts st ++ default [] (conjuncts_of !! id)))
          column_names
  end.

(** [OrcReader::fill_dict_filter_column_names]: the status, the three
    members it rebuilds and [column_names]. *)
Definition fill_dict_filter_column_names (env : ChoiceEnv) (st : DictState)
    (column_names : list string) : option (Status * DictState * list string) :=
  match slot_id_to_filter_conjuncts env with
  | None => Some (Status_OK, st, column_names)
  | Some conjuncts_of =>
      '(st', column_names') ←
        predicate_cols_loop env conjuncts_of (predicate_col_names env) 0
          (mkDictState [] [] []) column_names;
      Some (Status_OK, st', column_names')
  end.

(** A conjunct the dictionary can answer: [IN] or a binary predicate whose
    first operand is the slot. *)
Definition simple_predicate (env : ChoiceEnv) (ctx : VExprContextSPtr) : Prop :=
  (root_node_type env ctx = IN_PRED ∨ root_node_type env ctx = BINARY_PRED) ∧
  root_children_node_types env ctx !! 0%nat = Some SLOT_REF.

(** The statuses dictionary loading passes on from the expression engine. *)
Definition engine_status (denv : DictEnv) (status : Status) : Prop :=
  (∃ ctxs dict_values, status = (execute_conjuncts denv ctxs dict_values).1.1) ∨
  (∃ root, status = prepare_and_open denv root).

(** The test of the loop: the predicate column [col], a name and a slot id,
    is given to the dictionary. *)
Definition chosen (env : ChoiceEnv) (conjuncts_of : gmap Z (list VExprContextSPtr))
    (col : string * Z) : Prop :=
  _disable_dict_filter env = false ∧
  _can_filter_by_dict env conjuncts_of col.2 = Some true.

Global Instance chosen_dec env conjuncts_of col : Decision (chosen env conjuncts_of col).
Proof. unfold chosen. apply _. Defined.

(** A sample choice for the statements below: the string slot 7 of column
    [col] with one binary predicate, as in scenario C, and the integer slot 8
    of column [n]. *)
Definition sample_choice : ChoiceEnv :=
  mkChoiceEnv (Some {[ 7 := [0%nat] ]}) false
    [mkSlotType 7 true false; mkSlotType 8 false false]
    (λ _, BINARY_PRED) (λ _, [SLOT_REF]) (λ name, name) ["col"; "n"] [7; 8].

End DictColumns.

(** ** Columns of an ORC batch (vorc_reader.cpp 1143-1161 and 2109-2126) *)

Module OrcColumns.
Import SearchArgument(TypeKind, STRUCT, TypeKind_eq_dec).

(** An [orc::Type] below the selected type, as far as the reader looks into
    it: [getKind()] and the names [getFieldName(j)] of its subtypes. *)
Record OrcType : Set := mkOrcType {
  getKind : TypeKind;
  getFieldNames : list string
}.

(** The selected type: [getFieldName(i)] and [getSubtype(i)]. *)
Definition SelectedType : Set := list (string * OrcType).

(** A field of the batch: a [StructVectorBatch] with its own [fields], or
    any other batch.  [B] stands for the pointers. *)
Inductive FieldBatch (B : Type) : Type :=
  | StructVectorBatch (self : B) (fields : list B)
  | OtherBatch (self : B).
Arguments StructVectorBatch {B} self fields.
Arguments OtherBatch {B} self.

Definition self_of {B : Type} (field : FieldBatch B) : B :=
  match field with
  | StructVectorBatch self _ => self
  | OtherBatch self => self
  end.

(** [_colname_to_idx[name] = idx++]. *)
Definition name_column (st : gmap string nat * nat) (name : string)
    : gmap string nat * nat :=
  (<[name := st.2]> st.1, S st.2).

(** The loops of [set_fill_columns] that fill [_colname_to_idx] (lines
    1144-1161); [ROW] is [TransactionalHive::ROW]. *)
Definition colname_to_idx_step (ROW : string) (_is_acid : bool)
    (st : gmap string nat * nat) (field : string * OrcType) : gmap string nat * nat :=
  if _is_acid then
    if decide (getKind field.2 = STRUCT)
    then foldl (λ st field_name, name_column st (ROW +:+ "." +:+ field_name))
           st (getFieldNames field.2)
    else name_column st field.1
  else name_column st field.1.

Definition colname_to_idx (ROW : string) (_is_acid : bool)
    (selected_type : SelectedType) (_colname_to_idx : gmap string nat)
    : gmap string nat :=
  (foldl (colname_to_idx_step ROW _is_acid) (_colname_to_idx, 0%nat) selected_type).1.

(** [OrcReader::_fill_batch_vec]; a [batch] that is not a
    [StructVectorBatch] is [None] here, and undefined there. *)
Definition fill_batch_vec_step {B : Type} (_is_acid : bool) (result : list B)
    (field : FieldBatch B) : list B :=
  if _is_acid then
    match field with
    | StructVectorBatch _ fields =>
        foldl (λ result row_field, result ++ [row_field]) result fields
    | OtherBatch self => result ++ [self]
    end
  else result ++ [self_of field].

Definition _fill_batch_vec {B : Type} (_is_acid : bool) (result : list B)
    (batch : option (list (FieldBatch B))) : option (list B) :=
  fields ← batch;
  Some (foldl (fill_batch_vec_step _is_acid) result fields).

(** A batch has the shape of the selected type: field by field, and for a
    transactional table a structure for a structure, with as many fields. *)
Definition conforms {B : Type} (_is_acid : bool) (selected_type : SelectedType)
    (fields : list (FieldBatch B)) : Prop :=
  Forall2 (λ (field_type : string * OrcType) (field : FieldBatch B),
    _is_acid = true →
    match field with
    | StructVectorBatch _ row_fields =>
        getKind field_type.2 = STRUCT ∧
        length row_fields = length (getFieldNames field_type.2)
    | OtherBatch _ => getKind field_type.2 ≠ STRUCT
    end) selected_type fields.

(** The columns of a batch by name: for a transactional table the fields of
    the row structure count, under the name [row.<field>]. *)
Definition columns_of_field {B : Type} (ROW : string) (_is_acid : bool)
    (field_type : string * OrcType) (field : FieldBatch B) : list (string * B) :=
  match field with
  | StructVectorBatch self row_fields =>
      if _is_acid
      then zip ((λ field_name, ROW +:+ "." +:+ field_name) <$> getFieldNames field_type.2)
               row_fields
      else [(field_type.1, self)]
  | OtherBatch self => [(field_type.1, self)]
  end.

Definition columns_of {B : Type} (ROW : string) (_is_acid : bool)
    (selected_type : SelectedType) (fields : list (FieldBatch B)) : list (string * B) :=
  mjoin (zip_with (columns_of_field ROW _is_acid) selected_type fields).

(** The names in the order in which they get their index. *)
Definition names_of_field (ROW : string) (_is_acid : bool) (field : string * OrcType)
    : list string :=
  if _is_acid && bool_decide (getKind field.2 = STRUCT)
  then (λ field_name, ROW +:+ "." +:+ field_name) <$> getFieldNames field.2
  else [field.1].

(** The batches in the order in which [_fill_batch_vec] pushes them. *)
Definition batches_of_field {B : Type} (_is_acid : bool) (field : FieldBatch B) : list B :=
  if _is_acid then
    match field with
    | StructVectorBatch _ fields => fields
    | OtherBatch self => [self]
    end
  else [self_of field].

(** A sample batch of a transactional table for the statement below: the
    integer field [bucket] and the row structure with the columns [x] and
    [y]; the batches are numbered. *)
Definition sample_type : SelectedType :=
  [("bucket", mkOrcType SearchArgument.INT []);
   ("row", mkOrcType STRUCT ["x"; "y"])].

Definition sample_fields : list (FieldBatch nat) :=
  [OtherBatch 10%nat; StructVectorBatch 20%nat [21%nat; 22%nat]].

End OrcColumns.

(** ** Prefetch ranges of a stripe (vorc_reader.cpp 2703-2736) *)

Module StripeStreams.
Local Open Scope Z_scope.

(** [orc::StreamInformation]: [getColumnId()], [getKind()] and
    [getLength()]. *)
Record StreamInformation : Set := mkStreamInformation {
  getColumnId : nat;
  getKind : Z;
  getLength : Z
}.

(** [orc::StreamId]: the column and the kind of a stream. *)
Definition StreamId : Set := nat * Z.

(** [io::PrefetchRange]. *)
Record PrefetchRange : Set := mkPrefetchRange { start_offset : Z; end_offset : Z }.

(** [std::unordered_map::emplace]: an existing key keeps its range. *)
Definition emplace (k : StreamId) (v : PrefetchRange) (m : gmap StreamId PrefetchRange)
    : gmap StreamId PrefetchRange :=
  match m !! k with
  | Some _ => m
  | None => <[k := v]> m
  end.

(** The loop of [beforeReadStripe] over the streams of the stripe, with the
    running [offset] in [uint64_t]; [selected_columns[columnId]] behind the
    end of the vector is undefined. *)
Fixpoint prefetch_ranges_loop (selected_columns : list bool)
    (streams : list StreamInformation) (offset : Z)
    (prefetch_ranges : gmap StreamId PrefetchRange)
    : option (gmap StreamId PrefetchRange) :=
  match streams with
  | [] => Some prefetch_ranges
  | stream :: rest =>
      selected ← selected_columns !! getColumnId stream;
      let prefetch_ranges' :=
        if selected : bool
        then emplace (getColumnId stream, getKind stream)
               (mkPrefetchRange offset
                  (PositionDelete.to_uint64 (offset + getLength stream)))
               prefetch_ranges
        else prefetch_ranges in
      prefetch_ranges_loop selected_columns rest
        (PositionDelete.to_uint64 (offset + getLength stream)) prefetch_ranges'
  end.

(** [ORCFileInputStream::beforeReadStripe]: the ranges it hands to
    [_build_input_stripe_streams], or nothing when all stripes are tiny.
    [stripe_offset] is [current_strip_information->getOffset()]. *)
Definition beforeReadStripe (_is_all_tiny_stripes : bool) (stripe_offset : Z)
    (streams : list StreamInformation) (selected_columns : list bool)
    : option (option (gmap StreamId PrefetchRange)) :=
  if _is_all_tiny_stripes then Some None
  else Some <$> prefetch_ranges_loop selected_columns streams stripe_offset ∅.

(** The bytes of the streams before the [i]-th. *)
Definition bytes_before (streams : list StreamInformation) (i : nat) : Z :=
  foldr Z.add 0 (getLength <$> take i streams).

(** The range [range] is that of the [i]-th stream of the stripe, a stream
    of a selected column. *)
Definition range_of_stream (selected_columns : list bool) (stripe_offset : Z)
    (streams : list StreamInformation) (i : nat) (id : StreamId)
    (range : PrefetchRange) : Prop :=
  ∃ stream, streams !! i = Some stream ∧
    selected_columns !! getColumnId stream = Some true ∧
    id = (getColumnId stream, getKind stream) ∧
    start_offset range = stripe_offset + bytes_before streams i ∧
    end_offset range = start_offset range + getLength stream.

(** A sample stripe at offset 100: three streams of two columns, of which
    column 1 is selected. *)
Definition sample_streams : list StreamInformation :=
  [mkStreamInformation 0 1 10; mkStreamInformation 1 0 5; mkStreamInformation 1 1 20].

End StripeStreams.

(** * Properties *)

(** ** Position deletes *)

Section PositionDeleteFacts.
Import PositionDelete.
Local Open Scope Z_scope.

Lemma to_uint64_small x : 0 ≤ x < 2 ^ 64 → to_uint64 x = x.
Proof. intros. unfold to_uint64. apply Z.mod_small. lia. Qed.

(** The halving loop returns the partition point of any predicate that is
    downward closed along the vector. *)
Lemma bound_loop_spec (p : Z → bool) (v : list Z) fuel first len :
  (len ≤ fuel)%nat →
  (first + len ≤ length v)%nat →
  (∀ i j x y, (i ≤ j)%nat → v !! i = Some x → v !! j = Some y →
              p y = true → p x = true) →
  (∀ i x, (i < first)%nat → v !! i = Some x → p x = true) →
  (∀ i x, (first + len ≤ i)%nat → v !! i = Some x → p x = false) →
  (first ≤ bound_loop p v fuel first len ≤ first + len)%nat ∧
  (∀ i x, (i < bound_loop p v fuel first len)%nat → v !! i = Some x → p x = true) ∧
  (∀ i x, (bound_loop p v fuel first len ≤ i)%nat → v !! i = Some x → p x = false).
Proof.
  intros Hfuel Hlen Hmono. revert first len Hfuel Hlen.
  induction fuel as [|fuel IH]; intros first len Hfuel Hlen Hlo Hhi;
    cbn [bound_loop].
  - assert (len = 0)%nat as -> by lia.
    split; [lia|]. split; [exact Hlo|].
    intros i x Hi. apply Hhi. lia.
  - destruct (decide (len = 0)%nat) as [->|Hne].
    + split; [lia|]. split; [exact Hlo|].
      intros i x Hi. apply Hhi. lia.
    + assert (len / 2 < len)%nat as Hlt by (apply Nat.div_lt; lia).
      assert (is_Some (v !! (first + len / 2)%nat)) as [m Hm]
        by (apply lookup_lt_is_Some; lia).
      rewrite (list_lookup_total_correct _ _ _ Hm).
      destruct (p m) eqn:Hpm.
      * destruct (IH (S (first + len / 2)) (len - len / 2 - 1)%nat) as (Hr & Hb & Ha);
          [lia | lia | | | ].
        -- intros i x Hi Hx. apply (Hmono i (first + len / 2)%nat x m); [lia|done..].
        -- intros i x Hi. apply Hhi. lia.
        -- split; [lia|]. split; [exact Hb|exact Ha].
      * destruct (IH first (len / 2)%nat) as (Hr & Hb & Ha); [lia | lia | | | ].
        -- exact Hlo.
        -- intros i x Hi Hx.
           destruct (p x) eqn:Hpx; [|done].
           rewrite <- Hpm. symmetry.
           apply (Hmono (first + len / 2)%nat i m x); [lia|done..].
        -- split; [lia|]. split; [exact Hb|exact Ha].
Qed.

Lemma bound_loop_range (p : Z → bool) (v : list Z) fuel : ∀ first len,
  (first ≤ bound_loop p v fuel first len ≤ first + len)%nat.
Proof.
  induction fuel as [|fuel IH]; intros first len; cbn [bound_loop]; [lia|].
  destruct (decide (len = 0)%nat); [lia|].
  assert (len / 2 < len)%nat by (apply Nat.div_lt; lia).
  destruct (p _).
  - specialize (IH (S (first + len / 2)) (len - len / 2 - 1)%nat). lia.
  - specialize (IH first (len / 2)%nat). lia.
Qed.

Lemma StronglySorted_lookup_le (v : list Z) i j x y :
  StronglySorted Z.le v → (i ≤ j)%nat →
  v !! i = Some x → v !! j = Some y → x ≤ y.
Proof.
  intros Hs. revert i j x y.
  induction Hs as [|a l Hs IH Hall]; intros i j x y Hij Hi Hj.
  - by rewrite lookup_nil in Hi.
  - destruct i as [|i], j as [|j]; simpl in *; simplify_eq; try lia.
    + rewrite Forall_forall in Hall. apply Hall.
      by eapply list_elem_of_lookup_2.
    + eapply IH; [|done..]. lia.
Qed.

(** What the clearing loop leaves behind when every index is inside the
    filter. *)
Lemma clear_rows_spec rowids start n : ∀ l filter,
  (∀ k, (l ≤ k < l + n)%nat →
        to_uint64 (rowids !!! k - start) < Z.of_nat (length filter)) →
  ∃ filter', clear_rows rowids start l n filter = Some filter' ∧
    length filter' = length filter ∧
    (∀ k, (l ≤ k < l + n)%nat →
          filter' !! Z.to_nat (to_uint64 (rowids !!! k - start)) = Some 0) ∧
    (∀ i : nat, (∀ k, (l ≤ k < l + n)%nat →
                 Z.to_nat (to_uint64 (rowids !!! k - start)) ≠ i) →
          filter' !! i = filter !! i) ∧
    (∀ i : nat, filter !! i = Some 0 → filter' !! i = Some 0).
Proof.
  induction n as [|n IH]; intros l filter Hin; simpl.
  - exists filter. repeat split; try done. intros; lia.
  - assert (0 ≤ to_uint64 (rowids !!! l - start)) as Hnn
      by (unfold to_uint64; apply Z.mod_pos_bound; lia).
    destruct (decide _) as [Hlt|Hge]; [|exfalso; apply Hge, Hin; lia].
    destruct (IH (S l) (<[Z.to_nat (to_uint64 (rowids !!! l - start)) := 0]> filter))
      as (f' & Hrun & Hlen & Hset & Hkeep & Hzero).
    { intros k Hk. rewrite length_insert. apply Hin. lia. }
    exists f'. split; [done|]. rewrite length_insert in Hlen.
    split; [done|]. split; [|split].
    + intros k Hk. destruct (decide (k = l)) as [->|Hkl]; [|apply Hset; lia].
      apply Hzero, list_lookup_insert_eq. lia.
    + intros i Hi. rewrite Hkeep.
      * apply list_lookup_insert_ne. apply Hi. lia.
      * intros k Hk. apply Hi. lia.
    + intros i Hi. apply Hzero.
      destruct (decide (Z.to_nat (to_uint64 (rowids !!! l - start)) = i)) as [<-|Hne].
      * apply list_lookup_insert_eq. lia.
      * by rewrite list_lookup_insert_ne.
Qed.

(** Where the two binary searches land on an ascending list of row ids. *)
Lemma window_bounds (rowids : list Z) (start nums : Z) :
  StronglySorted Z.le rowids →
  Forall (λ r, 0 ≤ r < 2 ^ 63) rowids →
  0 ≤ start → 0 < nums → start + nums ≤ 2 ^ 63 →
  ∀ k x, rowids !! k = Some x →
    ((lower_bound rowids start ≤ k)%nat ↔ start ≤ x) ∧
    ((k < upper_bound rowids (to_uint64 (start + nums - 1)))%nat ↔ x < start + nums).
Proof.
  intros Hs Hr Hstart Hnums Hend k x Hk.
  rewrite Forall_lookup in Hr.
  assert (∀ i y, rowids !! i = Some y → to_uint64 y = y) as Hu.
  { intros i y Hy. apply to_uint64_small. specialize (Hr i y Hy). simpl in Hr. lia. }
  rewrite (to_uint64_small (start + nums - 1)) by lia.
  split.
  - destruct (bound_loop_spec (λ y, bool_decide (to_uint64 y < start)) rowids
      (length rowids) 0 (length rowids)) as (_ & Hb & Ha); [lia|lia| | | |].
    + intros i j a b Hij Ha Hb. rewrite !bool_decide_eq_true.
      rewrite (Hu _ _ Ha), (Hu _ _ Hb).
      pose proof (StronglySorted_lookup_le _ _ _ _ _ Hs Hij Ha Hb). lia.
    + intros; lia.
    + intros i y Hi Hy. apply lookup_lt_Some in Hy. lia.
    + fold (lower_bound rowids start) in Hb, Ha. split.
      * intros Hle. specialize (Ha k x Hle Hk).
        rewrite bool_decide_eq_false, (Hu _ _ Hk) in Ha. lia.
      * intros Hle. destruct (decide (lower_bound rowids start ≤ k)%nat); [done|].
        specialize (Hb k x ltac:(lia) Hk).
        rewrite bool_decide_eq_true, (Hu _ _ Hk) in Hb. lia.
  - destruct (bound_loop_spec (λ y, negb (bool_decide (start + nums - 1 < to_uint64 y)))
      rowids (length rowids) 0 (length rowids)) as (_ & Hb & Ha); [lia|lia| | | |].
    + intros i j a b Hij Ha Hb. rewrite !negb_true_iff, !bool_decide_eq_false.
      rewrite (Hu _ _ Ha), (Hu _ _ Hb).
      pose proof (StronglySorted_lookup_le _ _ _ _ _ Hs Hij Ha Hb). lia.
    + intros; lia.
    + intros i y Hi Hy. apply lookup_lt_Some in Hy. lia.
    + fold (upper_bound rowids (start + nums - 1)) in Hb, Ha. split.
      * intros Hlt. specialize (Hb k x Hlt Hk).
        rewrite negb_true_iff, bool_decide_eq_false, (Hu _ _ Hk) in Hb. lia.
      * intros Hlt.
        destruct (decide (k < upper_bound rowids (start + nums - 1))%nat); [done|].
        specialize (Ha k x ltac:(lia) Hk).
        rewrite negb_false_iff, bool_decide_eq_true, (Hu _ _ Hk) in Ha. lia.
Qed.

(** C7.  For an ascending position-delete list and a batch that covers the
    absolute rows [start, start + nums), the delete filter clears exactly the
    positions [r - start] of the deleted row ids [r] inside the window and
    leaves every other position as it was. *)
Theorem position_delete_clears_exactly_window
    (rowids : list Z) (start nums : Z) (filter : list Z) :
  StronglySorted Z.le rowids →
  Forall (λ r, 0 ≤ r < 2 ^ 63) rowids →
  0 ≤ start → 0 < nums → start + nums ≤ 2 ^ 63 →
  Z.of_nat (length filter) = nums →
  ∃ filter',
    _execute_filter_position_delete_rowids (Some rowids) start nums filter
      = Some filter' ∧
    length filter' = length filter ∧
    ∀ i : nat, (i < length filter)%nat →
      (start + Z.of_nat i ∈ rowids → filter' !! i = Some 0) ∧
      (start + Z.of_nat i ∉ rowids → filter' !! i = filter !! i).
Proof.
  intros Hs Hr Hstart Hnums Hend Hlen.
  pose proof (window_bounds rowids start nums Hs Hr Hstart Hnums Hend) as Hw.
  unfold _execute_filter_position_delete_rowids.
  set (L := lower_bound rowids start) in *.
  set (R := upper_bound rowids (to_uint64 (start + nums - 1))) in *.
  assert (R ≤ length rowids)%nat as HR.
  { subst R. unfold upper_bound.
    pose proof (bound_loop_range
      (λ y, negb (bool_decide (to_uint64 (start + nums - 1) < to_uint64 y)))
      rowids (length rowids) 0 (length rowids)). lia. }
  assert (∀ k, (L ≤ k < L + (R - L))%nat →
    ∃ x, rowids !! k = Some x ∧ rowids !!! k = x ∧ start ≤ x < start + nums) as Hin.
  { intros k Hk.
    destruct (lookup_lt_is_Some_2 rowids k) as [x Hx]; [lia|].
    exists x. split; [done|]. split; [by apply list_lookup_total_correct|].
    destruct (Hw k x Hx) as [HL HRk]. split; [apply HL; lia|apply HRk; lia]. }
  destruct (clear_rows_spec rowids start (R - L) L filter)
    as (f' & Hrun & Hlen' & Hset & Hkeep & _).
  { intros k Hk. destruct (Hin k Hk) as (x & _ & -> & Hx).
    rewrite to_uint64_small; lia. }
  exists f'. split; [done|]. split; [done|].
  intros i Hi. split.
  - intros Hmem. apply list_elem_of_lookup in Hmem as [k Hk].
    destruct (Hw k _ Hk) as [HL HRk].
    assert (L ≤ k < L + (R - L))%nat as Hrange.
    { pose proof (proj2 HL ltac:(lia)). pose proof (proj2 HRk ltac:(lia)). lia. }
    specialize (Hset k Hrange).
    rewrite (list_lookup_total_correct _ _ _ Hk) in Hset.
    rewrite to_uint64_small in Hset by lia.
    replace (Z.to_nat (start + Z.of_nat i - start)) with i in Hset by lia.
    exact Hset.
  - intros Hnot. apply Hkeep. intros k Hk Heq.
    destruct (Hin k Hk) as (x & Hx & Hxt & Hxr).
    rewrite Hxt, to_uint64_small in Heq by lia.
    apply Hnot. apply list_elem_of_lookup. exists k.
    rewrite Hx. f_equal. lia.
Qed.

(** Scenario D, through the theorem: deletes {5, 9} on a 10-row batch. *)
Lemma position_delete_scenario_D_window :
  ∃ filter',
    _execute_filter_position_delete_rowids (Some [5; 9]) 0 10 (replicate 10 1)
      = Some filter' ∧
    length filter' = length (replicate 10 1%Z) ∧
    ∀ i : nat, (i < length (replicate 10 1%Z))%nat →
      (0 + Z.of_nat i ∈ [5; 9] → filter' !! i = Some 0) ∧
      (0 + Z.of_nat i ∉ [5; 9] → filter' !! i = replicate 10 1 !! i).
Proof.
  apply (position_delete_clears_exactly_window [5; 9] 0 10 (replicate 10 1)).
  - repeat constructor; lia.
  - repeat constructor; lia.
  - lia.
  - lia.
  - lia.
  - reflexivity.
Defined.

(** Scenario D, by evaluation. *)
Example position_delete_scenario_D :
  _execute_filter_position_delete_rowids (Some [5; 9]) 0 10 (replicate 10 1)
  = Some [1; 1; 1; 1; 1; 0; 1; 1; 1; 0].
Proof. vm_compute. reflexivity. Qed.

(** A run of the clearing loop that succeeded had all its indices inside
    the filter. *)
Lemma clear_rows_Some rowids start n : ∀ l filter filter',
  clear_rows rowids start l n filter = Some filter' →
  ∀ k, (l ≤ k < l + n)%nat →
    to_uint64 (rowids !!! k - start) < Z.of_nat (length filter).
Proof.
  induction n as [|n IH]; intros l filter filter' Hrun k Hk; [lia|].
  simpl in Hrun. destruct (decide _) as [Hlt|]; [|done].
  destruct (decide (k = l)) as [->|Hne]; [done|].
  specialize (IH _ _ _ Hrun k ltac:(lia)). by rewrite length_insert in IH.
Qed.

(** Clearing positions that are already cleared changes nothing. *)
Lemma clear_rows_fixed rowids start n : ∀ l filter,
  (∀ k, (l ≤ k < l + n)%nat →
        filter !! Z.to_nat (to_uint64 (rowids !!! k - start)) = Some 0) →
  clear_rows rowids start l n filter = Some filter.
Proof.
  induction n as [|n IH]; intros l filter Hz; simpl; [done|].
  pose proof (Hz l ltac:(lia)) as Hl.
  assert (0 ≤ to_uint64 (rowids !!! l - start))
    by (unfold to_uint64; apply Z.mod_pos_bound; lia).
  apply lookup_lt_Some in Hl as Hlt.
  destruct (decide _) as [_|Hge]; [|lia].
  rewrite (list_insert_id _ _ _ Hl). apply IH. intros k Hk. apply Hz. lia.
Qed.

(** C8.  Running the position-delete filter a second time over the same
    window, or rebuilding the ACID delete filter for the same block, gives
    the filter of the first run. *)
Theorem delete_filter_idempotent :
  (∀ rowids start nums filter,
     _execute_filter_position_delete_rowids rowids start nums filter
       ≫= _execute_filter_position_delete_rowids rowids start nums
     = _execute_filter_position_delete_rowids rowids start nums filter) ∧
  (∀ delete_rows blk rows ptr,
     _build_delete_row_filter delete_rows blk rows ptr
       ≫= _build_delete_row_filter delete_rows blk rows
     = _build_delete_row_filter delete_rows blk rows ptr).
Proof.
  split.
  - intros [rowids|] start nums filter; [|done].
    unfold _execute_filter_position_delete_rowids.
    set (l := lower_bound rowids start).
    set (n := (upper_bound rowids (to_uint64 (start + nums - 1)) - l)%nat).
    destruct (clear_rows rowids start l n filter) as [f1|] eqn:Hrun; [|done].
    simpl. apply clear_rows_fixed.
    destruct (clear_rows_spec rowids start n l filter
                (clear_rows_Some _ _ _ _ _ _ Hrun)) as (f' & Hrun' & _ & Hset & _).
    rewrite Hrun in Hrun'. by simplify_eq.
  - intros [delete_rows|] blk rows ptr; [|done].
    unfold _build_delete_row_filter.
    by destruct (acid_rows delete_rows blk 0 rows (replicate rows 1)).
Qed.

(** The two delete filters of C8 on concrete batches. *)
Example delete_filter_twice :
  (_execute_filter_position_delete_rowids (Some [2; 5; 9; 40]) 0 10 (replicate 10 1)
     ≫= _execute_filter_position_delete_rowids (Some [2; 5; 9; 40]) 0 10)
  = Some [1; 1; 0; 1; 1; 0; 1; 1; 1; 0] ∧
  (_build_delete_row_filter (Some {[ (7, 0, 1) ]})
     (mkAcidColumns [7; 7; 7] [0; 0; 0] [0; 1; 2]) 3 None
     ≫= _build_delete_row_filter (Some {[ (7, 0, 1) ]})
          (mkAcidColumns [7; 7; 7] [0; 0; 0] [0; 1; 2]) 3)
  = Some (Some [1; 0; 1]).
Proof. split; vm_compute; reflexivity. Qed.

End PositionDeleteFacts.

(** ** Lazy-read planning *)

Section LazyPlanFacts.
Import Expr.

(** Induction over expression trees. *)
Lemma slot_tree_ind (P : VExpr → Prop) :
  (∀ name column_id slot_id cs, Forall P cs → P (VSlotRef name column_id slot_id cs)) →
  (∀ impl cs, P impl → Forall P cs → P (VRuntimeFilterWrapper impl cs)) →
  (∀ cs, Forall P cs → P (VBloomPredicate cs)) →
  (∀ cs, Forall P cs → P (VInPredicate cs)) →
  (∀ cs, Forall P cs → P (VOtherExpr cs)) →
  ∀ expr, P expr.
Proof.
  intros Hslot Hfilter Hbloom Hin Hother. fix IH 1.
  assert (∀ cs, Forall P cs) as Hall.
  { intros cs. induction cs as [|c cs IHcs]; constructor; [apply IH|exact IHcs]. }
  intros [name column_id slot_id cs|impl cs|cs|cs|cs].
  - apply Hslot, Hall.
  - apply Hfilter; [apply IH|apply Hall].
  - apply Hbloom, Hall.
  - apply Hin, Hall.
  - apply Hother, Hall.
Qed.

(** The loop over the children is the loop over conjuncts. *)
Lemma visit_children_fold cs : ∀ st,
  (fix go (cs : list VExpr) (st : VisitState) {struct cs} : VisitState :=
     match cs with
     | [] => st
     | child :: cs' => go cs' (visit_slot child st)
     end) cs st
  = visit_conjuncts cs st.
Proof. induction cs as [|c cs IH]; intros st; [done|]. apply IH. Qed.

Lemma visit_slot_node expr st :
  visit_slot expr st =
  match expr with
  | VSlotRef expr_name column_id slot_id _ =>
      (emplace expr_name (column_id, slot_id) st.1,
       if decide (column_id = 0%Z) then false else st.2)
  | VRuntimeFilterWrapper (VInPredicate (first_child :: _)) _ =>
      visit_slot first_child st
  | VRuntimeFilterWrapper (VInPredicate []) _ => st
  | VRuntimeFilterWrapper filter_impl _ => visit_conjuncts (children filter_impl) st
  | _ => visit_conjuncts (children expr) st
  end.
Proof.
  destruct expr as [name column_id slot_id cs|impl cs|cs|cs|cs]; simpl;
    try done; try apply visit_children_fold.
  destruct impl as [name column_id slot_id cs'|impl' cs'|cs'|[|first_child rest]|cs'];
    simpl; try done; apply visit_children_fold.
Qed.

Lemma emplace_is_Some {V : Type} k (v : V) m name :
  is_Some (emplace k v m !! name) ↔ is_Some (m !! name) ∨ name = k.
Proof.
  unfold emplace. destruct (m !! k) as [v'|] eqn:Hk.
  - split; [by left|]. intros [?| ->]; [done|by eexists].
  - destruct (decide (name = k)) as [->|Hne].
    + rewrite lookup_insert_eq. split; [by right|by eexists].
    + rewrite lookup_insert_ne by done. split; [by left|]. by intros [?|?].
Qed.

(** The names [visit_slot] has collected after a list of expressions, when
    each of them adds the slots it exposes. *)
Lemma visit_conjuncts_keys cs :
  Forall (λ expr, ∀ st name,
            is_Some ((visit_slot expr st).1 !! name)
            ↔ is_Some (st.1 !! name) ∨ exposes expr name) cs →
  ∀ st name,
    is_Some ((visit_conjuncts cs st).1 !! name)
    ↔ is_Some (st.1 !! name) ∨ ∃ child, child ∈ cs ∧ exposes child name.
Proof.
  induction 1 as [|c cs Hc Hcs IH]; intros st name.
  - simpl. split; [by left|]. intros [?|(child & Hin & _)]; [done|].
    by apply elem_of_nil in Hin.
  - change (visit_conjuncts (c :: cs) st) with (visit_conjuncts cs (visit_slot c st)).
    rewrite IH, Hc. split.
    + intros [[?|?]|(child & Hin & ?)]; [by left|right; exists c|right; exists child];
        (split; [|done]); apply elem_of_cons; auto.
    + intros [?|(child & [->|Hin]%elem_of_cons & ?)]; [by left; left|by left; right|].
      right. eauto.
Qed.

(** [visit_slot] adds to the map exactly the names of the slots the
    expression exposes. *)
Lemma visit_slot_keys expr : ∀ st name,
  is_Some ((visit_slot expr st).1 !! name)
  ↔ is_Some (st.1 !! name) ∨ exposes expr name.
Proof.
  assert (∀ expr,
    (∀ st name, is_Some ((visit_slot expr st).1 !! name)
                ↔ is_Some (st.1 !! name) ∨ exposes expr name) ∧
    Forall (λ child, ∀ st name, is_Some ((visit_slot child st).1 !! name)
                ↔ is_Some (st.1 !! name) ∨ exposes child name) (children expr))
    as Hboth; [|intros st name; apply Hboth].
  clear expr. intros expr.
  induction expr as [expr_name column_id slot_id cs IH|impl cs [IHimpl IHkids] IH
                    |cs IH|cs IH|cs IH] using slot_tree_ind.
  - split; [|eapply Forall_impl; [exact IH|]; by intros ? [? _]].
    intros st name. rewrite visit_slot_node. cbn [fst]. rewrite emplace_is_Some.
    split.
    + intros [?| ->]; [by left|right; constructor].
    + intros [?|Hx]; [by left|]. inversion Hx; subst. by right.
  - split; [|eapply Forall_impl; [exact IH|]; by intros ? [? _]].
    intros st name. rewrite visit_slot_node.
    destruct impl as [n c s cs'|impl' cs'|cs'|[|first_child rest]|cs'].
    1-3, 6: rewrite (visit_conjuncts_keys _ IHkids); split;
      [ intros [?|(child & Hin & Hx)]; [by left|];
        right; eapply exposes_filter; [done|exact Hin|exact Hx]
      | intros [?|Hx]; [by left|]; inversion Hx; subst; right; eauto ].
    + split; [by left|]. intros [?|Hx]; [done|]. inversion Hx; subst.
      match goal with H : _ ∈ children (VInPredicate []) |- _ =>
        by apply elem_of_nil in H end.
    + apply Forall_cons in IHkids as [Hfirst _]. rewrite Hfirst. split.
      * intros [?|?]; [by left|]. right. by constructor.
      * intros [?|Hx]; [by left|]. inversion Hx; subst; [by right|].
        match goal with H : ∀ l, VInPredicate _ ≠ VInPredicate l |- _ =>
          by destruct (H (first_child :: rest)) end.
  - assert (Forall (λ child, ∀ st name, is_Some ((visit_slot child st).1 !! name)
               ↔ is_Some (st.1 !! name) ∨ exposes child name) cs) as Hkids
      by (eapply Forall_impl; [exact IH|]; by intros ? [? _]).
    split; [|done]. intros st name. rewrite visit_slot_node.
    rewrite (visit_conjuncts_keys _ Hkids). split.
    + intros [?|(child & Hin & Hx)]; [by left|]. right. by eapply exposes_bloom.
    + intros [?|Hx]; [by left|]. inversion Hx; subst. right. eauto.
  - assert (Forall (λ child, ∀ st name, is_Some ((visit_slot child st).1 !! name)
               ↔ is_Some (st.1 !! name) ∨ exposes child name) cs) as Hkids
      by (eapply Forall_impl; [exact IH|]; by intros ? [? _]).
    split; [|done]. intros st name. rewrite visit_slot_node.
    rewrite (visit_conjuncts_keys _ Hkids). split.
    + intros [?|(child & Hin & Hx)]; [by left|]. right. by eapply exposes_in.
    + intros [?|Hx]; [by left|]. inversion Hx; subst. right. eauto.
  - assert (Forall (λ child, ∀ st name, is_Some ((visit_slot child st).1 !! name)
               ↔ is_Some (st.1 !! name) ∨ exposes child name) cs) as Hkids
      by (eapply Forall_impl; [exact IH|]; by intros ? [? _]).
    split; [|done]. intros st name. rewrite visit_slot_node.
    rewrite (visit_conjuncts_keys _ Hkids). split.
    + intros [?|(child & Hin & Hx)]; [by left|]. right. by eapply exposes_other.
    + intros [?|Hx]; [by left|]. inversion Hx; subst. right. eauto.
Qed.

(** The map the planner builds from the conjuncts holds the exposed
    columns. *)
Lemma predicate_map_keys conjuncts rf name :
  is_Some ((visit_conjuncts conjuncts (∅, rf)).1 !! name) ↔ exposed_by conjuncts name.
Proof.
  rewrite visit_conjuncts_keys
    by (apply Forall_forall; intros expr _; apply visit_slot_keys).
  cbn [fst]. rewrite lookup_empty. unfold exposed_by. split.
  - intros [[? ?]|?]; done.
  - by right.
Qed.

Lemma predicate_map_empty conjuncts rf :
  (visit_conjuncts conjuncts (∅, rf)).1 ≠ ∅ ↔ ∃ name, exposed_by conjuncts name.
Proof.
  split.
  - intros Hne. apply map_choose in Hne as (name & v & Hv).
    exists name. apply (predicate_map_keys conjuncts rf). by eexists.
  - intros [name Hx] He. apply (predicate_map_keys conjuncts rf) in Hx as [v Hv].
    by rewrite He, lookup_empty in Hv.
Qed.

(** Every column the planner finds is referenced by the conjunct. *)
Lemma exposed_is_mentioned expr name : exposes expr name → mentions expr name.
Proof.
  induction 1 as [name column_id slot_id cs|cs child name Hin _ IH
                 |cs child name Hin _ IH|cs child name Hin _ IH
                 |first_child rest cs name _ IH|impl cs child name _ Hin _ IH].
  - constructor.
  - by eapply mentions_child.
  - by eapply mentions_child.
  - by eapply mentions_child.
  - apply mentions_impl. eapply mentions_child; [|exact IH]. by left.
  - apply mentions_impl. by eapply mentions_child.
Qed.

(** With no conjunct nothing is visited. *)
Lemma visit_conjuncts_nil st : visit_conjuncts [] st = st.
Proof. reflexivity. Qed.

(** The loop over the read columns of the ORC reader. *)
Lemma orc_read_loop rd ptc cols a0 l0 pn0 ps0 po0 :
  ∃ ps po,
    foldl (Orc.read_table_col_step rd ptc) (a0, l0, (pn0, ps0), po0) cols
    = (a0 ++ cols,
       l0 ++ filter (λ c, ptc ≠ ∅ ∧ ptc !! c = None ∧
                          (Orc._is_acid rd = false ∨
                           c ∉ Orc.READ_ROW_COLUMN_NAMES_LOWER_CASE rd)) cols,
       (pn0 ++ filter (λ c, ptc ≠ ∅ ∧ is_Some (ptc !! c)) cols, ps), po).
Proof.
  induction cols as [|c cols IH] using rev_ind.
  - exists ps0, po0. simpl. by rewrite !app_nil_r.
  - destruct IH as (ps & po & IH). rewrite foldl_snoc, IH, !filter_app.
    unfold Orc.read_table_col_step at 1.
    rewrite !app_assoc.
    destruct (decide (ptc = ∅)) as [He|Hne].
    + exists ps, po.
      rewrite !filter_cons_False, !filter_nil, !app_nil_r by (intros [? _]; done).
      reflexivity.
    + destruct (ptc !! c) as [[cid sid]|] eqn:Hc.
      * eexists _, _.
        rewrite (filter_cons_False _ c) by (intros (_ & ? & _); congruence).
        rewrite (filter_cons_True _ c) by (split; [done|by eexists]).
        rewrite !filter_nil, !app_nil_r, <- !app_assoc. reflexivity.
      * destruct (Orc._is_acid rd) eqn:Hacid; simpl.
        -- case_bool_decide as Hlow; simpl.
           ++ exists ps, po. rewrite (filter_cons_True _ c) by naive_solver.
              rewrite (filter_cons_False _ c) by (intros [_ [? ?]]; congruence).
              rewrite !filter_nil, !app_nil_r, <- !app_assoc. reflexivity.
           ++ exists ps, po.
              rewrite (filter_cons_False _ c)
                by (intros (_ & _ & [?|?]); [congruence|done]).
              rewrite (filter_cons_False _ c) by (intros [_ [? ?]]; congruence).
              rewrite !filter_nil, !app_nil_r. reflexivity.
        -- exists ps, po. rewrite (filter_cons_True _ c) by naive_solver.
           rewrite (filter_cons_False _ c) by (intros [_ [? ?]]; congruence).
           rewrite !filter_nil, !app_nil_r, <- !app_assoc. reflexivity.
Qed.

(** The loop over the read columns of the Parquet reader. *)
Lemma parquet_read_loop rd ptc cols a0 x0 l0 pn0 ps0 ids0 :
  ∃ x ps ids,
    foldl (Parquet.read_table_col_step rd ptc) (a0, x0, l0, (pn0, ps0), ids0) cols
    = (a0 ++ cols, x,
       l0 ++ filter (λ c, ptc ≠ ∅ ∧ ptc !! c = None) cols,
       (pn0 ++ filter (λ c, ptc ≠ ∅ ∧ is_Some (ptc !! c)) cols, ps), ids).
Proof.
  induction cols as [|c cols IH] using rev_ind.
  - exists x0, ps0, ids0. simpl. by rewrite !app_nil_r.
  - destruct IH as (x & ps & ids & IH). rewrite foldl_snoc, IH, !filter_app.
    unfold Parquet.read_table_col_step at 1.
    rewrite !app_assoc.
    case_bool_decide as Hsz.
    + assert (ptc ≠ ∅) as Hne by (apply map_size_non_empty_iff; lia).
      destruct (ptc !! c) as [[cid sid]|] eqn:Hc.
      * eexists _, _, _.
        rewrite (filter_cons_False _ c) by (intros [_ ?]; congruence).
        rewrite (filter_cons_True _ c) by (split; [done|by eexists]).
        rewrite !filter_nil, !app_nil_r, <- !app_assoc. reflexivity.
      * eexists _, _, _. rewrite (filter_cons_True _ c) by naive_solver.
        rewrite (filter_cons_False _ c) by (intros [_ [? ?]]; congruence).
        rewrite !filter_nil, !app_nil_r, <- !app_assoc. reflexivity.
    + assert (ptc = ∅) as He by (apply map_size_empty_iff; lia).
      eexists _, _, _.
      rewrite !filter_cons_False, !filter_nil, !app_nil_r by (intros [? _]; done).
      reflexivity.
Qed.

(** A filter of a list is empty when no element passes. *)
Lemma filter_nil_iff {A : Type} (P : A → Prop) `{!∀ x, Decision (P x)} (l : list A) :
  filter P l = [] ↔ ∀ x, x ∈ l → ¬ P x.
Proof.
  split.
  - intros Hnil x Hx HP.
    assert (x ∈ filter P l) as Hin by (by apply list_elem_of_filter).
    rewrite Hnil in Hin. by apply elem_of_nil in Hin.
  - intros Hnone. induction l as [|a l IH]; [done|].
    rewrite filter_cons_False by (apply Hnone; by left).
    apply IH. intros x Hx. apply Hnone. by right.
Qed.


(** The two maps a split fills from empty targets. *)
Lemma split_by_predicate_empty {V : Type} ptc (columns : gmap string V) :
  split_by_predicate ptc columns ∅ ∅
  = (filter (λ kv, ptc !! kv.1 = None) columns,
     filter (λ kv, is_Some (ptc !! kv.1)) columns).
Proof. unfold split_by_predicate. by rewrite !(left_id_L ∅ (∪)). Qed.

(** The plan of the ORC reader on a fresh context, in terms of the map
    [predicate_table_columns] the visitor has built. *)
Lemma orc_plan (rd : Orc.OrcReader) ext conjuncts
    (pc : gmap string Orc.PartitionValue) (mc : gmap string VExpr) :
  Orc._lazy_read_ctx rd = Orc.init_lazy_read_ctx conjuncts →
  let ptc := (visit_conjuncts conjuncts (∅, true)).1 in
  let ctx' := (Orc.set_fill_columns rd ext pc mc).2 in
  let merged := negb (Orc.can_lazy_read ctx') && Orc.reaches_merge rd ext in
  (Orc.predicate_columns ctx').1
    = filter (λ c, ptc ≠ ∅ ∧ is_Some (ptc !! c)) (Orc._read_table_cols rd) ∧
  Orc.lazy_read_columns ctx'
    = filter (λ c, ptc ≠ ∅ ∧ ptc !! c = None ∧
                   (Orc._is_acid rd = false ∨
                    c ∉ Orc.READ_ROW_COLUMN_NAMES_LOWER_CASE rd))
             (Orc._read_table_cols rd) ∧
  Orc.all_read_columns ctx' = Orc._read_table_cols rd ∧
  Orc.can_lazy_read ctx'
    = Orc._enable_lazy_mat rd
      && negb (bool_decide ((Orc.predicate_columns ctx').1 = []))
      && negb (bool_decide (Orc.lazy_read_columns ctx' = [])) ∧
  Orc.predicate_partition_columns ctx' = filter (λ kv, is_Some (ptc !! kv.1)) pc ∧
  Orc.predicate_missing_columns ctx' = filter (λ kv, is_Some (ptc !! kv.1)) mc ∧
  Orc.partition_columns ctx'
    = (if merged
       then filter (λ kv, ptc !! kv.1 = None) pc ∪ filter (λ kv, is_Some (ptc !! kv.1)) pc
       else filter (λ kv, ptc !! kv.1 = None) pc) ∧
  Orc.missing_columns ctx'
    = (if merged
       then filter (λ kv, ptc !! kv.1 = None) mc ∪ filter (λ kv, is_Some (ptc !! kv.1)) mc
       else filter (λ kv, ptc !! kv.1 = None) mc).
Proof.
  intros Hctx. cbv zeta. unfold Orc.reaches_merge, Orc.set_fill_columns.
  rewrite Hctx. cbn [Orc.init_lazy_read_ctx Orc.conjuncts Orc.resize_first_column
    Orc.all_read_columns Orc.lazy_read_columns Orc.predicate_columns
    Orc.predicate_orc_columns Orc.partition_columns Orc.missing_columns
    Orc.predicate_partition_columns Orc.predicate_missing_columns
    Orc.can_lazy_read Orc.all_predicate_col_ids].
  destruct (visit_conjuncts conjuncts (∅, true)) as [ptc rf] eqn:Hvisit.
  destruct (orc_read_loop rd ptc (Orc._read_table_cols rd) [] []  [] []
    (if Orc._is_acid rd then [] ++ Orc.READ_ROW_COLUMN_NAMES rd else []))
    as (ps & po & ->).
  rewrite !split_by_predicate_empty.
  cbn [fst snd app].
  set (pred := filter (λ c, ptc ≠ ∅ ∧ is_Some (ptc !! c)) (Orc._read_table_cols rd)).
  set (lazy := filter _ (Orc._read_table_cols rd)).
  assert (conjuncts = [] → pred = []) as Hnil.
  { intros ->. simpl in Hvisit. simplify_eq. subst pred.
    apply filter_nil_iff. intros c _ [? _]. done. }
  set (can1 := if Orc._enable_lazy_mat rd && negb (bool_decide (pred = []))
                  && negb (bool_decide (lazy = [])) then true else false).
  set (can2 := if bool_decide (conjuncts = []) then false else can1).
  assert (can2 = Orc._enable_lazy_mat rd && negb (bool_decide (pred = []))
                 && negb (bool_decide (lazy = []))) as Hcan.
  { subst can2 can1. case_bool_decide as Hc.
    - rewrite (bool_decide_eq_true_2 (pred = [])) by auto.
      by rewrite andb_false_r.
    - by destruct (_ && _ && _). }
  destruct (negb (bool_decide (conjuncts = [])) && Orc._enable_filter_by_min_max rd
            && Orc.check_orc_init_sargs_success ext
            && negb (Orc.init_search_argument_result ext)).
  { cbn. rewrite andb_false_r. done. }
  destruct (Orc.stripe_planning_exception ext) as [msg|].
  { cbn. rewrite andb_false_r. done. }
  rewrite (bool_decide_eq_false_2 (is_Some None)) by (by intros [? ?]).
  cbn [negb andb]. rewrite andb_true_r.
  destruct (Orc.create_row_reader_exception ext) as [msg|]; destruct can2 eqn:Hc2;
    cbn; done.
Qed.

(** The plan of the Parquet reader on a fresh context. *)
Lemma parquet_plan (rd : Parquet.ParquetReader) conjuncts
    (pc : gmap string Parquet.PartitionValue) (mc : gmap string VExpr) :
  Parquet._lazy_read_ctx rd = Parquet.init_lazy_read_ctx conjuncts →
  let ptc := (visit_conjuncts conjuncts (∅, true)).1 in
  let ctx' := (Parquet.set_fill_columns rd pc mc).2 in
  (Parquet.predicate_columns ctx').1
    = filter (λ c, ptc ≠ ∅ ∧ is_Some (ptc !! c)) (Parquet._read_table_columns rd) ∧
  Parquet.lazy_read_columns ctx'
    = filter (λ c, ptc ≠ ∅ ∧ ptc !! c = None) (Parquet._read_table_columns rd) ∧
  Parquet.all_read_columns ctx' = Parquet._read_table_columns rd ∧
  Parquet.can_lazy_read ctx'
    = Parquet._enable_lazy_mat rd
      && negb (bool_decide ((Parquet.predicate_columns ctx').1 = []))
      && negb (bool_decide (Parquet.lazy_read_columns ctx' = [])) ∧
  Parquet.predicate_partition_columns ctx' = filter (λ kv, is_Some (ptc !! kv.1)) pc ∧
  Parquet.predicate_missing_columns ctx' = filter (λ kv, is_Some (ptc !! kv.1)) mc ∧
  Parquet.partition_columns ctx'
    = (if Parquet.can_lazy_read ctx'
       then filter (λ kv, ptc !! kv.1 = None) pc
       else filter (λ kv, ptc !! kv.1 = None) pc ∪ filter (λ kv, is_Some (ptc !! kv.1)) pc) ∧
  Parquet.missing_columns ctx'
    = (if Parquet.can_lazy_read ctx'
       then filter (λ kv, ptc !! kv.1 = None) mc
       else filter (λ kv, ptc !! kv.1 = None) mc ∪ filter (λ kv, is_Some (ptc !! kv.1)) mc).
Proof.
  intros Hctx. cbv zeta. unfold Parquet.set_fill_columns.
  rewrite Hctx. cbn [Parquet.init_lazy_read_ctx Parquet.conjuncts
    Parquet.resize_first_column Parquet.all_read_columns
    Parquet.lazy_read_columns Parquet.predicate_columns
    Parquet.partition_columns Parquet.missing_columns
    Parquet.predicate_partition_columns Parquet.predicate_missing_columns
    Parquet.can_lazy_read Parquet.all_predicate_col_ids
    Parquet.has_complex_type Parquet.missing_columns_conjuncts].
  assert ((if bool_decide (conjuncts = []) then (∅, true)
           else visit_conjuncts conjuncts (∅, true))
          = visit_conjuncts conjuncts (∅, true)) as ->
    by (case_bool_decide; [by subst|done]).
  destruct (visit_conjuncts conjuncts (∅, true)) as [ptc rf] eqn:Hvisit.
  destruct (parquet_read_loop rd ptc (Parquet._read_table_columns rd)
    [] false [] [] [] []) as (x & ps & ids & ->).
  rewrite !split_by_predicate_empty.
  cbn [fst snd app].
  set (pred := filter (λ c, ptc ≠ ∅ ∧ is_Some (ptc !! c))
                 (Parquet._read_table_columns rd)).
  set (lazy := filter _ (Parquet._read_table_columns rd)).
  assert ((if Parquet._enable_lazy_mat rd && bool_decide (0 < length pred)
              && bool_decide (0 < length lazy) then true else false)
          = Parquet._enable_lazy_mat rd && negb (bool_decide (pred = []))
            && negb (bool_decide (lazy = []))) as ->.
  { destruct (Parquet._enable_lazy_mat rd), pred, lazy; done. }
  cbn [Parquet.predicate_columns Parquet.lazy_read_columns Parquet.can_lazy_read
       Parquet.partition_columns Parquet.missing_columns Parquet.all_read_columns
       Parquet.predicate_partition_columns Parquet.predicate_missing_columns
       fst snd].
  done.
Qed.


(** The two lists of the ORC plan, by membership. *)
Lemma orc_lists (rd : Orc.OrcReader) ext conjuncts
    (pc : gmap string Orc.PartitionValue) (mc : gmap string VExpr) :
  Orc._lazy_read_ctx rd = Orc.init_lazy_read_ctx conjuncts →
  let ctx' := (Orc.set_fill_columns rd ext pc mc).2 in
  (∀ c, c ∈ (Orc.predicate_columns ctx').1
        ↔ c ∈ Orc._read_table_cols rd ∧ exposed_by conjuncts c) ∧
  (∀ c, c ∈ Orc.lazy_read_columns ctx'
        ↔ c ∈ Orc._read_table_cols rd ∧ ¬ exposed_by conjuncts c ∧
          Orc.may_be_lazy rd c ∧ ∃ n, exposed_by conjuncts n).
Proof.
  intros Hctx. cbv zeta.
  destruct (orc_plan rd ext conjuncts pc mc Hctx) as (-> & -> & _).
  split; intros c; rewrite list_elem_of_filter, predicate_map_empty.
  - rewrite predicate_map_keys. split; [tauto|].
    intros [? ?]. split; [|done]. split; [by exists c|done].
  - rewrite eq_None_not_Some, predicate_map_keys. unfold Orc.may_be_lazy. tauto.
Qed.

(** The two lists of the Parquet plan, by membership. *)
Lemma parquet_lists (rd : Parquet.ParquetReader) conjuncts
    (pc : gmap string Parquet.PartitionValue) (mc : gmap string VExpr) :
  Parquet._lazy_read_ctx rd = Parquet.init_lazy_read_ctx conjuncts →
  let ctx' := (Parquet.set_fill_columns rd pc mc).2 in
  (∀ c, c ∈ (Parquet.predicate_columns ctx').1
        ↔ c ∈ Parquet._read_table_columns rd ∧ exposed_by conjuncts c) ∧
  (∀ c, c ∈ Parquet.lazy_read_columns ctx'
        ↔ c ∈ Parquet._read_table_columns rd ∧ ¬ exposed_by conjuncts c ∧
          ∃ n, exposed_by conjuncts n).
Proof.
  intros Hctx. cbv zeta.
  destruct (parquet_plan rd conjuncts pc mc Hctx) as (-> & -> & _).
  split; intros c; rewrite list_elem_of_filter, predicate_map_empty.
  - rewrite predicate_map_keys. split; [tauto|].
    intros [? ?]. split; [|done]. split; [by exists c|done].
  - rewrite eq_None_not_Some, predicate_map_keys. tauto.
Qed.

(** Whether a column is exposed by the conjuncts can be told. *)
Lemma exposed_by_dec conjuncts c : exposed_by conjuncts c ∨ ¬ exposed_by conjuncts c.
Proof.
  rewrite <- (predicate_map_keys conjuncts true).
  destruct ((visit_conjuncts conjuncts (∅, true)).1 !! c); [left; by eexists|right].
  by intros [? ?].
Qed.


(** Where a supplied column is found after the split, with or without the
    merge of the predicate variant into the plain map. *)
Lemma split_lookup {V : Type} (ptc : gmap string (Z * Z)) (columns : gmap string V)
    k v (merged : bool) :
  columns !! k = Some v →
  let plain := filter (λ kv, ptc !! kv.1 = None) columns in
  let with_predicate := filter (λ kv, is_Some (ptc !! kv.1)) columns in
  (¬ is_Some (ptc !! k) →
     (if merged then plain ∪ with_predicate else plain) !! k = Some v ∧
     with_predicate !! k = None) ∧
  (is_Some (ptc !! k) →
     with_predicate !! k = Some v ∧
     (if merged then plain ∪ with_predicate else plain) !! k
     = if merged then Some v else None).
Proof.
  intros Hk. cbv zeta. split; intros Hp.
  - assert (filter (λ kv : string * V, ptc !! kv.1 = None) columns !! k = Some v) as Hplain.
    { apply map_lookup_filter_Some. split; [done|]. by apply eq_None_not_Some. }
    split.
    + destruct merged; [by apply lookup_union_Some_l|done].
    + apply map_lookup_filter_None. right. intros x _. done.
  - assert (filter (λ kv : string * V, ptc !! kv.1 = None) columns !! k = None) as Hplain.
    { apply map_lookup_filter_None. right. intros x _ Hn. simpl in Hn.
      destruct Hp as [y Hy]. congruence. }
    assert (filter (λ kv : string * V, is_Some (ptc !! kv.1)) columns !! k = Some v)
      as Hwith by (by apply map_lookup_filter_Some).
    split; [done|]. destruct merged; [|done]. by rewrite lookup_union_r.
Qed.

(** A column that is not supplied is in neither map. *)
Lemma split_absent {V : Type} (ptc : gmap string (Z * Z)) (columns : gmap string V)
    k (merged : bool) :
  columns !! k = None →
  k ∉ dom (if merged
           then filter (λ kv, ptc !! kv.1 = None) columns
                ∪ filter (λ kv, is_Some (ptc !! kv.1)) columns
           else filter (λ kv, ptc !! kv.1 = None) columns).
Proof.
  intros Hk. apply not_elem_of_dom.
  assert (∀ (P : string * V → Prop) `{!∀ kv, Decision (P kv)},
            filter P columns !! k = None)
    as Hnone by (intros P ?; apply map_lookup_filter_None; by left).
  destruct merged; [|apply Hnone].
  apply lookup_union_None. split; apply Hnone.
Qed.

(** C5, amended.  On a freshly initialised context the predicate and lazy
    column lists are disjoint.  If the conjuncts expose at least one slot,
    every read column that may be lazy (any but an ACID row column of a
    transactional ORC file) is in exactly one of the two lists: in the
    predicate list if the conjuncts expose it, in the lazy list if not; if
    it is not also supplied as a partition or missing column, it is in
    exactly one of the four sets.  If the conjuncts expose no slot, as when
    there is no conjunct at all, both lists stay empty, lazy mode is off and
    the read columns are listed in [all_read_columns].  A supplied partition
    or missing column that no conjunct exposes lands in [partition_columns]
    or [missing_columns]; an exposed one lands in the predicate variant of
    the map, and in the plain map as well unless lazy mode is on or the ORC
    call ends before its merge. *)
Theorem plan_splits_read_columns :
  (∀ (rd : Orc.OrcReader) ext conjuncts pc mc,
     Orc._lazy_read_ctx rd = Orc.init_lazy_read_ctx conjuncts →
     let ctx' := (Orc.set_fill_columns rd ext pc mc).2 in
     let merged (V : Type) (v : V) : option V :=
       if Orc.can_lazy_read ctx' then None
       else if Orc.reaches_merge rd ext then Some v else None in
     (∀ c, c ∈ (Orc.predicate_columns ctx').1 → c ∉ Orc.lazy_read_columns ctx') ∧
     ((∃ n, exposed_by conjuncts n) →
      ∀ c, c ∈ Orc._read_table_cols rd → Orc.may_be_lazy rd c →
        (exposed_by conjuncts c ∧
         (c ∈ (Orc.predicate_columns ctx').1) ∧ (c ∉ Orc.lazy_read_columns ctx')) ∨
        (¬ exposed_by conjuncts c ∧
         (c ∉ (Orc.predicate_columns ctx').1) ∧ (c ∈ Orc.lazy_read_columns ctx'))) ∧
     ((∃ n, exposed_by conjuncts n) →
      ∀ c, c ∈ Orc._read_table_cols rd → Orc.may_be_lazy rd c →
        pc !! c = None → mc !! c = None →
        Scenario.in_exactly_one_of_four c
          (Orc.predicate_columns ctx').1 (Orc.lazy_read_columns ctx')
          (dom (Orc.partition_columns ctx')) (dom (Orc.missing_columns ctx'))) ∧
     ((¬ ∃ n, exposed_by conjuncts n) →
        (Orc.predicate_columns ctx').1 = [] ∧ Orc.lazy_read_columns ctx' = [] ∧
        Orc.can_lazy_read ctx' = false ∧
        Orc.all_read_columns ctx' = Orc._read_table_cols rd) ∧
     (conjuncts = [] → ¬ ∃ n, exposed_by conjuncts n) ∧
     (∀ k v, pc !! k = Some v →
        (¬ exposed_by conjuncts k →
           Orc.partition_columns ctx' !! k = Some v ∧
           Orc.predicate_partition_columns ctx' !! k = None) ∧
        (exposed_by conjuncts k →
           Orc.predicate_partition_columns ctx' !! k = Some v ∧
           Orc.partition_columns ctx' !! k = merged _ v)) ∧
     (∀ k v, mc !! k = Some v →
        (¬ exposed_by conjuncts k →
           Orc.missing_columns ctx' !! k = Some v ∧
           Orc.predicate_missing_columns ctx' !! k = None) ∧
        (exposed_by conjuncts k →
           Orc.predicate_missing_columns ctx' !! k = Some v ∧
           Orc.missing_columns ctx' !! k = merged _ v))) ∧
  (∀ (rd : Parquet.ParquetReader) conjuncts pc mc,
     Parquet._lazy_read_ctx rd = Parquet.init_lazy_read_ctx conjuncts →
     let ctx' := (Parquet.set_fill_columns rd pc mc).2 in
     let merged (V : Type) (v : V) : option V :=
       if Parquet.can_lazy_read ctx' then None else Some v in
     (∀ c, c ∈ (Parquet.predicate_columns ctx').1 →
           c ∉ Parquet.lazy_read_columns ctx') ∧
     ((∃ n, exposed_by conjuncts n) →
      ∀ c, c ∈ Parquet._read_table_columns rd →
        (exposed_by conjuncts c ∧
         (c ∈ (Parquet.predicate_columns ctx').1) ∧
         (c ∉ Parquet.lazy_read_columns ctx')) ∨
        (¬ exposed_by conjuncts c ∧
         (c ∉ (Parquet.predicate_columns ctx').1) ∧
         (c ∈ Parquet.lazy_read_columns ctx'))) ∧
     ((∃ n, exposed_by conjuncts n) →
      ∀ c, c ∈ Parquet._read_table_columns rd →
        pc !! c = None → mc !! c = None →
        Scenario.in_exactly_one_of_four c
          (Parquet.predicate_columns ctx').1 (Parquet.lazy_read_columns ctx')
          (dom (Parquet.partition_columns ctx'))
          (dom (Parquet.missing_columns ctx'))) ∧
     ((¬ ∃ n, exposed_by conjuncts n) →
        (Parquet.predicate_columns ctx').1 = [] ∧
        Parquet.lazy_read_columns ctx' = [] ∧
        Parquet.can_lazy_read ctx' = false ∧
        Parquet.all_read_columns ctx' = Parquet._read_table_columns rd) ∧
     (conjuncts = [] → ¬ ∃ n, exposed_by conjuncts n) ∧
     (∀ k v, pc !! k = Some v →
        (¬ exposed_by conjuncts k →
           Parquet.partition_columns ctx' !! k = Some v ∧
           Parquet.predicate_partition_columns ctx' !! k = None) ∧
        (exposed_by conjuncts k →
           Parquet.predicate_partition_columns ctx' !! k = Some v ∧
           Parquet.partition_columns ctx' !! k = merged _ v)) ∧
     (∀ k v, mc !! k = Some v →
        (¬ exposed_by conjuncts k →
           Parquet.missing_columns ctx' !! k = Some v ∧
           Parquet.predicate_missing_columns ctx' !! k = None) ∧
        (exposed_by conjuncts k →
           Parquet.predicate_missing_columns ctx' !! k = Some v ∧
           Parquet.missing_columns ctx' !! k = merged _ v))).
Proof.
  assert (∀ conjuncts, conjuncts = [] → ¬ ∃ n, exposed_by conjuncts n) as Hnone.
  { intros ? -> (n & conjunct & Hin & _). by apply elem_of_nil in Hin. }
  split.
  - intros rd ext conjuncts pc mc Hctx. cbv zeta.
    destruct (orc_lists rd ext conjuncts pc mc Hctx) as [Hpred Hlazy].
    destruct (orc_plan rd ext conjuncts pc mc Hctx)
      as (_ & _ & Hall & Hcan & Hpp & Hpm & Hpart & Hmiss).
    set (ctx' := (Orc.set_fill_columns rd ext pc mc).2) in *.
    assert ((∃ n, exposed_by conjuncts n) →
      ∀ c, c ∈ Orc._read_table_cols rd → Orc.may_be_lazy rd c →
        (exposed_by conjuncts c ∧
         (c ∈ (Orc.predicate_columns ctx').1) ∧ (c ∉ Orc.lazy_read_columns ctx')) ∨
        (¬ exposed_by conjuncts c ∧
         (c ∉ (Orc.predicate_columns ctx').1) ∧ (c ∈ Orc.lazy_read_columns ctx')))
      as Hone.
    { intros Hsome c Hc Hacid.
      destruct (exposed_by_dec conjuncts c) as [Hx|Hx]; [left|right].
      - split; [done|]. split; [by apply Hpred|]. intros Hl. apply Hlazy in Hl. tauto.
      - split; [done|]. split; [intros Hp; apply Hpred in Hp; tauto|].
        by apply Hlazy. }
    split; [|split; [done|split; [|split; [|split; [by apply Hnone|split]]]]].
    + intros c Hp Hl. apply Hpred in Hp. apply Hlazy in Hl. tauto.
    + intros Hsome c Hc Hacid Hpc Hmc.
      assert (c ∉ dom (Orc.partition_columns ctx')) as Hnp
        by (rewrite Hpart; by apply split_absent).
      assert (c ∉ dom (Orc.missing_columns ctx')) as Hnm
        by (rewrite Hmiss; by apply split_absent).
      unfold Scenario.in_exactly_one_of_four.
      destruct (Hone Hsome c Hc Hacid) as [(_ & ? & ?)|(_ & ? & ?)]; [left|right; left];
        done.
    + intros Hno.
      assert ((Orc.predicate_columns ctx').1 = []) as Hp.
      { destruct (Orc.predicate_columns ctx').1 as [|c l] eqn:Hl; [done|].
        exfalso. apply Hno. exists c. apply (Hpred c). by left. }
      assert (Orc.lazy_read_columns ctx' = []) as Hl.
      { destruct (Orc.lazy_read_columns ctx') as [|c l] eqn:Hl; [done|].
        exfalso. apply Hno. apply (Hlazy c). by left. }
      split; [done|]. split; [done|]. split; [|done].
      rewrite Hcan, Hp. cbn. by rewrite andb_false_r.
    + intros k v Hk. rewrite Hpp, Hpart.
      rewrite <- !(predicate_map_keys conjuncts true).
      destruct (split_lookup (visit_conjuncts conjuncts (∅, true)).1 pc k v
                  (negb (Orc.can_lazy_read ctx') && Orc.reaches_merge rd ext) Hk)
        as [Hplain Hwith].
      split; [done|]. intros Hx. destruct (Hwith Hx) as [H1 H2].
      split; [done|]. rewrite H2.
      by destruct (Orc.can_lazy_read ctx'), (Orc.reaches_merge rd ext).
    + intros k v Hk. rewrite Hpm, Hmiss.
      rewrite <- !(predicate_map_keys conjuncts true).
      destruct (split_lookup (visit_conjuncts conjuncts (∅, true)).1 mc k v
                  (negb (Orc.can_lazy_read ctx') && Orc.reaches_merge rd ext) Hk)
        as [Hplain Hwith].
      split; [done|]. intros Hx. destruct (Hwith Hx) as [H1 H2].
      split; [done|]. rewrite H2.
      by destruct (Orc.can_lazy_read ctx'), (Orc.reaches_merge rd ext).
  - intros rd conjuncts pc mc Hctx. cbv zeta.
    destruct (parquet_lists rd conjuncts pc mc Hctx) as [Hpred Hlazy].
    destruct (parquet_plan rd conjuncts pc mc Hctx)
      as (_ & _ & Hall & Hcan & Hpp & Hpm & Hpart & Hmiss).
    set (ctx' := (Parquet.set_fill_columns rd pc mc).2) in *.
    assert ((∃ n, exposed_by conjuncts n) →
      ∀ c, c ∈ Parquet._read_table_columns rd →
        (exposed_by conjuncts c ∧
         (c ∈ (Parquet.predicate_columns ctx').1) ∧
         (c ∉ Parquet.lazy_read_columns ctx')) ∨
        (¬ exposed_by conjuncts c ∧
         (c ∉ (Parquet.predicate_columns ctx').1) ∧
         (c ∈ Parquet.lazy_read_columns ctx'))) as Hone.
    { intros Hsome c Hc.
      destruct (exposed_by_dec conjuncts c) as [Hx|Hx]; [left|right].
      - split; [done|]. split; [by apply Hpred|]. intros Hl. apply Hlazy in Hl. tauto.
      - split; [done|]. split; [intros Hp; apply Hpred in Hp; tauto|].
        by apply Hlazy. }
    split; [|split; [done|split; [|split; [|split; [by apply Hnone|split]]]]].
    + intros c Hp Hl. apply Hpred in Hp. apply Hlazy in Hl. tauto.
    + intros Hsome c Hc Hpc Hmc.
      assert (c ∉ dom (Parquet.partition_columns ctx')) as Hnp.
      { rewrite Hpart. destruct (Parquet.can_lazy_read ctx').
        - by apply (split_absent _ pc c false).
        - by apply (split_absent _ pc c true). }
      assert (c ∉ dom (Parquet.missing_columns ctx')) as Hnm.
      { rewrite Hmiss. destruct (Parquet.can_lazy_read ctx').
        - by apply (split_absent _ mc c false).
        - by apply (split_absent _ mc c true). }
      unfold Scenario.in_exactly_one_of_four.
      destruct (Hone Hsome c Hc) as [(_ & ? & ?)|(_ & ? & ?)]; [left|right; left];
        done.
    + intros Hno.
      assert ((Parquet.predicate_columns ctx').1 = []) as Hp.
      { destruct (Parquet.predicate_columns ctx').1 as [|c l] eqn:Hl; [done|].
        exfalso. apply Hno. exists c. apply (Hpred c). by left. }
      assert (Parquet.lazy_read_columns ctx' = []) as Hl.
      { destruct (Parquet.lazy_read_columns ctx') as [|c l] eqn:Hl; [done|].
        exfalso. apply Hno. apply (Hlazy c). by left. }
      split; [done|]. split; [done|]. split; [|done].
      rewrite Hcan, Hp. cbn. by rewrite andb_false_r.
    + intros k v Hk. rewrite Hpp, Hpart.
      rewrite <- !(predicate_map_keys conjuncts true).
      destruct (split_lookup (visit_conjuncts conjuncts (∅, true)).1 pc k v
                  (negb (Parquet.can_lazy_read ctx')) Hk) as [Hplain Hwith].
      destruct (Parquet.can_lazy_read ctx'); cbn [negb] in *; split; try done;
        intros Hx; by destruct (Hwith Hx).
    + intros k v Hk. rewrite Hpm, Hmiss.
      rewrite <- !(predicate_map_keys conjuncts true).
      destruct (split_lookup (visit_conjuncts conjuncts (∅, true)).1 mc k v
                  (negb (Parquet.can_lazy_read ctx')) Hk) as [Hplain Hwith].
      destruct (Parquet.can_lazy_read ctx'); cbn [negb] in *; split; try done;
        intros Hx; by destruct (Hwith Hx).
Qed.



(** The plan of the sample scans, by evaluation. *)
Example lazy_plan_sample :
  let ctx' := (Orc.set_fill_columns (Scenario.orc_xy [Scenario.x_gt_25])
                 Scenario.orc_quiet ∅ ∅).2 in
  Orc.can_lazy_read ctx' = true ∧
  Orc.predicate_columns ctx' = (["x"], [1%Z]) ∧
  Orc.lazy_read_columns ctx' = ["y"].
Proof. vm_compute. done. Qed.


(** C5 as the document states it fails when no conjunct is given: the read
    column [x] is then in none of the four sets, in either reader. *)
Lemma four_sets_fail_without_conjuncts :
  (let ctx' := (Parquet.set_fill_columns (Scenario.parquet_xy []) ∅ ∅).2 in
   ¬ Scenario.in_exactly_one_of_four "x"
       (Parquet.predicate_columns ctx').1 (Parquet.lazy_read_columns ctx')
       (dom (Parquet.partition_columns ctx')) (dom (Parquet.missing_columns ctx'))) ∧
  (let ctx' := (Orc.set_fill_columns (Scenario.orc_xy []) Scenario.orc_quiet ∅ ∅).2 in
   ¬ Scenario.in_exactly_one_of_four "x"
       (Orc.predicate_columns ctx').1 (Orc.lazy_read_columns ctx')
       (dom (Orc.partition_columns ctx')) (dom (Orc.missing_columns ctx'))).
Proof.
  split; cbv zeta.
  - replace (Parquet.set_fill_columns (Scenario.parquet_xy []) ∅ ∅).2
      with (Parquet.mkLazyReadContext [] false true false ["x"; "y"] []
              ([], []) [] ∅ ∅ ∅ ∅ []) by (vm_compute; reflexivity).
    unfold Scenario.in_exactly_one_of_four. simpl. rewrite dom_empty_L.
    intros [H|[H|[H|H]]]; destruct H as (H1 & H2 & H3 & H4);
      first [ by apply elem_of_nil in H1 | by apply elem_of_nil in H2
            | by apply not_elem_of_empty in H3 | by apply not_elem_of_empty in H4 ].
  - replace (Orc.set_fill_columns (Scenario.orc_xy []) Scenario.orc_quiet ∅ ∅).2
      with (Orc.mkLazyReadContext [] false true ["x"; "y"] []
              ([], []) [] [] ∅ ∅ ∅ ∅) by (vm_compute; reflexivity).
    unfold Scenario.in_exactly_one_of_four. simpl. rewrite dom_empty_L.
    intros [H|[H|[H|H]]]; destruct H as (H1 & H2 & H3 & H4);
      first [ by apply elem_of_nil in H1 | by apply elem_of_nil in H2
            | by apply not_elem_of_empty in H3 | by apply not_elem_of_empty in H4 ].
Qed.

(** The amended C5 on the sample scans with the conjuncts [x > 25] and
    [p = 1], the partition column [p] and the missing column [m]: [x] is a
    predicate column, [y] a lazy column, [p] is kept in the predicate variant
    only, lazy mode being on, and [m] is a plain missing column. *)
Lemma plan_splits_sample :
  (let ctx' := (Orc.set_fill_columns
                  (Scenario.orc_xy [Scenario.x_gt_25; Scenario.p_eq_1])
                  Scenario.orc_quiet Scenario.partition_p Scenario.missing_m).2 in
   ("x" ∈ (Orc.predicate_columns ctx').1) ∧ ("x" ∉ Orc.lazy_read_columns ctx') ∧
   ("y" ∉ (Orc.predicate_columns ctx').1) ∧ ("y" ∈ Orc.lazy_read_columns ctx') ∧
   Orc.predicate_partition_columns ctx' !! "p" = Some ("1", 3%Z) ∧
   Orc.partition_columns ctx' !! "p" = None ∧
   Orc.missing_columns ctx' !! "m" = Some (VOtherExpr [])) ∧
  (let ctx' := (Parquet.set_fill_columns
                  (Scenario.parquet_xy [Scenario.x_gt_25; Scenario.p_eq_1])
                  Scenario.partition_p Scenario.missing_m).2 in
   ("x" ∈ (Parquet.predicate_columns ctx').1) ∧
   ("x" ∉ Parquet.lazy_read_columns ctx') ∧
   ("y" ∉ (Parquet.predicate_columns ctx').1) ∧
   ("y" ∈ Parquet.lazy_read_columns ctx') ∧
   Parquet.predicate_partition_columns ctx' !! "p" = Some ("1", 3%Z) ∧
   Parquet.partition_columns ctx' !! "p" = None ∧
   Parquet.missing_columns ctx' !! "m" = Some (VOtherExpr [])).
Proof.
  set (conjuncts := [Scenario.x_gt_25; Scenario.p_eq_1]).
  assert (exposed_by conjuncts "x") as Hx.
  { exists Scenario.x_gt_25. split; [by left|].
    eapply exposes_other; [by left|constructor]. }
  assert (exposed_by conjuncts "p") as Hp.
  { exists Scenario.p_eq_1. split; [by right; left|].
    eapply exposes_other; [by left|constructor]. }
  assert (¬ exposed_by conjuncts "y") as Hy.
  { intros Hy. apply (predicate_map_keys _ true) in Hy as [v Hv].
    vm_compute in Hv. discriminate. }
  assert (¬ exposed_by conjuncts "m") as Hm.
  { intros Hm. apply (predicate_map_keys _ true) in Hm as [v Hv].
    vm_compute in Hv. discriminate. }
  split; cbv zeta.
  - destruct (proj1 plan_splits_read_columns (Scenario.orc_xy conjuncts)
                Scenario.orc_quiet conjuncts Scenario.partition_p Scenario.missing_m
                eq_refl) as (_ & Hone & _ & _ & _ & Hpart & Hmiss).
    destruct (Hone (ex_intro _ "x" Hx) "x") as [(_ & H1 & H2)|(Hno & _)];
      [by left|by left| |done].
    destruct (Hone (ex_intro _ "x" Hx) "y") as [(Hyes & _)|(_ & H3 & H4)];
      [by right; left|by left|done|].
    destruct (Hpart "p" ("1", 3%Z) eq_refl) as [_ Hpp].
    destruct (Hpp Hp) as [H5 H6].
    destruct (Hmiss "m" (VOtherExpr []) eq_refl) as [Hmm _].
    destruct (Hmm Hm) as [H7 _].
    split; [done|]. split; [done|]. split; [done|]. split; [done|].
    split; [done|]. split; [|done].
    rewrite H6. reflexivity.
  - destruct (proj2 plan_splits_read_columns (Scenario.parquet_xy conjuncts)
                conjuncts Scenario.partition_p Scenario.missing_m
                eq_refl) as (_ & Hone & _ & _ & _ & Hpart & Hmiss).
    destruct (Hone (ex_intro _ "x" Hx) "x") as [(_ & H1 & H2)|(Hno & _)];
      [by left| |done].
    destruct (Hone (ex_intro _ "x" Hx) "y") as [(Hyes & _)|(_ & H3 & H4)];
      [by right; left|done|].
    destruct (Hpart "p" ("1", 3%Z) eq_refl) as [_ Hpp].
    destruct (Hpp Hp) as [H5 H6].
    destruct (Hmiss "m" (VOtherExpr []) eq_refl) as [Hmm _].
    destruct (Hmm Hm) as [H7 _].
    split; [done|]. split; [done|]. split; [done|]. split; [done|].
    split; [done|]. split; [|done].
    rewrite H6. reflexivity.
Defined.

(** What the planner makes of the runtime IN filter, by evaluation: no
    column is exposed, so that both lists stay empty although the filter
    references [x]. *)
Example unreached_slot_plan :
  let ctx' := (Parquet.set_fill_columns
                 (Scenario.parquet_xy [Scenario.in_filter_on_x]) ∅ ∅).2 in
  Parquet.predicate_columns ctx' = ([], []) ∧ Parquet.lazy_read_columns ctx' = [] ∧
  Parquet.all_read_columns ctx' = ["x"; "y"].
Proof. vm_compute. done. Qed.

End LazyPlanFacts.

(** ** Decimal rescaling *)

Section DecimalFacts.
Import OrcDecimal.
Local Open Scope Z_scope.

Lemma wrap_signed_id bits x :
  0 < bits → - 2 ^ (bits - 1) ≤ x < 2 ^ (bits - 1) → wrap_signed bits x = x.
Proof.
  intros Hb Hx. unfold wrap_signed.
  assert (2 ^ bits = 2 * 2 ^ (bits - 1)) as Hp.
  { rewrite <- Z.pow_succ_r by lia. f_equal. lia. }
  rewrite Z.mod_small; lia.
Qed.

(** The [int128_t] rebuilt from the two halves of an [orc::Int128]. *)
Lemma int128_of_bits_value hi lo :
  - 2 ^ 63 ≤ hi < 2 ^ 63 → 0 ≤ lo < 2 ^ 64 →
  int128_of_bits (hi, lo) = hi * 2 ^ 64 + lo.
Proof.
  intros Hhi Hlo. unfold int128_of_bits. cbn [fst snd].
  rewrite (Z.mod_small lo) by lia.
  set (h := hi mod 2 ^ 64).
  assert (0 ≤ h < 2 ^ 64) as Hh by (apply Z.mod_pos_bound; lia).
  assert (Z.land (Z.shiftl h 64) lo = 0) as Hland.
  { apply Z.bits_inj'. intros n Hn. rewrite Z.land_spec, Z.bits_0.
    destruct (decide (n < 64)).
    - by rewrite Z.shiftl_spec_low.
    - rewrite <- (Z.mod_small lo (2 ^ 64)) by lia.
      rewrite Z.mod_pow2_bits_high by lia. apply andb_false_r. }
  rewrite <- Z.lxor_lor, <- Z.add_nocarry_lxor by done.
  rewrite Z.shiftl_mul_pow2 by lia.
  unfold wrap_signed. change (2 ^ (128 - 1)) with (2 ^ 127).
  change (2 ^ 128) with (2 ^ 64 * 2 ^ 64) in *.
  destruct (decide (0 ≤ hi)).
  - assert (h = hi) as -> by (subst h; apply Z.mod_small; lia).
    rewrite Z.mod_small; [lia|]. change (2 ^ 127) with (2 ^ 63 * 2 ^ 64). nia.
  - assert (h = hi + 2 ^ 64) as ->.
    { subst h. symmetry. apply (Z.mod_unique_pos _ _ (-1)); lia. }
    replace ((hi + 2 ^ 64) * 2 ^ 64 + lo + 2 ^ 127)
      with (hi * 2 ^ 64 + lo + 2 ^ 127 + 1 * (2 ^ 64 * 2 ^ 64)) by lia.
    rewrite Z.mod_add by lia.
    rewrite Z.mod_small; [lia|]. change (2 ^ 127) with (2 ^ 63 * 2 ^ 64). nia.
Qed.

(** The factor of a rescale by at most 18 digits fits [int64_t]. *)
Lemma scale_factor_fits n :
  0 < n ≤ 18 → cast_set_int64 (get_scale_factor n) = 10 ^ n ∧ 0 < 10 ^ n.
Proof.
  intros Hn. unfold cast_set_int64, get_scale_factor.
  assert (0 < 10 ^ n) by (apply Z.pow_pos_nonneg; lia).
  assert (10 ^ n ≤ 10 ^ 18) by (apply Z.pow_le_mono_r; lia).
  split; [|done]. apply wrap_signed_id; [lia|].
  change (2 ^ (64 - 1)) with 9223372036854775808.
  change (10 ^ 18) with 1000000000000000000 in *. lia.
Qed.

(** The converter built for an on-file scale [fs] and a requested scale
    [ds]. *)
Lemma init_decimal_converter_fresh fs ds :
  fs ≠ ds → Z.abs (ds - fs) ≤ 18 →
  _init_decimal_converter ds DecimalScaleParams_default fs
  = mkDecimalScaleParams (if decide (fs ≤ ds) then SCALE_UP else SCALE_DOWN)
                         (10 ^ Z.abs (ds - fs)).
Proof.
  intros Hne Hd. unfold _init_decimal_converter. simpl.
  destruct (decide (ds > fs)) as [Hgt|Hle].
  - rewrite decide_True by lia.
    destruct (scale_factor_fits (ds - fs)) as [-> _]; [lia|].
    by rewrite Z.abs_eq by lia.
  - rewrite decide_True, decide_False by lia.
    destruct (scale_factor_fits (fs - ds)) as [-> _]; [lia|].
    do 2 f_equal. lia.
Qed.

(** One pass of the decoder when the cache slot it reads holds, or is
    filled with, the converter of [fs], [ds]. *)
Lemma decode_with_converter native_bits fs ds st cvb column_data :
  0 < native_bits → fs ≠ ds → Z.abs (ds - fs) ≤ 18 →
  let params :=
    if decide (length (_decimal_scale_params st) ≤ _decimal_scale_params_index st)%nat
    then _decimal_scale_params st
           ++ [_init_decimal_converter ds DecimalScaleParams_default (batch_scale cvb)]
    else _decimal_scale_params st in
  params !! _decimal_scale_params_index st
    = Some (_init_decimal_converter ds DecimalScaleParams_default fs) →
  Forall (fits native_bits fs ds) (batch_values cvb) →
  _decode_explicit_decimal_column native_bits ds st cvb column_data
  = Some (mkDecimalState params (Datatypes.S (_decimal_scale_params_index st)),
          column_data ++ (rescale fs ds <$> batch_values cvb)).
Proof.
  intros Hb Hne Hd params Hparams Hfit.
  unfold _decode_explicit_decimal_column. fold params.
  rewrite Hparams. simpl.
  rewrite init_decimal_converter_fresh by done. simpl.
  assert (0 < 10 ^ Z.abs (ds - fs)) by (apply Z.pow_pos_nonneg; lia).
  destruct (decide (fs ≤ ds)) as [Hle|Hgt].
  - do 3 f_equal. apply Forall_fmap_ext_1.
    eapply Forall_impl; [exact Hfit|]. intros v [Hn Hw]. simpl.
    unfold rescale in *. rewrite decide_True in * by done.
    rewrite Z.abs_eq by lia.
    rewrite (wrap_signed_id 128) by (simpl; lia).
    by apply wrap_signed_id.
  - rewrite decide_False by lia. do 3 f_equal. apply Forall_fmap_ext_1.
    eapply Forall_impl; [exact Hfit|]. intros v [Hn Hw]. simpl.
    unfold rescale in *. rewrite decide_False in * by done.
    replace (Z.abs (ds - fs)) with (fs - ds) by lia.
    by apply wrap_signed_id.
Qed.

(** C3, amended.  For a decimal column whose on-file scale differs from the
    requested one by at most 18 digits, the first batch stores the factor
    [10^|S' - S|] in the converter cache and every in-range value is mapped by
    one multiplication (scale up, exact) or one division truncating toward
    zero (scale down); later batches reuse the cached converter.  The
    scaled-up values are [round(original, S')]; the scaled-down ones are the
    truncation, not the rounding. *)
Theorem decimal_rescale_is_truncation native_bits ds cvb column_data :
  0 < native_bits →
  batch_scale cvb ≠ ds →
  Z.abs (ds - batch_scale cvb) ≤ 18 →
  Forall (fits native_bits (batch_scale cvb) ds) (batch_values cvb) →
  let converter :=
    mkDecimalScaleParams
      (if decide (batch_scale cvb ≤ ds) then SCALE_UP else SCALE_DOWN)
      (10 ^ Z.abs (ds - batch_scale cvb)) in
  _decode_explicit_decimal_column native_bits ds (mkDecimalState [] 0)
    cvb column_data
  = Some (mkDecimalState [converter] 1,
          column_data ++ (rescale (batch_scale cvb) ds <$> batch_values cvb)) ∧
  (∀ cvb2 column_data2,
     Forall (fits native_bits (batch_scale cvb) ds) (batch_values cvb2) →
     _decode_explicit_decimal_column native_bits ds
       (reset_decimal_index (mkDecimalState [converter] 1)) cvb2 column_data2
     = Some (mkDecimalState [converter] 1,
             column_data2 ++ (rescale (batch_scale cvb) ds <$> batch_values cvb2))) ∧
  (∀ v, batch_scale cvb < ds →
        rescale (batch_scale cvb) ds v = round_to_scale (batch_scale cvb) ds v) ∧
  (∀ v, ds < batch_scale cvb →
        rescale (batch_scale cvb) ds v = v ÷ 10 ^ (batch_scale cvb - ds) ∧
        v = rescale (batch_scale cvb) ds v * 10 ^ (batch_scale cvb - ds)
            + Z.rem v (10 ^ (batch_scale cvb - ds))).
Proof.
  intros Hb Hne Hd Hfit converter.
  pose proof (init_decimal_converter_fresh _ _ Hne Hd) as Hinit.
  fold converter in Hinit.
  split; [|split; [|split]].
  - rewrite (decode_with_converter native_bits (batch_scale cvb) ds) by
      (try done; simpl; by rewrite Hinit).
    simpl. by rewrite Hinit.
  - intros cvb2 column_data2 Hfit2.
    rewrite (decode_with_converter native_bits (batch_scale cvb) ds) by
      (try done; simpl; by rewrite Hinit).
    done.
  - intros v Hlt. unfold rescale, round_to_scale. by rewrite !decide_True by lia.
  - intros v Hlt. unfold rescale. rewrite !decide_False by lia.
    split; [done|].
    assert (0 < 10 ^ (batch_scale cvb - ds)) by (apply Z.pow_pos_nonneg; lia).
    rewrite (Z.quot_rem' v (10 ^ (batch_scale cvb - ds))) at 1. lia.
Qed.

(** C3 as the document states it fails when scaling down: 1.9 stored with
    scale 1 and read with scale 0 decodes to 1, whereas rounding gives 2. *)
Lemma decimal_scale_down_is_not_round :
  (snd <$> _decode_explicit_decimal_column 64 0 (mkDecimalState [] 0)
             (Decimal64VectorBatch 1 [19]) []) = Some [1] ∧
  round_to_scale 1 0 19 = 2 ∧
  (snd <$> _decode_explicit_decimal_column 64 0 (mkDecimalState [] 0)
             (Decimal64VectorBatch 1 [19]) [])
  ≠ Some (round_to_scale 1 0 <$> [19]).
Proof. split; [|split]; vm_compute; congruence. Qed.

(** The amended C3 on a batch of scale 1 read with scale 0 and with
    scale 3. *)
Lemma decimal_rescale_sample :
  (snd <$> _decode_explicit_decimal_column 64 0 (mkDecimalState [] 0)
             (Decimal64VectorBatch 1 [19; -19; 25]) [])
  = Some (rescale 1 0 <$> [19; -19; 25]).
Proof.
  destruct (decimal_rescale_is_truncation 64 0
              (Decimal64VectorBatch 1 [19; -19; 25]) []) as [-> _].
  - lia.
  - simpl. lia.
  - simpl. lia.
  - repeat constructor; vm_compute; congruence.
  - reflexivity.
Defined.

End DecimalFacts.

(** ** Page-index pruning *)

Section PageIndexFacts.
Import PageIndex.
Local Open Scope Z_scope.

Global Instance range_le_total : Total range_le.
Proof. intros a b. unfold range_le. lia. Qed.

Global Instance range_le_trans : Transitive range_le.
Proof. intros a b c. unfold range_le. lia. Qed.

Lemma covered_cons r ranges x :
  covered (r :: ranges) x ↔ first_row r ≤ x < last_row r ∨ covered ranges x.
Proof. unfold covered. by rewrite Exists_cons. Qed.

Lemma covered_nil x : ¬ covered [] x.
Proof. unfold covered. rewrite Exists_nil. tauto. Qed.

Lemma covered_app l1 l2 x : covered (l1 ++ l2) x ↔ covered l1 x ∨ covered l2 x.
Proof. unfold covered. by rewrite Exists_app. Qed.

(** The candidates already collected are only appended to. *)
Lemma sweep_app skipped : ∀ skip_end read_rows candidates,
  sweep skipped skip_end read_rows candidates
  = ((sweep skipped skip_end read_rows []).1.1,
     (sweep skipped skip_end read_rows []).1.2,
     candidates ++ (sweep skipped skip_end read_rows []).2).
Proof.
  induction skipped as [|r rest IH]; intros skip_end read_rows candidates; simpl.
  - by rewrite app_nil_r.
  - repeat case_decide; try apply IH.
    rewrite (IH _ _ (candidates ++ [_])), (IH _ _ [_]). cbn [fst snd].
    by rewrite <- app_assoc.
Qed.

(** The invariant of the sweep over ranges sorted by their first row. *)
Lemma sweep_spec n skipped : ∀ skip_end read_rows,
  0 ≤ skip_end ≤ n →
  Forall (well_formed n) skipped →
  StronglySorted (λ a b, first_row a ≤ first_row b) skipped →
  let skip_end' := (sweep skipped skip_end read_rows []).1.1 in
  let new := (sweep skipped skip_end read_rows []).2 in
  skip_end ≤ skip_end' ≤ n ∧
  Forall (λ c, skip_end ≤ first_row c ∧ first_row c < last_row c ∧
               last_row c ≤ skip_end') new ∧
  StronglySorted (λ a b, last_row a ≤ first_row b) new ∧
  Forall (λ r, last_row r ≤ skip_end') skipped ∧
  (∀ x, skip_end ≤ x < skip_end' → (covered new x ↔ ¬ covered skipped x)).
Proof.
  induction skipped as [|r rest IH]; intros e rr He Hwf Hs; simpl.
  - split; [lia|]. split; [constructor|]. split; [constructor|].
    split; [constructor|]. intros; lia.
  - apply Forall_cons in Hwf as [[Hr1 Hr2] Hwf].
    apply StronglySorted_cons in Hs as [Hfirst Hs].
    rewrite Forall_forall in Hfirst.
    assert (∀ x, x < first_row r → ¬ covered rest x) as Hbefore.
    { intros x Hx Hc. apply Exists_exists in Hc as (r' & Hin & Hc).
      specialize (Hfirst r' Hin). simpl in Hfirst. lia. }
    destruct (decide (e >= first_row r)) as [Hge|Hlt].
    + destruct (decide (e < last_row r)) as [Hin|Hout].
      * destruct (IH (last_row r) rr ltac:(lia) Hwf Hs) as (Ha & Hb & Hc & Hd & Hcov).
        split; [lia|]. split; [|split; [done|split]].
        -- eapply Forall_impl; [exact Hb|]. simpl. intros c ?. lia.
        -- constructor; [lia|done].
        -- intros x Hx. rewrite covered_cons.
           destruct (decide (x < last_row r)) as [Hxl|Hxr].
           ++ split; [|intros Hn; exfalso; apply Hn; left; lia].
              intros Hc'. apply Exists_exists in Hc' as (c & Hcin & Hcx).
              rewrite Forall_forall in Hb. specialize (Hb c Hcin). simpl in Hb. lia.
           ++ rewrite Hcov by lia. split; [|tauto].
              intros Hn [?|?]; [lia|tauto].
      * destruct (IH e rr He Hwf Hs) as (Ha & Hb & Hc & Hd & Hcov).
        split; [lia|]. split; [done|]. split; [done|]. split.
        -- constructor; [lia|done].
        -- intros x Hx. rewrite covered_cons, Hcov by lia. split; [|tauto].
           intros Hn [?|?]; [lia|tauto].
    + rewrite sweep_app. cbn [fst snd app].
      destruct (IH (last_row r) (rr + (first_row r - e)) ltac:(lia) Hwf Hs)
        as (Ha & Hb & Hc & Hd & Hcov).
      split; [lia|]. split; [|split; [|split]].
      * constructor; [simpl; lia|].
        eapply Forall_impl; [exact Hb|]. simpl. intros c ?. lia.
      * constructor; [done|].
        eapply Forall_impl; [exact Hb|]. simpl. intros c ?. lia.
      * constructor; [lia|done].
      * intros x Hx. rewrite !covered_cons. simpl.
        destruct (decide (x < first_row r)) as [Hx1|Hx1].
        -- split; [|intros; left; lia].
           intros _ [?|Hc']; [lia|]. by apply (Hbefore x).
        -- destruct (decide (x < last_row r)) as [Hx2|Hx2].
           ++ split; [|intros Hn; exfalso; apply Hn; left; lia].
              intros [?|Hc']; [lia|].
              apply Exists_exists in Hc' as (c & Hcin & Hcx).
              rewrite Forall_forall in Hb. specialize (Hb c Hcin). simpl in Hb. lia.
           ++ rewrite Hcov by lia. split.
              ** intros [?|Hn]; [lia|]. intros [?|?]; [lia|tauto].
              ** intros Hn. right. tauto.
Qed.

Lemma StronglySorted_weaken {A : Type} (R1 R2 : A → A → Prop) (l : list A) :
  (∀ a b, R1 a b → R2 a b) → StronglySorted R1 l → StronglySorted R2 l.
Proof.
  intros HR. induction 1 as [|a l Hs IH Hall]; constructor; [done|].
  eapply Forall_impl; [exact Hall|]. eauto.
Qed.

(** The candidates computed from a non-empty collection of skipped ranges:
    ascending, disjoint, and covering exactly the rows outside every skipped
    range. *)
Lemma candidates_of_skipped_spec n skipped :
  0 ≤ n → Forall (well_formed n) skipped →
  Forall (λ c, 0 ≤ first_row c < last_row c ∧ last_row c ≤ n)
         (candidates_of_skipped n skipped []) ∧
  StronglySorted (λ a b, last_row a ≤ first_row b)
         (candidates_of_skipped n skipped []) ∧
  (∀ x, 0 ≤ x < n →
        (covered (candidates_of_skipped n skipped []) x ↔ ¬ covered skipped x)).
Proof.
  intros Hn Hwf. unfold candidates_of_skipped.
  assert (Forall (well_formed n) (merge_sort range_le skipped)) as Hwf'
    by (by rewrite merge_sort_Permutation).
  assert (StronglySorted (λ a b, first_row a ≤ first_row b)
            (merge_sort range_le skipped)) as Hs.
  { eapply StronglySorted_weaken; [|apply (StronglySorted_merge_sort range_le)].
    unfold range_le. intros a b. lia. }
  assert (∀ x, covered (merge_sort range_le skipped) x ↔ covered skipped x) as Hperm
    by (intros x; unfold covered; by rewrite merge_sort_Permutation).
  pose proof (sweep_spec n (merge_sort range_le skipped) 0 0 ltac:(lia) Hwf' Hs)
    as (Ha & Hb & Hc & Hd & Hcov).
  destruct (sweep (merge_sort range_le skipped) 0 0 []) as [[e' rr'] new].
  cbn [fst snd] in *.
  assert (Forall (λ c, 0 ≤ first_row c < last_row c ∧ last_row c ≤ n) new) as Hnew.
  { eapply Forall_impl; [exact Hb|]. simpl. intros c ?. lia. }
  destruct (decide (e' ≠ n)) as [Hne|Heq].
  - split; [|split].
    + apply Forall_app. split; [done|]. constructor; [simpl; lia|constructor].
    + apply StronglySorted_app. split; [|split; [done|repeat constructor]].
      intros c1 c2 Hc1 Hc2. apply list_elem_of_singleton in Hc2 as ->. simpl.
      rewrite Forall_forall in Hb. specialize (Hb c1 Hc1). simpl in Hb. lia.
    + intros x Hx. rewrite covered_app, covered_cons, <- Hperm. simpl.
      destruct (decide (x < e')) as [Hlt|Hge].
      * rewrite <- Hcov by lia. split; [|tauto].
        intros [?|[?|Hnil]]; [done|lia|by apply covered_nil in Hnil].
      * split; [|intros _; right; left; lia].
        intros _ Hc'. apply Exists_exists in Hc' as (r & Hin & Hr).
        rewrite Forall_forall in Hd. specialize (Hd r Hin). simpl in Hd. lia.
  - assert (e' = n) as -> by lia. split; [done|]. split; [done|].
    intros x Hx. rewrite <- Hperm. by apply Hcov.
Qed.

(** When no skipped range is empty, every candidate of the sweep ends before
    the sweep does, and two candidates never touch. *)
Lemma sweep_separates skipped : ∀ skip_end read_rows,
  Forall (λ r, first_row r < last_row r) skipped →
  let skip_end' := (sweep skipped skip_end read_rows []).1.1 in
  let new := (sweep skipped skip_end read_rows []).2 in
  skip_end ≤ skip_end' ∧
  Forall (λ c, skip_end ≤ first_row c ∧ last_row c < skip_end') new ∧
  StronglySorted (λ a b, last_row a < first_row b) new.
Proof.
  induction skipped as [|r rest IH]; intros e rr Hne; simpl.
  - split; [lia|]. split; constructor.
  - apply Forall_cons in Hne as [Hr Hne].
    destruct (decide (e >= first_row r)) as [Hge|Hlt].
    + destruct (decide (e < last_row r)) as [Hin|Hout].
      * destruct (IH (last_row r) rr Hne) as (Ha & Hb & Hc).
        split; [lia|]. split; [|done].
        eapply Forall_impl; [exact Hb|]. simpl. intros c ?. lia.
      * by apply IH.
    + rewrite sweep_app. cbn [fst snd app].
      destruct (IH (last_row r) (rr + (first_row r - e)) Hne) as (Ha & Hb & Hc).
      split; [lia|]. split.
      * constructor; [simpl; lia|].
        eapply Forall_impl; [exact Hb|]. simpl. intros c ?. lia.
      * constructor; [done|].
        eapply Forall_impl; [exact Hb|]. simpl. intros c ?. lia.
Qed.

(** The candidates computed from skipped ranges none of which is empty are
    separated from each other. *)
Lemma candidates_of_skipped_separated n skipped :
  Forall (λ r, first_row r < last_row r) skipped →
  StronglySorted (λ a b, last_row a < first_row b)
    (candidates_of_skipped n skipped []).
Proof.
  intros Hne. unfold candidates_of_skipped.
  assert (Forall (λ r, first_row r < last_row r) (merge_sort range_le skipped)) as Hne'
    by (by rewrite merge_sort_Permutation).
  pose proof (sweep_separates (merge_sort range_le skipped) 0 0 Hne') as (Ha & Hb & Hc).
  destruct (sweep (merge_sort range_le skipped) 0 0 []) as [[e' rr'] new].
  cbn [fst snd] in *.
  destruct (decide (e' ≠ n)); [|done].
  apply StronglySorted_app. split; [|split; [done|repeat constructor]].
  intros c1 c2 Hc1 Hc2. apply list_elem_of_singleton in Hc2 as ->. simpl.
  rewrite Forall_forall in Hb. specialize (Hb c1 Hc1). simpl in Hb. lia.
Qed.

Lemma skipped_rows_of_pages_app col pages : ∀ acc,
  skipped_rows_of_pages col pages acc
  = ((skipped_rows_of_pages col pages []).1,
     acc ++ (skipped_rows_of_pages col pages []).2).
Proof.
  induction pages as [|page_id rest IH]; intros acc; simpl.
  - by rewrite app_nil_r.
  - destruct (create_skipped_row_range col page_id) as [st r].
    destruct (ok st); simpl; [|by rewrite app_nil_r].
    rewrite IH, (IH [r]). simpl. by rewrite <- app_assoc.
Qed.

Lemma column_step_app col acc :
  column_step col acc = ((column_step col []).1, acc ++ (column_step col []).2).
Proof.
  unfold column_step.
  repeat match goal with
         | |- context [if ?b then _ else _] => destruct b
         | |- context [let '(_, _) := ?p in _] => destruct p
         | |- context [match ?l with [] => _ | _ :: _ => _ end] => destruct l
         end; simpl; rewrite ?app_nil_r; try done.
  apply (skipped_rows_of_pages_app col (_ :: _)).
Qed.

(** When every helper succeeds the loop has collected the skipped ranges of
    all columns. *)
Lemma columns_loop_ok cols : ∀ acc st out,
  columns_loop cols acc = (st, out) → ok st = true →
  out = acc ++ mjoin (column_skipped <$> cols).
Proof.
  induction cols as [|col rest IH]; intros acc st out Hrun Hok; simpl in *.
  - simplify_eq. by rewrite app_nil_r.
  - rewrite column_step_app in Hrun. fold (column_skipped col) in Hrun.
    destruct (ok (column_step col []).1) eqn:Hst.
    + apply IH in Hrun; [|done]. by rewrite Hrun, app_assoc.
    + simplify_eq. congruence.
Qed.

Lemma covered_mjoin (cols : list ColumnPageIndex) x :
  covered (mjoin (column_skipped <$> cols)) x
  ↔ ∃ col, col ∈ cols ∧ covered (column_skipped col) x.
Proof.
  induction cols as [|col rest IH]; simpl.
  - split; [intros H; by apply covered_nil in H|].
    intros (col & Hin & _). by apply elem_of_nil in Hin.
  - rewrite covered_app, IH. split.
    + intros [?|(c & ? & ?)]; [exists col|exists c]; split; try done;
        apply elem_of_cons; auto.
    + intros (c & [->|Hin]%elem_of_cons & ?); [by left|right; eauto].
Qed.

(** C2, amended.  When [_process_page_index] succeeds on a row group, the
    candidate ranges are non-empty, ascending and pairwise disjoint.  If the
    page index is consulted, a row is a candidate exactly when it lies in no
    skipped page of any predicate column: a page ruled out by one column is
    dropped whatever the other columns say.  If the page index is absent or
    disabled, or if it is consulted and no column contributes a skipped
    range, the whole row group is the single candidate range.  If no skipped
    range is empty, two candidate ranges never touch: they are the maximal
    runs of rows outside the skipped pages. *)
Theorem page_index_candidates inp cands :
  should_stop inp = false →
  _read_line_mode_mode inp = false →
  0 < num_rows inp →
  Forall (λ col, Forall (well_formed (num_rows inp)) (column_skipped col))
         (columns inp) →
  _process_page_index inp [] = (Status_OK, cands) →
  Forall (λ c, 0 ≤ first_row c < last_row c ∧ last_row c ≤ num_rows inp) cands ∧
  StronglySorted (λ a b, last_row a ≤ first_row b) cands ∧
  (page_index_used inp = true →
   ∀ x, 0 ≤ x < num_rows inp →
     (covered cands x ↔
      ∀ col, col ∈ columns inp → ¬ covered (column_skipped col) x)) ∧
  (page_index_used inp = false ∨
   Forall (λ col, column_skipped col = []) (columns inp) →
   cands = [mkRowRange 0 (num_rows inp)]) ∧
  (Forall (λ col, Forall (λ r, first_row r < last_row r) (column_skipped col))
          (columns inp) →
   StronglySorted (λ a b, last_row a < first_row b) cands).
Proof.
  intros Hstop Hline Hn Hwf Hrun.
  assert (StronglySorted (λ a b, last_row a < first_row b)
            [mkRowRange 0 (num_rows inp)]) as Hw3 by (repeat constructor).
  assert (Forall (λ c, 0 ≤ first_row c < last_row c ∧ last_row c ≤ num_rows inp)
            [mkRowRange 0 (num_rows inp)] ∧
          StronglySorted (λ a b, last_row a ≤ first_row b)
            [mkRowRange 0 (num_rows inp)]) as [Hw1 Hw2].
  { split; repeat constructor; simpl; lia. }
  unfold _process_page_index in Hrun. rewrite Hstop, Hline in Hrun.
  unfold page_index_used.
  destruct (_enable_filter_by_min_max inp), (has_complex_type inp),
    (conjuncts_empty inp), (colname_to_value_range_empty inp);
    simpl in Hrun; simplify_eq; simpl; try done.
  destruct (enable_parquet_page_index inp), (_has_page_index inp);
    simpl in Hrun; simplify_eq; simpl; try done.
  destruct (ok (read_column_index inp)) eqn:Hci; simpl in Hrun;
    [|injection Hrun as Hr _; by rewrite Hr in Hci].
  destruct (ok (read_offset_index inp)) eqn:Hoi; simpl in Hrun;
    [|injection Hrun as Hr _; by rewrite Hr in Hoi].
  destruct (columns_loop (columns inp) []) as [st skipped] eqn:Hloop.
  destruct (ok st) eqn:Hst; simpl in Hrun;
    [|injection Hrun as Hr _; by rewrite Hr in Hst].
  pose proof (columns_loop_ok _ _ _ _ Hloop Hst) as Hsk. simpl in Hsk.
  assert (∀ x, covered skipped x
               ↔ ∃ col, col ∈ columns inp ∧ covered (column_skipped col) x) as Hcov
    by (intros x; rewrite Hsk; apply covered_mjoin).
  assert (Forall (well_formed (num_rows inp)) skipped) as Hwfs.
  { rewrite Hsk. apply Forall_forall. intros r Hr.
    apply list_elem_of_join in Hr as (rs & Hr & Hrs).
    apply list_elem_of_fmap in Hrs as (col & -> & Hcol).
    rewrite Forall_forall in Hwf. specialize (Hwf col Hcol). simpl in Hwf.
    rewrite Forall_forall in Hwf. by apply Hwf. }
  assert (Forall (λ col, column_skipped col = []) (columns inp) → skipped = [])
    as Hnoskip.
  { intros Hall. rewrite Hsk. clear -Hall.
    induction Hall as [|col cols Hcol _ IH]; [done|].
    rewrite fmap_cons.
    change (column_skipped col ++ mjoin (column_skipped <$> cols) = []).
    by rewrite Hcol, IH. }
  assert (Forall (λ col, Forall (λ r, first_row r < last_row r) (column_skipped col))
            (columns inp) →
          Forall (λ r, first_row r < last_row r) skipped) as Hnonempty.
  { intros Hall. rewrite Hsk. apply Forall_forall. intros r Hr.
    apply list_elem_of_join in Hr as (rs & Hr & Hrs).
    apply list_elem_of_fmap in Hrs as (col & -> & Hcol).
    rewrite Forall_forall in Hall. specialize (Hall col Hcol). simpl in Hall.
    rewrite Forall_forall in Hall. by apply Hall. }
  destruct skipped as [|r skipped'] eqn:Hskipped.
  - simplify_eq. split; [done|]. split; [done|]. split; [|done].
    intros _ x Hx. rewrite covered_cons. simpl. split.
    + intros _ col Hcol Hc. apply (covered_nil x), Hcov. eauto.
    + intros _. left. lia.
  - assert (cands = candidates_of_skipped (num_rows inp) (r :: skipped') []) as ->
      by (by simplify_eq).
    destruct (candidates_of_skipped_spec (num_rows inp) (r :: skipped')
                ltac:(lia) Hwfs) as (H1 & H2 & H3).
    split; [done|]. split; [done|]. split; [|split].
    + intros _ x Hx. rewrite (H3 x Hx), Hcov. split.
      * intros Hnone col Hin Hcv. apply Hnone. eauto.
      * intros Hall (col & Hin & Hcv). by apply (Hall col).
    + intros [?|Hall]; [done|]. by apply Hnoskip in Hall.
    + intros Hall. by apply candidates_of_skipped_separated, Hnonempty.
Qed.

(** C2 as the document states it fails: in the two-column group row 2 lies
    in a page that column [a] rules out and column [b] cannot skip; the union
    of the kept rows contains it, the candidate ranges do not. *)
Lemma page_union_claim_fails :
  _process_page_index two_column_group [] = (Status_OK, [mkRowRange 5 10]) ∧
  union_of_kept 10 (columns two_column_group) 2 ∧
  ¬ covered (_process_page_index two_column_group []).2 2.
Proof.
  assert (_process_page_index two_column_group [] = (Status_OK, [mkRowRange 5 10]))
    as Hrun by (vm_compute; reflexivity).
  split; [done|]. split.
  - split; [lia|]. apply Exists_cons. right. apply Exists_cons. left.
    split; [done|]. apply covered_nil.
  - rewrite Hrun. simpl. intros Hc. apply covered_cons in Hc as [Hc|Hc].
    + simpl in Hc. lia.
    + by apply covered_nil in Hc.
Qed.

(** The amended C2 on the two-column group. *)
Lemma page_index_candidates_two_columns :
  Forall (λ c, 0 ≤ first_row c < last_row c ∧ last_row c ≤ 10) [mkRowRange 5 10] ∧
  StronglySorted (λ a b, last_row a ≤ first_row b) [mkRowRange 5 10] ∧
  (page_index_used two_column_group = true →
   ∀ x, 0 ≤ x < 10 →
     (covered [mkRowRange 5 10] x ↔
      ∀ col, col ∈ [column_a; column_b] → ¬ covered (column_skipped col) x)) ∧
  (page_index_used two_column_group = false ∨
   Forall (λ col, column_skipped col = []) [column_a; column_b] →
   [mkRowRange 5 10] = [mkRowRange 0 10]) ∧
  (Forall (λ col, Forall (λ r, first_row r < last_row r) (column_skipped col))
          [column_a; column_b] →
   StronglySorted (λ a b, last_row a < first_row b) [mkRowRange 5 10]).
Proof.
  apply (page_index_candidates two_column_group [mkRowRange 5 10]).
  - reflexivity.
  - reflexivity.
  - simpl. lia.
  - repeat constructor; simpl; lia.
  - vm_compute. reflexivity.
Defined.

(** With the page index consulted and no page ruled out, the candidates are
    the whole row group in one range. *)
Example whole_group_when_nothing_is_skipped :
  page_index_used one_column_group = true ∧
  Forall (λ col, column_skipped col = []) (columns one_column_group) ∧
  _process_page_index one_column_group [] = (Status_OK, [mkRowRange 0 10]).
Proof. split; [done|]. split; [by repeat constructor|]. vm_compute. reflexivity. Qed.

End PageIndexFacts.

(** ** Row-group statistics pruning *)

Section RowGroupFacts.
Import RowGroups.
Local Open Scope Z_scope.

(** Every table column that [init_reader] selects for reading exists in the
    file. *)
Lemma init_reader_columns_exist ext rd all_column_names :
  Forall (λ c, children_column_exists ext c = true) (_read_table_columns rd) →
  Forall (λ c, children_column_exists ext c = true)
         (_read_table_columns (init_reader_columns ext rd all_column_names)).
Proof.
  intros Hinit. unfold init_reader_columns.
  assert (∀ names (st : gmap string string * list string),
    (∀ k v, st.1 !! k = Some v → children_column_exists ext v = true) →
    ∀ k v, (foldl (required_columns_step ext) st names).1 !! k = Some v →
           children_column_exists ext v = true) as Hreq.
  { induction names as [|t names IH]; intros st Hst; [done|]. simpl.
    apply IH. unfold required_columns_step.
    destruct (children_column_exists ext t) eqn:Ht; [|done].
    intros k v. simpl. unfold emplace.
    destruct (st.1 !! children_file_column_name ext t) eqn:Hk; [by apply Hst|].
    destruct (decide (k = children_file_column_name ext t)) as [->|Hne].
    - rewrite lookup_insert_eq. by intros [= <-].
    - rewrite lookup_insert_ne by done. apply Hst. }
  specialize (Hreq all_column_names (∅, _missing_cols rd)).
  destruct (foldl (required_columns_step ext) (∅, _missing_cols rd) all_column_names)
    as [required missing].
  cbn [fst] in Hreq.
  assert (∀ k v, required !! k = Some v → children_column_exists ext v = true)
    as Hvals by (apply Hreq; intros k v; by rewrite lookup_empty).
  assert (∀ names (st : list string * list string),
    Forall (λ c, children_column_exists ext c = true) st.2 →
    Forall (λ c, children_column_exists ext c = true)
           (foldl (read_columns_step required) st names).2) as Hread.
  { induction names as [|n names IH]; intros st Hst; [done|]. simpl.
    apply IH. unfold read_columns_step.
    destruct (required !! n) eqn:Hn; [|done]. simpl.
    apply Forall_app. split; [done|]. constructor; [|constructor]. eauto. }
  specialize (Hread (schema_column_names ext)
                (_read_file_columns rd, _read_table_columns rd) Hinit).
  by destruct (foldl (read_columns_step required)
                 (_read_file_columns rd, _read_table_columns rd)
                 (schema_column_names ext)).
Qed.

(** The statistics loop passes over every column that exists in the
    file. *)
Lemma stat_filter_loop_skips_existing ext rd value_range columns table_cols :
  Forall (λ c, children_column_exists ext c = true) table_cols →
  ∀ filter_group ignored,
    stat_filter_loop ext rd value_range columns table_cols filter_group ignored
    = Some (filter_group, ignored).
Proof.
  induction 1 as [|c cols Hc _ IH]; intros filter_group ignored; simpl; [done|].
  by rewrite Hc.
Qed.

(** On the columns [init_reader] selects, [_process_column_stat_filter]
    never sets [*filter_group], whatever the statistics, the value ranges and
    [filter_by_stats] are. *)
Lemma stat_filter_never_prunes ext enable value_range created start size line_mode
    all_column_names columns filter_group ignored :
  _process_column_stat_filter ext
    (init_reader_columns ext
       (mkParquetReader enable value_range [] [] [] created start size line_mode)
       all_column_names)
    columns filter_group ignored
  = Some (Status_OK, filter_group, ignored).
Proof.
  pose proof (init_reader_columns_exist ext
    (mkParquetReader enable value_range [] [] [] created start size line_mode)
    all_column_names ltac:(constructor)) as Hex.
  unfold _process_column_stat_filter.
  destruct (_colname_to_value_range _) as [ranges|]; [|done].
  destruct (negb _ || _); [done|].
  by rewrite stat_filter_loop_skips_existing.
Qed.

(** C1 on Scenario A.  The statistics [{min: 10, max: 20}] of column [x]
    prove the row group disjoint from [x > 25], yet row-group planning keeps
    the group: it is queued for reading and nothing is counted as filtered. *)
Theorem scenario_A_row_group_is_read :
  filter_by_stats_spec (mkColumnValueRange (Some 26) None)
    (get_column scenario_A_ext "x") false (plain_int32 10) (plain_int32 20)
    false true = true ∧
  (fst <$> _init_row_groups scenario_A_ext scenario_A_reader true
             [scenario_A_row_group] 100 plan_state_init) = Some Status_OK ∧
  (_read_row_groups ∘ snd <$> _init_row_groups scenario_A_ext scenario_A_reader true
             [scenario_A_row_group] 100 plan_state_init)
  = Some [mkRowGroupIndex 0 0 100] ∧
  (stat_filtered_row_groups ∘ snd <$> _init_row_groups scenario_A_ext
             scenario_A_reader true [scenario_A_row_group] 100 plan_state_init)
  = Some 0.
Proof. repeat split; vm_compute; reflexivity. Qed.

End RowGroupFacts.

(** ** Dictionary filtering *)

Section DictFilterFacts.
Import DictFilter.
Local Open Scope Z_scope.

(** The codes collected in step 3 are the positions of the set flags. *)
Lemma dict_codes_from_spec result_filter : ∀ i c,
  c ∈ dict_codes_from i result_filter ↔
  i ≤ c ∧ ∃ flag, result_filter !! Z.to_nat (c - i) = Some flag ∧ flag ≠ 0.
Proof.
  induction result_filter as [|flag rest IH]; intros i c; simpl.
  - split; [intros H; by apply elem_of_nil in H|]. intros (_ & flag & H & _).
    by rewrite lookup_nil in H.
  - assert (c ∈ dict_codes_from (i + 1) rest ↔
            i < c ∧ ∃ flag', (flag :: rest) !! Z.to_nat (c - i) = Some flag'
                             ∧ flag' ≠ 0) as Htail.
    { rewrite IH. split; intros (Hc & flag' & Hl & Hf).
      - split; [lia|]. exists flag'. split; [|done].
        replace (Z.to_nat (c - i)) with (S (Z.to_nat (c - (i + 1)))) by lia. done.
      - split; [lia|]. exists flag'. split; [|done].
        replace (Z.to_nat (c - i)) with (S (Z.to_nat (c - (i + 1)))) in Hl by lia.
        done. }
    destruct (decide (flag ≠ 0)) as [Hset|Hclear].
    + rewrite elem_of_cons, Htail. split.
      * intros [->|(Hc & Hrest)]; [|split; [lia|done]].
        split; [lia|]. exists flag. by rewrite Z.sub_diag.
      * intros (Hc & Hrest). destruct (decide (c = i)) as [->|]; [by left|].
        right. split; [lia|done].
    + rewrite Htail. split.
      * intros (Hc & Hrest). split; [lia|done].
      * intros (Hc & flag' & Hl & Hf). split; [|by eauto].
        destruct (decide (c = i)) as [->|]; [|lia].
        rewrite Z.sub_diag in Hl. simpl in Hl. by simplify_eq.
Qed.

Lemma dict_codes_from_nil result_filter i :
  dict_codes_from i result_filter = [] ↔ Forall (λ flag, flag = 0) result_filter.
Proof.
  revert i. induction result_filter as [|flag rest IH]; intros i; simpl.
  - split; [constructor|done].
  - destruct (decide (flag ≠ 0)) as [Hset|Hclear].
    + split; [done|]. by intros [? _]%Forall_cons.
    + rewrite IH, Forall_cons. split; [|tauto]. intros ?. split; [lia|done].
Qed.

Lemma dict_codes_from_length result_filter : ∀ i,
  (length (dict_codes_from i result_filter) ≤ length result_filter)%nat.
Proof.
  induction result_filter as [|flag rest IH]; intros i; simpl; [lia|].
  destruct (decide _); simpl; specialize (IH (i + 1)); lia.
Qed.

(** C6.  One dictionary-filter column whose stripe dictionary is present:
    the conjuncts of the column are evaluated once on the dictionary values;
    with no surviving code the stripe is reported filtered and nothing is
    rewritten, with one surviving code [c] the conjunct [eq(slot, c)] is
    appended, with several the membership test over the surviving codes. *)
Theorem dict_filter_rewrite env dict_map name slot_id rest kept dc ndc
    ctxs dict_values pos nullable :
  engine_contract env →
  _slot_id_to_filter_conjuncts env !! slot_id = Some ctxs →
  dict_map !! children_file_column_name env name = Some dict_values →
  dict_values ≠ [] →
  Z.of_nat (length dict_values) ≤ MAX_DICT_CODE_PREDICATE_TO_REWRITE →
  find_dict_pos (slots env) slot_id 0 None = Some (pos, nullable) →
  ok (execute_conjuncts env ctxs dict_values).1.1 = true →
  (∀ root, ok (prepare_and_open env root) = true) →
  let result_filter := (execute_conjuncts env ctxs dict_values).1.2 in
  let survivors := dict_codes_from 0 result_filter in
  (∀ c, c ∈ survivors ↔
        0 ≤ c ∧ ∃ flag, result_filter !! Z.to_nat c = Some flag ∧ flag ≠ 0) ∧
  dict_cols_loop env dict_map ((name, slot_id) :: rest) kept dc ndc
  = match survivors with
    | [] =>
        Some (Status_OK, true, mkDictState (kept ++ (name, slot_id) :: rest) dc ndc)
    | [c] =>
        dict_cols_loop env dict_map rest (kept ++ [(name, slot_id)])
          (dc ++ [EqCode slot_id c nullable]) ndc
    | _ =>
        dict_cols_loop env dict_map rest (kept ++ [(name, slot_id)])
          (dc ++ [InCodes slot_id survivors]) ndc
    end.
Proof.
  intros Hengine Hctxs Hdict Hne Hmax Hpos Hok Hprep result_filter survivors.
  split.
  { intros c. subst survivors. rewrite dict_codes_from_spec.
    by rewrite Z.sub_0_r. }
  destruct (Hengine ctxs dict_values Hok) as [Hlen Hall].
  cbn [dict_cols_loop]. rewrite Hctxs, Hdict.
  rewrite decide_False by (by destruct dict_values).
  rewrite Hpos. cbn [mbind option_bind].
  fold result_filter in Hlen, Hall.
  pose proof (dict_codes_from_nil result_filter 0) as Hnil.
  pose proof (dict_codes_from_length result_filter 0) as Hcount.
  fold survivors in Hnil, Hcount.
  subst result_filter.
  destruct (execute_conjuncts env ctxs dict_values) as [[status flt] can_all].
  cbn [fst snd] in *. rewrite Hok. cbn [negb].
  destruct can_all.
  - assert (survivors = []) as -> by (apply Hnil, Hall; done). done.
  - assert (survivors ≠ []) as Hsome.
    { intros Hs. apply Hnil, Hall in Hs. done. }
    fold survivors. rewrite decide_False by lia.
    unfold _rewrite_dict_conjuncts.
    destruct survivors as [|c [|c' more]]; [done| |]; by rewrite Hprep.
Qed.

(** Scenario C through the theorem: the dictionary [{"a", "b", "c"}] and
    [col = "b"] give the conjunct [code = 1]. *)
Lemma dict_filter_scenario_C :
  on_string_dicts_loaded scenario_C_env {[ "col" := ["a"; "b"; "c"] ]} scenario_C_state
  = Some (Status_OK, false, mkDictState [("col", 7)] [EqCode 7 1 true] []).
Proof.
  unfold on_string_dicts_loaded, scenario_C_state. cbn [_dict_filter_cols
    _dict_filter_conjuncts _non_dict_filter_conjuncts].
  destruct (dict_filter_rewrite scenario_C_env {[ "col" := ["a"; "b"; "c"] ]}
              "col" 7 [] [] [] [] [0%nat] ["a"; "b"; "c"] 0 true) as [_ ->].
  - intros ctxs dict_values _. unfold scenario_C_env, scenario_C_engine.
    cbn [execute_conjuncts fst snd]. split; [by rewrite length_fmap|].
    by rewrite bool_decide_eq_true.
  - reflexivity.
  - reflexivity.
  - done.
  - vm_compute. congruence.
  - reflexivity.
  - reflexivity.
  - reflexivity.
  - vm_compute. reflexivity.
Defined.

(** Scenario C by evaluation, together with the case where "b" is not in
    the dictionary: the stripe is reported filtered and nothing is
    rewritten. *)
Example dict_filter_scenario_C_absent :
  on_string_dicts_loaded scenario_C_env {[ "col" := ["a"; "b"; "c"] ]} scenario_C_state
  = Some (Status_OK, false, mkDictState [("col", 7)] [EqCode 7 1 true] []) ∧
  on_string_dicts_loaded scenario_C_env {[ "col" := ["a"; "c"; "d"] ]} scenario_C_state
  = Some (Status_OK, true, scenario_C_state) ∧
  on_string_dicts_loaded scenario_C_env {[ "col" := ["b"; "a"; "b"] ]} scenario_C_state
  = Some (Status_OK, false, mkDictState [("col", 7)] [InCodes 7 [0; 2]] []).
Proof. repeat split; vm_compute; reflexivity. Qed.

End DictFilterFacts.

(** ** Cooperative cancellation *)

Section CancelFacts.
Import Cancel.

(** The fuel of the read loop never runs out: any two amounts that cover the
    bytes still to read give the same run. *)
Lemma read_loop_fuel stream length offset : ∀ fuel1 fuel2 has_read w,
  length - has_read ≤ fuel1 → length - has_read ≤ fuel2 →
  read_loop stream length offset fuel1 has_read w
  = read_loop stream length offset fuel2 has_read w.
Proof.
  induction fuel1 as [|fuel1 IH]; intros fuel2 has_read w H1 H2.
  - destruct fuel2; cbn [read_loop]; [done|].
    destruct (decide (has_read < length)); [lia|done].
  - destruct fuel2 as [|fuel2]; cbn [read_loop].
    { destruct (decide (has_read < length)); [lia|done]. }
    destruct (decide (has_read < length)); [|done].
    unfold bind. destruct (stop_requested _ _ w) as [[[]|] w1]; try done.
    destruct (read_at stream _ _) as [st loop_read].
    destruct (negb (ok st)); [done|].
    destruct (decide (loop_read = 0)); [done|].
    apply IH; lia.
Qed.










(** The log and the result of the stopping scan, by evaluation. *)
Example cancellation_sample_log :
  get_next_block_impl stopping_reader (mkNextBlock Status_OK false 99 0) (mkWorld 0 [])
  = (Returns (mkNextBlock Status_OK true 0 0, []),
     mkWorld 4 [EntryCheck false; NextBatch; ReadCheck false; ReadCheck true;
                CatchCheck true]).
Proof. vm_compute. reflexivity. Qed.

(** The scan by row id stopped during [seekToRow]: the exception leaves
    [get_next_block_impl], and line 5 has not been popped. *)
Example seek_stopped_log :
  get_next_block_impl seeking_reader (mkNextBlock Status_OK false 99 0) (mkWorld 0 [])
  = (Throws "stop", mkWorld 2 [EntryCheck false; SeekToRow 5; ReadCheck true]).
Proof. vm_compute. reflexivity. Qed.

End CancelFacts.

(** ** Empty files *)

Section OpenFacts.
Import Cancel Open.
Local Open Scope Z_scope.

(** C10.  An ORC file of zero bytes that can be opened makes
    [_create_file_reader] return [EndOfFile]; so does a Parquet file of at
    most four bytes in [_open_file], and a Parquet file whose footer lists no
    row group in [init_reader]. *)
Theorem empty_file_is_end_of_file :
  (∀ env st,
     _reader st = false →
     _file_input_stream st = Some 0 ∨
       (_file_input_stream st = None ∧ create_file_reader env = inr 0) →
     (_create_file_reader env st).1
     = Status_EndOfFile ("empty orc file: " +:+ path env)) ∧
  (∀ env st size,
     should_stop_at_open env = false →
     _file_metadata st = None →
     _file_reader st = Some size ∨
       (_file_reader st = None ∧ parquet_create_file_reader env = inr size) →
     size ≤ 4 →
     code (_open_file env st).1 = END_OF_FILE) ∧
  (∀ env ext rd st all_column_names filter_groups plan metadata,
     (_open_file env st).1 = Status_OK →
     _file_metadata (_open_file env st).2 = Some metadata →
     row_groups metadata = [] →
     init_reader env ext rd st all_column_names filter_groups plan
     = Some (Status_EndOfFile
               ("init reader failed, empty parquet file: " +:+ parquet_path env),
             (_open_file env st).2, rd, plan)).
Proof.
  split; [|split].
  - intros env st Hreader Hempty. unfold _create_file_reader. rewrite Hreader.
    destruct Hempty as [->|[-> ->]]; by rewrite decide_True.
  - intros env st size Hstop Hmeta Hopen Hsize. unfold _open_file.
    rewrite Hstop, Hmeta.
    destruct Hopen as [->|[-> ->]];
      by rewrite decide_True by (unfold sizeof_PARQUET_VERSION_NUMBER; lia).
  - intros env ext rd st names filter_groups plan metadata Hok Hmeta Hgroups.
    unfold init_reader.
    destruct (_open_file env st) as [status st1]. simpl in *. subst status.
    rewrite Hmeta, Hgroups. done.
Qed.

(** C10 on three empty files: an ORC file of zero bytes, a Parquet file of
    zero bytes, and a Parquet file whose footer has no row group. *)
Lemma empty_file_samples :
  (_create_file_reader (mkOrcOpenEnv "f.orc" (inr 0) (Throws "unreachable") false)
     (mkOrcOpen false None)).1
  = Status_EndOfFile "empty orc file: f.orc" ∧
  code (_open_file (mkParquetOpenEnv "f.parquet" false (inr 0)
                      (Status_InternalError "unreachable", None))
          (mkParquetOpen None None)).1 = END_OF_FILE ∧
  init_reader (mkParquetOpenEnv "f.parquet" false (inr 128)
                 (Status_OK, Some (mkFileMetaData [] 0)))
    RowGroups.scenario_A_ext RowGroups.scenario_A_reader (mkParquetOpen None None)
    ["x"] true RowGroups.plan_state_init
  = Some (Status_EndOfFile "init reader failed, empty parquet file: f.parquet",
          mkParquetOpen (Some 128) (Some (mkFileMetaData [] 0)),
          RowGroups.scenario_A_reader, RowGroups.plan_state_init).
Proof.
  destruct empty_file_is_end_of_file as (Horc & Hsmall & Hgroups).
  split; [|split].
  - apply (Horc (mkOrcOpenEnv "f.orc" (inr 0) (Throws "unreachable") false)
             (mkOrcOpen false None)).
    + reflexivity.
    + right. split; reflexivity.
  - apply (Hsmall (mkParquetOpenEnv "f.parquet" false (inr 0)
                     (Status_InternalError "unreachable", None))
             (mkParquetOpen None None) 0).
    + reflexivity.
    + reflexivity.
    + right. split; reflexivity.
    + lia.
  - apply (Hgroups (mkParquetOpenEnv "f.parquet" false (inr 128)
                      (Status_OK, Some (mkFileMetaData [] 0)))
             RowGroups.scenario_A_ext RowGroups.scenario_A_reader
             (mkParquetOpen None None) ["x"] true RowGroups.plan_state_init
             (mkFileMetaData [] 0)).
    + reflexivity.
    + reflexivity.
    + reflexivity.
Defined.

(** Scenario A through [init_reader]: the file opens, the footer lists the
    row group of Scenario A, and the group is queued for reading. *)
Example scenario_A_through_init_reader :
  (λ r, (r.1.1.1, RowGroups._read_row_groups r.2)) <$>
    init_reader (mkParquetOpenEnv "f.parquet" false (inr 4096)
                   (Status_OK, Some (mkFileMetaData [RowGroups.scenario_A_row_group] 100)))
      RowGroups.scenario_A_ext
      (RowGroups.mkParquetReader true
         (Some {[ "x" := RowGroups.mkColumnValueRange (Some 26) None ]})
         [] [] [] "parquet-mr version 1.12.0" 0 1000 false)
      (mkParquetOpen None None) ["x"] true RowGroups.plan_state_init
  = Some (Status_OK, [RowGroups.mkRowGroupIndex 0 0 100]).
Proof. vm_compute. reflexivity. Qed.

End OpenFacts.

(** ** Row numbers and scan ranges *)

Section RowGroupPlanFacts.
Import RowGroups RowGroupPlan.
Local Open Scope Z_scope.

Lemma rows_before_0 groups : rows_before groups 0 = 0.
Proof. by unfold rows_before; rewrite take_0. Qed.

Lemma rows_before_S g groups k :
  rows_before (g :: groups) (S k) = num_rows g + rows_before groups k.
Proof. done. Qed.

(** X1.  Splitting a scan range.  When the byte range of a reader is cut into two
    adjacent ranges, a row group belongs to the whole range exactly when it
    belongs to one of the two parts, and it never belongs to both: no row
    group is read twice by neighbouring splits, and none is lost. *)
Theorem adjacent_ranges_share_no_row_group rd rd1 rd2 row_group b :
  0 ≤ _range_size rd1 → 0 ≤ _range_size rd2 →
  _range_start_offset rd1 = _range_start_offset rd →
  _range_start_offset rd2 = _range_start_offset rd + _range_size rd1 →
  _range_size rd = _range_size rd1 + _range_size rd2 →
  _is_misaligned_range_group rd row_group = Some b →
  ∃ b1 b2,
    _is_misaligned_range_group rd1 row_group = Some b1 ∧
    _is_misaligned_range_group rd2 row_group = Some b2 ∧
    b = b1 && b2 ∧ b1 || b2 = true.
Proof.
  intros Hn1 Hn2 Hs1 Hs2 Hsz. unfold _is_misaligned_range_group.
  destruct (head (columns row_group)) as [fc|]; [|done].
  destruct (last (columns row_group)) as [lc|]; [|done].
  cbn. intros [= <-]. rewrite Hs1, Hs2, Hsz.
  set (mid := column_start_offset fc + _ ÷ 2).
  eexists _, _. split; [reflexivity|]. split; [reflexivity|].
  repeat case_bool_decide; cbn; split; try done; lia.
Qed.


(** The row group at bytes [4, 404) and the range [0, 1000) cut at 500. *)
Lemma adjacent_ranges_sample :
  ∃ b1 b2,
    _is_misaligned_range_group (range_reader 0 500 false) (sample_row_group 4) = Some b1 ∧
    _is_misaligned_range_group (range_reader 500 500 false) (sample_row_group 4)
      = Some b2 ∧
    false = b1 && b2 ∧ b1 || b2 = true.
Proof.
  apply (adjacent_ranges_share_no_row_group (range_reader 0 1000 false)).
  - cbn. lia.
  - cbn. lia.
  - reflexivity.
  - reflexivity.
  - reflexivity.
  - vm_compute. reflexivity.
Defined.

Lemma process_row_group_filter_keeps_queue ext rd idx row_group fg st status fg' st' :
  _process_row_group_filter ext rd idx row_group fg st = Some (status, fg', st') →
  _read_row_groups st' = _read_row_groups st.
Proof.
  unfold _process_row_group_filter. destruct (_read_line_mode_mode rd).
  - destruct (_ !! _); [|done]. cbn. destruct (take_read_lines _ _ _ _).
    by intros [= _ _ <-].
  - destruct (_process_column_stat_filter _ _ _ _ _) as [[[??]?]|]; [|done].
    cbn. by intros [= _ _ <-].
Qed.

Lemma numbered_cons g groups idx row_index i :
  numbered groups (S idx) (row_index + num_rows g) i →
  numbered (g :: groups) idx row_index i.
Proof.
  intros (k & g' & Hid & Hg & Hf & Hl). exists (S k), g'.
  rewrite rows_before_S. repeat split; [lia|done|lia|done].
Qed.

Lemma row_groups_loop_numbering ext rd f groups :
  ∀ idx row_index st status st',
  row_groups_loop ext rd f groups idx row_index st = Some (status, st') →
  ∃ added, _read_row_groups st' = _read_row_groups st ++ added ∧
    Forall (numbered groups idx row_index) added ∧
    StronglySorted (λ a b, (row_group_id a < row_group_id b)%nat) added.
Proof.
  induction groups as [|g groups IH]; intros idx row_index st status st' Hrun.
  - cbn in Hrun. injection Hrun as _ <-. exists [].
    rewrite app_nil_r. repeat constructor.
  - cbn [row_groups_loop] in Hrun.
    assert (∀ st1 added,
      _read_row_groups st1 = _read_row_groups st ++ added →
      Forall (numbered (g :: groups) idx row_index) added →
      StronglySorted (λ a b, (row_group_id a < row_group_id b)%nat) added →
      Forall (λ a, (row_group_id a ≤ idx)%nat) added →
      row_groups_loop ext rd f groups (S idx) (row_index + num_rows g) st1
        = Some (status, st') →
      ∃ added, _read_row_groups st' = _read_row_groups st ++ added ∧
        Forall (numbered (g :: groups) idx row_index) added ∧
        StronglySorted (λ a b, (row_group_id a < row_group_id b)%nat) added)
      as Hstep.
    { intros st1 added Hq Hnum Hsort Hle Hrest.
      destruct (IH _ _ _ _ _ Hrest) as (added' & Hq' & Hnum' & Hsort').
      exists (added ++ added'). split; [by rewrite Hq', Hq, app_assoc|].
      split.
      - apply Forall_app. split; [done|].
        eapply Forall_impl; [exact Hnum'|]. intros i. apply numbered_cons.
      - apply StronglySorted_app_2; [|done..].
        intros a b Ha Hb. rewrite Forall_forall in Hle, Hnum'.
        specialize (Hle a Ha). destruct (Hnum' b Hb) as (k & ? & Hid & _). lia. }
    destruct (if f return option bool then _ else _) as [misaligned|]; [|done].
    cbn in Hrun. destruct misaligned.
    + apply (Hstep st []); [by rewrite app_nil_r|constructor..|done].
    + destruct (if f return option (Status * bool * PlanState) then _ else _)
        as [[[status1 fg] st1]|] eqn:Hfilter; [|done].
      cbn in Hrun.
      assert (_read_row_groups st1 = _read_row_groups st) as Hkeep.
      { destruct f; [|by injection Hfilter as _ _ <-].
        by eapply process_row_group_filter_keeps_queue. }
      destruct (negb (ok status1)).
      { injection Hrun as _ <-. exists []. rewrite app_nil_r.
        split; [done|]. repeat constructor. }
      destruct fg.
      * refine (Hstep _ [] _ _ _ _ Hrun); [|constructor..].
        cbn. by rewrite Hkeep, app_nil_r.
      * refine (Hstep _ [mkRowGroupIndex idx row_index (row_index + num_rows g)]
                  _ _ _ _ Hrun).
        -- cbn. by rewrite Hkeep.
        -- constructor; [|constructor]. exists 0%nat, g.
           rewrite rows_before_0. cbn. repeat split; [lia|lia].
        -- repeat constructor.
        -- constructor; [cbn; lia|constructor].
Qed.

(** X2.  In whatever way the row groups are pruned, a row group that is queued
    for reading keeps its place in the file: its first row is the number of
    rows of all row groups before it, skipped or not, and the queue is in
    file order. *)
Theorem init_row_groups_numbers_rows ext rd f row_groups file_num_rows st status st' :
  _init_row_groups ext rd f row_groups file_num_rows st = Some (status, st') →
  ∃ added, _read_row_groups st' = _read_row_groups st ++ added ∧
    StronglySorted (λ a b, (row_group_id a < row_group_id b)%nat) added ∧
    Forall (λ i, ∃ g, row_groups !! row_group_id i = Some g ∧
                      first_row i = rows_before row_groups (row_group_id i) ∧
                      last_row i = first_row i + num_rows g) added.
Proof.
  unfold _init_row_groups. destruct (_ && _).
  { intros [= _ <-]. exists []. rewrite app_nil_r. repeat constructor. }
  destruct (row_groups_loop _ _ _ _ _ _ _) as [[status1 st1]|] eqn:Hloop; [|done].
  cbn. intros Hres.
  assert (st' = st1) as -> by (repeat case_match; by simplify_eq).
  destruct (row_groups_loop_numbering _ _ _ _ _ _ _ _ _ Hloop)
    as (added & Hq & Hnum & Hsort).
  exists added. split; [done|]. split; [done|].
  eapply Forall_impl; [exact Hnum|].
  intros i (k & g & Hid & Hg & Hf & Hl). exists g.
  rewrite Hid, Nat.add_0_l. split; [done|]. split; [lia|done].
Qed.


(** Scenario A: the one row group is queued as rows [0, 100). *)
Lemma init_row_groups_numbers_rows_sample :
  ∃ added,
    [mkRowGroupIndex 0 0 100] = [] ++ added ∧
    StronglySorted (λ a b, (row_group_id a < row_group_id b)%nat) added ∧
    Forall (λ i, ∃ g, [scenario_A_row_group] !! row_group_id i = Some g ∧
                      first_row i = rows_before [scenario_A_row_group] (row_group_id i) ∧
                      last_row i = first_row i + num_rows g) added.
Proof.
  apply (init_row_groups_numbers_rows scenario_A_ext scenario_A_reader true
           [scenario_A_row_group] 100 plan_state_init Status_OK
           (mkPlanState [] [[]] (λ _, None) [mkRowGroupIndex 0 0 100] 1 0 0)).
  vm_compute. reflexivity.
Defined.

Lemma row_groups_loop_unfiltered ext rd groups : ∀ idx row_index st,
  ∃ st' added,
    row_groups_loop ext rd false groups idx row_index st = Some (Status_OK, st') ∧
    _read_row_groups st' = _read_row_groups st ++ added ∧
    length added = length groups ∧
    (∀ k g, groups !! k = Some g →
       added !! k = Some (mkRowGroupIndex (idx + k)
                            (row_index + rows_before groups k)
                            (row_index + rows_before groups k + num_rows g))) ∧
    _read_lines st' = _read_lines st ∧
    _read_line_mode_row_ranges st' = _read_line_mode_row_ranges st ∧
    stat_read_row_groups st' = stat_read_row_groups st + Z.of_nat (length groups) ∧
    stat_filtered_row_groups st' = stat_filtered_row_groups st.
Proof.
  induction groups as [|g groups IH]; intros idx row_index st.
  - exists st, []. cbn. rewrite app_nil_r. repeat split; try done; lia.
  - cbn [row_groups_loop]. cbn.
    edestruct (IH (S idx) (row_index + num_rows g)) as
      (st' & added & -> & Hq & Hlen & Hlook & Hl & Hr & Hs & Hf).
    exists st', (mkRowGroupIndex idx row_index (row_index + num_rows g) :: added).
    split; [done|]. cbn in Hq, Hl, Hr, Hs, Hf.
    split; [by rewrite Hq, <- app_assoc|].
    split; [cbn; lia|]. split; [|repeat split; try done; cbn; lia].
    intros [|k] g' Hg'.
    + injection Hg' as <-. rewrite rows_before_0. cbn. do 2 f_equal; lia.
    + rewrite rows_before_S. change (added !! k = Some
        (mkRowGroupIndex (idx + S k) (row_index + (num_rows g + rows_before groups k))
           (row_index + (num_rows g + rows_before groups k) + num_rows g'))).
      rewrite (Hlook k g' Hg'). do 2 f_equal; lia.
Qed.

(** X3.  Planning without filtering ([filter_groups = false]) never looks into
    a row group: it cannot fail, it prunes nothing, and it queues every row
    group of the file with its place in the file. *)
Theorem unfiltered_planning_queues_every_group ext rd row_groups file_num_rows st :
  ∃ status st' added,
    _init_row_groups ext rd false row_groups file_num_rows st = Some (status, st') ∧
    _read_row_groups st' = _read_row_groups st ++ added ∧
    length added = length row_groups ∧
    (∀ k g, row_groups !! k = Some g →
       added !! k = Some (mkRowGroupIndex k (rows_before row_groups k)
                            (rows_before row_groups k + num_rows g))) ∧
    stat_read_row_groups st' = stat_read_row_groups st + Z.of_nat (length row_groups) ∧
    stat_filtered_row_groups st' = stat_filtered_row_groups st ∧
    status = (if bool_decide (_read_row_groups st' = [])
              then Status_EndOfFile "No row group to read" else Status_OK).
Proof.
  unfold _init_row_groups. cbn [andb].
  edestruct (row_groups_loop_unfiltered ext rd row_groups 0 0) as
    (st' & added & -> & Hq & Hlen & Hlook & _ & _ & Hs & Hf).
  cbn in Hq, Hs, Hf. cbn.
  exists (if bool_decide (_read_row_groups st' = [])
          then Status_EndOfFile "No row group to read" else Status_OK), st', added.
  split; [by case_bool_decide|]. split; [done|]. split; [done|].
  split; [|done]. intros k g Hg. rewrite (Hlook k g Hg). do 2 f_equal; lia.
Qed.

Lemma take_read_lines_sorted s e : ∀ lines ranges,
  StronglySorted Z.le lines → Forall (λ v, s ≤ v) lines →
  take_read_lines s e lines ranges
  = (filter (λ v, e ≤ v) lines,
     ranges ++ (line_range s <$> filter (λ v, s ≤ v < e) lines)).
Proof.
  induction lines as [|v lines IH]; intros ranges Hs Hge.
  - cbn. by rewrite app_nil_r.
  - apply StronglySorted_inv in Hs as [Hs Hall].
    apply Forall_cons in Hge as [Hv Hge].
    cbn [take_read_lines]. destruct (decide (v >= s ∧ v < e)) as [[_ Hlt]|Hout].
    + rewrite IH by done.
      rewrite (filter_cons_False (λ v, e ≤ v)) by lia.
      rewrite (filter_cons_True (λ v, s ≤ v < e)) by lia.
      rewrite fmap_cons, <- app_assoc. reflexivity.
    + assert (e ≤ v) as Hev by lia.
      rewrite (filter_cons_True (λ v, e ≤ v)) by lia.
      rewrite (filter_cons_False (λ v, s ≤ v < e)) by lia.
      assert (Forall (λ w, e ≤ w) lines) as Hrest.
      { eapply Forall_impl; [exact Hall|]. cbn. intros; lia. }
      f_equal.
      * f_equal. clear -Hrest. induction Hrest as [|w l Hw _ IHl]; [done|].
        rewrite filter_cons_True by done. by f_equal.
      * replace (filter (λ v, s ≤ v < e) lines) with (@nil Z);
          [by rewrite app_nil_r|].
        clear -Hrest. induction Hrest as [|w l Hw _ IHl]; [done|].
        rewrite filter_cons_False by lia. done.
Qed.


Lemma StronglySorted_filter_le (P : Z → Prop) `{∀ x, Decision (P x)} (l : list Z) :
  StronglySorted Z.le l → StronglySorted Z.le (filter P l).
Proof.
  induction 1 as [|x l Hs IH Hall]; [constructor|].
  destruct (decide (P x)).
  - rewrite filter_cons_True by done. constructor; [done|].
    rewrite Forall_forall in Hall. apply Forall_forall.
    intros y [_ Hy]%list_elem_of_filter. by apply Hall.
  - by rewrite filter_cons_False.
Qed.

Lemma filter_nested_interval (a b c : Z) (l : list Z) :
  c ≤ a →
  filter (λ v, a ≤ v < b) (filter (λ v, c ≤ v) l) = filter (λ v, a ≤ v < b) l.
Proof. intros. apply list_filter_filter_l. intros; lia. Qed.

Lemma filter_nested_ge (a c : Z) (l : list Z) :
  c ≤ a → filter (λ v, a ≤ v) (filter (λ v, c ≤ v) l) = filter (λ v, a ≤ v) l.
Proof. intros. apply list_filter_filter_l. intros; lia. Qed.

Lemma rows_before_nonneg groups k :
  Forall (λ g, 0 ≤ num_rows g) groups → 0 ≤ rows_before groups k.
Proof.
  intros Hall. revert k. induction Hall as [|g groups Hg _ IH]; intros [|k];
    rewrite ?rows_before_0, ?rows_before_S; try done.
  specialize (IH k). lia.
Qed.

Lemma row_groups_loop_line_mode ext rd groups : ∀ idx row_index st,
  _read_line_mode_mode rd = true →
  Forall (λ g, _is_misaligned_range_group rd g = Some false) groups →
  Forall (λ g, 0 ≤ num_rows g) groups →
  StronglySorted Z.le (_read_lines st) →
  Forall (λ v, row_index ≤ v) (_read_lines st) →
  (idx + length groups ≤ length (_read_line_mode_row_ranges st))%nat →
  (∀ k, (idx ≤ k < length (_read_line_mode_row_ranges st))%nat →
        _read_line_mode_row_ranges st !! k = Some []) →
  ∃ st' added,
    row_groups_loop ext rd true groups idx row_index st = Some (Status_OK, st') ∧
    _read_lines st'
      = filter (λ v, row_index + rows_before groups (length groups) ≤ v) (_read_lines st) ∧
    length (_read_line_mode_row_ranges st') = length (_read_line_mode_row_ranges st) ∧
    (∀ k, (k < idx)%nat →
       _read_line_mode_row_ranges st' !! k = _read_line_mode_row_ranges st !! k) ∧
    (∀ k g, groups !! k = Some g →
       _read_line_mode_row_ranges st' !! (idx + k)%nat
       = Some (line_range (row_index + rows_before groups k) <$>
               filter (λ v, row_index + rows_before groups k ≤ v
                            < row_index + rows_before groups k + num_rows g)
                      (_read_lines st))) ∧
    _read_row_groups st' = _read_row_groups st ++ added ∧
    (∀ i, i ∈ added ↔
       ∃ k g, groups !! k = Some g ∧
         i = mkRowGroupIndex (idx + k) (row_index + rows_before groups k)
               (row_index + rows_before groups k + num_rows g) ∧
         filter (λ v, row_index + rows_before groups k ≤ v
                      < row_index + rows_before groups k + num_rows g)
                (_read_lines st) ≠ []).
Proof.
  induction groups as [|g groups IH];
    intros idx row_index st Hmode Halign Hrows Hsorted Hge Hlen Hfresh.
  - exists st, []. cbn [row_groups_loop]. split; [done|].
    split.
    { rewrite rows_before_0, Z.add_0_r. symmetry.
      clear -Hge. induction Hge as [|v l Hv _ IHl]; [done|].
      rewrite filter_cons_True by done. by f_equal. }
    split; [done|]. split; [done|]. split; [intros ? ? [=]|].
    split; [by rewrite app_nil_r|].
    intros i. split; [by intros ?%elem_of_nil|]. by intros (? & ? & [=] & _).
  - apply Forall_cons in Halign as [Hal Halign].
    apply Forall_cons in Hrows as [Hg Hrows].
    cbn [length] in Hlen.
    cbn [row_groups_loop]. rewrite Hal. cbn.
    unfold _process_row_group_filter. rewrite Hmode. cbn.
    rewrite (Hfresh idx) by lia. cbn.
    rewrite take_read_lines_sorted by done. cbn.
    set (mine := filter (λ v, row_index ≤ v < row_index + num_rows g) (_read_lines st)).
    set (ranges1 := <[idx := line_range row_index <$> mine]> (_read_line_mode_row_ranges st)).
    set (lines1 := filter (λ v, row_index + num_rows g ≤ v) (_read_lines st)).
    assert (StronglySorted Z.le lines1) as Hsorted1
      by by apply StronglySorted_filter_le.
    assert (Forall (λ v, row_index + num_rows g ≤ v) lines1) as Hge1.
    { apply Forall_forall. by intros v [? _]%list_elem_of_filter. }
    assert (∀ queue r f fr,
      let st2 := mkPlanState lines1 ranges1 (_ignored_stats st) queue r f fr in
      ∃ st' added,
        row_groups_loop ext rd true groups (S idx) (row_index + num_rows g) st2
          = Some (Status_OK, st') ∧
        _read_lines st'
          = filter (λ v, row_index + rows_before (g :: groups) (length (g :: groups)) ≤ v)
                   (_read_lines st) ∧
        length (_read_line_mode_row_ranges st') = length (_read_line_mode_row_ranges st) ∧
        (∀ k, (k < idx)%nat →
           _read_line_mode_row_ranges st' !! k = _read_line_mode_row_ranges st !! k) ∧
        (∀ k g', (g :: groups) !! k = Some g' →
           _read_line_mode_row_ranges st' !! (idx + k)%nat
           = Some (line_range (row_index + rows_before (g :: groups) k) <$>
                   filter (λ v, row_index + rows_before (g :: groups) k ≤ v
                                < row_index + rows_before (g :: groups) k + num_rows g')
                          (_read_lines st))) ∧
        _read_row_groups st' = queue ++ added ∧
        (∀ i, i ∈ added ↔
           ∃ k g', groups !! k = Some g' ∧
             i = mkRowGroupIndex (idx + S k) (row_index + rows_before (g :: groups) (S k))
                   (row_index + rows_before (g :: groups) (S k) + num_rows g') ∧
             filter (λ v, row_index + rows_before (g :: groups) (S k) ≤ v
                          < row_index + rows_before (g :: groups) (S k) + num_rows g')
                    (_read_lines st) ≠ [])) as Hrest.
    { intros queue r f fr st2.
      destruct (IH (S idx) (row_index + num_rows g) st2)
        as (st' & added & Hrun & Hlines & Hlen' & Hbelow & Hranges & Hq & Hadded);
        [done..| | |].
      { subst st2 ranges1. cbn. rewrite length_insert. lia. }
      { subst st2 ranges1. cbn. intros k Hk. rewrite length_insert in Hk.
        rewrite list_lookup_insert_ne by lia. apply Hfresh. lia. }
      exists st', added. subst st2. cbn in Hlines, Hlen', Hbelow, Hranges, Hq, Hadded.
      split; [done|]. split.
      { rewrite Hlines. subst lines1. cbn [length]. rewrite rows_before_S.
        rewrite filter_nested_ge.
        - apply list_filter_iff. intros; lia.
        - pose proof (rows_before_nonneg groups (length groups) Hrows). lia. }
      split; [by rewrite Hlen'; subst ranges1; rewrite length_insert|].
      split.
      { intros k Hk. rewrite Hbelow by lia. subst ranges1.
        by rewrite list_lookup_insert_ne by lia. }
      split.
      { intros [|k] g' Hg'.
        - injection Hg' as <-. rewrite Nat.add_0_r, rows_before_0, Z.add_0_r.
          rewrite Hbelow by lia. subst ranges1.
          rewrite list_lookup_insert_eq by lia. done.
        - replace (idx + S k)%nat with (S (idx + k)) by lia.
          rewrite (Hranges k g' Hg'), rows_before_S. subst lines1.
          pose proof (rows_before_nonneg groups k Hrows).
          rewrite filter_nested_interval by lia.
          f_equal. f_equal; [f_equal; lia|].
          apply list_filter_iff. intros; lia. }
      split; [done|].
      intros i. rewrite Hadded. split.
      - intros (k & g' & Hg' & -> & Hne). exists k, g'. split; [done|].
        rewrite rows_before_S. subst lines1.
        pose proof (rows_before_nonneg groups k Hrows).
        rewrite filter_nested_interval in Hne by lia.
        split; [f_equal; lia|].
        intros Hnil. apply Hne. rewrite <- Hnil.
        apply list_filter_iff. intros; lia.
      - intros (k & g' & Hg' & -> & Hne). exists k, g'. split; [done|].
        rewrite rows_before_S in *. subst lines1.
        pose proof (rows_before_nonneg groups k Hrows).
        rewrite filter_nested_interval by lia.
        split; [f_equal; lia|].
        intros Hnil. apply Hne. rewrite <- Hnil.
        apply list_filter_iff. intros; lia. }
    destruct (bool_decide (line_range row_index <$> mine = [])) eqn:Hempty.
    + destruct (Hrest (_read_row_groups st) (stat_read_row_groups st)
                  (stat_filtered_row_groups st + 1)
                  (stat_filtered_group_rows st + num_rows g))
        as (st' & added & Hrun & Hlines & Hlen' & Hbelow & Hranges & Hq & Hadded).
      exists st', added. split; [exact Hrun|]. do 5 (split; [done|]).
      apply bool_decide_eq_true in Hempty. apply fmap_nil_inv in Hempty.
      intros i. rewrite Hadded. split.
      * intros (k & g' & Hg' & Hi & Hne). by exists (S k), g'.
      * intros ([|k] & g' & Hg' & Hi & Hne).
        -- injection Hg' as <-. exfalso. apply Hne.
           by rewrite rows_before_0, Z.add_0_r.
        -- by exists k, g'.
    + destruct (Hrest (_read_row_groups st
                        ++ [mkRowGroupIndex idx row_index (row_index + num_rows g)])
                  (stat_read_row_groups st + 1) (stat_filtered_row_groups st)
                  (stat_filtered_group_rows st))
        as (st' & added & Hrun & Hlines & Hlen' & Hbelow & Hranges & Hq & Hadded).
      exists st', (mkRowGroupIndex idx row_index (row_index + num_rows g) :: added).
      split; [exact Hrun|]. do 4 (split; [done|]).
      split; [by rewrite Hq, <- app_assoc|].
      apply bool_decide_eq_false in Hempty.
      intros i. rewrite elem_of_cons, Hadded. split.
      * intros [->|(k & g' & Hg' & Hi & Hne)]; [|by exists (S k), g'].
        exists 0%nat, g. split; [done|].
        rewrite rows_before_0, Z.add_0_r, Nat.add_0_r. split; [done|].
        intros Hnil. apply Hempty. fold mine in Hnil. by rewrite Hnil.
      * intros ([|k] & g' & Hg' & Hi & Hne).
        -- injection Hg' as <-. left.
           by rewrite rows_before_0, Z.add_0_r, Nat.add_0_r in Hi.
        -- right. by exists k, g'.
Qed.


(** X4.  Reading by row number.  When the requested lines are ascending and lie
    inside the file, and the scan range covers every row group, planning
    consumes every line: each row group ends up with the one-row ranges of
    exactly its lines, relative to its first row and in request order, and a
    row group is queued for reading if and only if some line falls into
    it. *)
Theorem line_mode_locates_every_line ext rd row_groups file_num_rows st :
  _read_line_mode_mode rd = true →
  Forall (λ g, _is_misaligned_range_group rd g = Some false) row_groups →
  Forall (λ g, 0 ≤ num_rows g) row_groups →
  StronglySorted Z.le (_read_lines st) →
  Forall (λ v, 0 ≤ v < rows_before row_groups (length row_groups)) (_read_lines st) →
  _read_line_mode_row_ranges st = [] →
  _read_row_groups st = [] →
  file_num_rows ≠ 0 → 0 ≤ _range_size rd →
  ∃ status st',
    _init_row_groups ext rd true row_groups file_num_rows st = Some (status, st') ∧
    _read_lines st' = [] ∧
    ∀ k g, row_groups !! k = Some g →
      _read_line_mode_row_ranges st' !! k
        = Some (line_range (rows_before row_groups k) <$>
                lines_of_group row_groups k g (_read_lines st)) ∧
      (mkRowGroupIndex k (rows_before row_groups k)
         (rows_before row_groups k + num_rows g) ∈ _read_row_groups st'
       ↔ lines_of_group row_groups k g (_read_lines st) ≠ []).
Proof.
  intros Hmode Halign Hrows Hsorted Hin Hfresh Hqueue Hn Hsize.
  unfold _init_row_groups. cbn [andb].
  destruct (decide (row_groups = [])) as [->|Hne].
  { rewrite bool_decide_eq_true_2 by done. cbn.
    exists (Status_EndOfFile "No row group to read"), st. split; [done|].
    split; [|by intros ? ? [=]].
    destruct (_read_lines st) as [|v l]; [done|].
    apply Forall_cons in Hin as [Hv _]. rewrite rows_before_0 in Hv. lia. }
  rewrite !bool_decide_eq_false_2 by (done || lia). cbn [orb].
  rewrite Hfresh.
  edestruct (row_groups_loop_line_mode ext rd row_groups 0 0) as
    (st' & added & Hrun & Hlines & _ & _ & Hranges & Hq & Hadded);
    [exact Hmode|exact Halign|exact Hrows| | | | |].
  5:{ rewrite Hrun. cbn in Hlines, Hranges, Hq, Hadded.
      cbn [mbind option_bind ok code Status_OK negb].
      exists (if bool_decide (_read_row_groups st' = [])
              then Status_EndOfFile "No row group to read" else Status_OK), st'.
      split; [by case_bool_decide|].
      split.
      { rewrite Hlines. clear -Hin. induction Hin as [|v l Hv _ IH]; [done|].
        rewrite filter_cons_False by lia. done. }
      intros k g Hg. unfold lines_of_group. split.
      - rewrite (Hranges k g Hg), !Z.add_0_l. done.
      - rewrite Hq, Hqueue, app_nil_l, Hadded. split.
        + intros (k' & g' & Hg' & [= <- _ _] & Hne').
          rewrite Hg in Hg'. injection Hg' as <-. by rewrite !Z.add_0_l in Hne'.
        + intros Hne'. exists k, g. by rewrite !Z.add_0_l. }
  - done.
  - cbn. eapply Forall_impl; [exact Hin|]. cbn. intros; lia.
  - cbn. rewrite length_resize. lia.
  - cbn. intros k Hk. rewrite length_resize in Hk.
    rewrite lookup_resize_new by (cbn; lia). done.
Qed.

(** Lines 5, 150 and 160 of a file of two row groups of 100 rows. *)
Lemma line_mode_sample :
  ∃ status st',
    _init_row_groups scenario_A_ext (range_reader 0 1000 true)  true
      [sample_row_group 4; sample_row_group 404] 200
      (mkPlanState [5; 150; 160] [] (λ _, None) [] 0 0 0) = Some (status, st') ∧
    _read_lines st' = [] ∧
    ∀ k g, [sample_row_group 4; sample_row_group 404] !! k = Some g →
      _read_line_mode_row_ranges st' !! k
        = Some (line_range (rows_before [sample_row_group 4; sample_row_group 404] k) <$>
                lines_of_group [sample_row_group 4; sample_row_group 404] k g
                  [5; 150; 160]) ∧
      (mkRowGroupIndex k (rows_before [sample_row_group 4; sample_row_group 404] k)
         (rows_before [sample_row_group 4; sample_row_group 404] k + num_rows g)
         ∈ _read_row_groups st'
       ↔ lines_of_group [sample_row_group 4; sample_row_group 404] k g [5; 150; 160]
         ≠ []).
Proof.
  apply (line_mode_locates_every_line scenario_A_ext (range_reader 0 1000 true)
           [sample_row_group 4; sample_row_group 404] 200
           (mkPlanState [5; 150; 160] [] (λ _, None) [] 0 0 0)).
  - reflexivity.
  - repeat constructor.
  - repeat constructor; cbn; lia.
  - repeat constructor; lia.
  - repeat constructor; cbn; lia.
  - reflexivity.
  - reflexivity.
  - lia.
  - cbn. lia.
Defined.

End RowGroupPlanFacts.

(** ** Scanning the queued row groups *)

Section ParquetScanFacts.
Import RowGroups ParquetScan.
Local Open Scope Z_scope.
Context {R : Type}.

Lemma OrcDecimal_wrap_id x : - 2 ^ 63 ≤ x < 2 ^ 63 → OrcDecimal.wrap_signed 64 x = x.
Proof. intros. unfold OrcDecimal.wrap_signed. rewrite Z.mod_small; lia. Qed.

Lemma PositionDelete_to_uint64_id x : 0 ≤ x < 2 ^ 64 → PositionDelete.to_uint64 x = x.
Proof. intros. unfold PositionDelete.to_uint64. apply Z.mod_small. lia. Qed.

Lemma is_end_of_file_code st : is_end_of_file st = true ↔ code st = END_OF_FILE.
Proof. unfold is_end_of_file. destruct (code st); split; congruence. Qed.

(** X5.  [get_next_block] never hands [END_OF_FILE] to its caller, whatever the
    page index and the row-group readers answer.  Once the queue is
    exhausted and no row group is being read, it answers [OK] with
    [*eof = true] and no rows, the block untouched, and every further call
    answers the same and leaves the state alone. *)
Theorem get_next_block_never_end_of_file (env : ScanEnv R) s before :
  (∀ st out s', get_next_block env s before = Some (st, out, s') →
     code st ≠ END_OF_FILE) ∧
  (_read_row_groups s = [] →
   (_current_group_reader s = None ∨ _row_group_eof s = true) →
   let s_end := mkScanState None true [] (_delete_rows_index s) in
   get_next_block env s before = Some (Status_OK, mkOut 0 true (block before), s_end) ∧
   ∀ before', get_next_block env s_end before'
              = Some (Status_OK, mkOut 0 true (block before'), s_end)).
Proof.
  split.
  - intros st out s'.
    assert (∀ s1, next_batch_of_group env s1 before = Some (st, out, s') →
                  code st ≠ END_OF_FILE) as Hread.
    { intros s1. unfold next_batch_of_group.
      destruct (_current_group_reader s1) as [reader|]; [|done].
      destruct (push_down_count env); [by intros [= <- _ _]|].
      destruct (next_batch _ _ _ _) as [[[[batch_st rows] batch_eof] blk] reader1].
      destruct (is_end_of_file batch_st); [by intros [= <- _ _]|].
      destruct (negb (ok batch_st)); by intros [= <- _ _]. }
    assert ((_next_row_group_reader env s ≫= λ '(st0, s1),
             if negb (ok st0) && negb (is_end_of_file st0) then Some (st0, before, s1)
             else match _current_group_reader s1 with
                  | None => Some (scan_finished s1 before)
                  | Some _ =>
                      if _row_group_eof s1 || is_end_of_file st0
                      then Some (scan_finished s1 before)
                      else next_batch_of_group env s1 before
                  end) = Some (st, out, s') → code st ≠ END_OF_FILE) as Hnext.
    { destruct (_next_row_group_reader env s) as [[st0 s1]|]; [|done]. cbn.
      destruct (negb (ok st0) && negb (is_end_of_file st0)) eqn:Hbad.
      - intros [= <- _ _]. apply andb_true_iff in Hbad as [_ Hne].
        apply negb_true_iff in Hne. intros Heof%is_end_of_file_code. congruence.
      - destruct (_current_group_reader s1); [|by intros [= <- _ _]].
        destruct (_ || _); [by intros [= <- _ _]|apply Hread]. }
    unfold get_next_block.
    destruct (_current_group_reader s) as [reader|]; [|exact Hnext].
    destruct (_row_group_eof s); [exact Hnext|apply Hread].
  - intros Hq Hdone s_end.
    assert (∀ s0 b, _read_row_groups s0 = [] →
              (_current_group_reader s0 = None ∨ _row_group_eof s0 = true) →
              get_next_block env s0 b
              = Some (Status_OK, mkOut 0 true (block b),
                      mkScanState None true [] (_delete_rows_index s0))) as Hend.
    { intros s0 b Hq0 Hd0. unfold get_next_block, _next_row_group_reader.
      rewrite Hq0. destruct Hd0 as [->| ->]; [done|].
      by destruct (_current_group_reader s0). }
    split; [by apply Hend|]. intros before'. apply (Hend s_end); [done|by left].
Qed.


Lemma count_batches (env : ScanEnv R) b :
  push_down_count env = true →
  (∀ rd v, get_remaining_rows (ops env) (set_remaining_rows (ops env) rd v) = v) →
  _batch_size env = b → 0 < b < 2 ^ 63 →
  ∀ (k : nat) r reader s before,
    _current_group_reader s = Some reader → _row_group_eof s = false →
    get_remaining_rows (ops env) reader = r →
    (Z.of_nat k - 1) * b < r ≤ Z.of_nat k * b → 0 < r < 2 ^ 63 →
    ∃ answers out s',
      get_next_blocks env k s before = Some (answers, out, s') ∧
      Forall (λ a, a.1 = Status_OK ∧ 0 < a.2 ≤ b) answers ∧
      foldr Z.add 0 (snd <$> answers) = r ∧
      _current_group_reader s' = None ∧
      _read_row_groups s' = _read_row_groups s ∧
      eof out = eof before.
Proof.
  intros Hcount Hlaw Hb Hbr. induction k as [|k IH];
    intros r reader s before Hrd Heof Hr Hk Hr63.
  - exfalso. nia.
  - cbn [get_next_blocks]. unfold get_next_block. rewrite Hrd, Heof.
    unfold next_batch_of_group. rewrite Hrd, Hcount, Hlaw, Hr, Hb.
    unfold cast_int64. rewrite (OrcDecimal_wrap_id b) by lia.
    rewrite (OrcDecimal_wrap_id (r - r `min` b)) by lia.
    rewrite (PositionDelete_to_uint64_id (r `min` b)) by lia.
    destruct (decide (r - r `min` b = 0)) as [Hz|Hnz].
    + assert (r ≤ b) by lia. assert (r `min` b = r) as -> by lia.
      assert (k = 0%nat) as -> by nia.
      eexists [_], _, _. cbn. split; [reflexivity|]. cbn.
      split; [constructor; [cbn; split; [done|lia]|constructor]|]. split; [lia|done].
    + assert (b < r) by lia. assert (r `min` b = b) as Hmin by lia.
      rewrite Hmin in *. cbn [mbind option_bind].
      set (reader1 := set_remaining_rows (ops env) reader (r - b)).
      set (out1 := mkOut b (eof before) ((λ _, b) <$> block before)).
      destruct (IH (r - b) reader1
                  (mkScanState (Some reader1) false (_read_row_groups s)
                     (_delete_rows_index s)) out1) as
        (answers & out & s' & Hrun & Hall & Hsum & Hnone & Hq & He);
        [reflexivity|reflexivity|apply Hlaw|nia|lia|].
      rewrite Heof. rewrite Hrun. cbn.
      eexists (_ :: answers), out, s'. split; [reflexivity|].
      split; [constructor; [cbn; split; [done|lia]|done]|].
      split; [cbn; lia|]. split; [done|]. split; [done|]. by rewrite He.
Qed.


(** X6.  With the count aggregate pushed down, a row group with [r] rows left is
    emitted by exactly [ceil (r / batch_size)] calls without decoding a page:
    every call is [OK] and reports between one and [batch_size] rows, the
    reports add up to [r], the reader of the group is released by the last
    call, the queue of row groups is untouched and [*eof] is never set. *)
Theorem count_push_down_drains_row_group (env : ScanEnv R) reader s before :
  push_down_count env = true →
  (∀ rd v, get_remaining_rows (ops env) (set_remaining_rows (ops env) rd v) = v) →
  0 < _batch_size env < 2 ^ 63 →
  _current_group_reader s = Some reader → _row_group_eof s = false →
  0 < get_remaining_rows (ops env) reader < 2 ^ 63 →
  let r := get_remaining_rows (ops env) reader in
  let n := Z.to_nat ((r + _batch_size env - 1) / _batch_size env) in
  ∃ answers out s',
    get_next_blocks env n s before = Some (answers, out, s') ∧
    Forall (λ a, a.1 = Status_OK ∧ 0 < a.2 ≤ _batch_size env) answers ∧
    foldr Z.add 0 (snd <$> answers) = r ∧
    _current_group_reader s' = None ∧
    _read_row_groups s' = _read_row_groups s ∧
    eof out = eof before.
Proof.
  intros Hcount Hlaw Hb Hrd Heof Hr r n.
  apply (count_batches env (_batch_size env) Hcount Hlaw eq_refl Hb n r reader);
    [done..| |done].
  subst n. set (b := _batch_size env) in *.
  pose proof (Z.div_mod (r + b - 1) b ltac:(lia)) as Hdm.
  pose proof (Z.mod_pos_bound (r + b - 1) b ltac:(lia)) as Hm.
  assert (0 ≤ (r + b - 1) / b) by (apply Z.div_pos; lia).
  rewrite Z2Nat.id by done. nia.
Qed.


Lemma lower_bound_from_spec (v : list Z) (first : nat) (val : Z) :
  StronglySorted Z.le v → (first ≤ length v)%nat →
  (∀ k x, (k < first)%nat → v !! k = Some x → x < val) →
  let p := lower_bound_from v first (length v - first) val in
  (first ≤ p ≤ length v)%nat ∧
  ∀ k x, v !! k = Some x → ((k < p)%nat ↔ x < val).
Proof.
  intros Hs Hfirst Hlo p.
  destruct (bound_loop_spec (λ x, bool_decide (x < val)) v
              (length v - first) first (length v - first)) as (Hr & Hb & Ha);
    [lia|lia| | | |].
  - intros i j x y Hij Hx Hy. rewrite !bool_decide_eq_true.
    pose proof (StronglySorted_lookup_le _ _ _ _ _ Hs Hij Hx Hy). lia.
  - intros i x Hi Hx. apply bool_decide_eq_true. by eapply Hlo.
  - intros i x Hi Hx. apply lookup_lt_Some in Hx. lia.
  - fold (lower_bound_from v first (length v - first) val) in Hr, Hb, Ha.
    fold p in Hr, Hb, Ha. split; [lia|].
    intros k x Hx. split.
    + intros Hk. specialize (Hb k x Hk Hx). by apply bool_decide_eq_true in Hb.
    + intros Hlt. destruct (decide (k < p)%nat); [done|].
      specialize (Ha k x ltac:(lia) Hx). apply bool_decide_eq_false in Ha. lia.
Qed.

(** X7.  Position deletes follow the row groups.  The delete rows are ascending
    and the queue holds row groups in file order; if everything before
    [_delete_rows_index] lies before the row group that is opened, the
    reader of that row group is built with the window of exactly the delete
    rows inside the row group, and [_delete_rows_index] is left so that the
    same holds for whichever queued row group is opened next. *)
Theorem next_row_group_reader_position_deletes (env : ScanEnv R) s delete_rows
    row_group_index rest row_group :
  _delete_rows env = Some delete_rows →
  StronglySorted Z.le delete_rows →
  _read_row_groups s = row_group_index :: rest →
  row_groups env !! row_group_id row_group_index = Some row_group →
  ok (process_page_index env row_group_index row_group).1 = true →
  first_row row_group_index ≤ last_row row_group_index →
  Forall (λ i, last_row row_group_index ≤ first_row i) rest →
  (_delete_rows_index s ≤ length delete_rows)%nat →
  (∀ k x, (k < _delete_rows_index s)%nat → delete_rows !! k = Some x →
          x < first_row row_group_index) →
  ∃ start_index end_index,
    let built :=
      new_row_group_reader env row_group_index row_group
        (PositionDeletes delete_rows (num_rows row_group)
           (first_row row_group_index) start_index end_index)
        (process_page_index env row_group_index row_group).2 in
    _next_row_group_reader env s
      = Some (built.1, mkScanState (Some built.2) false rest end_index) ∧
    (∀ k x, delete_rows !! k = Some x →
       ((start_index ≤ k < end_index)%nat
        ↔ first_row row_group_index ≤ x < last_row row_group_index)) ∧
    (end_index ≤ length delete_rows)%nat ∧
    (∀ i, i ∈ rest → ∀ k x, (k < end_index)%nat → delete_rows !! k = Some x →
          x < first_row i).
Proof.
  intros Hdel Hs Hq Hg Hok Hrange Hrest Hidx Hbefore.
  pose proof (lower_bound_from_spec delete_rows (_delete_rows_index s)
                (first_row row_group_index) Hs Hidx Hbefore) as [Hr1 Hsp1].
  set (start_index := lower_bound_from delete_rows (_delete_rows_index s)
                        (length delete_rows - _delete_rows_index s)
                        (first_row row_group_index)) in *.
  pose proof (lower_bound_from_spec delete_rows start_index
                (last_row row_group_index) Hs ltac:(lia)) as [Hr2 Hsp2].
  { intros k x Hk Hx. apply (Hsp1 k x Hx) in Hk. lia. }
  set (end_index := lower_bound_from delete_rows start_index
                      (length delete_rows - start_index)
                      (last_row row_group_index)) in *.
  exists start_index, end_index. cbn zeta.
  split; [|split; [|split]].
  - unfold _next_row_group_reader. rewrite Hq, Hg. cbn.
    destruct (process_page_index env row_group_index row_group) as [st cands].
    cbn in Hok. rewrite Hok. cbn.
    unfold _get_position_delete_ctx. rewrite Hdel.
    rewrite decide_True by done. cbn.
    fold start_index. fold end_index.
    by destruct (new_row_group_reader _ _ _ _ _).
  - intros k x Hx. specialize (Hsp1 k x Hx). specialize (Hsp2 k x Hx). lia.
  - lia.
  - intros i Hi k x Hk Hx. rewrite Forall_forall in Hrest.
    specialize (Hrest i Hi). apply (Hsp2 k x Hx) in Hk. lia.
Qed.

End ParquetScanFacts.

Section ParquetScanSamples.
Import RowGroups ParquetScan.
Local Open Scope Z_scope.

(** A row group of 100 rows and batches of 40: three calls, 40 + 40 + 20. *)
Lemma count_push_down_sample :
  ∃ answers out s',
    get_next_blocks (sample_scan true None) 3 (mkScanState (Some 100) false [] 0)
      (mkOut 0 false [0]) = Some (answers, out, s') ∧
    Forall (λ a, a.1 = Status_OK ∧ 0 < a.2 ≤ 40) answers ∧
    foldr Z.add 0 (snd <$> answers) = 100 ∧
    _current_group_reader s' = None ∧
    _read_row_groups s' = [] ∧
    eof out = false.
Proof.
  apply (count_push_down_drains_row_group (sample_scan true None) 100
           (mkScanState (Some 100) false [] 0) (mkOut 0 false [0])).
  - reflexivity.
  - reflexivity.
  - cbn. lia.
  - reflexivity.
  - reflexivity.
  - cbn. lia.
Defined.

(** Delete rows 5, 150 and 160 and the first of two row groups of 100 rows:
    its reader gets the window of row 5 alone. *)
Lemma position_deletes_sample :
  ∃ start_index end_index,
    let built :=
      new_row_group_reader (sample_scan false (Some [5; 150; 160]))
        (mkRowGroupIndex 0 0 100) (mkRowGroup [] 100)
        (PositionDeletes [5; 150; 160] 100 0 start_index end_index) [] in
    _next_row_group_reader (sample_scan false (Some [5; 150; 160]))
      (mkScanState None false [mkRowGroupIndex 0 0 100; mkRowGroupIndex 1 100 200] 0)
      = Some (built.1, mkScanState (Some built.2) false [mkRowGroupIndex 1 100 200]
                         end_index) ∧
    (∀ k x, [5; 150; 160] !! k = Some x →
       ((start_index ≤ k < end_index)%nat ↔ 0 ≤ x < 100)) ∧
    (end_index ≤ 3)%nat ∧
    (∀ i, i ∈ [mkRowGroupIndex 1 100 200] → ∀ k x, (k < end_index)%nat →
          [5; 150; 160] !! k = Some x → x < first_row i).
Proof.
  apply (next_row_group_reader_position_deletes (sample_scan false (Some [5; 150; 160]))
           (mkScanState None false [mkRowGroupIndex 0 0 100; mkRowGroupIndex 1 100 200] 0)
           [5; 150; 160] (mkRowGroupIndex 0 0 100) [mkRowGroupIndex 1 100 200]
           (mkRowGroup [] 100)).
  - reflexivity.
  - repeat constructor; lia.
  - reflexivity.
  - reflexivity.
  - reflexivity.
  - cbn. lia.
  - repeat constructor. cbn. lia.
  - cbn. lia.
  - cbn. intros k x Hk. lia.
Defined.

End ParquetScanSamples.

(** ** Search arguments *)

Section SearchArgumentFacts.
Import SearchArgument.

(** Induction over expression trees. *)
Lemma VExpr_tree_ind (P : VExpr → Prop) :
  (∀ a o t f c cs, Forall P cs → P (mkVExpr a o t f c cs)) → ∀ e, P e.
Proof.
  intros H. fix IH 1. intros [a o t f c cs]. apply H.
  induction cs as [|c0 cs IHcs]; constructor; [apply IH|exact IHcs].
Qed.

Lemma check_slot_blind env e : state_blind (_check_slot_can_push_down env e).
Proof.
  unfold state_blind, _check_slot_can_push_down.
  destruct (head (children e)) as [child0|]; [|by exists None].
  cbn. destruct (node_class child0) as [name col| |]; [|by exists (Some false)..].
  destruct (_ || _); [by exists (Some false)|].
  destruct (_make_orc_literal env name col None) as [[[valid ?] ?]|];
    [|by exists None].
  cbn. exists (Some valid). by destruct valid.
Qed.

Lemma check_literal_blind env e i : state_blind (_check_literal_can_push_down env e i).
Proof.
  unfold state_blind, _check_literal_can_push_down.
  destruct (children e !! i) as [child|]; [|by exists None].
  cbn. destruct (node_class child) as [| is_null data |];
    [by exists (Some false)| |by exists (Some false)].
  destruct (head (children e)) as [child0|]; [|by exists None].
  cbn. destruct (node_class child0) as [name col| |]; [|by exists None..].
  destruct (_make_orc_literal env name col _) as [[[valid ?] ?]|];
    [|by exists None].
  cbn. exists (Some valid). by destruct valid.
Qed.

Lemma check_rest_loop_blind env e n : ∀ i acc,
  state_blind (check_rest_loop env e i n acc).
Proof.
  induction n as [|n IH]; intros i acc; [by exists (Some acc)|].
  destruct (check_literal_blind env e i) as [[valid|] Hlit].
  - destruct (IH (S i) (if valid then true else acc)) as [answer Hrest].
    exists answer. intros st. cbn [check_rest_loop].
    specialize (Hlit st).
    destruct (_check_literal_can_push_down env e i st) as [[v st1]|]; [|done].
    cbn in *. injection Hlit as ->. apply Hrest.
  - exists None. intros st. cbn [check_rest_loop]. specialize (Hlit st).
    by destruct (_check_literal_can_push_down env e i st).
Qed.

Lemma check_rest_blind env e : state_blind (_check_rest_children_can_push_down env e).
Proof.
  unfold _check_rest_children_can_push_down.
  destruct (decide _); [by exists (Some false)|apply check_rest_loop_blind].
Qed.

Lemma bind_blind (c1 : SargState → option (bool * SargState))
    (c2 : bool → SargState → option (bool * SargState)) :
  state_blind c1 → (∀ b, state_blind (c2 b)) →
  state_blind (λ st, c1 st ≫= λ '(b, st1), c2 b st1).
Proof.
  intros [[b|] H1] H2.
  - destruct (H2 b) as [answer Hb]. exists answer. intros st.
    specialize (H1 st). destruct (c1 st) as [[b' st1]|]; [|done].
    cbn in *. injection H1 as ->. apply Hb.
  - exists None. intros st. specialize (H1 st). by destruct (c1 st).
Qed.

Lemma check_expr_blind env e : state_blind (_check_expr_can_push_down env e).
Proof.
  induction e as [a o t f c cs IH] using VExpr_tree_ind.
  assert (state_blind ((
    fix any_of (cs : list VExpr) (st : SargState) {struct cs} :=
      match cs with
      | [] => Some (false, st)
      | child :: cs' =>
          '(r, st1) ← _check_expr_can_push_down env child st;
          if r : bool then Some (true, st1) else any_of cs' st1
      end) cs)) as Hany.
  { induction IH as [|child cs' Hchild _ IHcs]; [by exists (Some false)|].
    apply (bind_blind _ (λ r st1, if r : bool then Some (true, st1) else _ st1) Hchild).
    intros [|]; [by exists (Some true)|exact IHcs]. }
  assert (state_blind ((
    fix all_of (cs : list VExpr) (st : SargState) {struct cs} :=
      match cs with
      | [] => Some (true, st)
      | child :: cs' =>
          '(r, st1) ← _check_expr_can_push_down env child st;
          if r : bool then all_of cs' st1 else Some (false, st1)
      end) cs)) as Hall.
  { clear Hany. induction IH as [|child cs' Hchild _ IHcs]; [by exists (Some true)|].
    apply (bind_blind _ (λ r st1, if r : bool then _ st1 else Some (false, st1)) Hchild).
    intros [|]; [exact IHcs|by exists (Some false)]. }
  destruct o; cbn [_check_expr_can_push_down]; try exact Hany; try exact Hall.
  1: { destruct cs as [|child0 cs']; [by exists None|].
       by apply Forall_cons in IH as [? _]. }
  1-8: (destruct (_ && _); [|by exists (Some false)]; cbv iota;
        apply (bind_blind _ (λ ok st1, if ok : bool then _ st1 else Some (false, st1))
                 (check_slot_blind env _));
        intros [|]; [apply check_rest_blind|by exists (Some false)]).
  - destruct (_ && _); [cbv iota; apply check_slot_blind|by exists (Some false)].
  - by exists (Some false).
Qed.


(** *** What the checks leave in the state *)

Lemma make_orc_literal_slot_total env name col :
  is_Some (_make_orc_literal env name col None).
Proof.
  unfold _make_orc_literal. destruct (_type_map env !! _) as [kind|]; [|done].
  by destruct (TYPEKIND_TO_PREDICATE_TYPE kind).
Qed.

Lemma make_orc_literal_total env name col literal :
  (col < length (slots env))%nat →
  is_Some (_make_orc_literal env name col literal).
Proof.
  intros Hcol. unfold _make_orc_literal.
  destruct (_type_map env !! _) as [kind|]; [|done].
  destruct (TYPEKIND_TO_PREDICATE_TYPE kind) as [pt|] eqn:Hpt; [|done].
  destruct literal as [[is_null data]|]; [|done].
  destruct is_null; [done|].
  destruct (lookup_lt_is_Some_2 (slots env) col Hcol) as [slot ->]. cbn.
  assert (is_Some (doris_primitive_type kind)) as [src ->]
    by (destruct kind; done).
  cbn. destruct (_ && _); [done|].
  destruct (primitive_type slot); try done;
    by destruct (convert_to_orc_literal _ _ _ _ _ _).
Qed.

Lemma check_slot_spec env e st b st' :
  _check_slot_can_push_down env e st = Some (b, st') →
  builder st' = builder st ∧
  _vliteral_to_orc_literal st' = _vliteral_to_orc_literal st ∧
  (b = true → ∃ child0 rest name col,
     children e = child0 :: rest ∧ node_class child0 = IsSlotRef name col).
Proof.
  unfold _check_slot_can_push_down.
  destruct (children e) as [|child0 rest] eqn:Hcs; [done|]. cbn.
  destruct (node_class child0) as [name col| |] eqn:Hclass;
    [|by intros [= <- <-]..].
  destruct (_ || _); [by intros [= <- <-]|].
  destruct (_make_orc_literal env name col None) as [[[valid ?] ?]|]; [|done].
  cbn. destruct valid; intros [= <- <-]; [|done].
  cbn. repeat split. intros _. by exists child0, rest, name, col.
Qed.

Lemma check_slot_total env e st :
  children e ≠ [] → is_Some (_check_slot_can_push_down env e st).
Proof.
  intros Hne. unfold _check_slot_can_push_down.
  destruct (children e) as [|child0 rest]; [done|]. cbn.
  destruct (node_class child0) as [name col| |]; [|done..].
  destruct (_ || _); [done|].
  destruct (make_orc_literal_slot_total env name col) as [[[valid ?] ?] ->].
  cbn. by destruct valid.
Qed.

Lemma map_insert_new_is_Some {V : Type} k (v : V) m k' :
  is_Some (map_insert_new k v m !! k') ↔ k' = k ∨ is_Some (m !! k').
Proof.
  unfold map_insert_new. destruct (m !! k) as [v0|] eqn:Hk.
  - split; [by right|]. intros [->|?]; [by rewrite Hk|done].
  - destruct (decide (k' = k)) as [->|Hne].
    + rewrite lookup_insert_eq. split; [by left|done].
    + rewrite lookup_insert_ne by done. split; [by right|]. by intros [?|?].
Qed.

Lemma check_literal_spec env e i st b st' :
  _check_literal_can_push_down env e i st = Some (b, st') →
  builder st' = builder st ∧ literals_kept st st' ∧
  (b = true → ∃ child, children e !! i = Some child ∧
                is_Some (_vliteral_to_orc_literal st' !! addr child)).
Proof.
  unfold _check_literal_can_push_down.
  destruct (children e !! i) as [child|] eqn:Hi; [|done]. cbn.
  destruct (node_class child) as [| is_null data |];
    [intros [= <- <-]; split; [done|]; split; [by intros k|done]|
    |intros [= <- <-]; split; [done|]; split; [by intros k|done]].
  destruct (head (children e)) as [child0|]; [|done]. cbn.
  destruct (node_class child0) as [name col| |]; [|done..].
  destruct (_make_orc_literal env name col _) as [[[valid lit] ?]|]; [|done].
  cbn. destruct valid; intros [= <- <-];
    [|split; [done|]; split; [by intros k|done]].
  cbn. split; [done|]. split.
  - intros k Hk. apply map_insert_new_is_Some. by right.
  - intros _. exists child. split; [done|]. apply map_insert_new_is_Some. by left.
Qed.

Lemma check_literal_total env e i st child0 name col :
  (i < length (children e))%nat →
  head (children e) = Some child0 → node_class child0 = IsSlotRef name col →
  (col < length (slots env))%nat →
  is_Some (_check_literal_can_push_down env e i st).
Proof.
  intros Hi Hhead Hclass Hcol. unfold _check_literal_can_push_down.
  destruct (lookup_lt_is_Some_2 (children e) i Hi) as [child ->]. cbn.
  destruct (node_class child) as [| is_null data |]; [done| |done].
  rewrite Hhead. cbn. rewrite Hclass.
  destruct (make_orc_literal_total env name col (Some (is_null, data)) Hcol)
    as [[[valid ?] ?] ->].
  cbn. by destruct valid.
Qed.

Lemma check_rest_loop_spec env e n : ∀ i acc st b st',
  check_rest_loop env e i n acc st = Some (b, st') →
  builder st' = builder st ∧ literals_kept st st' ∧
  (b = true → acc = true ∨
     ∃ j child, (i ≤ j < i + n)%nat ∧ children e !! j = Some child ∧
                is_Some (_vliteral_to_orc_literal st' !! addr child)).
Proof.
  induction n as [|n IH]; intros i acc st b st'; cbn [check_rest_loop].
  - intros [= <- <-]. split; [done|]. split; [by intros k|]. by left.
  - destruct (_check_literal_can_push_down env e i st) as [[valid st1]|] eqn:Hlit;
      [|done].
    cbn. intros Hrest.
    destruct (check_literal_spec _ _ _ _ _ _ Hlit) as (Hb1 & Hk1 & Hv1).
    destruct (IH _ _ _ _ _ Hrest) as (Hb2 & Hk2 & Hv2).
    split; [congruence|]. split; [by intros k Hk; apply Hk2, Hk1|].
    intros ->. destruct (Hv2 eq_refl) as [Hacc|(j & child & Hj & Hc & Hs)].
    + destruct valid; [|by left]. right.
      destruct (Hv1 eq_refl) as (child & Hc & Hs).
      exists i, child. split; [lia|]. split; [done|]. by apply Hk2.
    + right. exists j, child. split; [lia|done].
Qed.

Lemma check_rest_loop_total env e child0 name col n : ∀ i acc st,
  (i + n ≤ length (children e))%nat →
  head (children e) = Some child0 → node_class child0 = IsSlotRef name col →
  (col < length (slots env))%nat →
  is_Some (check_rest_loop env e i n acc st).
Proof.
  induction n as [|n IH]; intros i acc st Hlen Hhead Hclass Hcol;
    cbn [check_rest_loop]; [done|].
  destruct (check_literal_total env e i st child0 name col) as [[valid st1] ->];
    [lia|done..|].
  cbn. apply IH; [lia|done..].
Qed.


Lemma check_rest_spec env e st b st' :
  _check_rest_children_can_push_down env e st = Some (b, st') →
  builder st' = builder st ∧ literals_kept st st' ∧
  (b = true → ∃ j child, (1 ≤ j)%nat ∧ children e !! j = Some child ∧
                is_Some (_vliteral_to_orc_literal st' !! addr child)).
Proof.
  unfold _check_rest_children_can_push_down. destruct (decide _).
  - intros [= <- <-]. split; [done|]. split; [by intros k|done].
  - intros Hloop.
    destruct (check_rest_loop_spec _ _ _ _ _ _ _ _ Hloop) as (Hb & Hk & Hv).
    split; [done|]. split; [done|]. intros ->.
    destruct (Hv eq_refl) as [?|(j & child & Hj & Hc & Hs)]; [done|].
    exists j, child. split; [lia|done].
Qed.

Lemma check_rest_total env e st child0 name col :
  head (children e) = Some child0 → node_class child0 = IsSlotRef name col →
  (col < length (slots env))%nat →
  is_Some (_check_rest_children_can_push_down env e st).
Proof.
  intros Hhead Hclass Hcol. unfold _check_rest_children_can_push_down.
  destruct (decide _); [done|].
  eapply check_rest_loop_total; [lia|done..].
Qed.

Lemma check_expr_eq env e st :
  _check_expr_can_push_down env e st =
  match op e with
  | COMPOUND_AND => any_of_children env (children e) st
  | COMPOUND_OR => all_of_children env (children e) st
  | COMPOUND_NOT =>
      match children e with
      | child0 :: _ => _check_expr_can_push_down env child0 st
      | [] => None
      end
  | GE | GT | LE | LT | EQ | NE | FILTER_IN | FILTER_NOT_IN =>
      if bool_decide (node_type e ≠ NULL_AWARE_BINARY_PRED)
         && bool_decide (node_type e ≠ NULL_AWARE_IN_PRED)
      then
        '(slot_ok, st1) ← _check_slot_can_push_down env e st;
        if slot_ok : bool
        then _check_rest_children_can_push_down env e st1
        else Some (false, st1)
      else Some (false, st)
  | INVALID_OPCODE =>
      if bool_decide (node_type e = FUNCTION_CALL)
         && (bool_decide (fn_name e = "is_null_pred")
             || bool_decide (fn_name e = "is_not_null_pred"))
      then _check_slot_can_push_down env e st
      else Some (false, st)
  | OTHER_OPCODE => Some (false, st)
  end.
Proof. destruct e as [a o t f c cs]. by destruct o. Qed.

Lemma check_compare_eq env e st :
  compares (op e) = true →
  _check_expr_can_push_down env e st =
  if bool_decide (node_type e ≠ NULL_AWARE_BINARY_PRED)
     && bool_decide (node_type e ≠ NULL_AWARE_IN_PRED)
  then
    '(slot_ok, st1) ← _check_slot_can_push_down env e st;
    if slot_ok : bool
    then _check_rest_children_can_push_down env e st1
    else Some (false, st1)
  else Some (false, st).
Proof. intros Hc. rewrite check_expr_eq. by destruct (op e). Qed.

(** What a comparison that can be pushed down leaves behind: a slot
    reference in first place and a later child whose literal is in the
    map. *)
Lemma check_compare_true env e st st' :
  compares (op e) = true →
  _check_expr_can_push_down env e st = Some (true, st') →
  builder st' = builder st ∧
  ∃ child0 rest name col j child,
    children e = child0 :: rest ∧ node_class child0 = IsSlotRef name col ∧
    rest !! j = Some child ∧
    is_Some (_vliteral_to_orc_literal st' !! addr child).
Proof.
  intros Hc. rewrite check_compare_eq by done.
  destruct (_ && _); [|done].
  destruct (_check_slot_can_push_down env e st) as [[slot_ok st1]|] eqn:Hslot;
    [|done].
  cbn. destruct slot_ok; [|done]. intros Hrest.
  destruct (check_slot_spec _ _ _ _ _ Hslot) as (Hb1 & _ & Hs).
  destruct (Hs eq_refl) as (child0 & rest & name & col & Hcs & Hclass).
  destruct (check_rest_spec _ _ _ _ _ Hrest) as (Hb2 & _ & Hv).
  destruct (Hv eq_refl) as (j & child & Hj & Hchild & Hsome).
  split; [congruence|]. exists child0, rest, name, col, (j - 1)%nat, child.
  split; [done|]. split; [done|]. split; [|done].
  rewrite Hcs in Hchild. destruct j as [|j]; [lia|].
  cbn in Hchild. by replace (S j - 1)%nat with j by lia.
Qed.

Lemma check_expr_keeps_builder env e : keeps_builder (_check_expr_can_push_down env e).
Proof.
  induction e as [a o t f c cs IH] using VExpr_tree_ind.
  assert (keeps_builder (any_of_children env cs)) as Hany.
  { induction IH as [|child cs' Hchild _ IHcs]; intros st b st'; cbn.
    - by intros [= _ <-].
    - destruct (_check_expr_can_push_down env child st) as [[r st1]|] eqn:Hc; [|done].
      cbn. specialize (Hchild _ _ _ Hc). destruct r.
      + by intros [= _ <-].
      + intros Hrest. specialize (IHcs _ _ _ Hrest). congruence. }
  assert (keeps_builder (all_of_children env cs)) as Hall.
  { clear Hany. induction IH as [|child cs' Hchild _ IHcs]; intros st b st'; cbn.
    - by intros [= _ <-].
    - destruct (_check_expr_can_push_down env child st) as [[r st1]|] eqn:Hc; [|done].
      cbn. specialize (Hchild _ _ _ Hc). destruct r.
      + intros Hrest. specialize (IHcs _ _ _ Hrest). congruence.
      + by intros [= _ <-]. }
  intros st b st'. rewrite check_expr_eq. cbn [op children node_type fn_name].
  assert (∀ st b st',
    (if bool_decide (t ≠ NULL_AWARE_BINARY_PRED) && bool_decide (t ≠ NULL_AWARE_IN_PRED)
     then
       '(slot_ok, st1) ← _check_slot_can_push_down env (mkVExpr a o t f c cs) st;
       if slot_ok : bool
       then _check_rest_children_can_push_down env (mkVExpr a o t f c cs) st1
       else Some (false, st1)
     else Some (false, st)) = Some (b, st') → builder st' = builder st) as Hcmp.
  { clear. intros st b st'. destruct (_ && _); [|by intros [= _ <-]].
    destruct (_check_slot_can_push_down _ _ st) as [[slot_ok st1]|] eqn:Hslot; [|done].
    cbn. destruct (check_slot_spec _ _ _ _ _ Hslot) as (Hb1 & _).
    destruct slot_ok; [|by intros [= _ <-]].
    intros Hrest. destruct (check_rest_spec _ _ _ _ _ Hrest) as (Hb2 & _). congruence. }
  destruct o; try (by apply Hany); try (by apply Hall); try (by apply Hcmp).
  - destruct cs as [|child0 cs']; [done|].
    apply Forall_cons in IH as [Hchild _]. apply Hchild.
  - destruct (bool_decide (t = FUNCTION_CALL) && _); [|by intros [= _ <-]].
    intros Hslot. by destruct (check_slot_spec _ _ _ _ _ Hslot).
  - by intros [= _ <-].
Qed.

Lemma well_shaped_children env a o t f c cs :
  well_shaped env (mkVExpr a o t f c cs) → Forall (well_shaped env) cs.
Proof.
  intros [_ Hcs]. induction cs as [|child cs IH]; [constructor|].
  destruct Hcs as [Hchild Hcs]. constructor; [done|by apply IH].
Qed.

Lemma check_expr_total env e :
  well_shaped env e → ∀ st, is_Some (_check_expr_can_push_down env e st).
Proof.
  induction e as [a o t f c cs IH] using VExpr_tree_ind. intros Hshape.
  pose proof (well_shaped_children _ _ _ _ _ _ _ Hshape) as Hcs.
  assert (Forall (λ child, ∀ st, is_Some (_check_expr_can_push_down env child st)) cs)
    as Hchildren.
  { rewrite Forall_forall in IH, Hcs. apply Forall_forall. intros child Hin.
    by apply IH, Hcs. }
  clear IH Hcs.
  assert (∀ st, is_Some (any_of_children env cs st)) as Hany.
  { clear -Hchildren.
    induction Hchildren as [|child cs' Hchild _ IHcs]; intros st; cbn; [done|].
    destruct (Hchild st) as [[r st1] ->]. cbn. destruct r; [done|apply IHcs]. }
  assert (∀ st, is_Some (all_of_children env cs st)) as Hall.
  { clear -Hchildren.
    induction Hchildren as [|child cs' Hchild _ IHcs]; intros st; cbn; [done|].
    destruct (Hchild st) as [[r st1] ->]. cbn. destruct r; [apply IHcs|done]. }
  intros st. rewrite check_expr_eq. cbn [op children node_type fn_name].
  assert (cs ≠ [] → slot_in_range env cs → ∀ st,
    is_Some
    (if bool_decide (t ≠ NULL_AWARE_BINARY_PRED) && bool_decide (t ≠ NULL_AWARE_IN_PRED)
     then
       '(slot_ok, st1) ← _check_slot_can_push_down env (mkVExpr a o t f c cs) st;
       if slot_ok : bool
       then _check_rest_children_can_push_down env (mkVExpr a o t f c cs) st1
       else Some (false, st1)
     else Some (false, st))) as Hcmp.
  { clear. intros Hne Hrange st. destruct (_ && _); [|done].
    destruct (check_slot_total env (mkVExpr a o t f c cs) st Hne)
      as [[slot_ok st1] Hslot].
    rewrite Hslot. cbn. destruct slot_ok; [|done].
    destruct (check_slot_spec _ _ _ _ _ Hslot) as (_ & _ & Hs).
    destruct (Hs eq_refl) as (child0 & rest & name & col & Hcs & Hclass).
    cbn in Hcs. eapply check_rest_total; [by cbn; rewrite Hcs|done|].
    eapply Hrange; [by rewrite Hcs|done]. }
  destruct Hshape as [Hop _].
  destruct o; try apply Hany; try apply Hall;
    try (by apply Hcmp; tauto).
  - destruct cs as [|child0 cs']; [done|].
    apply Forall_cons in Hchildren as [Hchild _]. apply Hchild.
  - destruct (bool_decide (t = FUNCTION_CALL) && _) eqn:Hfn; [|done].
    apply check_slot_total. cbn. apply Hop.
    + apply andb_true_iff in Hfn as [Ht _]. by apply bool_decide_eq_true in Ht.
    + apply andb_true_iff in Hfn as [_ Hf]. apply orb_true_iff in Hf.
      destruct Hf as [Hf|Hf]; apply bool_decide_eq_true in Hf; tauto.
  - done.
Qed.


(** *** What the builder emits *)

Lemma build_eq env e st :
  _build_search_argument env e st =
  '(can_push_down, st0) ← _check_expr_can_push_down env e st;
  if negb can_push_down then Some (false, st0)
  else
    (λ st', (true, st')) <$>
    match op e with
    | COMPOUND_AND =>
        st1 ← build_children env (children e) (call startAnd st0);
        Some (call end_ st1)
    | COMPOUND_OR =>
        st1 ← build_children env (children e) (call startOr st0);
        Some (call end_ st1)
    | COMPOUND_NOT =>
        match children e with
        | child0 :: _ =>
            '(_, st1) ← _build_search_argument env child0 (call startNot st0);
            Some (call end_ st1)
        | [] => None
        end
    | GE => negated (_build_less_than env e) st0
    | GT => negated (_build_less_than_equals env e) st0
    | LE => _build_less_than_equals env e st0
    | LT => _build_less_than env e st0
    | EQ => _build_equals env e st0
    | NE => negated (_build_equals env e) st0
    | FILTER_IN => _build_filter_in env e st0
    | FILTER_NOT_IN => negated (_build_filter_in env e) st0
    | INVALID_OPCODE =>
        if bool_decide (fn_name e = "is_null_pred")
        then _build_is_null env e st0
        else if bool_decide (fn_name e = "is_not_null_pred")
        then negated (_build_is_null env e) st0
        else None
    | OTHER_OPCODE => None
    end.
Proof. by destruct e as [a o t f c cs]. Qed.

Lemma binary_operands_ok env e st child0 child1 name col :
  children e = [child0; child1] → node_class child0 = IsSlotRef name col →
  is_Some (_vliteral_to_orc_literal st !! addr child1) →
  ∃ column predicate_type orc_literal st1,
    binary_operands env e st = Some (column, predicate_type, orc_literal, st1) ∧
    builder st1 = builder st.
Proof.
  intros Hcs Hclass [lit Hlit]. unfold binary_operands.
  rewrite Hcs, Hclass, Hlit. cbn. by eexists _, _, _, _.
Qed.

Lemma build_binary_adds_leaf env e st child0 child1 name col :
  children e = [child0; child1] → node_class child0 = IsSlotRef name col →
  is_Some (_vliteral_to_orc_literal st !! addr child1) →
  adds_leaf (_build_less_than env e) st ∧
  adds_leaf (_build_less_than_equals env e) st ∧
  adds_leaf (_build_equals env e) st.
Proof.
  intros Hcs Hclass Hlit.
  destruct (binary_operands_ok env e st _ _ _ _ Hcs Hclass Hlit)
    as (column & pt & lit & st1 & Hops & Hb).
  unfold adds_leaf, _build_less_than, _build_less_than_equals, _build_equals.
  rewrite Hops. cbn [mbind option_bind].
  repeat split;
    (eexists _, _; split; [reflexivity|];
     split; [unfold call; cbn; rewrite Hb; reflexivity|done]).
Qed.

Lemma build_filter_in_adds_leaf env e st child0 rest name col j child :
  children e = child0 :: rest → node_class child0 = IsSlotRef name col →
  rest !! j = Some child →
  is_Some (_vliteral_to_orc_literal st !! addr child) →
  adds_leaf (_build_filter_in env e) st.
Proof.
  intros Hcs Hclass Hj [lit Hlit]. unfold adds_leaf, _build_filter_in.
  rewrite Hcs, Hclass.
  set (literals := omap _ rest).
  assert (literals ≠ []) as Hne.
  { intros Hnil.
    assert (lit ∈ literals) as Hin; [|by rewrite Hnil in Hin; apply elem_of_nil in Hin].
    apply list_elem_of_omap. exists child. split; [|done].
    by eapply list_elem_of_lookup_2. }
  destruct literals as [|l1 [|l2 ls]]; [done| |];
    (eexists _, _; split; [reflexivity|]; split; [reflexivity|cbn; try done; lia]).
Qed.

Lemma build_is_null_adds_leaf env e st child0 rest name col :
  children e = child0 :: rest → node_class child0 = IsSlotRef name col →
  adds_leaf (_build_is_null env e) st.
Proof.
  intros Hcs Hclass. unfold adds_leaf, _build_is_null. rewrite Hcs, Hclass.
  eexists _, _. split; [reflexivity|]. split; [reflexivity|done].
Qed.

Lemma emits_leaf build st0 st :
  builder st0 = builder st → adds_leaf build st0 →
  ∃ st', build st0 = Some st' ∧ emits st st' true.
Proof.
  intros Hb (st' & c & Hrun & Hcalls & Hleaf). exists st'. split; [done|].
  exists (SLeaf c). by rewrite Hcalls, Hb.
Qed.

Lemma emits_negated build st0 st :
  builder st0 = builder st → adds_leaf build (call startNot st0) →
  ∃ st', negated build st0 = Some st' ∧ emits st st' true.
Proof.
  intros Hb (st1 & c & Hrun & Hcalls & Hleaf). unfold negated. rewrite Hrun. cbn.
  eexists. split; [reflexivity|]. exists (SNot (SLeaf c)). split; [|done].
  cbn. rewrite Hcalls. cbn. rewrite Hb, <- !app_assoc. done.
Qed.

Lemma accepted_operands operands :
  Forall accepted operands ↔ foldr (λ o P, accepted o ∧ P) True operands.
Proof.
  induction operands as [|o os IH]; cbn; [by split; [|constructor]|].
  rewrite Forall_cons, IH. done.
Qed.


Lemma check_answer_unique env e st1 st2 b1 b2 :
  fst <$> _check_expr_can_push_down env e st1 = Some b1 →
  fst <$> _check_expr_can_push_down env e st2 = Some b2 → b1 = b2.
Proof.
  destruct (check_expr_blind env e) as [answer Ha].
  rewrite (Ha st1), (Ha st2). congruence.
Qed.

Lemma any_of_true env cs : ∀ st st',
  any_of_children env cs st = Some (true, st') →
  ∃ c stc, c ∈ cs ∧ fst <$> _check_expr_can_push_down env c stc = Some true.
Proof.
  induction cs as [|child cs IH]; intros st st'; cbn; [done|].
  destruct (_check_expr_can_push_down env child st) as [[r st1]|] eqn:Hc; [|done].
  cbn. destruct r.
  - intros _. exists child, st. split; [apply elem_of_cons; by left|by rewrite Hc].
  - intros Hrest. destruct (IH _ _ Hrest) as (c & stc & Hin & Hans).
    exists c, stc. split; [apply elem_of_cons; by right|done].
Qed.

Lemma all_of_true env cs st st' :
  cs ≠ [] → all_of_children env cs st = Some (true, st') →
  ∃ c stc, c ∈ cs ∧ fst <$> _check_expr_can_push_down env c stc = Some true.
Proof.
  destruct cs as [|child cs]; [done|]. intros _. cbn.
  destruct (_check_expr_can_push_down env child st) as [[r st1]|] eqn:Hc; [|done].
  cbn. destruct r; [|done]. intros _.
  exists child, st. split; [apply elem_of_cons; by left|by rewrite Hc].
Qed.

Lemma build_children_spec env cs :
  Forall (builds env) cs →
  ∀ st, ∃ st' sargs,
    build_children env cs st = Some st' ∧
    builder st' = builder st ++ mjoin (calls_of <$> sargs) ∧
    Forall accepted sargs ∧
    ((∃ c stc, c ∈ cs ∧ fst <$> _check_expr_can_push_down env c stc = Some true) →
     sargs ≠ []).
Proof.
  induction 1 as [|child cs Hchild _ IH]; intros st.
  - exists st, []. cbn. rewrite app_nil_r. split; [done|]. split; [done|].
    split; [constructor|]. by intros (? & ? & ?%elem_of_nil & _).
  - destruct (Hchild st) as (pushed & st1 & Hrun & Hemit & Hans).
    destruct (IH st1) as (st' & sargs & Hrest & Hcalls & Hacc & Hne).
    cbn. rewrite Hrun. cbn. rewrite Hrest. destruct pushed.
    + destruct Hemit as (sarg & Hb & Hok).
      exists st', (sarg :: sargs). split; [done|].
      split; [cbn; by rewrite Hcalls, Hb, <- app_assoc|].
      split; [by constructor|done].
    + cbn in Hemit. exists st', sargs. split; [done|].
      split; [by rewrite Hcalls, Hemit|]. split; [done|].
      intros (c & stc & Hin & Hc). apply Hne.
      apply elem_of_cons in Hin as [->|Hin]; [|by exists c, stc].
      by pose proof (check_answer_unique _ _ _ _ _ _ Hans Hc).
Qed.

Lemma build_search_argument_builds env e : well_shaped env e → builds env e.
Proof.
  induction e as [a o t f c cs IH] using VExpr_tree_ind. intros Hshape st.
  pose proof (well_shaped_children _ _ _ _ _ _ _ Hshape) as Hcs.
  assert (Forall (builds env) cs) as Hchildren.
  { rewrite Forall_forall in IH, Hcs. apply Forall_forall. intros child Hin.
    by apply IH, Hcs. }
  clear IH Hcs. set (e := mkVExpr a o t f c cs) in *.
  destruct (check_expr_total env e Hshape st) as [[can st0] Hcheck].
  pose proof (check_expr_keeps_builder env e _ _ _ Hcheck) as Hb0.
  rewrite build_eq, Hcheck. cbn [mbind option_bind].
  destruct can; cbn [negb]; [|by exists false, st0].
  assert (∀ r : option SargState,
            (∃ st', r = Some st' ∧ emits st st' true) →
            ∃ pushed st',
              (λ st', (true, st')) <$> r = Some (pushed, st') ∧
              emits st st' pushed ∧
              fst <$> Some (true, st0) = Some pushed) as Hdone.
  { intros r (st' & -> & Hemit). by exists true, st'. }
  apply Hdone. clear Hdone.
  destruct Hshape as [Hop _].
  assert (∀ kind operands sargs st1,
    builder st1 = (builder st0 ++ [kind]) ++ mjoin (calls_of <$> sargs) →
    Forall accepted sargs → sargs ≠ [] →
    (kind = startAnd ∧ operands = SAnd sargs) ∨ (kind = startOr ∧ operands = SOr sargs) →
    emits st (call end_ st1) true) as Hgroup.
  { intros kind operands sargs st1 Hcalls Hacc Hne Hkind. exists operands.
    cbn [call builder]. rewrite Hcalls, Hb0, <- !app_assoc.
    destruct Hkind as [[-> ->]|[-> ->]]; cbn;
      (split; [done|]; split; [done|by apply accepted_operands]). }
  assert (compares o = true →
    ∃ child0 rest name col j child,
      cs = child0 :: rest ∧ node_class child0 = IsSlotRef name col ∧
      rest !! j = Some child ∧
      is_Some (_vliteral_to_orc_literal st0 !! addr child)) as Hcmp.
  { intros Ho. by destruct (check_compare_true env e st st0 Ho Hcheck) as [_ ?]. }
  assert (compares o = true → (length cs ≤ 2)%nat →
    ∃ child0 child1 name col,
      cs = [child0; child1] ∧ node_class child0 = IsSlotRef name col ∧
      is_Some (_vliteral_to_orc_literal st0 !! addr child1)) as Hbin.
  { intros Ho Hlen. destruct (Hcmp Ho) as (child0 & rest & name & col & j & child
      & -> & Hclass & Hj & Hlit).
    destruct rest as [|child1 [|? ?]]; [done| |cbn in Hlen; lia].
    destruct j; [|done]. injection Hj as ->. by exists child0, child, name, col. }
  rewrite check_expr_eq in Hcheck. subst e. cbn [op children fn_name node_type] in *.
  destruct o.
  - (* AND *)
    pose proof (any_of_true _ _ _ _ Hcheck) as Hsome.
    destruct (build_children_spec env cs Hchildren (call startAnd st0))
      as (st1 & sargs & -> & Hcalls & Hacc & Hne).
    eexists. split; [reflexivity|].
    eapply Hgroup; [exact Hcalls|done|by apply Hne|by left].
  - (* OR *)
    pose proof (all_of_true _ _ _ _ Hop Hcheck) as Hsome.
    destruct (build_children_spec env cs Hchildren (call startOr st0))
      as (st1 & sargs & -> & Hcalls & Hacc & Hne).
    eexists. split; [reflexivity|].
    eapply Hgroup; [exact Hcalls|done|by apply Hne|by right].
  - (* NOT *)
    destruct cs as [|child0 cs']; [done|].
    apply Forall_cons in Hchildren as [Hchild _].
    destruct (Hchild (call startNot st0)) as (pushed & st1 & -> & Hemit & Hans).
    assert (pushed = true) as ->.
    { eapply check_answer_unique; [exact Hans|by rewrite Hcheck]. }
    destruct Hemit as (sarg & Hcalls & Hacc).
    eexists. split; [reflexivity|]. exists (SNot sarg). split; [|done].
    cbn. rewrite Hcalls. cbn. by rewrite Hb0, <- !app_assoc.
  - (* GE *)
    destruct Hop as (_ & Hlen & _).
    destruct (Hbin eq_refl Hlen) as (child0 & child1 & name & col & -> & Hclass & Hlit).
    apply emits_negated; [done|].
    by eapply (build_binary_adds_leaf env _ (call startNot st0)).
  - (* GT *)
    destruct Hop as (_ & Hlen & _).
    destruct (Hbin eq_refl Hlen) as (child0 & child1 & name & col & -> & Hclass & Hlit).
    apply emits_negated; [done|].
    by eapply (build_binary_adds_leaf env _ (call startNot st0)).
  - (* LE *)
    destruct Hop as (_ & Hlen & _).
    destruct (Hbin eq_refl Hlen) as (child0 & child1 & name & col & -> & Hclass & Hlit).
    apply emits_leaf; [done|].
    by eapply (build_binary_adds_leaf env _ st0).
  - (* LT *)
    destruct Hop as (_ & Hlen & _).
    destruct (Hbin eq_refl Hlen) as (child0 & child1 & name & col & -> & Hclass & Hlit).
    apply emits_leaf; [done|].
    by eapply (build_binary_adds_leaf env _ st0).
  - (* EQ *)
    destruct Hop as (_ & Hlen & _).
    destruct (Hbin eq_refl Hlen) as (child0 & child1 & name & col & -> & Hclass & Hlit).
    apply emits_leaf; [done|].
    by eapply (build_binary_adds_leaf env _ st0).
  - (* NE *)
    destruct Hop as (_ & Hlen & _).
    destruct (Hbin eq_refl Hlen) as (child0 & child1 & name & col & -> & Hclass & Hlit).
    apply emits_negated; [done|].
    by eapply (build_binary_adds_leaf env _ (call startNot st0)).
  - (* FILTER_IN *)
    destruct (Hcmp eq_refl) as (child0 & rest & name & col & j & child
      & -> & Hclass & Hj & Hlit).
    apply emits_leaf; [done|]. by eapply build_filter_in_adds_leaf.
  - (* FILTER_NOT_IN *)
    destruct (Hcmp eq_refl) as (child0 & rest & name & col & j & child
      & -> & Hclass & Hj & Hlit).
    apply emits_negated; [done|].
    by eapply (build_filter_in_adds_leaf env _ (call startNot st0)).
  - (* INVALID_OPCODE *)
    destruct (bool_decide (t = FUNCTION_CALL) && _) eqn:Hfn; [|done].
    destruct (check_slot_spec _ _ _ _ _ Hcheck) as (_ & _ & Hs).
    destruct (Hs eq_refl) as (child0 & rest & name & col & Hcs & Hclass).
    apply andb_true_iff in Hfn as [_ Hf]. apply orb_true_iff in Hf.
    destruct (bool_decide (f = "is_null_pred")) eqn:Hnull.
    + apply emits_leaf; [done|]. by eapply build_is_null_adds_leaf.
    + destruct Hf as [Hf|Hf]; [done|]. rewrite Hf.
      apply emits_negated; [done|]. by eapply build_is_null_adds_leaf.
  - (* other opcodes *)
    done.
Qed.


(** X8.  Whatever well-shaped predicate it is given and whatever the maps and the
    builder hold, [_build_search_argument] returns without running into
    undefined behaviour, and it leaves the builder balanced: if it answers
    [false] it has made no call at all, and if it answers [true] it has added
    the calls of exactly one search argument in which every [startAnd],
    [startOr] and [startNot] is closed by its [end] and no [AND] or [OR] is
    empty. *)
Theorem build_search_argument_is_balanced env e st :
  well_shaped env e →
  ∃ pushed st',
    _build_search_argument env e st = Some (pushed, st') ∧
    if pushed
    then ∃ sarg, builder st' = builder st ++ calls_of sarg ∧ accepted sarg
    else builder st' = builder st.
Proof.
  intros Hshape.
  destruct (build_search_argument_builds env e Hshape st)
    as (pushed & st' & Hrun & Hemit & _).
  by exists pushed, st'.
Qed.

Lemma pushable_answer env e st b :
  fst <$> _check_expr_can_push_down env e st = Some b → (b = true ↔ pushable env e).
Proof.
  intros Hans. unfold pushable. destruct (check_expr_blind env e) as [answer Ha].
  rewrite Ha in Hans. rewrite Ha, Hans. split; [by intros ->|by intros [= ->]].
Qed.

Lemma conjuncts_loop_spec env conjuncts :
  Forall (builds env) conjuncts →
  ∀ acc st, ∃ st' sargs,
    conjuncts_loop env conjuncts acc st
      = Some (acc || bool_decide (sargs ≠ []), st') ∧
    builder st' = builder st ++ mjoin (calls_of <$> sargs) ∧
    Forall accepted sargs ∧
    (sargs ≠ [] ↔ Exists (pushable env) conjuncts).
Proof.
  induction 1 as [|root rest Hroot _ IH]; intros acc st.
  - exists st, []. cbn. rewrite app_nil_r, orb_false_r.
    split; [done|]. split; [done|]. split; [constructor|].
    split; [done|]. by intros ?%Exists_nil.
  - cbn [conjuncts_loop].
    destruct (Hroot (mkSargState ∅ ∅ (builder st)))
      as (pushed & st1 & -> & Hemit & Hans).
    cbn [mbind option_bind].
    destruct (IH (if pushed then true else acc) st1)
      as (st' & sargs & -> & Hcalls & Hacc & Hiff).
    apply pushable_answer in Hans. destruct pushed.
    + destruct Hemit as (sarg & Hb & Hok). cbn in Hb.
      exists st', (sarg :: sargs).
      rewrite (bool_decide_eq_true_2 (sarg :: sargs ≠ [])) by done.
      rewrite orb_true_r. split; [done|].
      split; [cbn; by rewrite Hcalls, Hb, <- app_assoc|].
      split; [by constructor|]. split; [|done].
      intros _. apply Exists_cons. left. by apply Hans.
    + cbn in Hemit. exists st', sargs. split; [done|].
      split; [by rewrite Hcalls, Hemit|]. split; [done|].
      rewrite Hiff, Exists_cons. split; [by right|].
      intros [Hp|?]; [|done]. by apply Hans in Hp.
Qed.

(** X9.  [_init_search_argument] answers [true] exactly when one of the conjuncts
    can be pushed down.  It then hands the row reader one [AND] over the
    search arguments of the conjuncts that can, none of them malformed; when
    no conjunct can be pushed down it never calls [end] on the empty [AND]
    and sets no search argument. *)
Theorem init_search_argument_pushes_some env conjuncts st :
  Forall (well_shaped env) conjuncts →
  ∃ result search_argument st',
    _init_search_argument env conjuncts st = Some (result, search_argument, st') ∧
    (result = true ↔ Exists (pushable env) conjuncts) ∧
    if result
    then ∃ sargs, sargs ≠ [] ∧ Forall accepted sargs ∧
                  search_argument = Some (calls_of (SAnd sargs))
    else search_argument = None.
Proof.
  intros Hshape. unfold _init_search_argument.
  edestruct (conjuncts_loop_spec env conjuncts) as
    (st1 & sargs & -> & Hcalls & Hacc & Hiff).
  { eapply Forall_impl; [exact Hshape|]. apply build_search_argument_builds. }
  cbn [mbind option_bind orb]. cbn [builder] in Hcalls.
  case_bool_decide as Hne; cbn [negb].
  - eexists true, _, _. split; [reflexivity|]. split; [by rewrite <- Hiff|].
    exists sargs. split; [done|]. split; [done|]. by rewrite Hcalls.
  - eexists false, _, _. split; [reflexivity|]. split; [|done].
    rewrite <- Hiff. split; [done|]. intros H. exfalso. tauto.
Qed.


Lemma build_not_pushed env e st :
  _check_expr_can_push_down env e st = Some (false, st) →
  _build_search_argument env e st = Some (false, st).
Proof. intros Hc. by rewrite build_eq, Hc. Qed.

(** X10.  Predicates that are never pushed down.  A comparison, an [IN] or a null
    test is not pushed down, and leaves the maps and the builder untouched,
    when it is null-aware, or when the column of its slot is a partition
    column, is missing from the file, has no type in [_type_map], or has a
    kind without predicate type: [CHAR] (whose values are padded), the
    complex kinds and [TIMESTAMP_INSTANT]. *)
Theorem unsupported_columns_are_not_pushed_down env e st child0 name col :
  compares (op e) = true ∨ op e = INVALID_OPCODE →
  head (children e) = Some child0 → node_class child0 = IsSlotRef name col →
  (compares (op e) = true ∧
   (node_type e = NULL_AWARE_BINARY_PRED ∨ node_type e = NULL_AWARE_IN_PRED)) ∨
  name ∈ predicate_partition_columns env ∨
  children_column_exists env name = false ∨
  _type_map env !! children_file_column_name env name = None ∨
  (∃ kind, _type_map env !! children_file_column_name env name = Some kind ∧
           kind ∈ [CHAR; LIST; MAP; STRUCT; UNION; TIMESTAMP_INSTANT]) →
  _build_search_argument env e st = Some (false, st).
Proof.
  intros Hop Hhead Hclass Hwhy. apply build_not_pushed.
  assert (compares (op e) = true →
          (node_type e = NULL_AWARE_BINARY_PRED ∨ node_type e = NULL_AWARE_IN_PRED) →
          _check_expr_can_push_down env e st = Some (false, st)) as Hna.
  { intros Hc Hn. rewrite check_compare_eq by done.
    destruct Hn as [-> | ->]; by rewrite ?andb_false_r. }
  destruct Hwhy as [[Hc Hn]|Hcol]; [by apply Hna|].
  assert (_check_slot_can_push_down env e st = Some (false, st)) as Hslot.
  { unfold _check_slot_can_push_down. rewrite Hhead. cbn. rewrite Hclass.
    destruct Hcol as [Hp|[Hm|Hty]].
    - by rewrite bool_decide_eq_true_2.
    - rewrite Hm. by rewrite orb_true_r.
    - destruct (_ || _); [done|]. unfold _make_orc_literal.
      destruct Hty as [-> |(kind & -> & Hk)]; [done|].
      assert (TYPEKIND_TO_PREDICATE_TYPE kind = None) as ->; [|done].
      repeat (apply elem_of_cons in Hk as [->|Hk]; [done|]).
      by apply elem_of_nil in Hk. }
  destruct Hop as [Hc|Hinv].
  - rewrite check_compare_eq by done. rewrite Hslot. cbn. by destruct (_ && _).
  - rewrite check_expr_eq, Hinv, Hslot. by destruct (_ && _).
Qed.

Lemma make_orc_literal_unsupported env name col literal slot r :
  slots env !! col = Some slot →
  primitive_type slot ∈ [TYPE_FLOAT; TYPE_DOUBLE; TYPE_CHAR] →
  _make_orc_literal env name col (Some literal) = Some r → r.1.1 = false.
Proof.
  intros Hslot Hty. unfold _make_orc_literal.
  destruct (_type_map env !! _) as [kind|]; [|by intros [= <-]].
  destruct (TYPEKIND_TO_PREDICATE_TYPE kind) as [pt|]; [|by intros [= <-]].
  destruct literal as [is_null data]. destruct is_null; [by intros [= <-]|].
  rewrite Hslot. cbn. destruct (doris_primitive_type kind) as [src|]; [|done].
  cbn. destruct (_ && _); [by intros [= <-]|].
  repeat (apply elem_of_cons in Hty as [->|Hty]; [by intros [= <-]|]).
  by apply elem_of_nil in Hty.
Qed.

Lemma check_literal_unsupported env e i st child0 name col slot b st' :
  head (children e) = Some child0 → node_class child0 = IsSlotRef name col →
  slots env !! col = Some slot →
  primitive_type slot ∈ [TYPE_FLOAT; TYPE_DOUBLE; TYPE_CHAR] →
  _check_literal_can_push_down env e i st = Some (b, st') → b = false.
Proof.
  intros Hhead Hclass Hslot Hty. unfold _check_literal_can_push_down.
  destruct (children e !! i) as [child|]; [|done]. cbn.
  destruct (node_class child) as [| is_null data |];
    [by intros [= <-]| |by intros [= <-]].
  rewrite Hhead. cbn. rewrite Hclass.
  destruct (_make_orc_literal env name col _) as [[[valid lit] pt]|] eqn:Hlit;
    [|done].
  apply (make_orc_literal_unsupported _ _ _ _ _ _ Hslot Hty) in Hlit.
  cbn in Hlit. subst valid. cbn. by intros [= <-].
Qed.

Lemma check_rest_loop_unsupported env e child0 name col slot n : ∀ i st b st',
  head (children e) = Some child0 → node_class child0 = IsSlotRef name col →
  slots env !! col = Some slot →
  primitive_type slot ∈ [TYPE_FLOAT; TYPE_DOUBLE; TYPE_CHAR] →
  check_rest_loop env e i n false st = Some (b, st') → b = false.
Proof.
  induction n as [|n IH]; intros i st b st' Hhead Hclass Hslot Hty;
    cbn [check_rest_loop]; [by intros [= <-]|].
  destruct (_check_literal_can_push_down env e i st) as [[valid st1]|] eqn:Hlit;
    [|done].
  apply (check_literal_unsupported _ _ _ _ _ _ _ _ _ _ Hhead Hclass Hslot Hty) in Hlit.
  subst valid. cbn. by apply IH.
Qed.

(** X11.  A comparison or an [IN] on a slot of type [FLOAT], [DOUBLE] or [CHAR]
    is never pushed down, whatever the kind of the column and the literals
    are: [_make_orc_literal] has no case for these types, so no literal of
    the predicate is valid.  The builder stays as it was. *)
Theorem float_comparisons_are_not_pushed_down env e st child0 name col slot :
  well_shaped env e → compares (op e) = true →
  head (children e) = Some child0 → node_class child0 = IsSlotRef name col →
  slots env !! col = Some slot →
  primitive_type slot ∈ [TYPE_FLOAT; TYPE_DOUBLE; TYPE_CHAR] →
  ∃ st', _build_search_argument env e st = Some (false, st') ∧
         builder st' = builder st.
Proof.
  intros Hshape Hc Hhead Hclass Hslot Hty.
  destruct (build_search_argument_builds env e Hshape st)
    as (pushed & st' & Hrun & Hemit & Hans).
  assert (pushed = false) as ->; [|by exists st'].
  rewrite check_compare_eq in Hans by done.
  destruct (_ && _); [|by injection Hans as <-].
  destruct (_check_slot_can_push_down env e st) as [[slot_ok st1]|]; [|done].
  cbn in Hans. destruct slot_ok; [|by injection Hans as <-].
  unfold _check_rest_children_can_push_down in Hans.
  destruct (decide _); [by injection Hans as <-|].
  destruct (check_rest_loop _ _ _ _ _ _) as [[b st2]|] eqn:Hloop; [|done].
  injection Hans as <-.
  by eapply check_rest_loop_unsupported.
Qed.

Lemma slot_lt_5_well_shaped name column_id :
  (column_id < 3)%nat → well_shaped sample_env (slot_lt_5 name column_id).
Proof.
  intros Hcol. cbn. repeat split; try done; try lia.
  intros child0 expr_name col [= <-] [= _ <-]. cbn. lia.
Qed.

(** [x < 5] on the [INT] column [x]. *)
Lemma build_search_argument_sample :
  ∃ pushed st',
    _build_search_argument sample_env (slot_lt_5 "x" 0) (mkSargState ∅ ∅ [])
      = Some (pushed, st') ∧
    if pushed
    then ∃ sarg, builder st' = builder (mkSargState ∅ ∅ []) ++ calls_of sarg ∧
                 accepted sarg
    else builder st' = builder (mkSargState ∅ ∅ []).
Proof.
  apply (build_search_argument_is_balanced sample_env (slot_lt_5 "x" 0)
           (mkSargState ∅ ∅ [])).
  apply slot_lt_5_well_shaped. lia.
Defined.

(** The conjuncts [x < 5] and [d < 5]. *)
Lemma init_search_argument_sample :
  ∃ result search_argument st',
    _init_search_argument sample_env [slot_lt_5 "x" 0; slot_lt_5 "d" 1]
      (mkSargState ∅ ∅ []) = Some (result, search_argument, st') ∧
    (result = true
     ↔ Exists (pushable sample_env) [slot_lt_5 "x" 0; slot_lt_5 "d" 1]) ∧
    if result
    then ∃ sargs, sargs ≠ [] ∧ Forall accepted sargs ∧
                  search_argument = Some (calls_of (SAnd sargs))
    else search_argument = None.
Proof.
  apply (init_search_argument_pushes_some sample_env
           [slot_lt_5 "x" 0; slot_lt_5 "d" 1] (mkSargState ∅ ∅ [])).
  constructor; [|constructor; [|constructor]]; apply slot_lt_5_well_shaped; lia.
Defined.

(** [gone < 5] on a column that the file lacks. *)
Lemma unsupported_columns_sample :
  _build_search_argument sample_env (slot_lt_5 "gone" 2) (mkSargState ∅ ∅ [])
  = Some (false, mkSargState ∅ ∅ []).
Proof.
  apply (unsupported_columns_are_not_pushed_down sample_env (slot_lt_5 "gone" 2)
           (mkSargState ∅ ∅ [])
           (mkVExpr 2 INVALID_OPCODE SLOT_REF "gone" (IsSlotRef "gone" 2) [])
           "gone" 2).
  - left. reflexivity.
  - reflexivity.
  - reflexivity.
  - right. right. left. reflexivity.
Defined.

(** [d < 5] on the [DOUBLE] column [d]. *)
Lemma float_comparisons_sample :
  ∃ st', _build_search_argument sample_env (slot_lt_5 "d" 1) (mkSargState ∅ ∅ [])
         = Some (false, st') ∧
         builder st' = builder (mkSargState ∅ ∅ []).
Proof.
  apply (float_comparisons_are_not_pushed_down sample_env (slot_lt_5 "d" 1)
           (mkSargState ∅ ∅ [])
           (mkVExpr 2 INVALID_OPCODE SLOT_REF "d" (IsSlotRef "d" 1) [])
           "d" 1 (mkSlotType TYPE_DOUBLE 0 0)).
  - apply slot_lt_5_well_shaped. lia.
  - reflexivity.
  - reflexivity.
  - reflexivity.
  - reflexivity.
  - apply elem_of_cons. right. apply elem_of_cons. by left.
Defined.

End SearchArgumentFacts.

(** ** Decoding strings, dictionaries, array offsets and the selection vector *)

Section OrcDecodeFacts.
Import OrcDecode.

Lemma trim_right_spec (s : list Ascii.ascii) : ∀ size,
  (size ≤ length s)%nat →
  ∃ n, trim_right s size = Some n ∧ (n ≤ size)%nat ∧
       take size s = take n s ++ replicate (size - n) Ascii.Space ∧
       last (take n s) ≠ Some Ascii.Space.
Proof.
  induction size as [|size IH]; intros Hlen.
  - exists 0%nat. rewrite take_0. cbn. split; [done|]. split; [lia|]. split; [done|].
    by intros [=].
  - cbn [trim_right].
    destruct (lookup_lt_is_Some_2 s size ltac:(lia)) as [c Hc]. rewrite Hc. cbn.
    rewrite (take_S_r _ _ _ Hc).
    destruct (decide (c = Ascii.Space)) as [->|Hne].
    + destruct (IH ltac:(lia)) as (n & -> & Hn & Htake & Hlast).
      exists n. split; [done|]. split; [lia|]. split; [|done].
      rewrite Htake, <- app_assoc. f_equal.
      replace (S size - n)%nat with (size - n + 1)%nat by lia.
      by rewrite replicate_add.
    + exists (S size). split; [done|]. split; [lia|].
      rewrite Nat.sub_diag, (take_S_r _ _ _ Hc). cbn [replicate].
      rewrite app_nil_r. split; [done|].
      rewrite last_snoc. congruence.
Qed.

Lemma trim_right_app (s t : list Ascii.ascii) n :
  (n ≤ length s)%nat → trim_right (s ++ t) n = trim_right s n.
Proof.
  induction n as [|n IHn]; intros Hn; [done|].
  cbn [trim_right]. rewrite lookup_app_l by lia.
  destruct (s !! n); [|done]. cbn. destruct (decide _); [|done]. apply IHn. lia.
Qed.

Lemma trim_right_padded (v : list Ascii.ascii) (k : nat) :
  last v ≠ Some Ascii.Space →
  trim_right (v ++ replicate k Ascii.Space) (length v + k) = Some (length v).
Proof.
  intros Hlast. induction k as [|k IH].
  - rewrite Nat.add_0_r, app_nil_r.
    destruct v as [|c v _] using rev_ind; [done|].
    rewrite length_app. cbn [length]. rewrite Nat.add_1_r. cbn [trim_right].
    rewrite lookup_app_r by lia. rewrite Nat.sub_diag. cbn.
    rewrite last_snoc in Hlast. rewrite decide_False by congruence. done.
  - replace (S k) with (k + 1)%nat by lia.
    rewrite replicate_add, app_assoc, Nat.add_assoc, Nat.add_1_r.
    cbn [trim_right replicate].
    rewrite lookup_app_r by (rewrite length_app, length_replicate; lia).
    rewrite length_app, length_replicate, Nat.sub_diag. cbn.
    rewrite decide_True by done.
    rewrite trim_right_app by (rewrite length_app, length_replicate; lia).
    exact IH.
Qed.

Lemma string_values_length kind cvb n : ∀ i vs,
  string_values kind cvb i n = Some vs → length vs = n.
Proof.
  induction n as [|n IH]; intros i vs; cbn [string_values]; [by intros [= <-]|].
  destruct (string_value kind cvb i); [|done]. cbn.
  destruct (string_values kind cvb (S i) n) eqn:Hrest; [|done]. cbn.
  intros [= <-]. cbn. f_equal. by eapply IH.
Qed.

Lemma string_values_lookup kind cvb n : ∀ i vs k,
  string_values kind cvb i n = Some vs → (k < n)%nat →
  ∃ v, vs !! k = Some v ∧ string_value kind cvb (i + k) = Some v.
Proof.
  induction n as [|n IH]; intros i vs k; cbn [string_values]; [lia|].
  destruct (string_value kind cvb i) as [v|] eqn:Hv; [|done]. cbn.
  destruct (string_values kind cvb (S i) n) as [vs'|] eqn:Hrest; [|done]. cbn.
  intros [= <-] Hk. destruct k as [|k].
  - exists v. by rewrite Nat.add_0_r.
  - destruct (IH _ _ k Hrest ltac:(lia)) as (v' & Hl & Hs).
    exists v'. split; [done|]. by rewrite Nat.add_succ_r.
Qed.

(** X12.  What the decoder appends for each row: nothing but the empty string for
    a null row; for a [CHAR] column the stored bytes without their trailing
    spaces, and never a value that ends in a space; for any other kind the
    stored bytes as they are. *)
Theorem decoded_strings_keep_the_bytes data_column kind cvb num_values st column :
  _decode_string_non_dict_encoded_column data_column kind cvb num_values
    = Some (st, column) →
  st = Status_OK ∧
  ∃ values, column = data_column ++ values ∧ length values = num_values ∧
    ∀ i v, values !! i = Some v →
      if hasNulls cvb && negb (default true (notNull cvb !! i)) then v = []
      else ∃ buffer len,
        data cvb !! i = Some buffer ∧ length_ cvb !! i = Some len ∧
        (len ≤ length buffer)%nat ∧
        match kind with
        | KIND_CHAR =>
            last v ≠ Some Ascii.Space ∧
            ∃ k, take len buffer = v ++ replicate k Ascii.Space
        | KIND_OTHER => v = take len buffer
        end.
Proof.
  unfold _decode_string_non_dict_encoded_column.
  destruct (string_values kind cvb 0 num_values) as [values|] eqn:Hvs; [|done].
  cbn. intros [= <- <-]. split; [done|]. exists values.
  split; [case_bool_decide as Hnil; [by rewrite Hnil, app_nil_r|done]|].
  split; [by eapply string_values_length|].
  intros i v Hi.
  pose proof (string_values_length _ _ _ _ _ Hvs) as Hlen.
  apply lookup_lt_Some in Hi as Hlt.
  destruct (string_values_lookup _ _ _ _ _ i Hvs ltac:(lia)) as (v' & Hv' & Hval).
  assert (v' = v) as -> by congruence. clear Hv'.
  rewrite Nat.add_0_l in Hval. unfold string_value in Hval.
  destruct (hasNulls cvb).
  - destruct (notNull cvb !! i) as [[|]|]; cbn in *; [|by injection Hval|done].
    clear Hi Hvs. revert Hval.
    destruct (data cvb !! i) as [buffer|]; [|done]. cbn.
    destruct (length_ cvb !! i) as [len|]; [|done]. cbn.
    destruct kind.
    + destruct (trim_right buffer len) as [n|] eqn:Htrim; [|done]. cbn.
      intros [= <-]. exists buffer, len.
      assert (len ≤ length buffer)%nat as Hle.
      { clear -Htrim. destruct len as [|len]; [lia|]. cbn in Htrim.
        destruct (buffer !! len) eqn:Hl; [|done]. apply lookup_lt_Some in Hl. lia. }
      destruct (trim_right_spec buffer len Hle) as (n' & Hn' & Hnle & Htake & Hlast).
      assert (n' = n) as -> by congruence.
      do 3 (split; [done|]). split; [done|]. by exists (len - n)%nat.
    + destruct (decide _); [|done]. intros [= <-]. by exists buffer, len.
  - cbn in *. clear Hi Hvs. revert Hval.
    destruct (data cvb !! i) as [buffer|]; [|done]. cbn.
    destruct (length_ cvb !! i) as [len|]; [|done]. cbn.
    destruct kind.
    + destruct (trim_right buffer len) as [n|] eqn:Htrim; [|done]. cbn.
      intros [= <-]. exists buffer, len.
      assert (len ≤ length buffer)%nat as Hle.
      { clear -Htrim. destruct len as [|len]; [lia|]. cbn in Htrim.
        destruct (buffer !! len) eqn:Hl; [|done]. apply lookup_lt_Some in Hl. lia. }
      destruct (trim_right_spec buffer len Hle) as (n' & Hn' & Hnle & Htake & Hlast).
      assert (n' = n) as -> by congruence.
      do 3 (split; [done|]). split; [done|]. by exists (len - n)%nat.
    + destruct (decide _); [|done]. intros [= <-]. by exists buffer, len.
Qed.

Lemma string_values_padded (values : list (list Ascii.ascii)) : ∀ pads i cvb,
  hasNulls cvb = false →
  length pads = length values →
  Forall (λ v, last v ≠ Some Ascii.Space) values →
  (∀ k v p, values !! k = Some v → pads !! k = Some p →
     data cvb !! (i + k)%nat = Some (v ++ replicate p Ascii.Space) ∧
     length_ cvb !! (i + k)%nat = Some (length v + p)%nat) →
  string_values KIND_CHAR cvb i (length values) = Some values.
Proof.
  induction values as [|v values IH]; intros pads i cvb Hnn Hlen Hlast Hrows; [done|].
  destruct pads as [|p pads]; [done|].
  apply Forall_cons in Hlast as [Hv Hlast].
  cbn [length string_values]. unfold string_value. rewrite Hnn. cbn.
  destruct (Hrows 0%nat v p eq_refl eq_refl) as [Hd Hl].
  rewrite Nat.add_0_r in Hd, Hl. rewrite Hd, Hl. cbn.
  rewrite trim_right_padded by done. cbn.
  rewrite take_app_length.
  rewrite (IH pads (S i) cvb); [done|done|by injection Hlen|done|].
  intros k v' p' Hk Hp. replace (S i + k)%nat with (i + S k)%nat by lia.
  by apply Hrows.
Qed.

(** X13.  Round trip of [CHAR] values.  Hive pads a [CHAR] value with spaces up to
    the declared length; whatever the padding of each row was, decoding gives
    back the values that were written, as long as none of them ends in a
    space itself. *)
Theorem char_values_come_back_unpadded data_column
    (values : list (list Ascii.ascii)) (pads : list nat) cvb :
  hasNulls cvb = false →
  length pads = length values →
  Forall (λ v, last v ≠ Some Ascii.Space) values →
  data cvb = zip_with (λ v p, v ++ replicate p Ascii.Space) values pads →
  length_ cvb = zip_with (λ v p, length v + p)%nat values pads →
  _decode_string_non_dict_encoded_column data_column KIND_CHAR cvb (length values)
  = Some (Status_OK, data_column ++ values).
Proof.
  intros Hnn Hlen Hlast Hdata Hlens.
  unfold _decode_string_non_dict_encoded_column.
  rewrite (string_values_padded values pads 0 cvb Hnn Hlen Hlast).
  - cbn. case_bool_decide as Hnil; [by rewrite Hnil, app_nil_r|done].
  - intros k v p Hv Hp. rewrite Nat.add_0_l, Hdata, Hlens.
    rewrite !lookup_zip_with, Hv, Hp. done.
Qed.

Local Open Scope Z_scope.

Lemma offsets_loop_spec prev base (orc : list Z) : ∀ n i acc,
  (i + n ≤ length orc)%nat →
  offsets_loop prev base orc i n acc
  = Some (acc ++ ((λ o, PositionDelete.to_uint64 (prev + o - base)) <$> take n (drop i orc))).
Proof.
  induction n as [|n IH]; intros i acc Hlen; cbn [offsets_loop].
  - by rewrite take_0, app_nil_r.
  - destruct (lookup_lt_is_Some_2 orc i ltac:(lia)) as [o Ho].
    rewrite Ho. cbn. rewrite IH by lia. f_equal.
    rewrite (drop_S _ _ _ Ho). cbn. by rewrite <- app_assoc.
Qed.

Lemma array_lengths_shift prev base (l : list Z) : ∀ first,
  array_lengths (prev + first - base) ((λ o, prev + o - base) <$> l)
  = array_lengths first l.
Proof.
  induction l as [|o l IH]; intros first; cbn; [done|].
  rewrite IH. f_equal. lia.
Qed.

Lemma array_lengths_sum (l : list Z) : ∀ prev,
  foldr Z.add 0 (array_lengths prev l) = default prev (last l) - prev.
Proof.
  induction l as [|o l IH]; intros prev; cbn [array_lengths foldr]; [cbn; lia|].
  rewrite IH. destruct l as [|o' l]; [cbn; lia|].
  rewrite last_cons_cons.
  destruct (last (o' :: l)) eqn:Hz; [cbn; lia|by apply last_None in Hz].
Qed.

(** X14.  Array offsets.  When the batch holds at least [num_values + 1]
    non-decreasing offsets and the running total stays inside [uint64_t],
    the column gains one end offset for each array, every array keeps the
    size it has in the batch, and [element_size] is the number of elements
    of all of them together: the distance the last offset moved.  A buffer
    that is too short is an internal error that changes nothing. *)
Theorem array_offsets_keep_the_sizes col_name doris_offsets base rest
    (num_values : nat) :
  (0 < num_values ≤ length rest)%nat →
  StronglySorted Z.le (base :: rest) →
  0 ≤ back doris_offsets →
  back doris_offsets + (default base (last (take num_values rest)) - base) < 2 ^ 64 →
  ∃ added element_size,
    _fill_doris_array_offsets col_name doris_offsets (base :: rest) num_values
    = Some (Status_OK,
            mkOffsets64 (pad_left doris_offsets) (elems doris_offsets ++ added),
            Some element_size) ∧
    array_lengths (back doris_offsets) added
    = array_lengths base (take num_values rest) ∧
    element_size = foldr Z.add 0 (array_lengths base (take num_values rest)) ∧
    back (mkOffsets64 (pad_left doris_offsets) (elems doris_offsets ++ added))
    = back doris_offsets + element_size.
Proof.
  intros [Hpos Hlen] Hsorted Hback Hfit.
  set (batch := take num_values rest) in *.
  set (total := default base (last batch) - base) in *.
  assert (Forall (λ o, base ≤ o ∧ o - base ≤ total) batch) as Hbounds.
  { apply StronglySorted_inv in Hsorted as [Hrest Hbase].
    assert (StronglySorted Z.le batch) as Hb.
    { unfold batch. rewrite <- (take_drop num_values rest) in Hrest.
      by apply StronglySorted_app_1_l in Hrest. }
    assert (Forall (Z.le base) batch) as Hge.
    { unfold batch. by apply Forall_take. }
    apply Forall_forall. intros o Ho. split.
    { by eapply Forall_forall in Hge. }
    unfold total. clear -Hb Ho.
    induction Hb as [|x l Hl IH Hx]; [by apply elem_of_nil in Ho|].
    destruct l as [|y l].
    { apply list_elem_of_singleton in Ho as ->. cbn. lia. }
    rewrite last_cons_cons. apply elem_of_cons in Ho as [->|Ho]; [|by apply IH].
    assert (default x (last (y :: l)) ∈ y :: l) as Hin.
    { destruct (last (y :: l)) as [z|] eqn:Hz.
      - cbn. by apply last_Some_elem_of.
      - by apply last_None in Hz. }
    cbn [default] in *. destruct (last (y :: l)) as [z|] eqn:Hz.
    + cbn in *. eapply Forall_forall in Hx; [|exact Hin]. lia.
    + by apply last_None in Hz. }
  assert (0 ≤ total) as Htotal.
  { unfold total. destruct batch as [|o batch'] eqn:Hbatch.
    - cbn. lia.
    - assert (default base (last (o :: batch')) ∈ o :: batch') as Hin.
      { destruct (last (o :: batch')) as [z|] eqn:Hz.
        - cbn. by apply last_Some_elem_of.
        - by apply last_None in Hz. }
      eapply Forall_forall in Hbounds; [|exact Hin]. lia. }
  set (shift := λ o : Z, back doris_offsets + o - base).
  assert ((λ o, PositionDelete.to_uint64 (back doris_offsets + o - base)) <$> batch
          = shift <$> batch) as Hwrap.
  { apply Forall_fmap_ext_1. eapply Forall_impl; [exact Hbounds|].
    intros o [Ho1 Ho2]. unfold shift. apply to_uint64_small. lia. }
  assert (length batch = num_values) as Hblen.
  { unfold batch. rewrite length_take. lia. }
  exists (shift <$> batch), total.
  split; [|split; [|split]].
  - unfold _fill_doris_array_offsets.
    rewrite decide_True by done.
    rewrite decide_False by (cbn [length]; lia).
    change ((base :: rest) !! 0%nat) with (Some base). cbn [mbind option_bind].
    rewrite offsets_loop_spec by (cbn [length]; lia).
    cbn [drop]. rewrite drop_0. fold batch. rewrite Hwrap. cbn.
    destruct num_values as [|k]; [lia|].
    change ((base :: rest) !! S k) with (rest !! k).
    assert (is_Some (rest !! k)) as [o Ho] by (apply lookup_lt_is_Some_2; lia).
    rewrite Ho. cbn. do 3 f_equal.
    assert (last batch = Some o) as Hl.
    { unfold batch. rewrite last_lookup, length_take.
      replace (Init.Nat.pred (S k `min` length rest)) with k by lia.
      rewrite lookup_take_lt by lia. done. }
    unfold total. rewrite Hl. cbn.
    apply to_uint64_small.
    eapply Forall_forall in Hbounds; [|by eapply last_Some_elem_of]. lia.
  - pose proof (array_lengths_shift (back doris_offsets) base batch base) as H.
    replace (back doris_offsets + base - base) with (back doris_offsets) in H by lia.
    exact H.
  - by rewrite array_lengths_sum.
  - unfold back at 1. cbn [elems pad_left].
    rewrite last_app, fmap_last.
    destruct (last batch) as [z|] eqn:Hz.
    + cbn. unfold total, shift. cbn. lia.
    + apply last_None in Hz. rewrite Hz in Hblen. cbn in Hblen. lia.
Qed.

Lemma selection_loop_spec (result_filter_data : list Z) : ∀ n i sel new_size,
  (i + n ≤ length result_filter_data)%nat →
  (i + n ≤ length sel)%nat →
  (new_size ≤ i)%nat →
  ∃ sel' picked,
    selection_loop result_filter_data n i sel new_size
      = Some (sel', (new_size + length picked)%nat) ∧
    picked = filter (λ row, result_filter_data !! row ≠ Some 0) (seq i n) ∧
    length sel' = length sel ∧
    take new_size sel' = take new_size sel ∧
    take (length picked) (drop new_size sel') = Z.of_nat <$> picked ∧
    drop (i + n) sel' = drop (i + n) sel.
Proof.
  induction n as [|n IH]; intros i sel new_size Hf Hs Hn.
  - exists sel, []. cbn. rewrite Nat.add_0_r. by rewrite take_0.
  - cbn [selection_loop].
    rewrite decide_True by lia.
    destruct (lookup_lt_is_Some_2 result_filter_data i ltac:(lia)) as [flag Hflag].
    rewrite Hflag. cbn [mbind option_bind].
    set (sel1 := <[new_size := Z.of_nat i]> sel).
    assert (length sel1 = length sel) as Hlen1 by apply length_insert.
    cbn [seq]. destruct (decide (flag ≠ 0)) as [Hnz|Hz].
    + destruct (IH (S i) sel1 (new_size + 1)%nat ltac:(lia) ltac:(lia) ltac:(lia))
        as (sel' & picked & Hrun & Hpicked & Hlen & Htake & Hsel & Hdrop).
      exists sel', (i :: picked).
      rewrite filter_cons_True by (rewrite Hflag; congruence).
      cbn [length]. replace (new_size + S (length picked))%nat
        with (new_size + 1 + length picked)%nat by lia.
      split; [done|]. split; [by rewrite Hpicked|].
      split; [lia|].
      assert (take (new_size + 1) sel' = take new_size sel ++ [Z.of_nat i]) as Hhead.
      { rewrite Htake. unfold sel1.
        replace (new_size + 1)%nat with (S new_size) by lia.
        erewrite take_S_r; [|apply list_lookup_insert_eq; lia].
        by rewrite take_insert_ge by lia. }
      split; [|split].
      * apply (f_equal (take new_size)) in Hhead.
        rewrite take_take in Hhead. rewrite Nat.min_l in Hhead by lia.
        rewrite Hhead. rewrite take_app_le by (rewrite length_take; lia).
        rewrite take_take. f_equal. lia.
      * assert (sel' !! new_size = Some (Z.of_nat i)) as Hat.
        { apply (f_equal (λ l, l !! new_size)) in Hhead.
          rewrite lookup_take_lt in Hhead by lia.
          rewrite Hhead. rewrite lookup_app_r by (rewrite length_take; lia).
          rewrite length_take. replace (new_size - new_size `min` length sel)%nat
            with 0%nat by lia. done. }
        rewrite (drop_S _ _ _ Hat). cbn [take fmap list_fmap]. f_equal.
        replace (S new_size) with (new_size + 1)%nat by lia. exact Hsel.
      * replace (i + S n)%nat with (S i + n)%nat by lia. rewrite Hdrop.
        unfold sel1. by rewrite drop_insert_lt by lia.
    + destruct (IH (S i) sel1 (new_size + 0)%nat ltac:(lia) ltac:(lia) ltac:(lia))
        as (sel' & picked & Hrun & Hpicked & Hlen & Htake & Hsel & Hdrop).
      exists sel', picked.
      rewrite filter_cons_False
        by (rewrite Hflag; intros Hne; apply Hne; f_equal; lia).
      rewrite Nat.add_0_r in *.
      split; [done|]. split; [done|]. split; [lia|].
      split; [|split].
      * rewrite Htake. unfold sel1. by rewrite take_insert_ge by lia.
      * done.
      * replace (i + S n)%nat with (S i + n)%nat by lia. rewrite Hdrop.
        unfold sel1. by rewrite drop_insert_lt by lia.
Qed.

(** X15.  The selection vector.  After filtering a batch of [size] rows, the
    first [numElements] entries of [sel] are the rows whose filter byte is
    set, in increasing order; the counter of filtered rows grows by the
    number of the others, and [sel] is untouched from [size] on. *)
Theorem selection_vector_lists_passing_rows result_filter_data sel (size : nat) :
  (size ≤ length result_filter_data)%nat →
  (size ≤ length sel)%nat →
  ∃ sel',
    let passing := filter (λ row, result_filter_data !! row ≠ Some 0) (seq 0 size) in
    select_rows result_filter_data sel size
    = Some (sel', length passing, Z.of_nat size - Z.of_nat (length passing)) ∧
    take (length passing) sel' = Z.of_nat <$> passing ∧
    length sel' = length sel ∧
    drop size sel' = drop size sel.
Proof.
  intros Hf Hs.
  destruct (selection_loop_spec result_filter_data size 0 sel 0
              ltac:(lia) ltac:(lia) ltac:(lia))
    as (sel' & picked & Hrun & Hpicked & Hlen & _ & Hsel & Hdrop).
  exists sel'. cbn zeta. rewrite <- Hpicked.
  unfold select_rows. rewrite Hrun. cbn.
  split; [done|]. rewrite drop_0 in Hsel. done.
Qed.

(** The sample batch read as a [CHAR] column. *)
Lemma decoded_strings_sample :
  Status_OK = Status_OK ∧
  ∃ values, [String.list_ascii_of_string "ab"; []] = [] ++ values ∧
    length values = 2%nat ∧
    ∀ i v, values !! i = Some v →
      if hasNulls sample_batch && negb (default true (notNull sample_batch !! i))
      then v = []
      else ∃ buffer len,
        data sample_batch !! i = Some buffer ∧ length_ sample_batch !! i = Some len ∧
        (len ≤ length buffer)%nat ∧
        last v ≠ Some Ascii.Space ∧
        ∃ k, take len buffer = v ++ replicate k Ascii.Space.
Proof.
  apply (decoded_strings_keep_the_bytes [] KIND_CHAR sample_batch 2 Status_OK
           [String.list_ascii_of_string "ab"; []]).
  vm_compute. reflexivity.
Defined.

(** [ab] padded with two spaces and [c] without padding. *)
Lemma char_values_sample :
  _decode_string_non_dict_encoded_column [] KIND_CHAR
    (mkEncodedStringVectorBatch false []
       [String.list_ascii_of_string "ab  "; String.list_ascii_of_string "c"] [4; 1]%nat
       false [] [])
    (length [String.list_ascii_of_string "ab"; String.list_ascii_of_string "c"])
  = Some (Status_OK, [] ++ [String.list_ascii_of_string "ab"; String.list_ascii_of_string "c"]).
Proof.
  apply (char_values_come_back_unpadded []
           [String.list_ascii_of_string "ab"; String.list_ascii_of_string "c"] [2; 0]%nat).
  - reflexivity.
  - reflexivity.
  - repeat constructor; cbn; discriminate.
  - reflexivity.
  - reflexivity.
Defined.

(** Three arrays of 2, 0 and 3 elements behind an array that ends at 3. *)
Lemma array_offsets_sample :
  ∃ added element_size,
    _fill_doris_array_offsets "a" (mkOffsets64 0 [3]) (10 :: [12; 12; 15]) 3
    = Some (Status_OK, mkOffsets64 0 ([3] ++ added), Some element_size) ∧
    array_lengths (back (mkOffsets64 0 [3])) added
    = array_lengths 10 (take 3 [12; 12; 15]) ∧
    element_size = foldr Z.add 0 (array_lengths 10 (take 3 [12; 12; 15])) ∧
    back (mkOffsets64 0 ([3] ++ added)) = back (mkOffsets64 0 [3]) + element_size.
Proof.
  apply (array_offsets_keep_the_sizes "a" (mkOffsets64 0 [3]) 10 [12; 12; 15] 3).
  - cbn. lia.
  - repeat constructor; lia.
  - cbn. lia.
  - cbn. lia.
Defined.

(** Rows 0 and 2 of three pass. *)
Lemma selection_vector_sample :
  ∃ sel',
    let passing := filter (λ row, [1; 0; 1] !! row ≠ Some 0) (seq 0 3) in
    select_rows [1; 0; 1] [9; 9; 9; 9] 3
    = Some (sel', length passing, Z.of_nat 3 - Z.of_nat (length passing)) ∧
    take (length passing) sel' = Z.of_nat <$> passing ∧
    length sel' = length [9; 9; 9; 9] ∧
    drop 3 sel' = drop 3 [9; 9; 9; 9].
Proof.
  apply (selection_vector_lists_passing_rows [1; 0; 1] [9; 9; 9; 9] 3).
  - cbn. lia.
  - cbn. lia.
Defined.

Lemma values_loop_ext (f g : nat → option (list Ascii.ascii)) : ∀ n i,
  (∀ k, (i ≤ k < i + n)%nat → f k = g k) →
  values_loop f i n = values_loop g i n.
Proof.
  induction n as [|n IH]; intros i Heq; [done|].
  cbn [values_loop]. rewrite (Heq i) by lia. rewrite (IH (S i)); [done|].
  intros k Hk. apply Heq. lia.
Qed.

(** X23.  Late materialisation through the dictionary.  A dictionary-filtered
    column is first read as its dictionary codes, with the null map of the
    batch, and turned into strings afterwards; when the codes fit [Int32]
    this gives, row by row, the strings that decoding the batch directly
    gives, for a [CHAR] column too.  A column that is not nullable is only
    read from a batch without nulls. *)
Theorem dict_codes_convert_to_the_decoded_strings cvb type_kind (num_values : nat)
    (nullable : bool) codes null_map :
  (nullable = false → hasNulls cvb = false) →
  Forall (λ idx, - 2 ^ 31 ≤ idx < 2 ^ 31) (take num_values (index cvb)) →
  _decode_int32_column [] (StringVectorBatch cvb) num_values = Some (Status_OK, codes) →
  fill_null_map [] cvb num_values = Some null_map →
  (λ values, (Status_OK, values)) <$>
    _convert_dict_column_to_string_column codes
      (if nullable then Some null_map else None) cvb type_kind
  = _decode_string_dict_encoded_column false [] [] type_kind cvb num_values.
Proof.
  intros Hnullable Hrange Hcodes Hmap.
  unfold _decode_int32_column, read_values in Hcodes.
  destruct (decide (num_values ≤ length (index cvb))%nat) as [Hlen|]; [|done].
  cbn in Hcodes. injection Hcodes as <-.
  assert (OrcDecimal.wrap_signed 32 <$> take num_values (index cvb)
          = take num_values (index cvb)) as ->.
  { rewrite <- (list_fmap_id (take num_values (index cvb))) at 2.
    apply Forall_fmap_ext_1. eapply Forall_impl; [exact Hrange|].
    intros idx Hidx. apply wrap_signed_id; [lia|]. exact Hidx. }
  unfold _convert_dict_column_to_string_column, _decode_string_dict_encoded_column.
  rewrite length_take, Nat.min_l by done.
  rewrite (values_loop_ext _ (dict_string_value false [] type_kind cvb)).
  { destruct (values_loop _ 0 num_values) as [values|]; [|done]. cbn.
    by case_bool_decide as Hnil; [rewrite Hnil|]. }
  intros k Hk. unfold converted_value, dict_string_value.
  rewrite lookup_take_lt by lia.
  unfold fill_null_map, read_values in Hmap.
  destruct (hasNulls cvb) eqn:Hnulls.
  - destruct nullable; [|by specialize (Hnullable eq_refl)].
    destruct (decide (num_values ≤ length (notNull cvb))%nat) as [Hn|]; [|done].
    cbn in Hmap. injection Hmap as <-.
    rewrite list_lookup_fmap, lookup_take_lt by lia.
    destruct (lookup_lt_is_Some_2 (notNull cvb) k ltac:(lia)) as [not_null ->].
    cbn. by destruct not_null.
  - injection Hmap as <-. cbn [app mbind option_bind].
    destruct nullable; [|done].
    rewrite lookup_replicate_2 by lia. cbn. done.
Qed.

(** The sample dictionary batch as a nullable [CHAR] column. *)
Lemma dict_codes_sample :
  (λ values, (Status_OK, values)) <$>
    _convert_dict_column_to_string_column [0; 7; 1] (Some [0; 1; 0])
      sample_dict_batch KIND_CHAR
  = _decode_string_dict_encoded_column false [] [] KIND_CHAR sample_dict_batch 3.
Proof.
  apply (dict_codes_convert_to_the_decoded_strings sample_dict_batch KIND_CHAR 3 true
           [0; 7; 1] [0; 1; 0]).
  - discriminate.
  - repeat constructor; lia.
  - reflexivity.
  - reflexivity.
Defined.

End OrcDecodeFacts.

(** ** Choosing the dictionary columns *)

Section DictColumnsFacts.
Import DictFilter DictColumns.
Import SearchArgument(TExprNodeType, BINARY_PRED, IN_PRED, SLOT_REF, TExprNodeType_eq_dec).
Local Open Scope Z_scope.

Lemma find_slot_Some slots id slot :
  find_slot slots id = Some slot → slot ∈ slots ∧ slot_id slot = id.
Proof.
  induction slots as [|each rest IH]; cbn; [done|].
  destruct (decide (slot_id each = id)) as [Heq|Hne].
  - intros [= <-]. split; [apply elem_of_cons; by left|done].
  - intros H. destruct (IH H). split; [apply elem_of_cons; by right|done].
Qed.

Lemma all_of_conjuncts_true env ctxs :
  all_of_conjuncts env ctxs = Some true → Forall (simple_predicate env) ctxs.
Proof.
  induction ctxs as [|ctx rest IH]; cbn; [done|].
  destruct (bool_decide (root_node_type env ctx = IN_PRED)
            || bool_decide (root_node_type env ctx = BINARY_PRED)) eqn:Hkind; [|done].
  destruct (root_children_node_types env ctx !! 0%nat) as [child|] eqn:Hchild; [|done].
  cbn. destruct (bool_decide (child = SLOT_REF)) eqn:Hslot; [|done].
  apply bool_decide_eq_true in Hslot. intros Hrest.
  constructor; [|by apply IH]. split; [|by rewrite Hchild, Hslot].
  apply orb_true_iff in Hkind as [H|H]; apply bool_decide_eq_true in H; tauto.
Qed.

Lemma can_filter_by_dict_true env conjuncts_of id :
  _can_filter_by_dict env conjuncts_of id = Some true →
  ∃ slot ctxs,
    slot ∈ tuple_slots env ∧ slot_id slot = id ∧
    (is_string_type slot || is_var_len_object slot = true) ∧
    conjuncts_of !! id = Some ctxs ∧ Forall (simple_predicate env) ctxs.
Proof.
  unfold _can_filter_by_dict.
  destruct (find_slot (tuple_slots env) id) as [slot|] eqn:Hslot; [|done].
  apply find_slot_Some in Hslot as [Hin Hid].
  destruct (negb (is_string_type slot) && negb (is_var_len_object slot)) eqn:Htype;
    [done|].
  destruct (conjuncts_of !! id) as [ctxs|] eqn:Hctxs; [|done].
  intros Hall. exists slot, ctxs. split; [done|]. split; [done|].
  split; [|split; [done|by apply all_of_conjuncts_true]].
  destruct (is_string_type slot), (is_var_len_object slot); done.
Qed.

Lemma predicate_cols_loop_spec env conjuncts_of : ∀ names i st column_names st' names',
  predicate_cols_loop env conjuncts_of names i st column_names = Some (st', names') →
  let cols := zip names (drop i (predicate_col_slot_ids env)) in
  (length names ≤ length (drop i (predicate_col_slot_ids env)))%nat ∧
  _dict_filter_cols st'
    = _dict_filter_cols st ++ filter (chosen env conjuncts_of) cols ∧
  _dict_filter_conjuncts st' = _dict_filter_conjuncts st ∧
  _non_dict_filter_conjuncts st'
    = _non_dict_filter_conjuncts st ++
      mjoin ((λ col, default [] (conjuncts_of !! col.2)) <$>
             filter (λ col, ¬ chosen env conjuncts_of col) cols) ∧
  names' = column_names ++
           ((λ col, file_column_name env col.1) <$> filter (chosen env conjuncts_of) cols).
Proof.
  induction names as [|name rest IH]; intros i st column_names st' names'.
  - cbn. intros [= <- <-]. rewrite !app_nil_r. repeat split; lia.
  - cbn [predicate_cols_loop].
    destruct (predicate_col_slot_ids env !! i) as [id|] eqn:Hid; [|done].
    cbn [mbind option_bind]. rewrite (drop_S _ _ _ Hid). cbn [zip zip_with length].
    destruct (if _disable_dict_filter env then Some false
              else _can_filter_by_dict env conjuncts_of id) as [can|] eqn:Hcan; [|done].
    cbn [mbind option_bind]. destruct can.
    + assert (chosen env conjuncts_of (name, id)) as Hchosen.
      { unfold chosen. cbn. destruct (_disable_dict_filter env); [done|]. done. }
      intros Hrun. apply IH in Hrun as (Hlen & Hcols & Hdfc & Hndfc & Hnames).
      cbn [_dict_filter_cols _dict_filter_conjuncts _non_dict_filter_conjuncts] in *.
      rewrite filter_cons_True by done.
      rewrite filter_cons_False by tauto.
      split; [lia|]. split; [by rewrite Hcols, <- app_assoc|].
      split; [done|]. split; [done|].
      rewrite Hnames. cbn. by rewrite <- app_assoc.
    + assert (¬ chosen env conjuncts_of (name, id)) as Hchosen.
      { unfold chosen. cbn. intros [Hd Hc]. rewrite Hd in Hcan. congruence. }
      intros Hrun. apply IH in Hrun as (Hlen & Hcols & Hdfc & Hndfc & Hnames).
      cbn [_dict_filter_cols _dict_filter_conjuncts _non_dict_filter_conjuncts] in *.
      rewrite filter_cons_False by done.
      rewrite filter_cons_True by done.
      split; [lia|]. split; [done|]. split; [done|]. split; [|done].
      rewrite Hndfc. cbn. by rewrite <- app_assoc.
Qed.

(** X16.  Choosing the dictionary columns.  Every predicate column is dealt with
    once: it becomes a dictionary-filtered column, and its file column is
    asked for, or its conjuncts (if it has any) are kept for row-level
    filtering.  A chosen column is a string or variable-length slot that has
    conjuncts, all of them [IN] or binary predicates on the slot; nothing is
    chosen while dictionary filtering is disabled. *)
Theorem dict_columns_split_the_predicate_columns env conjuncts_of st column_names
    status st' column_names' :
  slot_id_to_filter_conjuncts env = Some conjuncts_of →
  fill_dict_filter_column_names env st column_names = Some (status, st', column_names') →
  let cols := zip (predicate_col_names env) (predicate_col_slot_ids env) in
  status = Status_OK ∧
  _dict_filter_cols st' = filter (chosen env conjuncts_of) cols ∧
  _dict_filter_conjuncts st' = [] ∧
  _non_dict_filter_conjuncts st'
    = mjoin ((λ col, default [] (conjuncts_of !! col.2)) <$>
             filter (λ col, ¬ chosen env conjuncts_of col) cols) ∧
  column_names'
    = column_names ++ ((λ col, file_column_name env col.1) <$> _dict_filter_cols st') ∧
  Forall (λ col,
    _disable_dict_filter env = false ∧
    ∃ slot ctxs,
      slot ∈ tuple_slots env ∧ slot_id slot = col.2 ∧
      (is_string_type slot || is_var_len_object slot = true) ∧
      conjuncts_of !! col.2 = Some ctxs ∧ Forall (simple_predicate env) ctxs)
    (_dict_filter_cols st').
Proof.
  intros Hmap. unfold fill_dict_filter_column_names. rewrite Hmap.
  destruct (predicate_cols_loop env conjuncts_of (predicate_col_names env) 0
              (mkDictState [] [] []) column_names) as [[st1 names1]|] eqn:Hrun; [|done].
  cbn. intros [= <- <- <-]. cbn zeta.
  apply predicate_cols_loop_spec in Hrun as (_ & Hcols & Hdfc & Hndfc & Hnames).
  rewrite drop_0 in *. cbn in Hcols, Hdfc, Hndfc.
  split; [done|]. split; [done|]. split; [done|]. split; [done|].
  split; [by rewrite Hcols|].
  rewrite Hcols. apply Forall_forall. intros col [[Hd Hcan] _]%list_elem_of_filter.
  split; [done|]. by apply can_filter_by_dict_true.
Qed.

(** The sample choice: [col] goes to the dictionary, [n] does not. *)
Lemma dict_columns_sample :
  let cols := zip (predicate_col_names sample_choice)
                  (predicate_col_slot_ids sample_choice) in
  Status_OK = Status_OK ∧
  _dict_filter_cols scenario_C_state
    = filter (chosen sample_choice {[ 7 := [0%nat] ]}) cols ∧
  _dict_filter_conjuncts scenario_C_state = [] ∧
  _non_dict_filter_conjuncts scenario_C_state
    = mjoin ((λ col, default []
                       (({[ 7 := [0%nat] ]} : gmap Z (list VExprContextSPtr)) !! col.2)) <$>
             filter (λ col, ¬ chosen sample_choice {[ 7 := [0%nat] ]} col) cols) ∧
  ["col"]
    = [] ++ ((λ col, file_column_name sample_choice col.1) <$>
             _dict_filter_cols scenario_C_state) ∧
  Forall (λ col,
    _disable_dict_filter sample_choice = false ∧
    ∃ slot ctxs,
      slot ∈ tuple_slots sample_choice ∧ slot_id slot = col.2 ∧
      (is_string_type slot || is_var_len_object slot = true) ∧
      ({[ 7 := [0%nat] ]} : gmap Z (list VExprContextSPtr)) !! col.2 = Some ctxs ∧
      Forall (simple_predicate sample_choice) ctxs)
    (_dict_filter_cols scenario_C_state).
Proof.
  apply (dict_columns_split_the_predicate_columns sample_choice {[ 7 := [0%nat] ]}
           (mkDictState [] [] []) [] Status_OK scenario_C_state ["col"]).
  - reflexivity.
  - vm_compute. reflexivity.
Defined.

Lemma dict_cols_loop_status denv dict_map : ∀ cols kept dfc ndfc status filtered st',
  Forall (λ col : string * Z, is_Some (_slot_id_to_filter_conjuncts denv !! col.2)) cols →
  dict_cols_loop denv dict_map cols kept dfc ndfc = Some (status, filtered, st') →
  status = Status_OK ∨ engine_status denv status.
Proof.
  induction cols as [|[name id] rest IH]; intros kept dfc ndfc status filtered st' Hall.
  - cbn. intros [= <- <- <-]. by left.
  - apply Forall_cons in Hall as [[ctxs Hctxs] Hall]. cbn in Hctxs.
    cbn [dict_cols_loop]. rewrite Hctxs.
    destruct (dict_map !! children_file_column_name denv name) as [dict_values|];
      [|by apply IH].
    destruct (decide (length dict_values = 0%nat)); [by apply IH|].
    destruct (find_dict_pos (slots denv) id 0 None) as [[dict_pos nullable]|]; [|done].
    cbn [mbind option_bind].
    destruct (execute_conjuncts denv ctxs dict_values)
      as [[status1 result_filter] can_filter_all] eqn:Hexec.
    destruct (negb (ok status1)).
    { intros [= <- <- <-]. right. left. exists ctxs, dict_values. by rewrite Hexec. }
    destruct can_filter_all; [intros [= <- <- <-]; by left|].
    destruct (decide _); [by apply IH|].
    unfold _rewrite_dict_conjuncts.
    set (root := match dict_codes_from 0 result_filter with
                 | [dict_code] => EqCode id dict_code nullable
                 | _ => InCodes id (dict_codes_from 0 result_filter)
                 end).
    destruct (ok (prepare_and_open denv root)) eqn:Hok.
    + cbn. by apply IH.
    + cbn. rewrite Hok. cbn. intros [= <- <- <-]. right. right. by exists root.
Qed.

(** X17.  Choosing and loading compose.  After the columns have been chosen, every
    dictionary column has its conjuncts at hand, so loading the dictionaries
    of a stripe never fails with its own "not found" status: whatever it
    reports besides [OK] is a status of the expression engine. *)
Theorem chosen_dict_columns_always_load env conjuncts_of st column_names denv dict_map
    status1 st1 column_names1 status2 is_stripe_filtered st2 :
  slot_id_to_filter_conjuncts env = Some conjuncts_of →
  _slot_id_to_filter_conjuncts denv = conjuncts_of →
  fill_dict_filter_column_names env st column_names
    = Some (status1, st1, column_names1) →
  on_string_dicts_loaded denv dict_map st1 = Some (status2, is_stripe_filtered, st2) →
  status1 = Status_OK ∧ (status2 = Status_OK ∨ engine_status denv status2).
Proof.
  intros Hmap Hsame Hfill Hload.
  unfold fill_dict_filter_column_names in Hfill. rewrite Hmap in Hfill.
  destruct (predicate_cols_loop env conjuncts_of (predicate_col_names env) 0
              (mkDictState [] [] []) column_names) as [[st' names']|] eqn:Hrun; [|done].
  cbn in Hfill. injection Hfill as <- <- <-. split; [done|].
  apply predicate_cols_loop_spec in Hrun as (_ & Hcols & _).
  unfold on_string_dicts_loaded in Hload.
  eapply dict_cols_loop_status; [|exact Hload].
  rewrite Hcols. cbn [_dict_filter_cols app]. apply Forall_forall.
  intros col [[_ Hcan] _]%list_elem_of_filter.
  apply can_filter_by_dict_true in Hcan as (_ & ctxs & _ & _ & _ & Hctxs & _).
  rewrite Hsame. by exists ctxs.
Qed.

(** The sample choice followed by the dictionary of scenario C. *)
Lemma chosen_dict_columns_sample :
  Status_OK = Status_OK ∧ (Status_OK = Status_OK ∨ engine_status scenario_C_env Status_OK).
Proof.
  apply (chosen_dict_columns_always_load sample_choice {[ 7 := [0%nat] ]}
           (mkDictState [] [] []) [] scenario_C_env {[ "col" := ["a"; "b"; "c"] ]}
           Status_OK scenario_C_state ["col"] Status_OK false
           (mkDictState [("col", 7)] [EqCode 7 1 true] [])).
  - reflexivity.
  - reflexivity.
  - vm_compute. reflexivity.
  - vm_compute. reflexivity.
Defined.

End DictColumnsFacts.

(** ** Columns of an ORC batch *)

Section OrcColumnsFacts.
Import SearchArgument(TypeKind, STRUCT, TypeKind_eq_dec).
Import OrcColumns.
Context {B : Type}.

Lemma name_columns_spec : ∀ (names : list string) (st : gmap string nat * nat),
  let st' := foldl name_column st names in
  st'.2 = (st.2 + length names)%nat ∧
  (∀ name, name ∉ names → st'.1 !! name = st.1 !! name) ∧
  (NoDup names → ∀ i name, names !! i = Some name → st'.1 !! name = Some (st.2 + i)%nat).
Proof.
  induction names as [|n names IH]; intros st; cbn zeta.
  - cbn. split; [lia|]. split; [done|]. intros _ i name. by rewrite lookup_nil.
  - cbn [foldl length]. destruct (IH (name_column st n)) as (Hidx & Hout & Hin).
    cbn [name_column fst snd] in *. split; [lia|]. split.
    + intros name [Hne Hnotin]%not_elem_of_cons.
      rewrite Hout by done. by rewrite lookup_insert_ne.
    + intros [Hn Hnd]%NoDup_cons [|i] name; cbn.
      * intros [= <-]. rewrite Hout by done. by rewrite lookup_insert_eq, Nat.add_0_r.
      * intros Hi. rewrite (Hin Hnd i name Hi). f_equal. lia.
Qed.

Lemma colname_to_idx_names ROW _is_acid : ∀ (selected_type : SelectedType) st,
  foldl (colname_to_idx_step ROW _is_acid) st selected_type
  = foldl name_column st (selected_type ≫= names_of_field ROW _is_acid).
Proof.
  induction selected_type as [|field rest IH]; intros st; [done|].
  rewrite bind_cons. cbn [foldl]. rewrite foldl_app, IH. f_equal.
  unfold colname_to_idx_step, names_of_field. destruct _is_acid; [|done].
  cbn [andb]. case_bool_decide as Hkind.
  - rewrite decide_True by done. by rewrite foldl_fmap.
  - by rewrite decide_False by done.
Qed.

Lemma fill_batch_vec_batches _is_acid : ∀ (fields : list (FieldBatch B)) result,
  foldl (fill_batch_vec_step _is_acid) result fields
  = result ++ (fields ≫= batches_of_field _is_acid).
Proof.
  induction fields as [|field rest IH]; intros result.
  - cbn. by rewrite app_nil_r.
  - rewrite bind_cons. cbn [foldl]. rewrite IH, app_assoc. f_equal.
    unfold fill_batch_vec_step, batches_of_field. destruct _is_acid; [|done].
    destruct field as [self row_fields|self]; [|done].
    clear. revert result. induction row_fields as [|f fs IHf]; intros result; cbn.
    + by rewrite app_nil_r.
    + rewrite IHf. by rewrite <- app_assoc.
Qed.

Lemma columns_of_zip ROW _is_acid :
  ∀ (selected_type : SelectedType) (fields : list (FieldBatch B)),
  conforms _is_acid selected_type fields →
  columns_of ROW _is_acid selected_type fields
  = zip (selected_type ≫= names_of_field ROW _is_acid)
        (fields ≫= batches_of_field _is_acid) ∧
  length (selected_type ≫= names_of_field ROW _is_acid)
  = length (fields ≫= batches_of_field _is_acid).
Proof.
  intros selected_type fields Hconf. unfold columns_of.
  induction Hconf as [|field_type field types fields Hfield _ [IHzip IHlen]]; [done|].
  cbn [zip_with]. rewrite !bind_cons.
  change (mjoin (columns_of_field ROW _is_acid field_type field
                 :: zip_with (columns_of_field ROW _is_acid) types fields))
    with (columns_of_field ROW _is_acid field_type field
          ++ mjoin (zip_with (columns_of_field ROW _is_acid) types fields)).
  assert (columns_of_field ROW _is_acid field_type field
          = zip (names_of_field ROW _is_acid field_type)
                (batches_of_field _is_acid field) ∧
          length (names_of_field ROW _is_acid field_type)
          = length (batches_of_field _is_acid field)) as [Hzip Hlen].
  { unfold columns_of_field, names_of_field, batches_of_field.
    destruct _is_acid; cbn [andb].
    - specialize (Hfield eq_refl). destruct field as [self row_fields|self].
      + destruct Hfield as [Hkind Hcount].
        rewrite bool_decide_eq_true_2 by done. by rewrite length_fmap.
      + by rewrite bool_decide_eq_false_2 by done.
    - by destruct field. }
  rewrite Hzip, IHzip. split.
  - by rewrite zip_with_app by done.
  - by rewrite !length_app, Hlen, IHlen.
Qed.

(** X18.  The index of a column leads to its batch.  When the batch has the shape
    of the selected type and no two columns share a name, the batch found in
    the vector of [_fill_batch_vec] at the index that [_colname_to_idx] keeps
    for a name is the batch of the column of that name, and only the columns
    of the batch have an index. *)
Theorem column_index_finds_the_batch ROW _is_acid (selected_type : SelectedType)
    (fields : list (FieldBatch B)) :
  conforms _is_acid selected_type fields →
  NoDup (columns_of ROW _is_acid selected_type fields).*1 →
  ∃ batch_vec,
    _fill_batch_vec _is_acid [] (Some fields) = Some batch_vec ∧
    length batch_vec = length (columns_of ROW _is_acid selected_type fields) ∧
    ∀ name b,
      (name, b) ∈ columns_of ROW _is_acid selected_type fields ↔
      ∃ idx, colname_to_idx ROW _is_acid selected_type ∅ !! name = Some idx ∧
             batch_vec !! idx = Some b.
Proof.
  intros Hconf Hnodup.
  destruct (columns_of_zip ROW _is_acid _ _ Hconf) as [Hcols Hlen].
  set (names := selected_type ≫= names_of_field ROW _is_acid) in *.
  set (batches := fields ≫= batches_of_field _is_acid) in *.
  rewrite Hcols in *. rewrite fst_zip in Hnodup by lia.
  exists batches. cbn. rewrite fill_batch_vec_batches. cbn [app].
  split; [done|]. split; [rewrite length_zip; lia|].
  unfold colname_to_idx. rewrite colname_to_idx_names. fold names.
  destruct (name_columns_spec names (∅, 0%nat)) as (_ & Hout & Hin).
  cbn [fst snd] in Hout, Hin. specialize (Hin Hnodup).
  intros name b. split.
  - intros (i & Hi)%list_elem_of_lookup_1.
    apply lookup_zip_with_Some in Hi as (n & b' & [= -> ->] & Hn & Hb).
    exists i. split; [|done]. by rewrite (Hin i n Hn).
  - intros (idx & Hidx & Hb).
    destruct (decide (name ∈ names)) as [Helem|Hnot].
    + apply list_elem_of_lookup_1 in Helem as [i Hi].
      rewrite (Hin i name Hi) in Hidx. cbn in Hidx. injection Hidx as <-.
      apply (list_elem_of_lookup_2 _ i). apply lookup_zip_with_Some.
      by exists name, b.
    + rewrite Hout in Hidx by done. by rewrite lookup_empty in Hidx.
Qed.

End OrcColumnsFacts.

Section OrcColumnsSamples.
Import SearchArgument(TypeKind, STRUCT, TypeKind_eq_dec).
Import OrcColumns.

(** The sample batch: [row.y] has index 2, where its batch 22 is. *)
Lemma column_index_sample :
  ∃ batch_vec,
    _fill_batch_vec true [] (Some sample_fields) = Some batch_vec ∧
    length batch_vec = length (columns_of "row" true sample_type sample_fields) ∧
    ∀ name b,
      (name, b) ∈ columns_of "row" true sample_type sample_fields ↔
      ∃ idx, colname_to_idx "row" true sample_type ∅ !! name = Some idx ∧
             batch_vec !! idx = Some b.
Proof.
  apply (column_index_finds_the_batch "row" true sample_type sample_fields).
  - constructor; [|constructor; [|constructor]]; intros _; cbn.
    + discriminate.
    + split; reflexivity.
  - apply (bool_decide_unpack _). vm_compute. exact I.
Defined.

End OrcColumnsSamples.

(** ** Opening a file once *)

Section OpenOnceFacts.
Import Cancel Open.
Local Open Scope Z_scope.

(** X19.  The ORC file is opened once.  After [_create_file_reader] has succeeded
    the reader exists, and every later call answers [OK] and changes nothing:
    the file system and the ORC library are not asked again. *)
Theorem orc_file_reader_is_created_once env st status st' :
  (∀ error, create_file_reader env = inl error → ok error = false) →
  _create_file_reader env st = (status, st') →
  ok status = true →
  _reader st' = true ∧
  ∀ env', _create_file_reader env' st' = (Status_OK, st').
Proof.
  intros Herr. unfold _create_file_reader at 1.
  destruct (_reader st) eqn:Hreader.
  { intros [= <- <-] _. split; [done|].
    intros env'. unfold _create_file_reader. by rewrite Hreader. }
  set (opened := match _file_input_stream st with
                 | Some length => inr length
                 | None => create_file_reader env
                 end).
  assert (∀ error, opened = inl error → ok error = false) as Hopened.
  { intros error. unfold opened. destruct (_file_input_stream st); [done|apply Herr]. }
  destruct opened as [error|length] eqn:Hop.
  { intros [= <- <-] Hok. by rewrite (Hopened error eq_refl) in Hok. }
  destruct (decide (length = 0)) as [->|Hlen]; [by intros [= <- <-]|].
  destruct (createReader env) as [[]|what]; [by intros [= <- <-]|].
  destruct (stop_requested_at_catch env && bool_decide (what = "stop"));
    [by intros [= <- <-]|].
  destruct (contains what "No such file or directory" || contains what "NoSuchKey");
    by intros [= <- <-].
Qed.

(** A file of ten bytes that the ORC library opens. *)
Lemma orc_file_reader_sample :
  _reader (mkOrcOpen true None) = true ∧
  ∀ env', _create_file_reader env' (mkOrcOpen true None)
          = (Status_OK, mkOrcOpen true None).
Proof.
  apply (orc_file_reader_is_created_once
           (mkOrcOpenEnv "f.orc" (inr 10) (Returns tt) false) (mkOrcOpen false None)
           Status_OK (mkOrcOpen true None)).
  - intros error. discriminate.
  - reflexivity.
  - reflexivity.
Defined.

(** X20.  The Parquet file is opened and its footer parsed once.  After
    [_open_file] has succeeded, a later call neither opens the file nor loads
    the footer again: it answers [OK] and leaves the reader as it is, unless
    the query has been cancelled, which is reported as end of file. *)
Theorem parquet_file_is_opened_once env st status st' :
  (∀ error, parquet_create_file_reader env = inl error → ok error = false) →
  _open_file env st = (status, st') →
  ok status = true →
  is_Some (_file_reader st') ∧ is_Some (_file_metadata st') ∧
  ∀ env', _open_file env' st'
          = (if should_stop_at_open env' then Status_EndOfFile "stop" else Status_OK, st').
Proof.
  intros Herr. unfold _open_file at 1.
  destruct (should_stop_at_open env); [by intros [= <- <-]|].
  set (opened := match _file_reader st with
                 | Some size => inr size
                 | None => parquet_create_file_reader env
                 end).
  assert (∀ error, opened = inl error → ok error = false) as Hopened.
  { intros error. unfold opened. destruct (_file_reader st); [done|apply Herr]. }
  assert (∀ size md env',
            _open_file env' (mkParquetOpen (Some size) (Some md))
            = (if should_stop_at_open env' then Status_EndOfFile "stop" else Status_OK,
               mkParquetOpen (Some size) (Some md))) as Hagain.
  { intros size md env'. unfold _open_file. cbn. by destruct (should_stop_at_open env'). }
  destruct opened as [error|size] eqn:Hop.
  { intros [= <- <-] Hok. by rewrite (Hopened error eq_refl) in Hok. }
  destruct (_file_metadata st) as [md|] eqn:Hmd.
  { intros [= <- <-] _. cbn. split; [done|]. split; [done|]. apply Hagain. }
  destruct (decide (size ≤ sizeof_PARQUET_VERSION_NUMBER)); [by intros [= <- <-]|].
  destruct (load_footer env) as [footer_status metadata].
  destruct (ok footer_status) eqn:Hfooter; cbn.
  - destruct metadata as [md|]; intros [= <- <-]; [|done].
    intros _. cbn. split; [done|]. split; [done|]. apply Hagain.
  - intros [= <- <-] Hok. congruence.
Qed.

(** A file of a hundred bytes whose footer parses. *)
Lemma parquet_file_sample :
  is_Some (_file_reader (mkParquetOpen (Some 100) (Some (mkFileMetaData [] 0)))) ∧
  is_Some (_file_metadata (mkParquetOpen (Some 100) (Some (mkFileMetaData [] 0)))) ∧
  ∀ env', _open_file env' (mkParquetOpen (Some 100) (Some (mkFileMetaData [] 0)))
          = (if should_stop_at_open env' then Status_EndOfFile "stop" else Status_OK,
             mkParquetOpen (Some 100) (Some (mkFileMetaData [] 0))).
Proof.
  apply (parquet_file_is_opened_once
           (mkParquetOpenEnv "f.parquet" false (inr 100)
              (Status_OK, Some (mkFileMetaData [] 0)))
           (mkParquetOpen None None) Status_OK
           (mkParquetOpen (Some 100) (Some (mkFileMetaData [] 0)))).
  - intros error. discriminate.
  - reflexivity.
  - reflexivity.
Defined.

End OpenOnceFacts.

(** ** Column selection of the Parquet reader *)

Section ColumnSelectionFacts.
Import RowGroups.

Lemma required_columns_loop ext : ∀ names (required : gmap string string) missing,
  let result := foldl (required_columns_step ext) (required, missing) names in
  result.2 = missing ++ filter (λ c, children_column_exists ext c = false) names ∧
  ∀ file_column,
    result.1 !! file_column
    = match required !! file_column with
      | Some table_column => Some table_column
      | None =>
          head (filter (λ c, children_column_exists ext c = true ∧
                             children_file_column_name ext c = file_column) names)
      end.
Proof.
  induction names as [|c names IH]; intros required missing; cbn zeta.
  - cbn. rewrite app_nil_r. split; [done|]. intros k. by destruct (required !! k).
  - cbn [foldl]. unfold required_columns_step at 2 4. cbn [fst snd].
    destruct (children_column_exists ext c) eqn:Hc.
    + destruct (IH (emplace (children_file_column_name ext c) c required) missing)
        as [Hmiss Hreq].
      split.
      { rewrite Hmiss. by rewrite filter_cons_False by (rewrite Hc; done). }
      intros k. rewrite Hreq. unfold emplace.
      destruct (decide (children_file_column_name ext c = k)) as [<-|Hne].
      * destruct (required !! children_file_column_name ext c) as [v|] eqn:Hk.
        { by rewrite Hk. }
        rewrite lookup_insert_eq. by rewrite filter_cons_True by done.
      * rewrite filter_cons_False by tauto.
        destruct (required !! children_file_column_name ext c); [done|].
        by rewrite lookup_insert_ne by done.
    + destruct (IH required (missing ++ [c])) as [Hmiss Hreq].
      split.
      { rewrite Hmiss, filter_cons_True by done. by rewrite <- app_assoc. }
      intros k. rewrite Hreq. by rewrite filter_cons_False by (rewrite Hc; intros []; done).
Qed.

Lemma read_columns_loop (required : gmap string string) : ∀ names read_file read_table,
  foldl (read_columns_step required) (read_file, read_table) names
  = (read_file ++ filter (λ name, is_Some (required !! name)) names,
     read_table ++ omap (λ name, required !! name) names).
Proof.
  induction names as [|name names IH]; intros read_file read_table; cbn [foldl].
  - cbn. by rewrite !app_nil_r.
  - unfold read_columns_step at 2. cbn [fst snd omap].
    destruct (required !! name) as [t|] eqn:Hname.
    + rewrite IH. rewrite filter_cons_True by (by rewrite Hname).
      rewrite <- !app_assoc. cbn. by rewrite Hname.
    + rewrite IH. rewrite filter_cons_False by (rewrite Hname; by intros []).
      cbn. by rewrite Hname.
Qed.

(** X21.  Column selection of the Parquet reader.  A table column that the schema
    mapping does not know is recorded as missing, in the order of the query.
    The file columns to read are the columns of the file schema that some
    known table column maps to, in the order of the file; the table columns
    to read run parallel to them, each one the first table column of the
    query that maps to its file column. *)
Theorem selected_columns_follow_the_file ext rd all_column_names :
  _read_file_columns rd = [] →
  _read_table_columns rd = [] →
  let rd' := init_reader_columns ext rd all_column_names in
  let candidates file_column :=
    filter (λ c, children_column_exists ext c = true ∧
                 children_file_column_name ext c = file_column) all_column_names in
  _missing_cols rd'
    = _missing_cols rd ++
      filter (λ c, children_column_exists ext c = false) all_column_names ∧
  _read_file_columns rd'
    = filter (λ name, candidates name ≠ []) (schema_column_names ext) ∧
  Forall2 (λ file_column table_column, head (candidates file_column) = Some table_column)
    (_read_file_columns rd') (_read_table_columns rd').
Proof.
  intros Hfile Htable. cbn zeta. unfold init_reader_columns.
  destruct (required_columns_loop ext all_column_names ∅ (_missing_cols rd))
    as [Hmiss Hreq].
  destruct (foldl (required_columns_step ext) (∅, _missing_cols rd) all_column_names)
    as [required missing].
  cbn [fst snd] in Hmiss, Hreq.
  rewrite read_columns_loop, Hfile, Htable. cbn [app].
  cbn [_missing_cols _read_file_columns _read_table_columns].
  split; [done|].
  assert (∀ name, required !! name
                  = head (filter (λ c, children_column_exists ext c = true ∧
                                       children_file_column_name ext c = name)
                            all_column_names)) as Hlookup.
  { intros name. rewrite Hreq. by rewrite lookup_empty. }
  clear Hreq Hmiss. split.
  - apply list_filter_iff. intros name. rewrite Hlookup.
    destruct (filter _ all_column_names) as [|c cs]; cbn.
    + split; [by intros [? [=]]|done].
    + split; [done|]. intros _. by eexists.
  - induction (schema_column_names ext) as [|name names IH]; [constructor|].
    destruct (required !! name) as [t|] eqn:Hname.
    + rewrite filter_cons_True by (by rewrite Hname).
      cbn. rewrite Hname. constructor; [|exact IH]. by rewrite <- Hlookup.
    + rewrite filter_cons_False by (rewrite Hname; by intros []).
      cbn. rewrite Hname. exact IH.
Qed.

(** The query columns [y] and [x] against the file of scenario A, which has
    the column [x] alone. *)
Lemma selected_columns_sample :
  let rd' := init_reader_columns scenario_A_ext
               (mkParquetReader true None [] [] [] "parquet-mr" 0 1000 false)
               ["y"; "x"] in
  let candidates file_column :=
    filter (λ c, children_column_exists scenario_A_ext c = true ∧
                 children_file_column_name scenario_A_ext c = file_column)
           ["y"; "x"] in
  _missing_cols rd'
    = [] ++ filter (λ c, children_column_exists scenario_A_ext c = false) ["y"; "x"] ∧
  _read_file_columns rd'
    = filter (λ name, candidates name ≠ []) (schema_column_names scenario_A_ext) ∧
  Forall2 (λ file_column table_column, head (candidates file_column) = Some table_column)
    (_read_file_columns rd') (_read_table_columns rd').
Proof.
  apply (selected_columns_follow_the_file scenario_A_ext
           (mkParquetReader true None [] [] [] "parquet-mr" 0 1000 false) ["y"; "x"]).
  - reflexivity.
  - reflexivity.
Defined.

End ColumnSelectionFacts.

(** ** Deletes of a transactional table *)

Section AcidDeleteFacts.
Import PositionDelete.
Local Open Scope Z_scope.

Lemma acid_rows_spec (delete_rows : gset AcidRowID) blk : ∀ n i data,
  (i + n ≤ length (original_transaction_column blk))%nat →
  (i + n ≤ length (bucket_id_column blk))%nat →
  (i + n ≤ length (row_id_column blk))%nat →
  ∃ data',
    acid_rows delete_rows blk i n data = Some data' ∧
    length data' = length data ∧
    ∀ j,
      data' !! j
      = if decide (i ≤ j < i + n)%nat then
          match original_transaction_column blk !! j,
                bucket_id_column blk !! j, row_id_column blk !! j with
          | Some original_transaction, Some bucket_id, Some row_id =>
              if bool_decide ((original_transaction, bucket_id, row_id) ∈ delete_rows)
              then (λ _, 0) <$> data !! j else data !! j
          | _, _, _ => data !! j
          end
        else data !! j.
Proof.
  induction n as [|n IH]; intros i data Ht Hb Hr.
  - exists data. cbn. split; [done|]. split; [done|]. intros j.
    by rewrite decide_False by lia.
  - cbn [acid_rows].
    destruct (lookup_lt_is_Some_2 (original_transaction_column blk) i ltac:(lia))
      as [t Hti].
    destruct (lookup_lt_is_Some_2 (bucket_id_column blk) i ltac:(lia)) as [b Hbi].
    destruct (lookup_lt_is_Some_2 (row_id_column blk) i ltac:(lia)) as [r Hri].
    rewrite Hti, Hbi, Hri.
    set (data1 := if bool_decide ((t, b, r) ∈ delete_rows)
                  then <[i := 0]> data else data).
    destruct (IH (S i) data1 ltac:(lia) ltac:(lia) ltac:(lia))
      as (data' & Hrun & Hlen & Hlook).
    exists data'. split; [done|].
    assert (length data1 = length data) as Hlen1.
    { unfold data1. case_bool_decide; [apply length_insert|done]. }
    split; [lia|]. intros j. rewrite Hlook.
    destruct (decide (j = i)) as [->|Hne].
    + rewrite decide_False by lia. rewrite decide_True by lia.
      rewrite Hti, Hbi, Hri. unfold data1. case_bool_decide; [|done].
      destruct (decide (i < length data)%nat).
      * rewrite list_lookup_insert_eq by done.
        destruct (lookup_lt_is_Some_2 data i ltac:(lia)) as [x ->]. done.
      * rewrite list_insert_ge by lia. by rewrite lookup_ge_None_2 by lia.
    + assert (data1 !! j = data !! j) as ->.
      { unfold data1. case_bool_decide; [|done]. by rewrite list_lookup_insert_ne. }
      destruct (decide (S i ≤ j < S i + n)%nat).
      * by rewrite decide_True by lia.
      * by rewrite decide_False by lia.
Qed.

(** X22.  Deletes of a transactional table.  With a delete set, the filter built
    for a block of [rows] rows has one byte for each row: 0 when the row's
    original transaction, bucket and row id are in the delete set, and 1
    otherwise, whatever filter was there before. *)
Theorem acid_delete_filter_marks_deleted_rows (delete_rows : gset AcidRowID) blk
    (rows : nat) old :
  (rows ≤ length (original_transaction_column blk))%nat →
  (rows ≤ length (bucket_id_column blk))%nat →
  (rows ≤ length (row_id_column blk))%nat →
  ∃ filter,
    _build_delete_row_filter (Some delete_rows) blk rows old = Some (Some filter) ∧
    length filter = rows ∧
    ∀ (i : nat) original_transaction bucket_id row_id,
      (i < rows)%nat →
      original_transaction_column blk !! i = Some original_transaction →
      bucket_id_column blk !! i = Some bucket_id →
      row_id_column blk !! i = Some row_id →
      filter !! i
      = Some (if bool_decide ((original_transaction, bucket_id, row_id) ∈ delete_rows)
              then 0 else 1).
Proof.
  intros Ht Hb Hr.
  destruct (acid_rows_spec delete_rows blk rows 0 (replicate rows 1)
              ltac:(lia) ltac:(lia) ltac:(lia)) as (filter & Hrun & Hlen & Hlook).
  exists filter. unfold _build_delete_row_filter. rewrite Hrun.
  split; [done|]. split; [by rewrite Hlen, length_replicate|].
  intros i t b r Hi Hti Hbi Hri. rewrite Hlook, decide_True by lia.
  rewrite Hti, Hbi, Hri. rewrite lookup_replicate_2 by done.
  by case_bool_decide.
Qed.

(** Three rows, of which the second is deleted. *)
Lemma acid_delete_filter_sample :
  ∃ filter,
    _build_delete_row_filter (Some {[ (1, 0, 11) ]})
      (mkAcidColumns [1; 1; 1] [0; 0; 0] [10; 11; 12]) 3 None = Some (Some filter) ∧
    length filter = 3%nat ∧
    ∀ (i : nat) original_transaction bucket_id row_id,
      (i < 3)%nat →
      original_transaction_column (mkAcidColumns [1; 1; 1] [0; 0; 0] [10; 11; 12]) !! i
        = Some original_transaction →
      bucket_id_column (mkAcidColumns [1; 1; 1] [0; 0; 0] [10; 11; 12]) !! i
        = Some bucket_id →
      row_id_column (mkAcidColumns [1; 1; 1] [0; 0; 0] [10; 11; 12]) !! i = Some row_id →
      filter !! i
      = Some (if bool_decide ((original_transaction, bucket_id, row_id)
                              ∈ ({[ (1, 0, 11) ]} : gset AcidRowID))
              then 0 else 1).
Proof.
  apply (acid_delete_filter_marks_deleted_rows {[ (1, 0, 11) ]}
           (mkAcidColumns [1; 1; 1] [0; 0; 0] [10; 11; 12]) 3 None).
  - cbn. lia.
  - cbn. lia.
  - cbn. lia.
Defined.

End AcidDeleteFacts.

(** ** Prefetch ranges of a stripe *)

Section StripeStreamsFacts.
Import StripeStreams.
Local Open Scope Z_scope.

Lemma bytes_before_S stream streams i :
  bytes_before (stream :: streams) (S i) = getLength stream + bytes_before streams i.
Proof. done. Qed.

Lemma bytes_before_0 streams : bytes_before streams 0 = 0.
Proof. unfold bytes_before. by rewrite take_0. Qed.

Lemma bytes_before_mono streams : ∀ i j,
  Forall (λ stream, 0 ≤ getLength stream) streams →
  (i ≤ j)%nat → bytes_before streams i ≤ bytes_before streams j.
Proof.
  induction streams as [|stream streams IH]; intros i j Hpos Hij.
  - unfold bytes_before. by rewrite !take_nil.
  - apply Forall_cons in Hpos as [Hs Hpos].
    destruct i as [|i]; destruct j as [|j]; try lia.
    + rewrite bytes_before_0. rewrite bytes_before_S.
      specialize (IH 0%nat j Hpos ltac:(lia)). rewrite bytes_before_0 in IH. lia.
    + rewrite !bytes_before_S. specialize (IH i j Hpos ltac:(lia)). lia.
Qed.

Lemma bytes_before_next streams i stream :
  streams !! i = Some stream →
  bytes_before streams (S i) = bytes_before streams i + getLength stream.
Proof.
  revert i. induction streams as [|s streams IH]; intros [|i] Hi; try done.
  - injection Hi as ->. rewrite bytes_before_S, !bytes_before_0. lia.
  - rewrite !bytes_before_S. rewrite (IH i Hi). lia.
Qed.

Lemma prefetch_ranges_loop_spec selected_columns stripe_offset all :
  ∀ streams done_ offset m m',
  all = done_ ++ streams →
  Forall (λ stream, 0 ≤ getLength stream) all →
  0 ≤ stripe_offset →
  stripe_offset + bytes_before all (length all) < 2 ^ 64 →
  offset = stripe_offset + bytes_before all (length done_) →
  (∀ id range, m !! id = Some range →
     ∃ i, (i < length done_)%nat ∧
          range_of_stream selected_columns stripe_offset all i id range) →
  prefetch_ranges_loop selected_columns streams offset m = Some m' →
  ∀ id range, m' !! id = Some range →
    ∃ i, range_of_stream selected_columns stripe_offset all i id range.
Proof.
  induction streams as [|stream rest IH];
    intros done_ offset m m' Hall Hpos Hoff Hfit Hoffset Hm.
  - cbn. intros [= <-] id range Hid. destruct (Hm id range Hid) as (i & _ & Hi).
    by exists i.
  - cbn [prefetch_ranges_loop].
    destruct (selected_columns !! getColumnId stream) as [selected|] eqn:Hsel; [|done].
    cbn [mbind option_bind].
    assert (all !! length done_ = Some stream) as Hhere.
    { rewrite Hall. by rewrite list_lookup_middle. }
    assert (0 ≤ bytes_before all (length done_)) as Hlow.
    { pose proof (bytes_before_mono all 0 (length done_) Hpos ltac:(lia)) as H.
      by rewrite bytes_before_0 in H. }
    assert (bytes_before all (S (length done_)) ≤ bytes_before all (length all)) as Hhigh.
    { apply bytes_before_mono; [done|]. apply lookup_lt_Some in Hhere. lia. }
    pose proof (bytes_before_next all _ _ Hhere) as Hnext.
    assert (0 ≤ getLength stream) as Hlen.
    { eapply Forall_forall in Hpos; [exact Hpos|]. by eapply list_elem_of_lookup_2. }
    rewrite (to_uint64_small (offset + getLength stream)) by lia.
    apply (IH (done_ ++ [stream])).
    + by rewrite <- app_assoc.
    + done.
    + done.
    + done.
    + rewrite length_app. cbn [length].
      replace (length done_ + 1)%nat with (S (length done_)) by lia. lia.
    + intros id range. rewrite length_app. cbn [length].
      assert (∀ id range, m !! id = Some range →
                ∃ i, (i < length done_ + 1)%nat ∧
                     range_of_stream selected_columns stripe_offset all i id range) as Hold.
      { intros id0 range0 H0. destruct (Hm id0 range0 H0) as (i & Hi & Hr).
        exists i. split; [lia|done]. }
      destruct selected; [|apply Hold].
      unfold emplace.
      destruct (m !! _) eqn:Hkey; [apply Hold|].
      destruct (decide (id = (getColumnId stream, getKind stream))) as [->|Hne].
      * rewrite lookup_insert_eq. intros [= <-]. exists (length done_).
        split; [lia|]. exists stream. cbn. repeat split; [done|done|lia].
      * rewrite lookup_insert_ne by done. apply Hold.
Qed.

(** X24.  The prefetch ranges of a stripe.  When the stripe ends inside the
    64-bit address space, every range that [beforeReadStripe] computes is the
    range of a stream of a selected column: it starts where the streams
    before it end and is as long as the stream.  So the ranges of two
    different streams never overlap. *)
Theorem stream_ranges_do_not_overlap stripe_offset streams selected_columns ranges :
  Forall (λ stream, 0 ≤ getLength stream) streams →
  0 ≤ stripe_offset →
  stripe_offset + bytes_before streams (length streams) < 2 ^ 64 →
  beforeReadStripe false stripe_offset streams selected_columns = Some (Some ranges) →
  (∀ id range, ranges !! id = Some range →
     ∃ i, range_of_stream selected_columns stripe_offset streams i id range) ∧
  ∀ id1 id2 range1 range2,
    id1 ≠ id2 → ranges !! id1 = Some range1 → ranges !! id2 = Some range2 →
    end_offset range1 ≤ start_offset range2 ∨ end_offset range2 ≤ start_offset range1.
Proof.
  intros Hpos Hoff Hfit. unfold beforeReadStripe.
  destruct (prefetch_ranges_loop selected_columns streams stripe_offset ∅)
    as [m|] eqn:Hrun; [|done].
  cbn. intros [= <-].
  assert (∀ id range, m !! id = Some range →
            ∃ i, range_of_stream selected_columns stripe_offset streams i id range) as Hlayout.
  { eapply (prefetch_ranges_loop_spec selected_columns stripe_offset streams streams []);
      [done|done|done|done| | |exact Hrun].
    - cbn [length]. rewrite bytes_before_0. lia.
    - intros id range. by rewrite lookup_empty. }
  split; [exact Hlayout|].
  intros id1 id2 range1 range2 Hne H1 H2.
  destruct (Hlayout _ _ H1) as (i & s1 & Hi & _ & Hid1 & Hs1 & He1).
  destruct (Hlayout _ _ H2) as (j & s2 & Hj & _ & Hid2 & Hs2 & He2).
  assert (i ≠ j) as Hij by (intros ->; congruence).
  destruct (decide (i < j)%nat).
  - left. pose proof (bytes_before_next _ _ _ Hi) as Hn.
    pose proof (bytes_before_mono streams (S i) j Hpos ltac:(lia)). lia.
  - right. pose proof (bytes_before_next _ _ _ Hj) as Hn.
    pose proof (bytes_before_mono streams (S j) i Hpos ltac:(lia)). lia.
Qed.

(** The sample stripe: the streams of column 1 get the bytes [110, 115) and
    [115, 135). *)
Lemma stream_ranges_sample :
  (∀ id range,
     ({[ (1%nat, 0) := mkPrefetchRange 110 115; (1%nat, 1) := mkPrefetchRange 115 135 ]}
        : gmap StreamId PrefetchRange) !! id = Some range →
     ∃ i, range_of_stream [false; true] 100 sample_streams i id range) ∧
  ∀ id1 id2 range1 range2,
    id1 ≠ id2 →
    ({[ (1%nat, 0) := mkPrefetchRange 110 115; (1%nat, 1) := mkPrefetchRange 115 135 ]}
       : gmap StreamId PrefetchRange) !! id1 = Some range1 →
    ({[ (1%nat, 0) := mkPrefetchRange 110 115; (1%nat, 1) := mkPrefetchRange 115 135 ]}
       : gmap StreamId PrefetchRange) !! id2 = Some range2 →
    end_offset range1 ≤ start_offset range2 ∨ end_offset range2 ≤ start_offset range1.
Proof.
  apply (stream_ranges_do_not_overlap 100 sample_streams [false; true]).
  - repeat constructor; cbn; lia.
  - lia.
  - cbn. lia.
  - vm_compute. reflexivity.
Defined.

End StripeStreamsFacts.
